(** * Word search: placement engine and selection state machine

    A shallow embedding of [src/lib/wordsearch/wordsearch.ts] (class
    [Wordsearch]) and the properties of its placement engine, its word
    registry and its selection state machine.

    Conventions of the embedding.
    - JavaScript numbers that hold grid coordinates and counters are [Z].
    - JavaScript strings are [string]; an [ascii] stands for one UTF-16
      code unit, so [word[c]] is the one-character string [String ch ""].
      The case conversions built into the host are an interface, [Host].
    - [Cell[][]] is a list of rows.  Reading or writing [board[x][y]] at an
      index that does not exist raises a [TypeError] in the source (a
      property of [undefined] is accessed); the embedding returns [None]
      there and the callers turn it into [Throws TypeError].
    - The mutable fields of the class instance are the record [Wordsearch];
      methods are functions from an instance to an outcome and the updated
      instance. *)

From Stdlib Require Import ZArith String Ascii List Bool Lia.
From stdpp Require Import base tactics option list.

Local Open Scope string_scope.
Local Open Scope Z_scope.

(** ** Data model *)

Inductive WSDirections :=
| UP | DOWN | LEFT | RIGHT | UP_RIGHT | UP_LEFT | DOWN_RIGHT | DOWN_LEFT | NONE.

Inductive WSCase := LOWER | UPPER.

Module Vector2D.
Record t := mk { x : Z; y : Z }.

Definition eqb (a b : t) : bool := (x a =? x b) && (y a =? y b).
End Vector2D.

Module Cell.
Record t := mk {
  pos : Vector2D.t;
  letter : string;
  shown : bool;
  found : bool;
  selected : bool;
  selectable : bool;
  highlighted : bool
}.

Definition set_letter (v : string) (c : t) : t :=
  mk (pos c) v (shown c) (found c) (selected c) (selectable c) (highlighted c).
Definition set_shown (v : bool) (c : t) : t :=
  mk (pos c) (letter c) v (found c) (selected c) (selectable c) (highlighted c).
Definition set_found (v : bool) (c : t) : t :=
  mk (pos c) (letter c) (shown c) v (selected c) (selectable c) (highlighted c).
Definition set_selected (v : bool) (c : t) : t :=
  mk (pos c) (letter c) (shown c) (found c) v (selectable c) (highlighted c).
Definition set_selectable (v : bool) (c : t) : t :=
  mk (pos c) (letter c) (shown c) (found c) (selected c) v (highlighted c).
Definition set_highlighted (v : bool) (c : t) : t :=
  mk (pos c) (letter c) (shown c) (found c) (selected c) (selectable c) v.
End Cell.

Module Word.
Record t := mk {
  word : string;
  pos : list Vector2D.t;
  found : bool;
  shown : bool
}.
End Word.

Record WordsConfig := mkWordsConfig {
  amount : Z;
  minLength : Z;
  maxLength : Z;
  dictionary : list string;
  case : WSCase;
  random : bool
}.

Record WordsearchConfig := mkConfig {
  size : Z;
  wordsConfig : WordsConfig;
  allowedDirections : list WSDirections;
  allowWordOverlap : bool
}.

Abbreviation Board := (list (list Cell.t)).

Record WordsearchOutput := mkOutput {
  board : Board;
  words : list Word.t;
  currentWord : string;
  endGame : bool;
  error : string
}.

Record WordDrawInstruction := mkDraw {
  wd_word : string;
  startPos : Vector2D.t;
  direction : WSDirections
}.

(** ** Geometry *)

(** [directions2D], indexed by the enumeration ([UP = 1] ... [NONE = 9]). *)
Definition directions2D (d : WSDirections) : Vector2D.t :=
  match d with
  | UP => Vector2D.mk (-1) 0
  | DOWN => Vector2D.mk 1 0
  | LEFT => Vector2D.mk 0 (-1)
  | RIGHT => Vector2D.mk 0 1
  | UP_RIGHT => Vector2D.mk (-1) 1
  | UP_LEFT => Vector2D.mk (-1) (-1)
  | DOWN_RIGHT => Vector2D.mk 1 1
  | DOWN_LEFT => Vector2D.mk 1 (-1)
  | NONE => Vector2D.mk 0 0
  end.

Definition getDirectionVector (d : WSDirections) : Vector2D.t := directions2D d.

(** The class field [allDirections]. *)
Definition allDirections : list WSDirections :=
  [DOWN; DOWN_LEFT; DOWN_RIGHT; UP; UP_LEFT; UP_RIGHT; LEFT; RIGHT].

Definition getInverseDirection (d : WSDirections) : option WSDirections :=
  match d with
  | UP => Some DOWN
  | DOWN => Some UP
  | LEFT => Some RIGHT
  | RIGHT => Some LEFT
  | UP_RIGHT => Some DOWN_LEFT
  | UP_LEFT => Some DOWN_RIGHT
  | DOWN_RIGHT => Some UP_LEFT
  | DOWN_LEFT => Some UP_RIGHT
  | NONE => None
  end.

Definition isVectorInBoard (cfg : WordsearchConfig) (v : Vector2D.t) : bool :=
  if (Vector2D.x v >=? 0) && (Vector2D.x v <? size cfg) then
    if (Vector2D.y v >=? 0) && (Vector2D.y v <? size cfg) then true else false
  else false.

Definition moveInDirection (cfg : WordsearchConfig)
  (startPos : Vector2D.t) (d : WSDirections) : option Vector2D.t :=
  let directionVector := getDirectionVector d in
  let newVector :=
    Vector2D.mk (Vector2D.x startPos + Vector2D.x directionVector)
                (Vector2D.y startPos + Vector2D.y directionVector) in
  if isVectorInBoard cfg newVector then Some newVector else None.

(** ** Board access *)

(** [a[i]] for an integer [i]: [undefined] outside the array. *)
Definition index {A} (l : list A) (i : Z) : option A :=
  if 0 <=? i then l !! Z.to_nat i else None.

(** [board[p.x][p.y]]; [None] where the source would dereference
    [undefined]. *)
Definition cellAt (b : Board) (p : Vector2D.t) : option Cell.t :=
  match index b (Vector2D.x p) with
  | Some row => index row (Vector2D.y p)
  | None => None
  end.

(** [board[p.x][p.y].field = ...], as an update of the cell. *)
Definition updateCell (f : Cell.t -> Cell.t) (p : Vector2D.t) (b : Board)
  : option Board :=
  match cellAt b p with
  | Some _ =>
      Some (alter (alter f (Z.to_nat (Vector2D.y p))) (Z.to_nat (Vector2D.x p)) b)
  | None => None
  end.

(** ** Placement engine: fitting and collisions *)

Definition isCharCollision (cfg : WordsearchConfig) (b : Board)
  (char : string) (pos : Vector2D.t) : option bool :=
  match cellAt b pos with
  | None => None
  | Some c =>
      let boardChar := Cell.letter c in
      if allowWordOverlap cfg && String.eqb boardChar char then Some false
      else Some (negb (String.eqb boardChar ""))
  end.

(** The loop of [doesWordCollide]; [word] is the suffix [word[c..]] still to
    be checked and [newPos] the position of its first letter. *)
Fixpoint doesWordCollide_from (cfg : WordsearchConfig) (b : Board)
  (word : string) (newPos : Vector2D.t) (d : WSDirections) : option bool :=
  match word with
  | EmptyString => Some false
  | String ch rest =>
      match isCharCollision cfg b (String ch "") newPos with
      | None => None
      | Some true => Some true
      | Some false =>
          match moveInDirection cfg newPos d with
          | Some np => doesWordCollide_from cfg b rest np d
          | None => Some true
          end
      end
  end.

Definition doesWordCollide (cfg : WordsearchConfig) (b : Board)
  (word : string) (startPos : Vector2D.t) (d : WSDirections) : option bool :=
  doesWordCollide_from cfg b word startPos d.

(** The loop of [doesWordFit], [n] iterations left. *)
Fixpoint doesWordFit_from (cfg : WordsearchConfig) (n : nat)
  (tempV : option Vector2D.t) (d : WSDirections) : bool :=
  match n with
  | O => true
  | S n' =>
      match tempV with
      | Some v => doesWordFit_from cfg n' (moveInDirection cfg v d) d
      | None => false
      end
  end.

Definition doesWordFit (cfg : WordsearchConfig)
  (word : string) (startPos : Vector2D.t) (d : WSDirections) : bool :=
  if negb (isVectorInBoard cfg startPos) then false
  else doesWordFit_from cfg (String.length word) (Some startPos) d.

(** ** The class instance, errors and outcomes *)

(** What a [throw] carries: [new Error(msg)], or the [TypeError] raised when
    a property of [undefined] or [null] is read or written. *)
Inductive JsError :=
| JsErrorMsg (msg : string)
| JsTypeError.

(** [e.toString()].  The text of a [TypeError] depends on the engine; only
    its name is kept. *)
Definition JsError_toString (e : JsError) : string :=
  match e with
  | JsErrorMsg msg => String.append "Error: " msg
  | JsTypeError => "TypeError"
  end.

(** A call returns, throws, or does not terminate.  [Diverges] is produced
    when a [while] loop of the source would not stop; the loops of the
    embedding carry a bound on their iterations for this purpose. *)
Inductive Outcome (A : Type) :=
| Returns (a : A)
| Throws (e : JsError)
| Diverges.
Arguments Returns {A} a.
Arguments Throws {A} e.
Arguments Diverges {A}.

(** The fields of the class instance, followed by its environment:
    [mathRandom] and [randomCalls] stand for [Math.random] (the [n]-th call
    consults [mathRandom n], see [randomBelow]); [console] collects the
    attempt numbers written by [console.log] in [generate], oldest first. *)
Record Wordsearch := mkWordsearch {
  config : WordsearchConfig;
  output : option WordsearchOutput;
  selectedCount : Z;
  selectedDirection : WSDirections;
  generationTimes : Z;
  lastSelectedVector : option Vector2D.t;
  mathRandom : nat -> nat;
  randomCalls : nat;
  console : list Z
}.

Definition set_config (v : WordsearchConfig) (w : Wordsearch) : Wordsearch :=
  mkWordsearch v (output w) (selectedCount w) (selectedDirection w)
    (generationTimes w) (lastSelectedVector w) (mathRandom w) (randomCalls w)
    (console w).
Definition set_output (v : option WordsearchOutput) (w : Wordsearch) : Wordsearch :=
  mkWordsearch (config w) v (selectedCount w) (selectedDirection w)
    (generationTimes w) (lastSelectedVector w) (mathRandom w) (randomCalls w)
    (console w).
Definition set_selectedCount (v : Z) (w : Wordsearch) : Wordsearch :=
  mkWordsearch (config w) (output w) v (selectedDirection w)
    (generationTimes w) (lastSelectedVector w) (mathRandom w) (randomCalls w)
    (console w).
Definition set_selectedDirection (v : WSDirections) (w : Wordsearch) : Wordsearch :=
  mkWordsearch (config w) (output w) (selectedCount w) v
    (generationTimes w) (lastSelectedVector w) (mathRandom w) (randomCalls w)
    (console w).
Definition set_generationTimes (v : Z) (w : Wordsearch) : Wordsearch :=
  mkWordsearch (config w) (output w) (selectedCount w) (selectedDirection w)
    v (lastSelectedVector w) (mathRandom w) (randomCalls w) (console w).
Definition set_lastSelectedVector (v : option Vector2D.t) (w : Wordsearch) : Wordsearch :=
  mkWordsearch (config w) (output w) (selectedCount w) (selectedDirection w)
    (generationTimes w) v (mathRandom w) (randomCalls w) (console w).
Definition set_randomCalls (v : nat) (w : Wordsearch) : Wordsearch :=
  mkWordsearch (config w) (output w) (selectedCount w) (selectedDirection w)
    (generationTimes w) (lastSelectedVector w) (mathRandom w) v (console w).
Definition set_console (v : list Z) (w : Wordsearch) : Wordsearch :=
  mkWordsearch (config w) (output w) (selectedCount w) (selectedDirection w)
    (generationTimes w) (lastSelectedVector w) (mathRandom w) (randomCalls w) v.

Definition set_board (v : Board) (o : WordsearchOutput) : WordsearchOutput :=
  mkOutput v (words o) (currentWord o) (endGame o) (error o).
Definition set_words (v : list Word.t) (o : WordsearchOutput) : WordsearchOutput :=
  mkOutput (board o) v (currentWord o) (endGame o) (error o).
Definition set_currentWord (v : string) (o : WordsearchOutput) : WordsearchOutput :=
  mkOutput (board o) (words o) v (endGame o) (error o).
Definition set_endGame (v : bool) (o : WordsearchOutput) : WordsearchOutput :=
  mkOutput (board o) (words o) (currentWord o) v (error o).
Definition set_error (v : string) (o : WordsearchOutput) : WordsearchOutput :=
  mkOutput (board o) (words o) (currentWord o) (endGame o) v.

(** Methods: state and exceptions. *)
Definition M (A : Type) : Type := Wordsearch -> Outcome A * Wordsearch.

Definition ret {A} (a : A) : M A := fun w => (Returns a, w).

Definition bind {A B} (m : M A) (k : A -> M B) : M B :=
  fun w =>
    match m w with
    | (Returns a, w') => k a w'
    | (Throws e, w') => (Throws e, w')
    | (Diverges, w') => (Diverges, w')
    end.

Notation "'let*' x ':=' m 'in' k" := (bind m (fun x => k))
  (at level 10, x name, m at level 100, k at level 200).
Notation "m ';;' k" := (bind m (fun _ => k))
  (at level 100, k at level 200, right associativity).

Definition throw {A} (e : JsError) : M A := fun w => (Throws e, w).
Definition diverge {A} : M A := fun w => (Diverges, w).
Definition getThis : M Wordsearch := fun w => (Returns w, w).
Definition modify (f : Wordsearch -> Wordsearch) : M unit :=
  fun w => (Returns tt, f w).

(** [try { m } catch (e) { h e }] *)
Definition tryCatch {A} (m : M A) (h : JsError -> M A) : M A :=
  fun w =>
    match m w with
    | (Throws e, w') => h e w'
    | r => r
    end.

(** A value that is [undefined] or [null] is dereferenced. *)
Definition deref {A} (o : option A) : M A :=
  match o with
  | Some a => ret a
  | None => throw JsTypeError
  end.

(** Reading [this.output] in order to access one of its fields. *)
Definition getOutput : M WordsearchOutput :=
  let* w := getThis in deref (output w).

Definition modifyOutput (f : WordsearchOutput -> WordsearchOutput) : M unit :=
  let* o := getOutput in modify (set_output (Some (f o))).

Definition getBoard : M Board :=
  let* o := getOutput in ret (board o).

Definition setBoard (b : Board) : M unit := modifyOutput (set_board b).

Definition throwError {A} (error : string) : M A :=
  modifyOutput (set_error error) ;; throw (JsErrorMsg error).

(** ** Randomness *)

(** [Math.floor(Math.random() * n)] for a natural [n]: the next entry of the
    tape, reduced below [n] (and [0] when [n] is [0]).  Every sequence of
    results the source can observe is the image of some tape. *)
Definition randomBelow (n : nat) : M nat :=
  fun w =>
    let r := mathRandom w (randomCalls w) in
    (Returns (match n with O => O | S _ => r mod n end)%nat,
     set_randomCalls (S (randomCalls w)) w).

(** [getRandomInteger(min, max)] is [Math.floor(Math.random() * (max - min) +
    min)]; for integers [min <= max] this is [min] plus a draw below
    [max - min]. *)
Definition getRandomInteger (min max : Z) : M Z :=
  let* r := randomBelow (Z.to_nat (max - min)) in
  ret (min + Z.of_nat r).

(** lodash's [shuffle] on an array (an external dependency of the source):
    a copy is permuted by [shuffleSelf], which for [index = 0 .. length - 1]
    swaps entry [index] with the entry at
    [index + floor(random() * (lastIndex - index + 1))]. *)
Fixpoint shuffleSelf {A} (steps index : nat) (array : list A) : M (list A) :=
  match steps with
  | O => ret array
  | S steps' =>
      let* r := randomBelow (length array - index) in
      let rand := (index + r)%nat in
      match array !! rand, array !! index with
      | Some value, Some other =>
          shuffleSelf steps' (S index) (<[index := value]> (<[rand := other]> array))
      | _, _ => shuffleSelf steps' (S index) array
      end
  end.

Definition shuffle {A} (collection : list A) : M (list A) :=
  shuffleSelf (length collection) 0 collection.

(** ** Letter case *)

(** The letters a-z and A-Z as [toLocaleUpperCase] and [toLowerCase] map
    them; other code units are kept. *)
Definition upperAscii (c : ascii) : ascii :=
  let n := nat_of_ascii c in
  if ((97 <=? n) && (n <=? 122))%nat then ascii_of_nat (n - 32) else c.

Definition lowerAscii (c : ascii) : ascii :=
  let n := nat_of_ascii c in
  if ((65 <=? n) && (n <=? 90))%nat then ascii_of_nat (n + 32) else c.

Fixpoint mapString (f : ascii -> ascii) (s : string) : string :=
  match s with
  | EmptyString => EmptyString
  | String c s' => String (f c) (mapString f s')
  end.

(** Every code unit of the string is below 128. *)
Fixpoint isAscii (s : string) : bool :=
  match s with
  | EmptyString => true
  | String c s' => (nat_of_ascii c <? 128)%nat && isAscii s'
  end.

(** [String.prototype.toLowerCase] and [String.prototype.toLocaleUpperCase]
    are built into the host and not part of the source.  Outside the ASCII
    range their result depends on the host's Unicode tables and locale: a
    letter may change, and so may the length of the string (one code unit
    can become two).  They are left to the host, of which two things are
    used: on a string of ASCII code units they map the letters a-z and A-Z
    and keep everything else (as ECMAScript defines them, the Turkic and
    Lithuanian locales apart), and converting a converted string changes
    nothing. *)
Class Host := {
  toLowerCase : string -> string;
  toLocaleUpperCase : string -> string;
  toLowerCase_ascii s :
    isAscii s = true -> toLowerCase s = mapString lowerAscii s;
  toLocaleUpperCase_ascii s :
    isAscii s = true -> toLocaleUpperCase s = mapString upperAscii s;
  toLowerCase_idem s : toLowerCase (toLowerCase s) = toLowerCase s;
  toLocaleUpperCase_idem s :
    toLocaleUpperCase (toLocaleUpperCase s) = toLocaleUpperCase s
}.

(** A host whose tables hold the ASCII letters only; the examples, whose
    strings are ASCII, are computed on it. *)
Definition asciiHost : Host.
Proof.
  refine {| toLowerCase := mapString lowerAscii;
            toLocaleUpperCase := mapString upperAscii |}.
  - reflexivity.
  - reflexivity.
  - intros s. induction s as [|c s IH]; cbn; [reflexivity|]. rewrite IH. f_equal.
    destruct c as [[] [] [] [] [] [] [] []]; reflexivity.
  - intros s. induction s as [|c s IH]; cbn; [reflexivity|]. rewrite IH. f_equal.
    destruct c as [[] [] [] [] [] [] [] []]; reflexivity.
Defined.

Section WithHost.
Context {host : Host}.

Definition getStrInCase (cfg : WordsearchConfig) (str : string) : string :=
  match case (wordsConfig cfg) with
  | UPPER => toLocaleUpperCase str
  | LOWER => toLowerCase str
  end.

(** ** Board lifecycle *)

(** [setCellFieldTo(field, value)]: both loops run to [board.length]; [f] is
    the assignment to the field (a constant or the image of the old value).
    A row shorter than [board.length] makes the source dereference
    [undefined]. *)
Definition setCellFieldTo_board (f : Cell.t -> Cell.t) (b : Board) : option Board :=
  let currentSize := length b in
  if forallb (fun row => (currentSize <=? length row)%nat) b
  then Some (map (fun row => (map f (take currentSize row) ++ drop currentSize row)%list) b)
  else None.

Definition setCellFieldTo (f : Cell.t -> Cell.t) : M unit :=
  let* b := getBoard in
  let* b' := deref (setCellFieldTo_board f b) in
  setBoard b'.

Definition blankCell (x y : Z) : Cell.t :=
  Cell.mk (Vector2D.mk x y) "" false false false true false.

Definition getBlankBoard (cfg : WordsearchConfig) : Board :=
  map (fun x => map (fun y => blankCell x y) (seqZ 0 (size cfg))) (seqZ 0 (size cfg)).

(** [setCase]: letters and registry words of an existing output, and the
    dictionary, are put in the configured case. *)
Definition setCase : M unit :=
  let* w := getThis in
  (match output w with
   | Some _ =>
       setCellFieldTo (fun c => Cell.set_letter (getStrInCase (config w) (Cell.letter c)) c) ;;
       modifyOutput (fun o =>
         set_words (map (fun wd => Word.mk (getStrInCase (config w) (Word.word wd))
                                     (Word.pos wd) (Word.found wd) (Word.shown wd))
                        (words o)) o)
   | None => ret tt
   end) ;;
  modify (fun w =>
    let cfg := config w in
    let wc := wordsConfig cfg in
    set_config
      (mkConfig (size cfg)
         (mkWordsConfig (amount wc) (minLength wc) (maxLength wc)
            (map (getStrInCase cfg) (dictionary wc)) (case wc) (random wc))
         (allowedDirections cfg) (allowWordOverlap cfg)) w).

(** ** Selectability *)

(** Bound on the iterations of a loop that walks the board from a cell by
    [moveInDirection] until it leaves the board: in one of the eight real
    directions at most [size] cells are met ([walk_fuel_enough] below). *)
Definition walkFuel (cfg : WordsearchConfig) : nat := Z.to_nat (size cfg).

(** [while (v) { board[v.x][v.y].selectable = true; v = move(v, d) }] *)
Fixpoint markSelectableRay (cfg : WordsearchConfig) (fuel : nat)
  (v : option Vector2D.t) (d : WSDirections) (b : Board) : Outcome Board :=
  match v with
  | None => Returns b
  | Some p =>
      match fuel with
      | O => Diverges
      | S fuel' =>
          match updateCell (Cell.set_selectable true) p b with
          | None => Throws JsTypeError
          | Some b' => markSelectableRay cfg fuel' (moveInDirection cfg p d) d b'
          end
      end
  end.

(** [allowedDirections.forEach(d => ray from lastSelection)] *)
Fixpoint markSelectableRays (cfg : WordsearchConfig)
  (lastSelection : Vector2D.t) (ds : list WSDirections) (b : Board) : Outcome Board :=
  match ds with
  | [] => Returns b
  | d :: ds' =>
      match markSelectableRay cfg (walkFuel cfg) (moveInDirection cfg lastSelection d) d b with
      | Returns b' => markSelectableRays cfg lastSelection ds' b'
      | r => r
      end
  end.

(** The direction list local to [getAdjacentSelectedVectorDirection]. *)
Definition adjacentDirections : list WSDirections :=
  [DOWN; DOWN_LEFT; DOWN_RIGHT; LEFT; RIGHT; UP; UP_LEFT; UP_RIGHT].

Fixpoint getAdjacentSelectedVectorDirection_from (cfg : WordsearchConfig) (b : Board)
  (vector : Vector2D.t) (ds : list WSDirections) : option (option WSDirections) :=
  match ds with
  | [] => Some None
  | d :: ds' =>
      match moveInDirection cfg vector d with
      | Some newVector =>
          match cellAt b newVector with
          | None => None
          | Some c =>
              if Cell.selected c then Some (Some d)
              else getAdjacentSelectedVectorDirection_from cfg b vector ds'
          end
      | None => getAdjacentSelectedVectorDirection_from cfg b vector ds'
      end
  end.

(** Outer [None]: a cell outside the stored board was read. *)
Definition getAdjacentSelectedVectorDirection (cfg : WordsearchConfig) (b : Board)
  (vector : Vector2D.t) : option (option WSDirections) :=
  getAdjacentSelectedVectorDirection_from cfg b vector adjacentDirections.

Definition liftOutcome {A} (r : Outcome A) : M A := fun w => (r, w).

Definition calculateSelectables (lastSelection : option Vector2D.t) : M unit :=
  let* w0 := getThis in
  (if selectedCount w0 =? 0 then setCellFieldTo (Cell.set_selectable true)
   else ret tt) ;;
  (match lastSelection with
   | Some ls =>
       if selectedCount w0 =? 1 then
         setCellFieldTo (Cell.set_selectable false) ;;
         let* b := getBoard in
         let* b' := liftOutcome
                      (markSelectableRays (config w0) ls (allowedDirections (config w0)) b) in
         setBoard b'
       else ret tt
   | None => ret tt
   end) ;;
  (if selectedCount w0 >? 1 then
     setCellFieldTo (Cell.set_selectable false) ;;
     match lastSelection with
     | Some ls =>
         let* b := getBoard in
         let* selectedDirection :=
           deref (getAdjacentSelectedVectorDirection (config w0) b ls) in
         match selectedDirection with
         | Some sd =>
             match getInverseDirection sd with
             | Some inversedDirection =>
                 let* b' := liftOutcome
                   (markSelectableRay (config w0) (walkFuel (config w0))
                      (moveInDirection (config w0) ls inversedDirection)
                      inversedDirection b) in
                 setBoard b'
             | None => ret tt
             end
         | None => ret tt
         end
     | None => ret tt
     end
   else ret tt).

Definition resetCurrentSelection : M unit :=
  modify (set_selectedCount 0) ;;
  modify (set_selectedDirection NONE) ;;
  modifyOutput (set_currentWord "") ;;
  modify (set_lastSelectedVector None) ;;
  setCellFieldTo (Cell.set_selected false) ;;
  setCellFieldTo (Cell.set_highlighted false) ;;
  calculateSelectables None.

(** ** Dictionary sourcing *)

(** [list.indexOf(word) < 0] *)
Definition notInList (word : string) (list : list string) : bool :=
  negb (existsb (String.eqb word) list).

(** [wordCriteria(word, list)]; [word] is [None] when the dictionary entry
    read by the caller is [undefined] (then [typeof word] is not
    ["string"]). *)
Definition wordCriteria (cfg : WordsearchConfig)
  (word : option string) (list : list string) : bool :=
  let wc := wordsConfig cfg in
  match word with
  | None => false
  | Some word =>
      (Z.of_nat (String.length word) >? 0) &&
      notInList word list &&
      (Z.of_nat (String.length word) >=? minLength wc) &&
      (Z.of_nat (String.length word) <=? maxLength wc)
  end.

(** [push] on the accepted words when the criteria hold. *)
Definition pushIf (shouldWe : bool) (word : option string) (words : list string)
  : list string :=
  match word with
  | Some word => if shouldWe then (words ++ [word])%list else words
  | None => words
  end.

Definition getRandomWord : M (option string) :=
  let* w := getThis in
  let dict := dictionary (wordsConfig (config w)) in
  let* randInt := randomBelow (length dict) in
  ret (dict !! randInt).

(** The loop of [getRandomWordsFromDictionary]; [tries] is the local counter,
    which is positive whenever the loop condition is tested (it starts at
    100 and the loop is left by the [throw] as soon as it reaches 0), so the
    branch for [O] is never taken. *)
Fixpoint getRandomWords_loop (tries : nat) (words : list string) : M (list string) :=
  let* w := getThis in
  if Z.of_nat (length words) <? amount (wordsConfig (config w)) then
    match tries with
    | O => diverge
    | S tries' =>
        let* word := getRandomWord in
        let shouldWe := wordCriteria (config w) word words in
        let words' := pushIf shouldWe word words in
        match tries' with
        | O => throwError "Not enough words in dictionary."
        | S _ => getRandomWords_loop tries' words'
        end
    end
  else ret words.

Definition getRandomWordsFromDictionary : M (list string) :=
  getRandomWords_loop 100 [].

(** The loop of [getSequentialWords]; [rest] is [dictionary[w..]]. *)
Fixpoint getSequentialWords_loop (rest : list string) (words : list string)
  : M (list string) :=
  let* w := getThis in
  if Z.of_nat (length words) <? amount (wordsConfig (config w)) then
    match rest with
    | [] =>
        throwError "dictionary does not contain enough words to fulfill your request"
    | word :: rest' =>
        let shouldWe := wordCriteria (config w) (Some word) words in
        getSequentialWords_loop rest' (pushIf shouldWe (Some word) words)
    end
  else ret words.

Definition getSequentialWords : M (list string) :=
  let* w := getThis in
  getSequentialWords_loop (dictionary (wordsConfig (config w))) [].

Definition getWords : M (list string) :=
  let* w := getThis in
  if random (wordsConfig (config w)) then getRandomWordsFromDictionary
  else getSequentialWords.

(** ** Placement *)

(** The [for] loop over the shuffled directions for one candidate cell.
    Outer [None]: a cell outside the stored board was read. *)
Fixpoint fitWordInCell (cfg : WordsearchConfig) (b : Board) (word : string)
  (cell : Cell.t) (directions : list WSDirections)
  : option (option WordDrawInstruction) :=
  match directions with
  | [] => Some None
  | d :: ds =>
      if doesWordFit cfg word (Cell.pos cell) d then
        match doesWordCollide cfg b word (Cell.pos cell) d with
        | None => None
        | Some false => Some (Some (mkDraw word (Cell.pos cell) d))
        | Some true => fitWordInCell cfg b word cell ds
        end
      else fitWordInCell cfg b word cell ds
  end.

(** The [while (randomCells.length)] loop; [cells] lists the candidates in
    the order in which [pop] delivers them. *)
Fixpoint fitWordInCells (cfg : WordsearchConfig) (b : Board) (word : string)
  (cells : list Cell.t) (directions : list WSDirections)
  : option (option WordDrawInstruction) :=
  match cells with
  | [] => Some None
  | cell :: cells' =>
      match fitWordInCell cfg b word cell directions with
      | None => None
      | Some (Some wd) => Some (Some wd)
      | Some None => fitWordInCells cfg b word cells' directions
      end
  end.

(** [fitWordInRandomPos(word)] (no [allowedDirections] argument, as at its
    only call site).  [_.flattenDeep(board)] is [concat]; [pop] takes the
    shuffled cells from the end. *)
Definition fitWordInRandomPos (word : string) : M WordDrawInstruction :=
  let* w := getThis in
  let* directions := shuffle (allowedDirections (config w)) in
  let* b := getBoard in
  let* randomCells := shuffle (concat b) in
  let* found := deref (fitWordInCells (config w) b word (rev randomCells) directions) in
  match found with
  | Some wd => ret wd
  | None => throwError (String.append "Could not fit word in board: " word)
  end.

(** The [for] loop of [drawWordInBoard] from letter [c] on: [rest] is
    [word[c..]], [newPos] the value of the variable [newPos] ([null] once a
    move has left the board, and moving from [null] reads [null.x]). *)
Fixpoint drawLetters (cfg : WordsearchConfig) (rest : string)
  (newPos : option Vector2D.t) (d : WSDirections)
  (cells : Board) (positions : list Vector2D.t)
  : option (Board * list Vector2D.t) :=
  match rest with
  | EmptyString => Some (cells, positions)
  | String ch rest' =>
      match newPos with
      | None => None
      | Some p =>
          match moveInDirection cfg p d with
          | Some np =>
              match updateCell (Cell.set_letter (String ch "")) np cells with
              | None => None
              | Some cells' => drawLetters cfg rest' (Some np) d cells' (positions ++ [np])%list
              end
          | None => drawLetters cfg rest' None d cells positions
          end
      end
  end.

(** [wd.word[0]] and the letters after it.  For an empty word the source
    stores [undefined] in the start cell, which every reader of [letter]
    treats as the empty letter; [wordCriteria] lets no empty word through. *)
Definition firstLetter (word : string) : string :=
  match word with
  | EmptyString => ""
  | String ch _ => String ch ""
  end.

Definition restLetters (word : string) : string :=
  match word with
  | EmptyString => ""
  | String _ rest => rest
  end.

(** The board and position list computed by [drawWordInBoard]; [None] where
    the source raises a [TypeError]. *)
Definition drawWord_board (cfg : WordsearchConfig) (wd : WordDrawInstruction)
  (cells : Board) : option (Board * list Vector2D.t) :=
  match updateCell (Cell.set_letter (firstLetter (wd_word wd))) (startPos wd) cells with
  | None => None
  | Some cells1 =>
      drawLetters cfg (restLetters (wd_word wd)) (Some (startPos wd)) (direction wd)
        cells1 [startPos wd]
  end.

(** [drawWordInBoard(wd)].  On a [TypeError] the instance is left as it was
    before the call (the source has written the letters that precede the
    failing access). *)
Definition drawWordInBoard (wd : WordDrawInstruction) : M unit :=
  let* w := getThis in
  let* cells := getBoard in
  let* r := deref (drawWord_board (config w) wd cells) in
  setBoard (fst r) ;;
  modifyOutput (fun o =>
    set_words (words o ++ [Word.mk (wd_word wd) (snd r) false false])%list o).

Fixpoint allocateWordsInBoard (words : list string) : M unit :=
  match words with
  | [] => ret tt
  | word :: words' =>
      let* wd := fitWordInRandomPos word in
      drawWordInBoard wd ;;
      allocateWordsInBoard words'
  end.

(** [getRandomChar]: one letter of the alphabet in the configured case. *)
Definition getRandomChar : M string :=
  let* w := getThis in
  let abc := getStrInCase (config w) "abcdefghijklmnopqrstuvwxyz" in
  let* charPos := getRandomInteger 0 (Z.of_nat (String.length abc) - 1) in
  match String.get (Z.to_nat charPos) abc with
  | Some ch => ret (String ch "")
  | None => ret ""
  end.

(** The inner loop of [fillInRandomChars] for row [x]. *)
Fixpoint fillInRandomChars_row (x : Z) (ys : list Z) : M unit :=
  match ys with
  | [] => ret tt
  | y :: ys' =>
      let* b := getBoard in
      let* c := deref (cellAt b (Vector2D.mk x y)) in
      (if String.eqb (Cell.letter c) "" then
         let* ch := getRandomChar in
         let* b1 := getBoard in
         let* b' := deref (updateCell (Cell.set_letter ch) (Vector2D.mk x y) b1) in
         setBoard b'
       else ret tt) ;;
      fillInRandomChars_row x ys'
  end.

Fixpoint fillInRandomChars_rows (xs : list Z) (ys : list Z) : M unit :=
  match xs with
  | [] => ret tt
  | x :: xs' => fillInRandomChars_row x ys ;; fillInRandomChars_rows xs' ys
  end.

Definition fillInRandomChars : M unit :=
  let* w := getThis in
  let n := size (config w) in
  fillInRandomChars_rows (seqZ 0 n) (seqZ 0 n).

(** ** Generation *)

(** [validConfig]: [Some msg] for an invalid configuration. *)
Definition validConfig (cfg : WordsearchConfig) : option string :=
  let wc := wordsConfig cfg in
  if (size cfg <? 6) || (size cfg >? 50) then
    Some "Board size must be between 6 and 50"
  else if (amount wc <? 1) || (amount wc >? 50) then
    Some "Amount of words must be between 1 and 50."
  else if minLength wc >? size cfg then
    Some "Word min length must be less than board size."
  else if maxLength wc >? size cfg then
    Some "Word max length should not be more than board size."
  else if Z.of_nat (length (dictionary wc)) <? amount wc then
    Some "Amount of words cannot be greater than available ones."
  else if Z.of_nat (length (allowedDirections cfg)) <? 1 then
    Some "At least one direction must be specified"
  else None.

(** The body of the [try] block of [generate]: one whole-puzzle attempt. *)
Definition generateAttempt : M WordsearchOutput :=
  let* words := getWords in
  let* w := getThis in
  let blankBoard := getBlankBoard (config w) in
  modify (set_output (Some (mkOutput blankBoard [] "" false ""))) ;;
  resetCurrentSelection ;;
  allocateWordsInBoard words ;;
  fillInRandomChars ;;
  modify (set_generationTimes 0) ;;
  getOutput.

(** [generate()], called without a configuration argument, so that
    [setConfig] only runs [setCase].  [retries] bounds the depth of the
    self-recursion in the [catch] block; [generate] below supplies a bound
    that is never reached. *)
Fixpoint generate_rec (retries : nat) : M WordsearchOutput :=
  setCase ;;
  let* w := getThis in
  match validConfig (config w) with
  | None =>
      tryCatch generateAttempt (fun e =>
        modify (fun w => set_generationTimes (generationTimes w + 1) w) ;;
        let* w1 := getThis in
        if generationTimes w1 >? 50 then
          modify (set_generationTimes 0) ;;
          throwError
            (String.append "Unable to generate game, max amount of iterations reached. "
               (JsError_toString e))
        else
          modify (fun w => set_console (console w ++ [generationTimes w1])%list w) ;;
          match retries with
          | O => diverge
          | S retries' => generate_rec retries'
          end)
  | Some msg => throwError (String.append "Invalid configuration: " msg)
  end.

Definition generate : M WordsearchOutput :=
  let* w := getThis in
  generate_rec (Z.to_nat (50 - generationTimes w)).

(** ** Selection *)

(** The [while] loop of [getDirectionFrom2Vectors] for one direction:
    does the ray from [leVector] meet [vector2]? *)
Fixpoint rayReaches (cfg : WordsearchConfig) (fuel : nat)
  (leVector : option Vector2D.t) (d : WSDirections) (vector2 : Vector2D.t)
  : Outcome bool :=
  match leVector with
  | None => Returns false
  | Some v =>
      match fuel with
      | O => Diverges
      | S fuel' =>
          if Vector2D.eqb v vector2 then Returns true
          else rayReaches cfg fuel' (moveInDirection cfg v d) d vector2
      end
  end.

Fixpoint getDirectionFrom2Vectors_from (cfg : WordsearchConfig)
  (vector1 vector2 : Vector2D.t) (ds : list WSDirections)
  : Outcome (option WSDirections) :=
  match ds with
  | [] => Returns None
  | d :: ds' =>
      match rayReaches cfg (walkFuel cfg) (moveInDirection cfg vector1 d) d vector2 with
      | Returns true => Returns (Some d)
      | Returns false => getDirectionFrom2Vectors_from cfg vector1 vector2 ds'
      | Throws e => Throws e
      | Diverges => Diverges
      end
  end.

Definition getDirectionFrom2Vectors (cfg : WordsearchConfig)
  (vector1 vector2 : Vector2D.t) : Outcome (option WSDirections) :=
  getDirectionFrom2Vectors_from cfg vector1 vector2 allDirections.

(** [board[p].selected = true; currentWord += board[p].letter;
    selectedCount++] *)
Definition selectOne (p : Vector2D.t) : M unit :=
  (let* b := getBoard in
   let* b' := deref (updateCell (Cell.set_selected true) p b) in
   setBoard b') ;;
  (let* o := getOutput in
   let* c := deref (cellAt (board o) p) in
   modifyOutput (set_currentWord (String.append (currentWord o) (Cell.letter c)))) ;;
  modify (fun w => set_selectedCount (selectedCount w + 1) w).

(** The [while (leVector && !found)] loop of [selectCell]. *)
Fixpoint selectWalk (fuel : nat) (leVector : option Vector2D.t)
  (d : WSDirections) (pos : Vector2D.t) : M unit :=
  match leVector with
  | None => ret tt
  | Some v =>
      match fuel with
      | O => diverge
      | S fuel' =>
          selectOne v ;;
          let* w := getThis in
          if Vector2D.eqb v pos then ret tt
          else selectWalk fuel' (moveInDirection (config w) v d) d pos
      end
  end.

Definition selectCell (pos : Vector2D.t) : M bool :=
  let* b := getBoard in
  let* c := deref (cellAt b pos) in
  if Cell.selectable c then
    let* w := getThis in
    match lastSelectedVector w with
    | None =>
        selectOne pos ;;
        modify (set_lastSelectedVector (Some pos)) ;;
        calculateSelectables (Some pos) ;;
        ret true
    | Some lsv =>
        let* direction := liftOutcome (getDirectionFrom2Vectors (config w) lsv pos) in
        match direction with
        | Some d =>
            selectWalk (walkFuel (config w)) (moveInDirection (config w) lsv d) d pos ;;
            modify (set_lastSelectedVector (Some pos)) ;;
            calculateSelectables (Some pos) ;;
            ret true
        | None => ret false
        end
    end
  else ret false.

Definition unHighlightBoard : M unit :=
  setCellFieldTo (Cell.set_highlighted false).

(** The [while] loop of [hightlightCells]. *)
Fixpoint highlightWalk (cfg : WordsearchConfig) (fuel : nat)
  (leVector : option Vector2D.t) (d : WSDirections) (to : Vector2D.t) (b : Board)
  : Outcome Board :=
  match leVector with
  | None => Returns b
  | Some v =>
      match fuel with
      | O => Diverges
      | S fuel' =>
          match updateCell (Cell.set_highlighted true) v b with
          | None => Throws JsTypeError
          | Some b' =>
              if Vector2D.eqb v to then Returns b'
              else highlightWalk cfg fuel' (moveInDirection cfg v d) d to b'
          end
      end
  end.

Definition hightlightCells (from to : Vector2D.t) : M unit :=
  setCellFieldTo (Cell.set_highlighted false) ;;
  let* w := getThis in
  let* direction := liftOutcome (getDirectionFrom2Vectors (config w) from to) in
  match direction with
  | Some d =>
      let* b := getBoard in
      let* b' := liftOutcome
        (highlightWalk (config w) (walkFuel (config w))
           (moveInDirection (config w) from d) d to b) in
      setBoard b'
  | None => ret tt
  end.

Definition highlightCell (pos : Vector2D.t) : M bool :=
  let* w := getThis in
  match lastSelectedVector w with
  | Some lsv => hightlightCells lsv pos ;; ret true
  | None => ret false
  end.

(** ** Word registry *)

(** The loop of [getWordIndex] from index [w] on. *)
Fixpoint getWordIndex_from (ws : list Word.t) (w : Z) (word : string) : Z :=
  match ws with
  | [] => -1
  | wd :: ws' =>
      if String.eqb (Word.word wd) word then w
      else getWordIndex_from ws' (w + 1) word
  end.

Definition getWordIndex (o : WordsearchOutput) (word : string) : Z :=
  getWordIndex_from (words o) 0 word.

(** [pos.forEach(p => board[p.x][p.y].field = true)] *)
Fixpoint markCells (f : Cell.t -> Cell.t) (ps : list Vector2D.t) (b : Board)
  : option Board :=
  match ps with
  | [] => Some b
  | p :: ps' =>
      match updateCell f p b with
      | None => None
      | Some b' => markCells f ps' b'
      end
  end.

(** Shared shape of [discoverWord] and [setWordAsFound]. *)
Definition markWord (fc : Cell.t -> Cell.t) (fw : Word.t -> Word.t)
  (wordIndex : Z) : M unit :=
  let* o := getOutput in
  match index (words o) wordIndex with
  | Some wd =>
      let* b' := deref (markCells fc (Word.pos wd) (board o)) in
      setBoard b' ;;
      modifyOutput (fun o =>
        set_words (alter fw (Z.to_nat wordIndex) (words o)) o)
  | None => ret tt
  end.

Definition discoverWord (wordIndex : Z) : M unit :=
  markWord (Cell.set_shown true)
    (fun wd => Word.mk (Word.word wd) (Word.pos wd) (Word.found wd) true) wordIndex.

Definition setWordAsFound (wordIndex : Z) : M unit :=
  markWord (Cell.set_found true)
    (fun wd => Word.mk (Word.word wd) (Word.pos wd) true (Word.shown wd)) wordIndex.

Definition showWord (word : string) (submit : bool) : M bool :=
  let* o := getOutput in
  let index := getWordIndex o word in
  (if (index >=? 0) && negb submit then discoverWord index
   else if (index >=? 0) && submit then setWordAsFound index
   else ret tt) ;;
  ret (index >=? 0).

(** The counting loop of [checkEnd]: [w] runs over [0 .. config.size - 1]. *)
Definition countFoundOrShown (ws : list Word.t) (idxs : list Z) : Z :=
  fold_left
    (fun fORd w =>
       match index ws w with
       | Some wd => if Word.found wd || Word.shown wd then fORd + 1 else fORd
       | None => fORd
       end)
    idxs 0.

Definition checkEnd : M bool :=
  let* w := getThis in
  let* o := getOutput in
  let fORd := countFoundOrShown (words o) (seqZ 0 (size (config w))) in
  let isEnd := fORd =? Z.of_nat (length (words o)) in
  modifyOutput (set_endGame isEnd) ;;
  ret isEnd.

Definition submitCurrentWord : M bool :=
  let* o := getOutput in
  let* win := showWord (currentWord o) true in
  resetCurrentSelection ;;
  checkEnd ;;
  ret win.

(** ** Printing the board *)

(** What a call writes to the standard output: [process.stdout.write(s)]
    writes [s], [console.log(s)] writes [s] and ends the line. *)
Inductive StdoutEvent :=
| Write (s : string)
| Log (s : string).

(** The inner loop of [consolePrintBoard] for row [x], followed by the
    [console.log] that ends the row.  The outcome is paired with the
    events written before the loop returned or threw. *)
Fixpoint printRow (b : option Board) (x : Z) (ys : list Z)
  : Outcome unit * list StdoutEvent :=
  match ys with
  | [] => (Returns tt, [Log "|"])
  | y :: ys' =>
      match b with
      | None => (Throws JsTypeError, [])
      | Some cells =>
          match cellAt cells (Vector2D.mk x y) with
          | None => (Throws JsTypeError, [])
          | Some c =>
              let lett := if String.eqb (Cell.letter c) "" then " " else Cell.letter c in
              let (r, events) := printRow b x ys' in
              (r, Write (String.append "|" lett) :: events)
          end
      end
  end.

Fixpoint printRows (b : option Board) (xs ys : list Z)
  : Outcome unit * list StdoutEvent :=
  match xs with
  | [] => (Returns tt, [])
  | x :: xs' =>
      match printRow b x ys with
      | (Returns _, events) =>
          let (r, events') := printRows b xs' ys in (r, (events ++ events')%list)
      | (r, events) => (r, events)
      end
  end.

(** [consolePrintBoard()]: the instance is only read. *)
Definition consolePrintBoard (w : Wordsearch) : Outcome unit * list StdoutEvent :=
  let n := size (config w) in
  printRows (board <$> output w) (seqZ 0 n) (seqZ 0 n).

(** * Vocabulary of the specification *)

#[global] Instance Vector2D_eq_dec : EqDecision Vector2D.t.
Proof. solve_decision. Defined.

#[global] Instance WSDirections_eq_dec : EqDecision WSDirections.
Proof. solve_decision. Defined.

(** One of the eight compass directions, as opposed to the sentinel. *)
Definition isRealDirection (d : WSDirections) : bool :=
  match d with
  | NONE => false
  | _ => true
  end.

(** The position [k] steps away from [p] in direction [d]. *)
Definition stepN (p : Vector2D.t) (d : WSDirections) (k : Z) : Vector2D.t :=
  Vector2D.mk (Vector2D.x p + k * Vector2D.x (directions2D d))
              (Vector2D.y p + k * Vector2D.y (directions2D d)).

(** The straight run of [n] positions that starts at [p] and advances in
    direction [d]. *)
Fixpoint path (p : Vector2D.t) (d : WSDirections) (n : nat) : list Vector2D.t :=
  match n with
  | O => []
  | S n' => p :: path (stepN p d 1) d n'
  end.

(** The stored board is a [size] by [size] square. *)
Definition board_wf (cfg : WordsearchConfig) (b : Board) : Prop :=
  length b = Z.to_nat (size cfg) /\
  Forall (fun row => length row = Z.to_nat (size cfg)) b.

(** The letter stored at [p] (empty outside the board). *)
Definition letterAt (b : Board) (p : Vector2D.t) : string :=
  match cellAt b p with
  | Some c => Cell.letter c
  | None => ""
  end.

(** The letters of the board at the given positions, read in order. *)
Fixpoint readLetters (b : Board) (ps : list Vector2D.t) : string :=
  match ps with
  | [] => ""
  | p :: ps' => String.append (letterAt b p) (readLetters b ps')
  end.

(** The [i]-th letter of a word as a one-character string ([word[i]]). *)
Definition charAt (word : string) (i : nat) : option string :=
  match String.get i word with
  | Some ch => Some (String ch "")
  | None => None
  end.

(** The cell at [p] already holds a letter that forbids writing [char]
    there: any letter when overlap is disabled, a different letter when it
    is permitted. *)
Definition letterConflict (cfg : WordsearchConfig) (b : Board)
  (char : string) (p : Vector2D.t) : bool :=
  negb (String.eqb (letterAt b p) "") &&
  negb (allowWordOverlap cfg && String.eqb (letterAt b p) char).

(** Some letter of [word], laid out from [p] in direction [d], meets a
    conflicting letter. *)
Fixpoint pathConflict (cfg : WordsearchConfig) (b : Board)
  (word : string) (p : Vector2D.t) (d : WSDirections) : bool :=
  match word with
  | EmptyString => false
  | String ch rest =>
      letterConflict cfg b (String ch "") p || pathConflict cfg b rest (stepN p d 1) d
  end.

(** The word fits: its [length] cells from [p] in direction [d] are all on
    the board. *)
Definition fitsInBounds (cfg : WordsearchConfig)
  (word : string) (p : Vector2D.t) (d : WSDirections) : bool :=
  isVectorInBoard cfg p &&
  forallb (isVectorInBoard cfg) (path p d (String.length word)).

(** ** Concrete instances used in examples *)

(** A 6 by 6 puzzle that places words to the right, overlap permitted. *)
Definition cfg6 : WordsearchConfig :=
  mkConfig 6 (mkWordsConfig 1 2 6 ["ab"] UPPER false) [RIGHT] true.

(** A fresh instance (no output yet, nothing selected) for a configuration
    and a tape of random draws. *)
Definition newWordsearch (cfg : WordsearchConfig) (tape : nat -> nat) : Wordsearch :=
  mkWordsearch cfg None 0 NONE 0 None tape O [].

(** The scenario of the specification: size 8, the single word "cat",
    placed to the right, upper case. *)
Definition catInstance : Wordsearch :=
  newWordsearch
    (mkConfig 8 (mkWordsConfig 1 2 4 ["cat"] UPPER true) [RIGHT] true)
    (fun n => (n * 7 + 3)%nat).

(** Seven two-letter words on the smallest board, taken in dictionary
    order. *)
Definition sevenWordsInstance : Wordsearch :=
  newWordsearch
    (mkConfig 6
       (mkWordsConfig 7 2 4 ["ab"; "cd"; "ef"; "gh"; "ij"; "kl"; "mn"] UPPER false)
       [RIGHT] false)
    (fun n => (n * 5 + 1)%nat).

(** A player who finds one registry word: selects its first and its last
    cell and submits. *)
Definition findWord (wd : Word.t) : M bool :=
  match Word.pos wd, last (Word.pos wd) with
  | first :: _, Some final =>
      selectCell first ;;
      selectCell final ;;
      submitCurrentWord
  | _, _ => ret false
  end.

(** Finds the given words one after the other; the result tells whether
    every submission was accepted. *)
Fixpoint findWords (wds : list Word.t) : M bool :=
  match wds with
  | [] => ret true
  | wd :: wds' =>
      let* r := findWord wd in
      let* rs := findWords wds' in
      ret (r && rs)
  end.

(** Every word of the registry has been found or shown. *)
Definition allFoundOrShown (ws : list Word.t) : bool :=
  forallb (fun wd => Word.found wd || Word.shown wd) ws.

(** ** Random sourcing, as a sequence of draws *)

(** The instance after [k] further calls of [Math.random]. *)
Definition afterDraws (k : nat) (w : Wordsearch) : Wordsearch :=
  set_randomCalls (randomCalls w + k) w.

(** The dictionary entry delivered by draw number [k] (counted from 0)
    of a run of random sourcing that starts in [w]. *)
Definition drawAt (w : Wordsearch) (k : nat) : option string :=
  let dict := dictionary (wordsConfig (config w)) in
  dict !! (match length dict with
           | O => O
           | S _ => (mathRandom w (randomCalls w + k) mod length dict)%nat
           end).

(** The words accepted among the first [k] draws: a draw is accepted when it
    meets [wordCriteria] against the words accepted before it. *)
Fixpoint acceptedAfter (w : Wordsearch) (k : nat) : list string :=
  match k with
  | O => []
  | S k' =>
      let ws := acceptedAfter w k' in
      pushIf (wordCriteria (config w) (drawAt w k') ws) (drawAt w k') ws
  end.

(** The configured amount is reached by the words accepted in [k] draws. *)
Definition collected (w : Wordsearch) (k : nat) : bool :=
  amount (wordsConfig (config w)) <=? Z.of_nat (length (acceptedAfter w k)).

(** Two words wanted from a two-word dictionary; every draw delivers the
    first entry. *)
Definition twoWordsInstance : Wordsearch :=
  mkWordsearch
    (mkConfig 6 (mkWordsConfig 2 2 4 ["aa"; "bb"] LOWER true) [RIGHT] true)
    (Some (mkOutput [] [] "" false "")) 0 NONE 0 None (fun _ => O) O [].

(** ** Reasoning about methods *)

(** [m] keeps [P] true of the instance, whatever its outcome. *)
Definition preserves {A} (P : Wordsearch -> Prop) (m : M A) : Prop :=
  forall w, P w -> P (snd (m w)).

(** When [m] is started where [P] holds and returns [a], [Q a] holds of the
    instance it leaves. *)
Definition hoare {A} (P : Wordsearch -> Prop) (m : M A)
  (Q : A -> Wordsearch -> Prop) : Prop :=
  forall w a w', P w -> m w = (Returns a, w') -> Q a w'.

(** When [m] is started where [P] holds, [Q a] holds if it returns [a] and
    [E] holds if it throws or diverges. *)
Definition triple {A} (P : Wordsearch -> Prop) (m : M A)
  (Q : A -> Wordsearch -> Prop) (E : Wordsearch -> Prop) : Prop :=
  forall w, P w ->
    match m w with
    | (Returns a, w') => Q a w'
    | (_, w') => E w'
    end.

(** A property of the instance that no play or placement step can change:
    it does not depend on the selection fields, on the number of random
    draws made, or on which output record is present. *)
Record stable (P : Wordsearch -> Prop) : Prop := mkStable {
  stable_output : forall w o, P w -> P (set_output (Some o) w);
  stable_selectedCount : forall w z, P w -> P (set_selectedCount z w);
  stable_selectedDirection : forall w d, P w -> P (set_selectedDirection d w);
  stable_lastSelectedVector : forall w v, P w -> P (set_lastSelectedVector v w);
  stable_randomCalls : forall w n, P w -> P (set_randomCalls n w)
}.

(** ** Whole-puzzle attempts *)

(** How one pass through [generate] ends when it reaches the [try] block:
    the block returned the output, or it threw [e] and the [catch] block
    took over. *)
Inductive AttemptResult :=
| Succeeded (out : WordsearchOutput)
| Failed (e : JsError).

(** One pass through [generate] up to the end of the [try] block:
    [setConfig], validation, and one whole-puzzle attempt.  An invalid
    configuration (or an error in [setCase]) is thrown past the [try]. *)
Definition attemptRound : M AttemptResult :=
  setCase ;;
  let* w := getThis in
  match validConfig (config w) with
  | None =>
      tryCatch (let* out := generateAttempt in ret (Succeeded out))
               (fun e => ret (Failed e))
  | Some msg => throwError (String.append "Invalid configuration: " msg)
  end.

(** The instance in which the retry starts, given the instance left by a
    failed attempt: the [catch] block has counted and logged the failure. *)
Definition retryState (w : Wordsearch) : Wordsearch :=
  set_console (console w ++ [generationTimes w + 1])%list
    (set_generationTimes (generationTimes w + 1) w).

(** The instance in which attempt number [k + 1] starts, provided the first
    [k] attempts all failed. *)
Fixpoint afterFailures (k : nat) (w : Wordsearch) : option Wordsearch :=
  match k with
  | O => Some w
  | S k' =>
      match afterFailures k' w with
      | Some wk =>
          match attemptRound wk with
          | (Returns (Failed _), w2) => Some (retryState w2)
          | _ => None
          end
      | None => None
      end
  end.

(** The instance and message with which [generate] gives up, given the
    instance left by the last failed attempt and its error. *)
Definition giveUpState (w : Wordsearch) : Wordsearch :=
  set_generationTimes 0 (set_generationTimes (generationTimes w + 1) w).

Definition giveUpMessage (e : JsError) : string :=
  String.append "Unable to generate game, max amount of iterations reached. "
    (JsError_toString e).

(** A word as long as the board is wide, and a short one; the first fifty
    sourcing draws deliver the long word, later draws the short one. *)
Definition lateSuccessInstance : Wordsearch :=
  newWordsearch
    (mkConfig 6 (mkWordsConfig 1 2 6 ["abcdef"; "ab"] UPPER true) [RIGHT] true)
    (fun n => if (n <? 50 * 38)%nat then O else 1%nat).

(** The same configuration when every draw delivers the long word. *)
Definition neverFitsInstance : Wordsearch :=
  newWordsearch
    (mkConfig 6 (mkWordsConfig 1 2 6 ["abcdef"; "ab"] UPPER true) [RIGHT] true)
    (fun _ => O).

(** ** Placed words *)

(** The letter at [q] after the letters of [word] have been written one
    after the other from [p] in direction [d], [old] being the letter at [q]
    before. *)
Fixpoint overwrite (word : string) (p : Vector2D.t) (d : WSDirections)
  (q : Vector2D.t) (old : string) : string :=
  match word with
  | EmptyString => old
  | String ch rest =>
      overwrite rest (stepN p d 1) d q (if Vector2D.eqb q p then String ch "" else old)
  end.

(** The registry entry [pw] lies on the board [b]: its positions are a
    straight run in an allowed real direction, one per letter, all on the
    board, and the board holds the word's letters there. *)
Definition placedOn (cfg : WordsearchConfig) (b : Board) (pw : Word.t) : Prop :=
  (exists start d,
     isRealDirection d = true /\ d ∈ allowedDirections cfg /\
     Word.pos pw = path start d (String.length (Word.word pw))) /\
  Forall (fun p => isVectorInBoard cfg p = true) (Word.pos pw) /\
  forall i p ch,
    Word.pos pw !! i = Some p -> charAt (Word.word pw) i = Some ch ->
    letterAt b p = ch.

(** No cell belongs to two different registry entries. *)
Definition disjointWords (ws : list Word.t) : Prop :=
  forall i j w1 w2 p,
    i <> j -> ws !! i = Some w1 -> ws !! j = Some w2 ->
    p ∈ Word.pos w1 -> p ∉ Word.pos w2.

(** The state of board and registry during and after placement. *)
Definition registry_ok (cfg : WordsearchConfig) (b : Board) (ws : list Word.t) : Prop :=
  board_wf cfg b /\
  Forall (placedOn cfg b) ws /\
  (allowWordOverlap cfg = false -> disjointWords ws).

(** What [resetCurrentSelection] does to a cell, and to the instance whose
    output record is [o]. *)
Definition resetCell (c : Cell.t) : Cell.t :=
  Cell.set_selectable true (Cell.set_highlighted false (Cell.set_selected false c)).

Definition resetState (o : WordsearchOutput) (w : Wordsearch) : Wordsearch :=
  mkWordsearch (config w)
    (Some (mkOutput (map (map resetCell) (board o)) (words o) "" (endGame o) (error o)))
    0 NONE (generationTimes w) None (mathRandom w) (randomCalls w) (console w).

(** Placement in progress: the configuration is [c], board and registry
    are consistent, and the registry holds the words [texts], in order. *)
Definition Placed (c : WordsearchConfig) (texts : list string) (w : Wordsearch) : Prop :=
  config w = c /\
  exists o, output w = Some o /\ registry_ok c (board o) (words o) /\
            map Word.word (words o) = texts.

(** The texts acceptable as registry words under configuration [c]:
    non-empty entries of its dictionary. *)
Definition sourced (c : WordsearchConfig) (s : string) : Prop :=
  s <> "" /\ s ∈ dictionary (wordsConfig c).

(** The configuration after [setCase]: the dictionary is put in the
    configured case, everything else is kept. *)
Definition caseConfig (cfg : WordsearchConfig) : WordsearchConfig :=
  let wc := wordsConfig cfg in
  mkConfig (size cfg)
    (mkWordsConfig (amount wc) (minLength wc) (maxLength wc)
       (map (getStrInCase cfg) (dictionary wc)) (case wc) (random wc))
    (allowedDirections cfg) (allowWordOverlap cfg).

(** Two configurations that differ at most in their dictionary and word
    count settings. *)
Definition sameSettings (c c' : WordsearchConfig) : Prop :=
  size c' = size c /\
  allowedDirections c' = allowedDirections c /\
  allowWordOverlap c' = allowWordOverlap c /\
  case (wordsConfig c') = case (wordsConfig c).

(** The instance in which the 51st attempt of [neverFitsInstance] starts. *)
Definition neverFitsAttempt51 : Wordsearch :=
  match afterFailures 50 neverFitsInstance with
  | Some wk => wk
  | None => neverFitsInstance
  end.

(** ** Walking along a ray *)

(** The cells met by a loop of the form
    [while (v) { ...; v = moveInDirection(v, d) }], in order; [None] when
    the loop is still running after [fuel] iterations. *)
Fixpoint walk (cfg : WordsearchConfig) (fuel : nat)
  (v : option Vector2D.t) (d : WSDirections) : option (list Vector2D.t) :=
  match v with
  | None => Some []
  | Some p =>
      match fuel with
      | O => None
      | S fuel' => cons p <$> walk cfg fuel' (moveInDirection cfg p d) d
      end
  end.

(** How many more steps in direction [d] a cell of the board allows at
    most. *)
Definition stepsLeft (cfg : WordsearchConfig) (p : Vector2D.t) (d : WSDirections) : Z :=
  match d with
  | DOWN | DOWN_RIGHT | DOWN_LEFT => size cfg - 1 - Vector2D.x p
  | UP | UP_RIGHT | UP_LEFT => Vector2D.x p
  | RIGHT => size cfg - 1 - Vector2D.y p
  | LEFT => Vector2D.y p
  | NONE => 0
  end.

(** [q] lies on the ray that leaves [p] in direction [d], [k >= 1] steps
    away, and the ray has not left the board before reaching it. *)
Definition onRay (cfg : WordsearchConfig) (p : Vector2D.t) (d : WSDirections)
  (q : Vector2D.t) : Prop :=
  exists k, 1 <= k /\ q = stepN p d k /\
            forall j, 1 <= j <= k -> isVectorInBoard cfg (stepN p d j) = true.

(** ** Selection *)

(** The cells of the ray that leaves [p] in direction [d], as the loops of
    [calculateSelectables] meet them. *)
Definition rayCells (cfg : WordsearchConfig) (p : Vector2D.t) (d : WSDirections)
  : list Vector2D.t :=
  match walk cfg (walkFuel cfg) (moveInDirection cfg p d) d with
  | Some cells => cells
  | None => []
  end.

(** [c'] is [c] with possibly another [selectable] flag. *)
Definition sameButSelectable (c c' : Cell.t) : Prop :=
  c' = Cell.set_selectable (Cell.selectable c') c.

(** The output record of an instance and the cell at a position, for
    instances where they exist. *)
Definition outputOf (w : Wordsearch) : WordsearchOutput :=
  match output w with
  | Some o => o
  | None => mkOutput [] [] "" false ""
  end.

Definition cellOf (w : Wordsearch) (p : Vector2D.t) : Cell.t :=
  match cellAt (board (outputOf w)) p with
  | Some c => c
  | None => blankCell 0 0
  end.

(** The "cat" puzzle once generated, and after its cell [(6, 2)], the C of
    CAT, has been selected. *)
Definition catGenerated : Wordsearch := snd (generate catInstance).

Definition catAnchored : Wordsearch :=
  snd (selectCell (Vector2D.mk 6 2) catGenerated).

(** The cells visited by the [while] loop of [selectCell], in order. *)
Fixpoint walked (cfg : WordsearchConfig) (fuel : nat)
  (v : option Vector2D.t) (d : WSDirections) (pos : Vector2D.t) : list Vector2D.t :=
  match v with
  | None => []
  | Some p =>
      match fuel with
      | O => []
      | S fuel' =>
          p :: (if Vector2D.eqb p pos then []
                else walked cfg fuel' (moveInDirection cfg p d) d pos)
      end
  end.

(** The cells that an accepted [selectCell(pos)] marks as selected, in the
    order in which it marks them. *)
Definition selectedBy (w : Wordsearch) (pos : Vector2D.t) : list Vector2D.t :=
  match lastSelectedVector w with
  | None => [pos]
  | Some lsv =>
      match getDirectionFrom2Vectors (config w) lsv pos with
      | Returns (Some d) =>
          walked (config w) (walkFuel (config w))
            (moveInDirection (config w) lsv d) d pos
      | _ => []
      end
  end.

(** The rule that the code follows for the selectable cells, given the
    cells selected so far (in order): every cell when nothing is selected;
    the rays from the anchor in the allowed directions when one cell is
    selected; the ray that continues the selected run when two or more
    are. *)
Definition selectableRule (cfg : WordsearchConfig) (sel : list Vector2D.t)
  (q : Vector2D.t) : Prop :=
  match sel with
  | [] => True
  | [a] => exists d, d ∈ allowedDirections cfg /\ onRay cfg a d q
  | _ :: _ :: _ =>
      exists a d,
        isRealDirection d = true /\ sel = path a d (length sel) /\
        onRay cfg (stepN a d (Z.of_nat (length sel) - 1)) d q
  end.

(** The selection invariant: [sel] lists the selected cells in the order
    of their selection. *)
Definition PlayInv (w : Wordsearch) (sel : list Vector2D.t) : Prop :=
  exists o,
    output w = Some o /\
    board_wf (config w) (board o) /\
    forallb isRealDirection (allowedDirections (config w)) = true /\
    (exists a d, isRealDirection d = true /\ sel = path a d (length sel)) /\
    Forall (fun p => isVectorInBoard (config w) p = true) sel /\
    selectedCount w = Z.of_nat (length sel) /\
    currentWord o = readLetters (board o) sel /\
    lastSelectedVector w = last sel /\
    forall q c, cellAt (board o) q = Some c ->
      (Cell.selected c = true <-> q ∈ sel) /\
      (Cell.selectable c = true <-> selectableRule (config w) sel q).

(** [w'] is [w] after the cells [ps] have been selected one after the
    other: flags, count and accumulated word. *)
Definition selStep (ps : list Vector2D.t) (w w' : Wordsearch) : Prop :=
  config w' = config w /\
  lastSelectedVector w' = lastSelectedVector w /\
  selectedCount w' = selectedCount w + Z.of_nat (length ps) /\
  exists o o',
    output w = Some o /\ output w' = Some o' /\
    board_wf (config w) (board o') /\
    currentWord o' = String.append (currentWord o) (readLetters (board o) ps) /\
    forall x, cellAt (board o') x =
      (fun c => Cell.set_selected (Cell.selected c || bool_decide (x ∈ ps)) c)
        <$> cellAt (board o) x.

(** Play: the instances reached from a generated puzzle by the play entry
    points, with the cells selected so far in the order of their
    selection. *)
Inductive playing : Wordsearch -> list Vector2D.t -> Prop :=
| playing_generated w0 out w :
    forallb isRealDirection (allowedDirections (config w0)) = true ->
    generate w0 = (Returns out, w) ->
    playing w []
| playing_select w sel pos w' :
    playing w sel ->
    selectCell pos w = (Returns true, w') ->
    playing w' (sel ++ selectedBy w pos)%list
| playing_reject w sel pos w' :
    playing w sel ->
    selectCell pos w = (Returns false, w') ->
    playing w' sel
| playing_reset w sel w' :
    playing w sel ->
    resetCurrentSelection w = (Returns tt, w') ->
    playing w' []
| playing_submit w sel r w' :
    playing w sel ->
    submitCurrentWord w = (Returns r, w') ->
    playing w' []
| playing_discover w sel word r w' :
    playing w sel ->
    showWord word false w = (Returns r, w') ->
    playing w' sel
| playing_highlight w sel pos r w' :
    playing w sel ->
    highlightCell pos w = (Returns r, w') ->
    playing w' sel
| playing_unhighlight w sel w' :
    playing w sel ->
    unHighlightBoard w = (Returns tt, w') ->
    playing w' sel.

(** What the selection state machine reads of a cell. *)
Definition cellView (c : Cell.t) : string * bool * bool :=
  (Cell.letter c, Cell.selected c, Cell.selectable c).

(** The two boards are alike for the selection state machine. *)
Definition sameView (b b' : Board) : Prop :=
  forall q, cellView <$> cellAt b' q = cellView <$> cellAt b q.

(** Nothing is selected and every cell is selectable. *)
Definition Idle (w : Wordsearch) : Prop :=
  exists o,
    output w = Some o /\
    selectedCount w = 0 /\ lastSelectedVector w = None /\ currentWord o = "" /\
    forall q c, cellAt (board o) q = Some c ->
                Cell.selected c = false /\ Cell.selectable c = true.

(** [w'] differs from [w] in nothing that the selection state machine
    reads. *)
Definition viewStep (w w' : Wordsearch) : Prop :=
  config w' = config w /\
  selectedCount w' = selectedCount w /\
  lastSelectedVector w' = lastSelectedVector w /\
  exists o o',
    output w = Some o /\ output w' = Some o' /\
    currentWord o' = currentWord o /\
    board_wf (config w) (board o') /\
    sameView (board o) (board o').

(** The positions of the board, row by row, in the order in which
    [concat] lists its cells. *)
Definition positions (cfg : WordsearchConfig) : list Vector2D.t :=
  x ← seqZ 0 (size cfg); Vector2D.mk x <$> seqZ 0 (size cfg).


(** The "cat" puzzle after [(6, 2)] and then [(6, 3)] have been selected,
    and after [(6, 2)] and then [(6, 4)] have been. *)
Definition catTwoSelected : Wordsearch :=
  snd (selectCell (Vector2D.mk 6 3) catAnchored).

Definition catSelected : Wordsearch :=
  snd (selectCell (Vector2D.mk 6 4) catAnchored).

(** The positions of the cells that are marked selectable. *)
Definition selectablePositions (w : Wordsearch) : list Vector2D.t :=
  List.filter (fun q => Cell.selectable (cellOf w q)) (positions (config w)).

(** The length of [s] is within the configured bounds. *)
Definition withinLengths (cfg : WordsearchConfig) (s : string) : Prop :=
  minLength (wordsConfig cfg) <= Z.of_nat (String.length s) <= maxLength (wordsConfig cfg).

(** [w'] is [w] but for the number of random draws made. *)
Definition sameButDraws (w w' : Wordsearch) : Prop :=
  w' = set_randomCalls (randomCalls w') w.

(** The accepted words of a sourcing loop: no duplicates, dictionary
    entries that meet the criteria, and as many as configured. *)
Definition sourcedWell (cfg : WordsearchConfig) (ws : list string) : Prop :=
  NoDup ws /\
  Forall (fun s => s ∈ dictionary (wordsConfig cfg) /\ s <> "" /\ withinLengths cfg s) ws.

(** ** Placement steps, as changes of the instance *)

(** [b'] is [b] after some cells have had a letter written, each letter
    satisfying [L]. *)
Inductive lettersWritten (L : string -> Prop) : Board -> Board -> Prop :=
| lettersWritten_refl b : lettersWritten L b b
| lettersWritten_step b p s b1 b2 :
    L s ->
    updateCell (Cell.set_letter s) p b = Some b1 ->
    lettersWritten L b1 b2 ->
    lettersWritten L b b2.

(** Every cell of the board satisfies [Pc], which may mention the
    position of the cell. *)
Definition cellsAll (Pc : Vector2D.t -> Cell.t -> Prop) (b : Board) : Prop :=
  forall q c, cellAt b q = Some c -> Pc q c.

(** A registry entry that is neither found nor shown. *)
Definition unfound (wd : Word.t) : Prop :=
  Word.found wd = false /\ Word.shown wd = false.

(** [w'] is [w] after placement steps: letters satisfying [L] have been
    written on the board, the entries [ws'] have been appended to the
    registry, and random draws have been made; nothing else differs. *)
Definition placedFrom (L : string -> Prop) (ws' : list Word.t)
  (w w' : Wordsearch) : Prop :=
  exists o b' n,
    output w = Some o /\
    lettersWritten L (board o) b' /\
    w' = set_randomCalls n
           (set_output (Some (set_words (words o ++ ws')%list (set_board b' o))) w).

(** The instance in which [generate] starts to place words: a blank board,
    an empty registry, and a reset selection. *)
Definition blankStart (w : Wordsearch) : Wordsearch :=
  resetState (mkOutput (getBlankBoard (config w)) [] "" false "")
    (set_output (Some (mkOutput (getBlankBoard (config w)) [] "" false "")) w).

(** A cell as [generate] leaves it, but for its letter: it records its
    own position, is selectable, and has every other flag cleared. *)
Definition freshCell (q : Vector2D.t) (c : Cell.t) : Prop :=
  c = Cell.mk q (Cell.letter c) false false false true false.

(** The one-character strings in the configured case. *)
Definition casedLetter (cfg : WordsearchConfig) (s : string) : Prop :=
  String.length s = 1%nat /\ getStrInCase cfg s = s.

(** What [setCase] does to an output record: the letters of the board and
    the texts of the registry are put in the case that [cfg] configures. *)
Definition caseOutput (cfg : WordsearchConfig) (o : WordsearchOutput) : WordsearchOutput :=
  mkOutput
    (map (map (fun c => Cell.set_letter (getStrInCase cfg (Cell.letter c)) c)) (board o))
    (map (fun wd => Word.mk (getStrInCase cfg (Word.word wd))
                      (Word.pos wd) (Word.found wd) (Word.shown wd)) (words o))
    (currentWord o) (endGame o) (error o).

(** A configuration that [validConfig] rejects (the board is too small),
    on a fresh instance and on an instance that holds an output record. *)
Definition tooSmallInstance : Wordsearch :=
  newWordsearch (mkConfig 5 (mkWordsConfig 1 2 4 ["cat"] UPPER true) [RIGHT] true)
    (fun n => n).

Definition tooSmallAfterGame : Wordsearch :=
  set_config (config tooSmallInstance) catGenerated.

(** ** What play leaves alone *)

(** [c'] is [c] but for its flags. *)
Definition sameCell (c c' : Cell.t) : Prop :=
  Cell.pos c' = Cell.pos c /\ Cell.letter c' = Cell.letter c.

(** [b] is [a] but for its found and shown flags. *)
Definition sameEntry (a b : Word.t) : Prop :=
  Word.word b = Word.word a /\ Word.pos b = Word.pos a.

(** The boards hold cells at the same positions, alike but for their
    flags. *)
Definition sameCells (b b' : Board) : Prop :=
  forall q, option_Forall2 sameCell (cellAt b q) (cellAt b' q).

(** [w'] holds the same puzzle as [w]: the same configuration, random
    tape and retry counter, the same recorded error, the same registry
    texts and positions, and the same letter in every cell.  Flags, the
    selection, the accumulated word and the end of game may differ. *)
Definition flagStep (w w' : Wordsearch) : Prop :=
  config w' = config w /\
  generationTimes w' = generationTimes w /\
  mathRandom w' = mathRandom w /\
  randomCalls w' = randomCalls w /\
  console w' = console w /\
  match output w, output w' with
  | Some o, Some o' =>
      error o' = error o /\
      Forall2 sameEntry (words o) (words o') /\
      sameCells (board o) (board o')
  | None, None => True
  | _, _ => False
  end.

(** Whenever [m] returns, it has kept the puzzle. *)
Definition keeps {A} (m : M A) : Prop :=
  forall w a w', m w = (Returns a, w') -> flagStep w w'.

(** ** Showing and finding words *)

(** What [showWord] does to a cell of the word and to its registry
    entry: on a submission they are marked found, otherwise shown. *)
Definition markCell (submit : bool) (c : Cell.t) : Cell.t :=
  if submit then Cell.set_found true c else Cell.set_shown true c.

Definition markEntry (submit : bool) (wd : Word.t) : Word.t :=
  if submit then Word.mk (Word.word wd) (Word.pos wd) true (Word.shown wd)
  else Word.mk (Word.word wd) (Word.pos wd) (Word.found wd) true.

(** [b'] is [b] with the cells at the positions [ps] marked. *)
Definition markedAt (submit : bool) (ps : list Vector2D.t) (b b' : Board) : Prop :=
  forall q, cellAt b' q =
            (fun c => if bool_decide (q ∈ ps) then markCell submit c else c)
              <$> cellAt b q.

(** The number of registry entries that are found or shown. *)
Definition foundOrShown (ws : list Word.t) : nat :=
  length (List.filter (fun wd => Word.found wd || Word.shown wd) ws).

(** The cells from the one after [from] up to [to], when [to] lies on one
    of the eight rays that leave [from]; no cell otherwise.  These are the
    cells that the loops of [selectCell] and [hightlightCells] visit. *)
Definition cellsBetween (cfg : WordsearchConfig) (from to : Vector2D.t)
  : list Vector2D.t :=
  match getDirectionFrom2Vectors cfg from to with
  | Returns (Some d) => walked cfg (walkFuel cfg) (moveInDirection cfg from d) d to
  | _ => []
  end.

(** [b'] is [b] with the highlight on exactly the cells [ps]. *)
Definition highlightedAt (ps : list Vector2D.t) (b b' : Board) : Prop :=
  forall q, cellAt b' q =
            (fun c => Cell.set_highlighted (bool_decide (q ∈ ps)) c) <$> cellAt b q.

(** ** Termination *)

(** [m] returns or throws, whatever the instance: none of its loops runs
    for ever. *)
Definition halts {A} (m : M A) : Prop :=
  forall w, fst (m w) <> Diverges.

(** ** Printing *)

(** The events that print row [x] of a board whose cells all hold a
    letter: a bar and the letter for each cell, then the closing bar that
    ends the line. *)
Definition rowEvents (cfg : WordsearchConfig) (b : Board) (x : Z) : list StdoutEvent :=
  (map (fun y => Write (String.append "|" (letterAt b (Vector2D.mk x y))))
       (seqZ 0 (size cfg)) ++ [Log "|"])%list.

(** ** Whole-puzzle attempts *)

(** The rest of a whole-puzzle attempt once its words are sourced:
    placement, random fill, and the reset of the attempt counter. *)
Definition placeWords (words : list string) : M WordsearchOutput :=
  allocateWordsInBoard words ;;
  fillInRandomChars ;;
  modify (set_generationTimes 0) ;;
  getOutput.

(** A whole-puzzle attempt that starts afresh: the words are sourced anew
    on the instance as it is (so from the next draws of the random tape),
    and they are placed on [blankStart], the blank board with an empty
    registry.  Nothing of an earlier attempt is read. *)
Definition freshAttempt (w : Wordsearch) : Outcome WordsearchOutput * Wordsearch :=
  match getWords w with
  | (Returns ws, w1) => placeWords ws (blankStart w1)
  | (Throws e, w1) => (Throws e, w1)
  | (Diverges, w1) => (Diverges, w1)
  end.

(** What the [try] and [catch] of [generate] make of an attempt. *)
Definition attemptOutcome (r : Outcome WordsearchOutput * Wordsearch)
  : Outcome AttemptResult * Wordsearch :=
  match r with
  | (Returns out, w) => (Returns (Succeeded out), w)
  | (Throws e, w) => (Returns (Failed e), w)
  | (Diverges, w) => (Diverges, w)
  end.

(** How [generate] ends when it gives up in instance [w] with the error [e]
    of the last attempt: [throwError] records and throws the message when
    an output record exists, and fails on [output.error] when none does. *)
Definition givesUp (e : JsError) (w : Wordsearch)
  : Outcome WordsearchOutput * Wordsearch :=
  match output w with
  | Some o =>
      (Throws (JsErrorMsg (giveUpMessage e)),
       set_output (Some (set_error (giveUpMessage e) o)) (giveUpState w))
  | None => (Throws JsTypeError, giveUpState w)
  end.

(** A fresh instance whose dictionary holds no word of the wanted length:
    every sourcing draw is rejected. *)
Definition noSourceInstance : Wordsearch :=
  newWordsearch
    (mkConfig 6 (mkWordsConfig 1 2 6 ["a"] UPPER true) [RIGHT] true)
    (fun _ => O).

(** ** The direction [NONE] *)

(** [validConfig] only asks for one allowed direction, and [NONE] is a
    member of the exported enumeration.  One word, and two words with
    overlap allowed, under the single direction [NONE]. *)
Definition noneDirectionInstance : Wordsearch :=
  newWordsearch
    (mkConfig 6 (mkWordsConfig 1 2 6 ["ab"] UPPER false) [NONE] true)
    (fun _ => O).


(** * Geometry and board access *)

Lemma Vector2D_eqb_eq a b : Vector2D.eqb a b = true <-> a = b.
Proof.
  destruct a as [ax ay], b as [bx by']; unfold Vector2D.eqb; simpl.
  rewrite andb_true_iff, !Z.eqb_eq. split.
  - intros [-> ->]; reflexivity.
  - intros [= -> ->]; auto.
Qed.

Lemma Vector2D_eqb_refl a : Vector2D.eqb a a = true.
Proof. apply Vector2D_eqb_eq; reflexivity. Qed.

Lemma Vector2D_eqb_neq a b : Vector2D.eqb a b = false <-> a <> b.
Proof.
  rewrite <- Vector2D_eqb_eq. destruct (Vector2D.eqb a b); split; congruence.
Qed.

Lemma isVectorInBoard_spec cfg v :
  isVectorInBoard cfg v = true <->
  0 <= Vector2D.x v < size cfg /\ 0 <= Vector2D.y v < size cfg.
Proof.
  unfold isVectorInBoard.
  destruct (Z.geb_spec (Vector2D.x v) 0), (Z.ltb_spec (Vector2D.x v) (size cfg)),
    (Z.geb_spec (Vector2D.y v) 0), (Z.ltb_spec (Vector2D.y v) (size cfg));
    simpl; split; try lia; try congruence; auto.
Qed.

Lemma stepN_0 p d : stepN p d 0 = p.
Proof. destruct p; unfold stepN; simpl. f_equal; lia. Qed.

Lemma stepN_stepN p d j k : stepN (stepN p d j) d k = stepN p d (j + k).
Proof. destruct p; unfold stepN; simpl. f_equal; lia. Qed.

Lemma moveInDirection_Some cfg p d q :
  moveInDirection cfg p d = Some q <->
  q = stepN p d 1 /\ isVectorInBoard cfg q = true.
Proof.
  unfold moveInDirection, getDirectionVector, stepN.
  rewrite !Z.mul_1_l.
  destruct (isVectorInBoard cfg _) eqn:E; split.
  - intros [= <-]. auto.
  - intros [-> _]. reflexivity.
  - discriminate.
  - intros [-> H]. congruence.
Qed.

Lemma moveInDirection_None cfg p d :
  moveInDirection cfg p d = None <-> isVectorInBoard cfg (stepN p d 1) = false.
Proof.
  unfold moveInDirection, getDirectionVector, stepN.
  rewrite !Z.mul_1_l.
  destruct (isVectorInBoard cfg _); split; congruence.
Qed.

(** The board is convex along a line. *)
Lemma inBoard_between cfg p d j k :
  isVectorInBoard cfg p = true ->
  isVectorInBoard cfg (stepN p d k) = true ->
  0 <= j <= k ->
  isVectorInBoard cfg (stepN p d j) = true.
Proof.
  rewrite !isVectorInBoard_spec. destruct p as [px py].
  destruct d; unfold stepN; simpl; nia.
Qed.

(** In a real direction a step changes the position. *)
Lemma stepN_inj p d j k :
  isRealDirection d = true -> stepN p d j = stepN p d k -> j = k.
Proof.
  destruct p as [px py]. destruct d; unfold stepN; simpl; try discriminate;
    intros _ [= H1 H2]; lia.
Qed.

Lemma path_length p d n : length (path p d n) = n.
Proof. revert p; induction n; simpl; intros; f_equal; auto. Qed.

Lemma path_lookup p d n i :
  (i < n)%nat -> path p d n !! i = Some (stepN p d (Z.of_nat i)).
Proof.
  revert p i; induction n; intros p i Hi; [lia|].
  destruct i; simpl.
  - rewrite stepN_0. reflexivity.
  - rewrite IHn by lia. rewrite stepN_stepN. do 2 f_equal. lia.
Qed.

Lemma elem_of_path p d n q :
  q ∈ path p d n <-> exists i, 0 <= i < Z.of_nat n /\ q = stepN p d i.
Proof.
  revert p; induction n; intros p; simpl.
  - split; [intros H; inversion H | intros (i & ? & _); lia].
  - rewrite elem_of_cons, IHn. split.
    + intros [-> | (i & Hi & ->)].
      * exists 0. rewrite stepN_0. split; [lia | reflexivity].
      * exists (1 + i). rewrite stepN_stepN. split; [lia | reflexivity].
    + intros (i & Hi & ->). destruct (Z.eq_dec i 0) as [-> | Hne].
      * left. apply stepN_0.
      * right. exists (i - 1). rewrite stepN_stepN.
        split; [lia | f_equal; lia].
Qed.

Lemma path_app p d n m :
  path p d (n + m) = (path p d n ++ path (stepN p d (Z.of_nat n)) d m)%list.
Proof.
  revert p; induction n; intros p.
  - simpl. rewrite stepN_0. reflexivity.
  - cbn [path Nat.add]. rewrite IHn. cbn [app]. rewrite stepN_stepN.
    replace (1 + Z.of_nat n) with (Z.of_nat (S n)) by lia. reflexivity.
Qed.


(** ** Reading and writing cells *)

Lemma index_Some {A} (l : list A) i a :
  index l i = Some a <-> 0 <= i /\ l !! Z.to_nat i = Some a.
Proof.
  unfold index. destruct (Z.leb_spec 0 i); split; try tauto; try discriminate.
  - intros [? _]. lia.
Qed.

Lemma cellAt_Some b p c :
  cellAt b p = Some c <->
  0 <= Vector2D.x p /\ 0 <= Vector2D.y p /\
  exists row, b !! Z.to_nat (Vector2D.x p) = Some row /\
              row !! Z.to_nat (Vector2D.y p) = Some c.
Proof.
  unfold cellAt. destruct (index b (Vector2D.x p)) as [row|] eqn:E.
  - apply index_Some in E as [Hx Hrow]. rewrite index_Some. split.
    + intros [Hy Hc]. eauto 6.
    + intros (_ & Hy & row' & Hrow' & Hc). split; auto. congruence.
  - split; [discriminate|]. intros (Hx & _ & row & Hrow & _).
    assert (index b (Vector2D.x p) = Some row) by (apply index_Some; auto).
    congruence.
Qed.

Lemma cellAt_inBoard cfg b p :
  board_wf cfg b ->
  is_Some (cellAt b p) <-> isVectorInBoard cfg p = true.
Proof.
  intros [Hlen Hrows]. rewrite isVectorInBoard_spec. split.
  - intros [c Hc]. apply cellAt_Some in Hc as (Hx & Hy & row & Hrow & Hc).
    assert (length row = Z.to_nat (size cfg)) as Hr.
    { rewrite Forall_forall in Hrows. apply Hrows.
      eapply list_elem_of_lookup_2; eauto. }
    apply lookup_lt_Some in Hrow, Hc. lia.
  - intros [Hx Hy].
    destruct (lookup_lt_is_Some_2 b (Z.to_nat (Vector2D.x p))) as [row Hrow]; [lia|].
    assert (length row = Z.to_nat (size cfg)) as Hr.
    { rewrite Forall_forall in Hrows. apply Hrows.
      eapply list_elem_of_lookup_2; eauto. }
    destruct (lookup_lt_is_Some_2 row (Z.to_nat (Vector2D.y p))) as [c Hc]; [lia|].
    exists c. apply cellAt_Some. split; [lia|]. split; [lia|]. eauto.
Qed.

Lemma cellAt_updateCell f p b b' q :
  updateCell f p b = Some b' ->
  cellAt b' q = if Vector2D.eqb q p then f <$> cellAt b q else cellAt b q.
Proof.
  unfold updateCell. destruct (cellAt b p) as [c|] eqn:Hp; [|discriminate].
  intros [= <-]. apply cellAt_Some in Hp as (Hpx & Hpy & prow & Hprow & Hpc).
  destruct (Vector2D.eqb q p) eqn:E.
  - apply Vector2D_eqb_eq in E as ->.
    unfold cellAt, index.
    destruct (Z.leb_spec 0 (Vector2D.x p)); [|lia].
    destruct (Z.leb_spec 0 (Vector2D.y p)); [|lia].
    rewrite list_lookup_alter_eq, Hprow. simpl.
    rewrite list_lookup_alter_eq. reflexivity.
  - apply Vector2D_eqb_neq in E.
    unfold cellAt, index.
    destruct (Z.leb_spec 0 (Vector2D.x q)); [|reflexivity].
    destruct (decide (Z.to_nat (Vector2D.x p) = Z.to_nat (Vector2D.x q))) as [Hx|Hx].
    + rewrite <- Hx, list_lookup_alter_eq, Hprow. simpl.
      destruct (Z.leb_spec 0 (Vector2D.y q)); [|reflexivity].
      rewrite list_lookup_alter_ne; [reflexivity|].
      intros Hy. apply E. destruct p, q; simpl in *. f_equal; lia.
    + rewrite list_lookup_alter_ne by auto. reflexivity.
Qed.

Lemma updateCell_wf cfg f p b b' :
  board_wf cfg b -> updateCell f p b = Some b' -> board_wf cfg b'.
Proof.
  intros [Hlen Hrows]. unfold updateCell.
  destruct (cellAt b p); [|discriminate]. intros [= <-]. split.
  - rewrite length_alter. exact Hlen.
  - rewrite Forall_forall in *. intros row Hrow.
    apply list_elem_of_lookup_1 in Hrow as [i Hi].
    destruct (decide (Z.to_nat (Vector2D.x p) = i)) as [<-|Hne].
    + rewrite list_lookup_alter_eq in Hi.
      destruct (b !! Z.to_nat (Vector2D.x p)) as [r|] eqn:Hr; [|discriminate].
      simpl in Hi. injection Hi as <-. rewrite length_alter.
      apply Hrows. eapply list_elem_of_lookup_2; eauto.
    + rewrite list_lookup_alter_ne in Hi by auto.
      apply Hrows. eapply list_elem_of_lookup_2; eauto.
Qed.

Lemma updateCell_Some cfg f p b :
  board_wf cfg b -> isVectorInBoard cfg p = true ->
  exists b', updateCell f p b = Some b'.
Proof.
  intros Hwf Hp. apply (cellAt_inBoard cfg b p Hwf) in Hp as [c Hc].
  unfold updateCell. rewrite Hc. eauto.
Qed.

Lemma letterAt_updateCell f p b b' q :
  updateCell f p b = Some b' ->
  letterAt b' q =
    if Vector2D.eqb q p
    then match cellAt b q with Some c => Cell.letter (f c) | None => "" end
    else letterAt b q.
Proof.
  intros H. unfold letterAt. rewrite (cellAt_updateCell _ _ _ _ q H).
  destruct (Vector2D.eqb q p); [|reflexivity].
  destruct (cellAt b q); reflexivity.
Qed.

Lemma setCellFieldTo_board_wf cfg f b :
  board_wf cfg b -> setCellFieldTo_board f b = Some (map (map f) b).
Proof.
  intros [Hlen Hrows]. unfold setCellFieldTo_board.
  assert (forallb (fun row => (length b <=? length row)%nat) b = true) as ->.
  { apply forallb_forall. intros row Hin. apply Nat.leb_le.
    rewrite Forall_forall in Hrows. rewrite Hrows, Hlen; [lia|].
    apply list_elem_of_In; auto. }
  f_equal. apply map_ext_in. intros row Hin.
  rewrite Forall_forall in Hrows.
  assert (length row = length b) as Hr.
  { rewrite Hrows, Hlen; [lia|]. apply list_elem_of_In; auto. }
  rewrite <- Hr, firstn_all, skipn_all. apply app_nil_r.
Qed.

Lemma map_map_wf cfg (f : Cell.t -> Cell.t) b :
  board_wf cfg b -> board_wf cfg (map (map f) b).
Proof.
  intros [Hlen Hrows]. split.
  - rewrite length_map. exact Hlen.
  - rewrite Forall_forall in *. intros row Hrow.
    apply list_elem_of_In, in_map_iff in Hrow as (r & <- & Hin).
    rewrite length_map. apply Hrows, list_elem_of_In, Hin.
Qed.

Lemma cellAt_map_map (f : Cell.t -> Cell.t) b p :
  cellAt (map (map f) b) p = f <$> cellAt b p.
Proof.
  unfold cellAt, index.
  destruct (Z.leb_spec 0 (Vector2D.x p)); [|reflexivity].
  change (map (map f) b) with (map f <$> b).
  rewrite list_lookup_fmap.
  destruct (b !! Z.to_nat (Vector2D.x p)) as [row|]; [|reflexivity]. simpl.
  destruct (Z.leb_spec 0 (Vector2D.y p)); [|reflexivity].
  change (map f row) with (f <$> row). apply list_lookup_fmap.
Qed.

(** * Fitting and collision *)

Lemma doesWordFit_from_None cfg n d :
  doesWordFit_from cfg n None d = match n with O => true | S _ => false end.
Proof. destruct n; reflexivity. Qed.

Lemma doesWordFit_from_path cfg n p d :
  isVectorInBoard cfg p = true ->
  doesWordFit_from cfg n (Some p) d = forallb (isVectorInBoard cfg) (path p d n).
Proof.
  revert p; induction n as [|n IH]; intros p Hp; [reflexivity|].
  cbn [doesWordFit_from path forallb]. rewrite Hp. cbn [andb].
  destruct (moveInDirection cfg p d) as [q|] eqn:E.
  - apply moveInDirection_Some in E as [-> Hq]. apply IH, Hq.
  - apply moveInDirection_None in E. rewrite doesWordFit_from_None.
    destruct n; [reflexivity|]. cbn [path forallb]. rewrite E. reflexivity.
Qed.

(** [doesWordFit] is exactly the bounds condition: the [length] cells of
    the word are on the board. *)
Lemma doesWordFit_fitsInBounds cfg word p d :
  doesWordFit cfg word p d = fitsInBounds cfg word p d.
Proof.
  unfold doesWordFit, fitsInBounds.
  destruct (isVectorInBoard cfg p) eqn:Hp; cbn [negb andb]; [|reflexivity].
  apply doesWordFit_from_path, Hp.
Qed.

Lemma isCharCollision_letterConflict cfg b char p c :
  cellAt b p = Some c ->
  isCharCollision cfg b char p = Some (letterConflict cfg b char p).
Proof.
  intros Hc. unfold isCharCollision, letterConflict, letterAt. rewrite Hc.
  destruct (allowWordOverlap cfg && String.eqb (Cell.letter c) char);
    cbn [negb]; rewrite ?andb_false_r, ?andb_true_r; reflexivity.
Qed.

(** What [doesWordCollide] computes for a word that fits: a conflicting
    letter on the path, or the cell one step past the last letter being off
    the board. *)
Lemma doesWordCollide_from_fits cfg b word p d :
  board_wf cfg b ->
  isVectorInBoard cfg p = true ->
  forallb (isVectorInBoard cfg) (path p d (String.length word)) = true ->
  doesWordCollide_from cfg b word p d =
    Some (pathConflict cfg b word p d ||
          negb (isVectorInBoard cfg (stepN p d (Z.of_nat (String.length word))))).
Proof.
  intros Hwf. revert p; induction word as [|ch rest IH]; intros p Hp Hfit.
  - cbn. rewrite stepN_0, Hp. reflexivity.
  - cbn [doesWordCollide_from pathConflict String.length].
    destruct (proj2 (cellAt_inBoard cfg b p Hwf) Hp) as [c Hc].
    rewrite (isCharCollision_letterConflict _ _ _ _ _ Hc).
    destruct (letterConflict cfg b (String ch "") p); [reflexivity|].
    cbn [orb]. cbn [String.length path forallb] in Hfit.
    apply andb_true_iff in Hfit as [_ Hfit].
    destruct (moveInDirection cfg p d) as [q|] eqn:E.
    + apply moveInDirection_Some in E as [-> Hq].
      rewrite (IH _ Hq Hfit), stepN_stepN.
      replace (1 + Z.of_nat (String.length rest))
        with (Z.of_nat (S (String.length rest))) by lia.
      reflexivity.
    + apply moveInDirection_None in E.
      destruct rest as [|ch' rest'].
      * cbn [pathConflict String.length orb]. change (Z.of_nat 1) with 1.
        rewrite E. reflexivity.
      * cbn [String.length path forallb] in Hfit. rewrite E in Hfit. discriminate.
Qed.

Lemma doesWordCollide_fits cfg b word p d :
  board_wf cfg b ->
  doesWordFit cfg word p d = true ->
  doesWordCollide cfg b word p d =
    Some (pathConflict cfg b word p d ||
          negb (isVectorInBoard cfg (stepN p d (Z.of_nat (String.length word))))).
Proof.
  intros Hwf Hfit. rewrite doesWordFit_fitsInBounds in Hfit.
  apply andb_true_iff in Hfit as [Hp Hfit].
  apply doesWordCollide_from_fits; auto.
Qed.


(** * Word registry: lookup and end of game *)

Lemma getWordIndex_from_found ws w word r :
  getWordIndex_from ws w word = r -> r <> -1 -> 0 <= w ->
  exists (i : nat) wd,
    r = w + Z.of_nat i /\ ws !! i = Some wd /\ Word.word wd = word /\
    forall (j : nat) wd', (j < i)%nat -> ws !! j = Some wd' -> Word.word wd' <> word.
Proof.
  revert w; induction ws as [|wd ws IH]; intros w Hr Hne Hw; cbn in Hr.
  - congruence.
  - destruct (String.eqb_spec (Word.word wd) word) as [Heq|Hneq].
    + exists O, wd. repeat split; auto; [lia|]. intros; lia.
    + destruct (IH (w + 1) Hr Hne ltac:(lia)) as (i & wd1 & -> & Hi & Hw1 & Hfirst).
      exists (S i), wd1. repeat split; auto; [lia|].
      intros [|j] wd' Hj Hl; cbn in Hl.
      * congruence.
      * apply (Hfirst j); auto; lia.
Qed.

Lemma getWordIndex_from_range ws w word :
  0 <= w ->
  getWordIndex_from ws w word = -1 \/
  w <= getWordIndex_from ws w word < w + Z.of_nat (length ws).
Proof.
  revert w; induction ws as [|wd ws IH]; intros w Hw; cbn [getWordIndex_from].
  - auto.
  - destruct (String.eqb (Word.word wd) word).
    + right. cbn [length]. lia.
    + destruct (IH (w + 1) ltac:(lia)) as [H|H]; [auto|]. right. cbn [length]. lia.
Qed.

Lemma getWordIndex_from_absent ws w word :
  0 <= w ->
  getWordIndex_from ws w word = -1 <->
  forall wd, wd ∈ ws -> Word.word wd <> word.
Proof.
  revert w; induction ws as [|wd ws IH]; intros w Hw; cbn [getWordIndex_from].
  - split; auto. intros _ wd H. inversion H.
  - destruct (String.eqb_spec (Word.word wd) word) as [Heq|Hneq].
    + split; [lia|]. intros H. exfalso. apply (H wd); [left|exact Heq].
    + rewrite IH by lia. split.
      * intros H wd' Hin. apply elem_of_cons in Hin as [->|Hin]; auto.
      * intros H wd' Hin. apply H. right. exact Hin.
Qed.

(** C6, as amended.  [getWordIndex] compares the query with the stored text
    of the placed words character for character (no case normalisation of
    the query).  It returns [-1] exactly when no placed word has that very
    text, and otherwise the index of the first placed word whose text is
    the query. *)
Theorem C6_lookup_is_exact_match (o : WordsearchOutput) (text : string) :
  (getWordIndex o text = -1 /\
   forall wd, wd ∈ words o -> Word.word wd <> text)
  \/
  (exists (i : nat) wd,
     getWordIndex o text = Z.of_nat i /\
     words o !! i = Some wd /\ Word.word wd = text /\
     forall (j : nat) wd', (j < i)%nat -> words o !! j = Some wd' ->
                           Word.word wd' <> text).
Proof.
  unfold getWordIndex.
  destruct (Z.eq_dec (getWordIndex_from (words o) 0 text) (-1)) as [E|E].
  - left. split; [exact E|]. apply (getWordIndex_from_absent _ 0); [lia | exact E].
  - right.
    destruct (getWordIndex_from_found (words o) 0 text _ eq_refl E ltac:(lia))
      as (i & wd & Hr & Hi & Hw & Hfirst).
    exists i, wd. repeat split; auto.
Qed.


(** * Random word sourcing *)

Lemma afterDraws_0 w : afterDraws 0 w = w.
Proof. destruct w; unfold afterDraws, set_randomCalls; cbn. f_equal. lia. Qed.

Lemma getRandomWord_afterDraws w k :
  getRandomWord (afterDraws k w) = (Returns (drawAt w k), afterDraws (S k) w).
Proof.
  unfold getRandomWord, bind, getThis, randomBelow, ret, afterDraws, drawAt,
    set_randomCalls; cbn.
  rewrite <- Nat.add_succ_r. reflexivity.
Qed.

Lemma getRandomWords_loop_step w k tries words :
  (Z.of_nat (length words) <? amount (wordsConfig (config w))) = true ->
  getRandomWords_loop (S tries) words (afterDraws k w) =
    let words' := pushIf (wordCriteria (config w) (drawAt w k) words) (drawAt w k) words in
    match tries with
    | O => throwError "Not enough words in dictionary." (afterDraws (S k) w)
    | S _ => getRandomWords_loop tries words' (afterDraws (S k) w)
    end.
Proof.
  intros Hlt. cbn [getRandomWords_loop]. unfold bind at 1, getThis at 1.
  change (config (afterDraws k w)) with (config w). rewrite Hlt.
  unfold bind at 1. rewrite getRandomWord_afterDraws.
  destruct tries; reflexivity.
Qed.

Lemma getRandomWords_loop_done w words tries :
  (Z.of_nat (length words) <? amount (wordsConfig (config w))) = false ->
  getRandomWords_loop tries words w = (Returns words, w).
Proof.
  intros H. destruct tries; cbn [getRandomWords_loop];
    unfold bind, getThis; rewrite H; reflexivity.
Qed.

Lemma collected_false w k :
  collected w k = false ->
  (Z.of_nat (length (acceptedAfter w k)) <? amount (wordsConfig (config w))) = true.
Proof. unfold collected. intros H. apply Z.leb_gt in H. apply Z.ltb_lt. lia. Qed.

Lemma collected_true w k :
  collected w k = true ->
  (Z.of_nat (length (acceptedAfter w k)) <? amount (wordsConfig (config w))) = false.
Proof. unfold collected. intros H. apply Z.leb_le in H. apply Z.ltb_ge. lia. Qed.

(** The loop returns at the first draw count at which enough words are
    collected, when tries are left. *)
Lemma getRandomWords_loop_returns w m :
  forall k0 tries,
    (forall j, (k0 <= j < k0 + m)%nat -> collected w j = false) ->
    collected w (k0 + m) = true ->
    (m < tries)%nat ->
    getRandomWords_loop tries (acceptedAfter w k0) (afterDraws k0 w) =
      (Returns (acceptedAfter w (k0 + m)), afterDraws (k0 + m) w).
Proof.
  induction m as [|m IH]; intros k0 tries Hnot Hdone Hlt.
  - rewrite Nat.add_0_r in *. apply getRandomWords_loop_done.
    change (config (afterDraws k0 w)) with (config w).
    apply collected_true, Hdone.
  - destruct tries as [|tries]; [lia|].
    rewrite getRandomWords_loop_step
      by (apply collected_false, Hnot; lia).
    cbv zeta. destruct tries as [|tries]; [lia|].
    change (pushIf _ _ _) with (acceptedAfter w (S k0)).
    replace (k0 + S m)%nat with (S k0 + m)%nat in * by lia.
    apply (IH (S k0) (S tries)).
    + intros j Hj. apply Hnot. lia.
    + exact Hdone.
    + lia.
Qed.

(** The loop throws once its tries are used up. *)
Lemma getRandomWords_loop_throws w tries :
  forall k0,
    (forall j, (k0 <= j < k0 + S tries)%nat -> collected w j = false) ->
    getRandomWords_loop (S tries) (acceptedAfter w k0) (afterDraws k0 w) =
      throwError "Not enough words in dictionary." (afterDraws (k0 + S tries) w).
Proof.
  induction tries as [|tries IH]; intros k0 Hnot.
  - rewrite getRandomWords_loop_step by (apply collected_false, Hnot; lia).
    cbv zeta. rewrite Nat.add_1_r. reflexivity.
  - rewrite getRandomWords_loop_step by (apply collected_false, Hnot; lia).
    cbv zeta. change (pushIf _ _ _) with (acceptedAfter w (S k0)).
    rewrite (IH (S k0)).
    + f_equal. f_equal. lia.
    + intros j Hj. apply Hnot. lia.
Qed.

(** C9, as amended.  Random sourcing draws dictionary entries one after the
    other ([drawAt]) and accepts a draw when it is a non-empty string, not
    already chosen and of a length within [minLength, maxLength]
    ([acceptedAfter], [wordCriteria]).  Let [k] be the number of draws after
    which it stops.  If the configured amount is first reached after
    [k < 100] draws, it returns the accepted words, having made exactly [k]
    draws.  If the amount is not reached within 100 draws, counting accepted
    and rejected draws alike, it makes exactly 100 draws and fails through
    [throwError]. *)
Theorem C9_random_sourcing (w : Wordsearch) (k : nat) :
  (k <= 100)%nat ->
  (forall j, (j < k)%nat -> collected w j = false) ->
  collected w k = (k <? 100)%nat ->
  getRandomWordsFromDictionary w =
    if (k <? 100)%nat
    then (Returns (acceptedAfter w k), afterDraws k w)
    else throwError "Not enough words in dictionary." (afterDraws 100 w).
Proof.
  intros Hk Hnot Hlast. unfold getRandomWordsFromDictionary.
  rewrite <- (afterDraws_0 w) at 1.
  change (@nil string) with (acceptedAfter w 0).
  destruct (Nat.ltb_spec k 100) as [Hlt|Hge].
  - apply (getRandomWords_loop_returns w k 0 100); auto.
    intros j Hj. apply Hnot. lia.
  - assert (k = 100%nat) as -> by lia.
    apply (getRandomWords_loop_throws w 99 0).
    intros j Hj. apply Hnot. lia.
Qed.

(** * Frame rules for methods *)

Lemma bind_Returns {A B} (m : M A) (k : A -> M B) w b w' :
  bind m k w = (Returns b, w') <->
  exists a w1, m w = (Returns a, w1) /\ k a w1 = (Returns b, w').
Proof.
  unfold bind. destruct (m w) as [[a|e|] w1]; split.
  - eauto.
  - intros (a' & w1' & [= <- <-] & H). exact H.
  - discriminate.
  - intros (? & ? & [=] & _).
  - discriminate.
  - intros (? & ? & [=] & _).
Qed.

Lemma hoare_bind {A B} P (R : A -> Wordsearch -> Prop) Q (m : M A) (k : A -> M B) :
  hoare P m R -> (forall a, hoare (R a) (k a) Q) -> hoare P (bind m k) Q.
Proof.
  intros Hm Hk w b w' HP H. apply bind_Returns in H as (a & w1 & H1 & H2).
  eapply Hk; eauto.
Qed.

Lemma hoare_ret {A} (P : Wordsearch -> Prop) (Q : A -> Wordsearch -> Prop) a :
  (forall w, P w -> Q a w) -> hoare P (ret a) Q.
Proof. intros H w a' w' HP [= <- <-]. auto. Qed.

Lemma hoare_weaken {A} (P P' : Wordsearch -> Prop) (Q Q' : A -> Wordsearch -> Prop) m :
  hoare P' m Q' -> (forall w, P w -> P' w) -> (forall a w, Q' a w -> Q a w) ->
  hoare P m Q.
Proof. intros H HP HQ w a w' Hw Hm. eapply HQ, H; eauto. Qed.

Lemma hoare_preserves {A} (P : Wordsearch -> Prop) (m : M A) :
  preserves P m -> hoare P m (fun _ => P).
Proof. intros H w a w' HP Hm. specialize (H w HP). rewrite Hm in H. exact H. Qed.

Lemma hoare_conj {A} (P : Wordsearch -> Prop) (Q1 Q2 : A -> Wordsearch -> Prop) m :
  hoare P m Q1 -> hoare P m Q2 -> hoare P m (fun a w => Q1 a w /\ Q2 a w).
Proof. intros H1 H2 w a w' HP Hm. split; eauto. Qed.

Section Frame.
Context (P : Wordsearch -> Prop) (HP : stable P).

Lemma preserves_ret {A} (a : A) : preserves P (ret a).
Proof. intros w H. exact H. Qed.

Lemma preserves_throw {A} e : preserves P (@throw A e).
Proof. intros w H. exact H. Qed.

Lemma preserves_diverge {A} : preserves P (@diverge A).
Proof. intros w H. exact H. Qed.

Lemma preserves_getThis : preserves P getThis.
Proof. intros w H. exact H. Qed.

Lemma preserves_liftOutcome {A} (r : Outcome A) : preserves P (liftOutcome r).
Proof. intros w H. exact H. Qed.

Lemma preserves_deref {A} (o : option A) : preserves P (deref o).
Proof. intros w H. destruct o; exact H. Qed.

Lemma preserves_bind {A B} (m : M A) (k : A -> M B) :
  preserves P m -> (forall a, preserves P (k a)) -> preserves P (bind m k).
Proof.
  intros Hm Hk w H. unfold bind. specialize (Hm w H).
  destruct (m w) as [[a|e|] w1]; cbn in *; auto. apply Hk, Hm.
Qed.

Lemma preserves_tryCatch {A} (m : M A) (h : JsError -> M A) :
  preserves P m -> (forall e, preserves P (h e)) -> preserves P (tryCatch m h).
Proof.
  intros Hm Hh w H. unfold tryCatch. specialize (Hm w H).
  destruct (m w) as [[a|e|] w1]; cbn in *; auto. apply Hh, Hm.
Qed.

Lemma preserves_modify (f : Wordsearch -> Wordsearch) :
  (forall w, P w -> P (f w)) -> preserves P (modify f).
Proof. intros Hf w H. apply Hf, H. Qed.

Lemma preserves_getOutput : preserves P getOutput.
Proof.
  apply preserves_bind; [apply preserves_getThis|]. intros w. apply preserves_deref.
Qed.

Lemma preserves_modifyOutput f : preserves P (modifyOutput f).
Proof.
  apply preserves_bind; [apply preserves_getOutput|]. intros o.
  apply preserves_modify. intros w. apply (stable_output P HP).
Qed.

Lemma preserves_getBoard : preserves P getBoard.
Proof.
  apply preserves_bind; [apply preserves_getOutput|]. intros o. apply preserves_ret.
Qed.

Lemma preserves_setBoard b : preserves P (setBoard b).
Proof. apply preserves_modifyOutput. Qed.

Lemma preserves_throwError {A} msg : preserves P (@throwError A msg).
Proof.
  apply preserves_bind; [apply preserves_modifyOutput|]. intros _.
  apply preserves_throw.
Qed.

Lemma preserves_randomBelow n : preserves P (randomBelow n).
Proof. intros w H. apply (stable_randomCalls P HP), H. Qed.

Lemma preserves_getRandomInteger lo hi : preserves P (getRandomInteger lo hi).
Proof.
  apply preserves_bind; [apply preserves_randomBelow|]. intros r. apply preserves_ret.
Qed.

Lemma preserves_shuffleSelf {A} steps : forall index (array : list A),
  preserves P (shuffleSelf steps index array).
Proof.
  induction steps as [|steps IH]; intros index array; cbn [shuffleSelf].
  - apply preserves_ret.
  - apply preserves_bind; [apply preserves_randomBelow|]. intros r.
    destruct (array !! (index + r)%nat), (array !! index); apply IH.
Qed.

Lemma preserves_shuffle {A} (l : list A) : preserves P (shuffle l).
Proof. apply preserves_shuffleSelf. Qed.

Lemma preserves_setCellFieldTo f : preserves P (setCellFieldTo f).
Proof.
  apply preserves_bind; [apply preserves_getBoard|]. intros b.
  apply preserves_bind; [apply preserves_deref|]. intros b'.
  apply preserves_setBoard.
Qed.

End Frame.

(** Discharges [preserves] goals for straight-line code, by the syntax of
    the method. *)
Ltac frame_step HP :=
  match goal with
  | IH : forall _, preserves _ _ |- preserves _ _ => simple apply IH
  | IH : preserves _ ?m |- preserves _ ?m => exact IH
  | |- preserves _ (bind _ _) => simple apply preserves_bind; [|intros ?]
  | |- preserves _ (ret _) => simple apply preserves_ret
  | |- preserves _ (throw _) => simple apply preserves_throw
  | |- preserves _ diverge => simple apply preserves_diverge
  | |- preserves _ getThis => simple apply preserves_getThis
  | |- preserves _ (liftOutcome _) => simple apply preserves_liftOutcome
  | |- preserves _ (deref _) => simple apply preserves_deref
  | |- preserves _ getOutput => simple apply preserves_getOutput
  | |- preserves _ getBoard => simple apply preserves_getBoard
  | |- preserves _ (modifyOutput _) => simple apply (preserves_modifyOutput _ HP)
  | |- preserves _ (setBoard _) => simple apply (preserves_setBoard _ HP)
  | |- preserves _ (throwError _) => simple apply (preserves_throwError _ HP)
  | |- preserves _ (randomBelow _) => simple apply (preserves_randomBelow _ HP)
  | |- preserves _ (getRandomInteger _ _) =>
      simple apply (preserves_getRandomInteger _ HP)
  | |- preserves _ (shuffle _) => simple apply (preserves_shuffle _ HP)
  | |- preserves _ (setCellFieldTo _) => simple apply (preserves_setCellFieldTo _ HP)
  | |- preserves _ (modify (set_selectedCount _)) =>
      simple apply preserves_modify; intros ?; simple apply (stable_selectedCount _ HP)
  | |- preserves _ (modify (set_selectedDirection _)) =>
      simple apply preserves_modify; intros ?; simple apply (stable_selectedDirection _ HP)
  | |- preserves _ (modify (set_lastSelectedVector _)) =>
      simple apply preserves_modify; intros ?;
      simple apply (stable_lastSelectedVector _ HP)
  | |- preserves _ (modify (set_output (Some _))) =>
      simple apply preserves_modify; intros ?; simple apply (stable_output _ HP)
  | |- preserves _ (modify (fun w => set_selectedCount _ w)) =>
      simple apply preserves_modify; intros ?; simple apply (stable_selectedCount _ HP)
  | |- preserves _ (match ?x with _ => _ end) => destruct x
  end.

Ltac frame HP := repeat (frame_step HP).

Section FrameMethods.
Context (P : Wordsearch -> Prop) (HP : stable P).

Lemma preserves_calculateSelectables ls : preserves P (calculateSelectables ls).
Proof. unfold calculateSelectables. frame HP. Qed.

Lemma preserves_resetCurrentSelection : preserves P resetCurrentSelection.
Proof.
  unfold resetCurrentSelection. frame HP. apply preserves_calculateSelectables.
Qed.

Lemma preserves_getRandomWord : preserves P getRandomWord.
Proof. unfold getRandomWord. frame HP. Qed.

Lemma preserves_getRandomWords_loop tries : forall words,
  preserves P (getRandomWords_loop tries words).
Proof.
  induction tries as [|tries IH]; intros words; cbn [getRandomWords_loop].
  - frame HP.
  - apply preserves_bind; [apply preserves_getThis|]. intros w.
    destruct (_ <? _); [|apply preserves_ret].
    apply preserves_bind; [apply preserves_getRandomWord|]. intros word.
    cbv zeta. destruct tries; [apply (preserves_throwError _ HP) | apply IH].
Qed.

Lemma preserves_getSequentialWords_loop rest : forall words,
  preserves P (getSequentialWords_loop rest words).
Proof.
  induction rest as [|word rest IH]; intros words; cbn [getSequentialWords_loop].
  - frame HP.
  - apply preserves_bind; [apply preserves_getThis|]. intros w.
    destruct (_ <? _); [|apply preserves_ret]. cbv zeta. apply IH.
Qed.

Lemma preserves_getWords : preserves P getWords.
Proof.
  unfold getWords, getRandomWordsFromDictionary, getSequentialWords.
  apply preserves_bind; [apply preserves_getThis|]. intros w.
  destruct (random _).
  - apply preserves_getRandomWords_loop.
  - apply preserves_bind; [apply preserves_getThis|]. intros w1.
    apply preserves_getSequentialWords_loop.
Qed.

Lemma preserves_fitWordInRandomPos word : preserves P (fitWordInRandomPos word).
Proof. unfold fitWordInRandomPos. frame HP. Qed.

Lemma preserves_drawWordInBoard wd : preserves P (drawWordInBoard wd).
Proof. unfold drawWordInBoard. frame HP. Qed.

Lemma preserves_allocateWordsInBoard words : preserves P (allocateWordsInBoard words).
Proof.
  induction words as [|word words IH]; cbn [allocateWordsInBoard].
  - apply preserves_ret.
  - apply preserves_bind; [apply preserves_fitWordInRandomPos|]. intros wd.
    apply preserves_bind; [apply preserves_drawWordInBoard|]. intros _. apply IH.
Qed.

Lemma preserves_getRandomChar : preserves P getRandomChar.
Proof. unfold getRandomChar. frame HP. Qed.

Lemma preserves_fillInRandomChars_row x ys : preserves P (fillInRandomChars_row x ys).
Proof.
  induction ys as [|y ys IH]; cbn [fillInRandomChars_row].
  - apply preserves_ret.
  - apply preserves_bind; [apply preserves_getBoard|]. intros b.
    apply preserves_bind; [apply preserves_deref|]. intros c.
    apply preserves_bind; [|intros _; apply IH].
    destruct (String.eqb _ _); [|apply preserves_ret].
    apply preserves_bind; [apply preserves_getRandomChar|]. intros ch.
    frame HP.
Qed.

Lemma preserves_fillInRandomChars_rows xs ys : preserves P (fillInRandomChars_rows xs ys).
Proof.
  induction xs as [|x xs IH]; cbn [fillInRandomChars_rows].
  - apply preserves_ret.
  - apply preserves_bind; [apply preserves_fillInRandomChars_row|]. intros _. apply IH.
Qed.

Lemma preserves_fillInRandomChars : preserves P fillInRandomChars.
Proof.
  unfold fillInRandomChars.
  apply preserves_bind; [apply preserves_getThis|]. intros w.
  apply preserves_fillInRandomChars_rows.
Qed.

End FrameMethods.

(** * The retry loop of [generate] *)

Lemma bind_Throws {A B} (m : M A) (k : A -> M B) w e w' :
  bind m k w = (Throws e, w') <->
  m w = (Throws e, w') \/
  exists a w1, m w = (Returns a, w1) /\ k a w1 = (Throws e, w').
Proof.
  unfold bind. destruct (m w) as [[a|e1|] w1]; split.
  - eauto.
  - intros [[=] | (a' & w1' & [= <- <-] & H)]. exact H.
  - intros [= -> ->]. left. reflexivity.
  - intros [[= -> ->] | (? & ? & [=] & _)]. reflexivity.
  - discriminate.
  - intros [[=] | (? & ? & [=] & _)].
Qed.

Lemma throwError_not_Returns {A} msg w (a : A) w' :
  throwError msg w <> (Returns a, w').
Proof.
  intros H.
  unfold throwError, bind, modifyOutput, getOutput, bind, getThis, deref, modify,
    throw, ret in H.
  destruct (output w); cbn in H; discriminate.
Qed.

(** [generate_rec], one pass at a time. *)
Lemma generate_rec_round retries w :
  generate_rec retries w =
    match attemptRound w with
    | (Returns (Succeeded out), w2) => (Returns out, w2)
    | (Returns (Failed e), w2) =>
        if generationTimes w2 + 1 >? 50
        then throwError (giveUpMessage e) (giveUpState w2)
        else match retries with
             | O => (Diverges, retryState w2)
             | S retries' => generate_rec retries' (retryState w2)
             end
    | (Throws e, w2) => (Throws e, w2)
    | (Diverges, w2) => (Diverges, w2)
    end.
Proof.
  destruct retries; cbn [generate_rec];
    unfold attemptRound, bind, getThis, tryCatch, ret, modify.
  all: destruct (setCase w) as [[[]|e|] w1]; try reflexivity.
  all: destruct (validConfig (config w1)) as [msg|].
  1,3: unfold throwError, bind, modifyOutput, getOutput, bind, getThis, deref,
         modify, throw, ret; destruct (output w1); reflexivity.
  all: destruct (generateAttempt w1) as [[out|e|] w2]; try reflexivity.
  all: cbn [generationTimes set_generationTimes].
  all: destruct (generationTimes w2 + 1 >? 50); reflexivity.
Qed.

Lemma triple_bind {A B} P (R : A -> Wordsearch -> Prop) Q E
  (m : M A) (k : A -> M B) :
  triple P m R E -> (forall a, triple (R a) (k a) Q E) -> triple P (bind m k) Q E.
Proof.
  intros Hm Hk w HP. specialize (Hm w HP). unfold bind.
  destruct (m w) as [[a|e|] w1]; auto. apply (Hk a w1 Hm).
Qed.

Lemma triple_preserves {A} (P : Wordsearch -> Prop) (m : M A) :
  preserves P m -> triple P m (fun _ => P) P.
Proof.
  intros H w HP. specialize (H w HP). destruct (m w) as [[a|e|] w1]; exact H.
Qed.

Lemma triple_weaken {A} (P P' : Wordsearch -> Prop)
  (Q Q' : A -> Wordsearch -> Prop) (E E' : Wordsearch -> Prop) m :
  triple P' m Q' E' ->
  (forall w, P w -> P' w) -> (forall a w, Q' a w -> Q a w) ->
  (forall w, E' w -> E w) ->
  triple P m Q E.
Proof.
  intros H HP HQ HE w Hw. specialize (H w (HP w Hw)).
  destruct (m w) as [[a|e|] w1]; auto.
Qed.

Lemma stable_generationTimes g : stable (fun w => generationTimes w = g).
Proof. split; intros; assumption. Qed.

Lemma stable_hasOutput : stable (fun w => is_Some (output w)).
Proof. split; intros; cbn; eauto. Qed.

Lemma stable_and P Q : stable P -> stable Q -> stable (fun w => P w /\ Q w).
Proof.
  intros [] []. split; intros ? ? [? ?]; split; auto.
Qed.

Lemma preserves_setCase P :
  stable P -> (forall w cfg, P w -> P (set_config cfg w)) -> preserves P setCase.
Proof.
  intros HP Hcfg. unfold setCase. frame HP.
  apply preserves_modify. intros w H. apply Hcfg, H.
Qed.

Lemma triple_preserves_weak {A} (P E : Wordsearch -> Prop) (m : M A) :
  preserves P m -> (forall w, P w -> E w) -> triple P m (fun _ => P) E.
Proof.
  intros H HE w HP. specialize (H w HP).
  destruct (m w) as [[a|e|] w1]; cbn in H; auto.
Qed.

(** A failing attempt leaves the attempt counter alone. *)
Lemma generateAttempt_generationTimes g :
  triple (fun w => generationTimes w = g) generateAttempt
         (fun _ _ => True) (fun w => generationTimes w = g).
Proof.
  pose proof (stable_generationTimes g) as Hg.
  pose proof (stable_and _ _ Hg stable_hasOutput) as Hgo.
  unfold generateAttempt.
  eapply triple_bind; [apply triple_preserves, preserves_getWords, Hg|]. intros words.
  eapply triple_bind; [apply triple_preserves, preserves_getThis|]. intros w0.
  eapply triple_bind
    with (R := fun _ w => generationTimes w = g /\ is_Some (output w)).
  { intros w H. cbn. split; [exact H | eauto]. }
  intros ?.
  eapply triple_bind.
  { apply triple_preserves_weak;
      [apply (preserves_resetCurrentSelection _ Hgo) | tauto]. }
  intros ?.
  eapply triple_bind.
  { apply triple_preserves_weak;
      [apply (preserves_allocateWordsInBoard _ Hgo) | tauto]. }
  intros ?.
  eapply triple_bind.
  { apply triple_preserves_weak;
      [apply (preserves_fillInRandomChars _ Hgo) | tauto]. }
  intros ?.
  eapply triple_bind with (R := fun _ w => is_Some (output w)).
  { intros w [_ H]. cbn. exact H. }
  intros ? w [o Ho]. unfold getOutput, bind, getThis, deref. rewrite Ho. exact I.
Qed.

Lemma attemptRound_Failed_generationTimes w e w2 :
  attemptRound w = (Returns (Failed e), w2) ->
  generationTimes w2 = generationTimes w.
Proof.
  unfold attemptRound. intros H.
  apply bind_Returns in H as ([] & w1 & Hcase & H).
  pose proof (preserves_setCase _ (stable_generationTimes (generationTimes w))
                (fun _ _ H => H) w eq_refl) as Hg.
  rewrite Hcase in Hg. cbn in Hg.
  unfold bind at 1, getThis at 1 in H.
  destruct (validConfig (config w1)).
  { exfalso. exact (throwError_not_Returns _ _ _ _ H). }
  unfold tryCatch, bind in H.
  pose proof (generateAttempt_generationTimes _ w1 Hg) as Ha.
  destruct (generateAttempt w1) as [[out|e1|] w3]; cbn in H.
  - discriminate.
  - injection H as <- <-. exact Ha.
  - discriminate.
Qed.

Lemma afterFailures_generationTimes k : forall w wk,
  afterFailures k w = Some wk ->
  generationTimes wk = generationTimes w + Z.of_nat k.
Proof.
  induction k as [|k IH]; intros w wk H; cbn [afterFailures] in H.
  - injection H as <-. lia.
  - destruct (afterFailures k w) as [wk0|] eqn:E; [|discriminate].
    destruct (attemptRound wk0) as [[[out|e]|e|] w2] eqn:Er; try discriminate.
    injection H as <-.
    apply attemptRound_Failed_generationTimes in Er.
    specialize (IH _ _ E). unfold retryState. cbn. lia.
Qed.

(** After [k] failed attempts [generate] is where a fresh call with the
    remaining retries would be. *)
Lemma generate_rec_afterFailures k : forall retries w wk,
  afterFailures k w = Some wk ->
  generationTimes w + Z.of_nat k <= 50 ->
  generate_rec (k + retries) w = generate_rec retries wk.
Proof.
  induction k as [|k IH]; intros retries w wk H Hle.
  - cbn in H. injection H as <-. reflexivity.
  - cbn [afterFailures] in H.
    destruct (afterFailures k w) as [wk0|] eqn:E; [|discriminate].
    destruct (attemptRound wk0) as [[[out|e]|e|] w2] eqn:Er; try discriminate.
    injection H as <-.
    replace (S k + retries)%nat with (k + S retries)%nat by lia.
    rewrite (IH (S retries) w wk0 E) by lia.
    rewrite generate_rec_round, Er.
    apply attemptRound_Failed_generationTimes in Er.
    apply afterFailures_generationTimes in E.
    destruct (Z.gtb_spec (generationTimes w2 + 1) 50); [lia|]. reflexivity.
Qed.


(** * Drawing a word *)

Lemma charAt_0 c rest : charAt (String c rest) 0 = Some (String c "").
Proof. reflexivity. Qed.

Lemma charAt_S c rest i : charAt (String c rest) (S i) = charAt rest i.
Proof. reflexivity. Qed.

Lemma charAt_Some_lt word i ch : charAt word i = Some ch -> (i < String.length word)%nat.
Proof.
  revert i; induction word as [|c rest IH]; intros i; unfold charAt.
  - destruct i; discriminate.
  - destruct i; cbn; [lia|]. intros H. apply IH in H. lia.
Qed.

Lemma charAt_lt_Some word i : (i < String.length word)%nat -> is_Some (charAt word i).
Proof.
  revert i; induction word as [|c rest IH]; intros i Hi; cbn in Hi; [lia|].
  destruct i; [rewrite charAt_0; eauto|]. rewrite charAt_S. apply IH. lia.
Qed.

Lemma charAt_nonempty word i ch : charAt word i = Some ch -> ch <> "".
Proof. unfold charAt. destruct (String.get i word); intros [= <-]; discriminate. Qed.

Lemma overwrite_outside word d q : forall p old,
  (forall j, 0 <= j < Z.of_nat (String.length word) -> q <> stepN p d j) ->
  overwrite word p d q old = old.
Proof.
  induction word as [|c rest IH]; intros p old Hq; [reflexivity|].
  cbn [overwrite]. rewrite IH.
  - destruct (Vector2D.eqb q p) eqn:E; [|reflexivity].
    apply Vector2D_eqb_eq in E. exfalso. apply (Hq 0).
    + cbn [String.length]. lia.
    + rewrite stepN_0. exact E.
  - intros j Hj. rewrite stepN_stepN. apply Hq. cbn [String.length]. lia.
Qed.

Lemma overwrite_at word d : forall p old i ch,
  isRealDirection d = true ->
  charAt word i = Some ch ->
  overwrite word p d (stepN p d (Z.of_nat i)) old = ch.
Proof.
  induction word as [|c rest IH]; intros p old i ch Hd Hch.
  - destruct i; discriminate.
  - cbn [overwrite]. destruct i as [|i].
    + rewrite charAt_0 in Hch. injection Hch as <-.
      change (Z.of_nat 0) with 0. rewrite stepN_0, Vector2D_eqb_refl.
      apply overwrite_outside. intros j Hj Heq.
      rewrite stepN_stepN in Heq. rewrite <- (stepN_0 p d) in Heq at 1.
      apply stepN_inj in Heq; auto. lia.
    + rewrite charAt_S in Hch.
      replace (stepN p d (Z.of_nat (S i)))
        with (stepN (stepN p d 1) d (Z.of_nat i))
        by (rewrite stepN_stepN; f_equal; lia).
      apply IH; auto.
Qed.

Lemma pathConflict_false cfg b word d : forall p i ch,
  pathConflict cfg b word p d = false ->
  charAt word i = Some ch ->
  letterConflict cfg b ch (stepN p d (Z.of_nat i)) = false.
Proof.
  induction word as [|c rest IH]; intros p i ch Hc Hch.
  - destruct i; discriminate.
  - cbn [pathConflict] in Hc. apply orb_false_iff in Hc as [Hc1 Hc2].
    destruct i as [|i].
    + rewrite charAt_0 in Hch. injection Hch as <-.
      change (Z.of_nat 0) with 0. rewrite stepN_0. exact Hc1.
    + rewrite charAt_S in Hch.
      replace (stepN p d (Z.of_nat (S i)))
        with (stepN (stepN p d 1) d (Z.of_nat i))
        by (rewrite stepN_stepN; f_equal; lia).
      apply IH; auto.
Qed.

Lemma letterConflict_false cfg b ch p :
  letterConflict cfg b ch p = false ->
  letterAt b p = "" \/ (allowWordOverlap cfg = true /\ letterAt b p = ch).
Proof.
  unfold letterConflict. intros H.
  destruct (String.eqb_spec (letterAt b p) ""); [auto|]. right.
  cbn [negb andb] in H. apply negb_false_iff, andb_true_iff in H as [Ho He].
  split; [exact Ho|]. apply String.eqb_eq, He.
Qed.

Lemma drawLetters_fits cfg d rest : forall p cells positions,
  board_wf cfg cells ->
  isVectorInBoard cfg p = true ->
  forallb (isVectorInBoard cfg) (path (stepN p d 1) d (String.length rest)) = true ->
  exists cells',
    drawLetters cfg rest (Some p) d cells positions =
      Some (cells', (positions ++ path (stepN p d 1) d (String.length rest))%list) /\
    board_wf cfg cells' /\
    forall q, letterAt cells' q = overwrite rest (stepN p d 1) d q (letterAt cells q).
Proof.
  induction rest as [|c rest IH]; intros p cells positions Hwf Hp Hfit.
  - exists cells. cbn. rewrite app_nil_r. auto.
  - cbn [String.length path forallb] in Hfit.
    apply andb_true_iff in Hfit as [Hq Hfit].
    cbn [drawLetters].
    assert (moveInDirection cfg p d = Some (stepN p d 1)) as ->
      by (apply moveInDirection_Some; auto).
    destruct (updateCell_Some cfg (Cell.set_letter (String c "")) _ _ Hwf Hq)
      as [cells1 Hupd].
    rewrite Hupd.
    destruct (IH (stepN p d 1) cells1 (positions ++ [stepN p d 1])%list
                (updateCell_wf _ _ _ _ _ Hwf Hupd) Hq Hfit)
      as (cells' & Hdraw & Hwf' & Hlet).
    exists cells'. split; [|split; [exact Hwf'|]].
    + rewrite Hdraw. cbn [String.length path]. rewrite <- app_assoc. reflexivity.
    + intros q. rewrite Hlet. cbn [overwrite]. f_equal.
      rewrite (letterAt_updateCell _ _ _ _ q Hupd).
      destruct (Vector2D.eqb q (stepN p d 1)) eqn:E; [|reflexivity].
      apply Vector2D_eqb_eq in E as ->.
      destruct (proj2 (cellAt_inBoard cfg cells _ Hwf) Hq) as [c0 Hc0].
      rewrite Hc0. reflexivity.
Qed.

(** Drawing a non-empty word that fits writes its letters along its path
    and records that path. *)
Lemma drawWord_board_fits cfg word start d cells :
  board_wf cfg cells ->
  word <> "" ->
  doesWordFit cfg word start d = true ->
  exists cells',
    drawWord_board cfg (mkDraw word start d) cells =
      Some (cells', path start d (String.length word)) /\
    board_wf cfg cells' /\
    forall q, letterAt cells' q = overwrite word start d q (letterAt cells q).
Proof.
  intros Hwf Hne Hfit. rewrite doesWordFit_fitsInBounds in Hfit.
  apply andb_true_iff in Hfit as [Hstart Hfit].
  destruct word as [|c rest]; [congruence|].
  cbn [String.length path forallb] in Hfit.
  apply andb_true_iff in Hfit as [_ Hfit].
  unfold drawWord_board. cbn [wd_word startPos direction firstLetter restLetters].
  destruct (updateCell_Some cfg (Cell.set_letter (String c "")) _ _ Hwf Hstart)
    as [cells1 Hupd].
  rewrite Hupd.
  destruct (drawLetters_fits cfg d rest start cells1 [start]
              (updateCell_wf _ _ _ _ _ Hwf Hupd) Hstart Hfit)
    as (cells' & Hdraw & Hwf' & Hlet).
  exists cells'. split; [exact Hdraw|]. split; [exact Hwf'|].
  intros q. rewrite Hlet. cbn [overwrite]. f_equal.
  rewrite (letterAt_updateCell _ _ _ _ q Hupd).
  destruct (Vector2D.eqb q start) eqn:E; [|reflexivity].
  apply Vector2D_eqb_eq in E as ->.
  destruct (proj2 (cellAt_inBoard cfg cells _ Hwf) Hstart) as [c0 Hc0].
  rewrite Hc0. reflexivity.
Qed.

(** ** The registry invariant *)

Lemma placedOn_letter_nonempty cfg b pw p :
  placedOn cfg b pw -> p ∈ Word.pos pw -> letterAt b p <> "".
Proof.
  intros ((start & d & _ & _ & Hpos) & _ & Hlet) Hin.
  apply list_elem_of_lookup_1 in Hin as [i Hi].
  assert (i < String.length (Word.word pw))%nat as Hlt.
  { apply lookup_lt_Some in Hi. rewrite Hpos, path_length in Hi. exact Hi. }
  destruct (charAt_lt_Some _ _ Hlt) as [ch Hch].
  rewrite (Hlet i p ch Hi Hch). eapply charAt_nonempty, Hch.
Qed.

(** Changing the board without touching its non-empty letters keeps the
    registry valid. *)
Lemma registry_ok_letters cfg b b' ws :
  registry_ok cfg b ws ->
  board_wf cfg b' ->
  (forall q, letterAt b q <> "" -> letterAt b' q = letterAt b q) ->
  registry_ok cfg b' ws.
Proof.
  intros (Hwf & Hws & Hdis) Hwf' Hkeep. split; [exact Hwf'|]. split; [|exact Hdis].
  rewrite Forall_forall in *. intros pw Hpw.
  pose proof (Hws pw Hpw) as Hplaced.
  destruct Hplaced as (Hrun & Hin & Hlet). split; [exact Hrun|]. split; [exact Hin|].
  intros i p ch Hi Hch. rewrite Hkeep.
  - eauto.
  - rewrite (Hlet i p ch Hi Hch). eapply charAt_nonempty, Hch.
Qed.

Lemma registry_ok_draw cfg b ws word start d b' :
  registry_ok cfg b ws ->
  word <> "" ->
  isRealDirection d = true ->
  d ∈ allowedDirections cfg ->
  doesWordFit cfg word start d = true ->
  doesWordCollide cfg b word start d = Some false ->
  board_wf cfg b' ->
  (forall q, letterAt b' q = overwrite word start d q (letterAt b q)) ->
  registry_ok cfg b'
    (ws ++ [Word.mk word (path start d (String.length word)) false false]).
Proof.
  intros Hok Hne Hd Hallowed Hfit Hcol Hwf' Hlet.
  pose proof Hok as (Hwf & Hws & Hdis).
  rewrite (doesWordCollide_fits _ _ _ _ _ Hwf Hfit) in Hcol.
  injection Hcol as Hcol. apply orb_false_iff in Hcol as [Hconf _].
  assert (forall i ch, charAt word i = Some ch ->
            letterAt b' (stepN start d (Z.of_nat i)) = ch) as Hnew.
  { intros i ch Hch. rewrite Hlet. apply overwrite_at; auto. }
  assert (forall i ch, charAt word i = Some ch ->
            letterAt b (stepN start d (Z.of_nat i)) = "" \/
            (allowWordOverlap cfg = true /\
             letterAt b (stepN start d (Z.of_nat i)) = ch)) as Hold.
  { intros i ch Hch. apply letterConflict_false.
    eapply pathConflict_false; eauto. }
  assert (forall q, q ∈ path start d (String.length word) ->
            exists i ch, q = stepN start d (Z.of_nat i) /\ charAt word i = Some ch)
    as Hon.
  { intros q Hq. apply elem_of_path in Hq as (j & Hj & ->).
    destruct (charAt_lt_Some word (Z.to_nat j) ltac:(lia)) as [ch Hch].
    exists (Z.to_nat j), ch. split; [f_equal; lia | exact Hch]. }
  assert (forall q, letterAt b q <> "" -> letterAt b' q = letterAt b q) as Hkeep.
  { intros q Hq.
    destruct (decide (q ∈ path start d (String.length word))) as [Hin|Hout].
    - destruct (Hon q Hin) as (i & ch & -> & Hch).
      rewrite (Hnew i ch Hch).
      destruct (Hold i ch Hch) as [He | [_ He]]; congruence.
    - rewrite Hlet. apply overwrite_outside. intros j Hj ->.
      apply Hout, elem_of_path. eauto. }
  destruct (registry_ok_letters cfg b b' ws Hok Hwf' Hkeep) as (_ & Hws' & _).
  assert (Forall (fun p => isVectorInBoard cfg p = true)
            (path start d (String.length word))) as Hinb.
  { rewrite doesWordFit_fitsInBounds in Hfit.
    apply andb_true_iff in Hfit as [_ Hfit].
    rewrite forallb_forall in Hfit. apply Forall_forall.
    intros p Hp. apply Hfit, list_elem_of_In, Hp. }
  split; [exact Hwf'|]. split.
  - apply Forall_app. split; [exact Hws'|]. constructor; [|constructor].
    split; [|split]; cbn [Word.pos Word.word].
    + exists start, d. auto.
    + exact Hinb.
    + intros i p ch Hi Hch.
      rewrite path_lookup in Hi by (eapply charAt_Some_lt, Hch).
      injection Hi as <-. apply Hnew, Hch.
  - intros Hno.
    assert (forall q pw, pw ∈ ws -> q ∈ path start d (String.length word) ->
              q ∉ Word.pos pw) as Hfresh.
    { intros q pw Hpw Hq Hq'.
      rewrite Forall_forall in Hws.
      apply (placedOn_letter_nonempty cfg b pw q (Hws pw Hpw) Hq').
      destruct (Hon q Hq) as (i & ch & -> & Hch).
      destruct (Hold i ch Hch) as [He | [Ho _]]; [exact He | congruence]. }
    intros i j w1 w2 p Hij H1 H2 Hp1.
    apply lookup_app_Some in H1 as [H1 | [Hi1 H1]];
      apply lookup_app_Some in H2 as [H2 | [Hi2 H2]].
    + eapply (Hdis Hno i j); eauto.
    + apply list_lookup_singleton_Some in H2 as [_ <-]. cbn [Word.pos].
      intros Hp2. eapply Hfresh; eauto. eapply list_elem_of_lookup_2, H1.
    + apply list_lookup_singleton_Some in H1 as [_ <-]. cbn [Word.pos] in Hp1.
      eapply Hfresh; eauto. eapply list_elem_of_lookup_2, H2.
    + apply list_lookup_singleton_Some in H1 as [H1 _].
      apply list_lookup_singleton_Some in H2 as [H2 _]. lia.
Qed.

(** * One generation attempt *)

Section RngFrame.
Context (P : Wordsearch -> Prop)
        (HP : forall w n, P w -> P (set_randomCalls n w)).

Lemma preserves_randomBelow_rng n : preserves P (randomBelow n).
Proof. intros w H. apply HP, H. Qed.

Lemma preserves_shuffleSelf_rng {A} steps : forall index (array : list A),
  preserves P (shuffleSelf steps index array).
Proof.
  induction steps as [|steps IH]; intros index array; cbn [shuffleSelf].
  - apply preserves_ret.
  - apply preserves_bind; [apply preserves_randomBelow_rng|]. intros r.
    cbv zeta.
    destruct (array !! (index + r)%nat), (array !! index); apply IH.
Qed.

Lemma preserves_shuffle_rng {A} (l : list A) : preserves P (shuffle l).
Proof. apply preserves_shuffleSelf_rng. Qed.

Lemma preserves_getRandomChar_rng : preserves P getRandomChar.
Proof.
  unfold getRandomChar, getRandomInteger.
  apply preserves_bind; [apply preserves_getThis|]. intros w.
  apply preserves_bind.
  - apply preserves_bind; [apply preserves_randomBelow_rng|]. intros r.
    apply preserves_ret.
  - intros charPos. destruct (String.get _ _); apply preserves_ret.
Qed.

End RngFrame.

(** The elements of a shuffled list come from the list. *)
Lemma shuffleSelf_elem_of {A} steps : forall index (array l' : list A) w w',
  shuffleSelf steps index array w = (Returns l', w') ->
  forall x, x ∈ l' -> x ∈ array.
Proof.
  induction steps as [|steps IH]; intros index array l' w w' H x Hx;
    cbn [shuffleSelf] in H.
  - injection H as <- <-. exact Hx.
  - apply bind_Returns in H as (r & w1 & _ & H). cbv zeta in H.
    destruct (array !! (index + r)%nat) as [value|] eqn:E1;
      [destruct (array !! index) as [other|] eqn:E2|].
    + specialize (IH _ _ _ _ _ H x Hx).
      apply list_elem_of_lookup_1 in IH as [i Hi].
      apply list_lookup_insert_Some in Hi as [(_ & Hv & _) | [_ Hi]].
      * subst x. eapply list_elem_of_lookup_2, E1.
      * apply list_lookup_insert_Some in Hi as [(_ & Hv & _) | [_ Hi]].
        -- subst x. eapply list_elem_of_lookup_2, E2.
        -- eapply list_elem_of_lookup_2, Hi.
    + eapply IH; eauto.
    + eapply IH; eauto.
Qed.

Lemma shuffle_elem_of {A} (l l' : list A) w w' :
  shuffle l w = (Returns l', w') -> forall x, x ∈ l' -> x ∈ l.
Proof. apply shuffleSelf_elem_of. Qed.

(** ** Effects of the board-wide assignments *)

Lemma setCellFieldTo_eq f w o :
  output w = Some o ->
  board_wf (config w) (board o) ->
  setCellFieldTo f w =
    (Returns tt, set_output (Some (set_board (map (map f) (board o)) o)) w).
Proof.
  intros Ho Hwf.
  unfold setCellFieldTo, getBoard, getOutput, setBoard, modifyOutput, getOutput,
    bind, getThis, deref, ret, modify.
  rewrite Ho. cbn. rewrite (setCellFieldTo_board_wf _ f _ Hwf). cbn.
  rewrite Ho. reflexivity.
Qed.

Lemma resetCurrentSelection_eq w o :
  output w = Some o ->
  board_wf (config w) (board o) ->
  resetCurrentSelection w = (Returns tt, resetState o w).
Proof.
  intros Ho Hwf. unfold resetCurrentSelection, calculateSelectables.
  unfold modifyOutput, getOutput, bind, getThis, deref, ret, modify.
  cbn [output set_selectedDirection set_selectedCount]. rewrite Ho.
  erewrite setCellFieldTo_eq; [|reflexivity|exact Hwf].
  erewrite setCellFieldTo_eq; [|reflexivity|apply map_map_wf; exact Hwf].
  cbn [selectedCount set_output set_lastSelectedVector set_selectedDirection
       set_selectedCount Z.eqb Z.gtb Z.compare].
  erewrite setCellFieldTo_eq; [|reflexivity|do 2 apply map_map_wf; exact Hwf].
  unfold resetState, set_output, set_lastSelectedVector, set_selectedDirection,
    set_selectedCount, set_board, set_currentWord. cbn.
  do 4 f_equal. rewrite !map_map. apply map_ext. intros row.
  rewrite !map_map. reflexivity.
Qed.

(** ** Finding a place for a word *)

Lemma fitWordInCell_Some cfg b word cell : forall directions wd,
  fitWordInCell cfg b word cell directions = Some (Some wd) ->
  wd_word wd = word /\ direction wd ∈ directions /\
  doesWordFit cfg word (startPos wd) (direction wd) = true /\
  doesWordCollide cfg b word (startPos wd) (direction wd) = Some false.
Proof.
  induction directions as [|d ds IH]; intros wd H; cbn [fitWordInCell] in H.
  - discriminate.
  - destruct (doesWordFit cfg word (Cell.pos cell) d) eqn:Hfit.
    + destruct (doesWordCollide cfg b word (Cell.pos cell) d) as [[|]|] eqn:Hcol.
      * destruct (IH wd H) as (? & ? & ? & ?). repeat split; auto. right; auto.
      * injection H as <-. cbn. repeat split; auto. left.
      * discriminate.
    + destruct (IH wd H) as (? & ? & ? & ?). repeat split; auto. right; auto.
Qed.

Lemma fitWordInCells_Some cfg b word directions : forall cells wd,
  fitWordInCells cfg b word cells directions = Some (Some wd) ->
  wd_word wd = word /\ direction wd ∈ directions /\
  doesWordFit cfg word (startPos wd) (direction wd) = true /\
  doesWordCollide cfg b word (startPos wd) (direction wd) = Some false.
Proof.
  induction cells as [|cell cells IH]; intros wd H; cbn [fitWordInCells] in H.
  - discriminate.
  - destruct (fitWordInCell cfg b word cell directions) as [[wd'|]|] eqn:E.
    + injection H as <-. eapply fitWordInCell_Some, E.
    + apply IH, H.
    + discriminate.
Qed.

(** A returned draw instruction fits, does not collide, and uses an allowed
    direction; searching changes nothing but the random draws made. *)
Lemma fitWordInRandomPos_Returns word w wd w' :
  fitWordInRandomPos word w = (Returns wd, w') ->
  exists o,
    output w = Some o /\
    w' = set_randomCalls (randomCalls w') w /\
    wd_word wd = word /\
    direction wd ∈ allowedDirections (config w) /\
    doesWordFit (config w) word (startPos wd) (direction wd) = true /\
    doesWordCollide (config w) (board o) word (startPos wd) (direction wd) = Some false.
Proof.
  unfold fitWordInRandomPos. intros H.
  apply bind_Returns in H as (w0 & w1 & [= <- <-] & H).
  apply bind_Returns in H as (directions & w1 & Hdirs & H).
  pose proof (preserves_shuffle_rng (fun x => x = set_randomCalls (randomCalls x) w)
                ltac:(intros ? ? ->; reflexivity) (allowedDirections (config w)) w
                ltac:(destruct w; reflexivity)) as Hw1.
  rewrite Hdirs in Hw1. cbn in Hw1.
  apply bind_Returns in H as (b & w2 & Hb & H).
  unfold getBoard, getOutput, bind, getThis, deref in Hb.
  destruct (output w1) as [o|] eqn:Ho; [|discriminate].
  cbn in Hb. injection Hb as <- <-.
  apply bind_Returns in H as (cells & w3 & Hcells & H).
  pose proof (preserves_shuffle_rng (fun x => x = set_randomCalls (randomCalls x) w)
                ltac:(intros ? ? ->; reflexivity) (concat (board o)) w1 Hw1) as Hw3.
  rewrite Hcells in Hw3. cbn in Hw3.
  apply bind_Returns in H as (found & w4 & Hfound & H).
  destruct (fitWordInCells (config w) (board o) word (rev cells) directions)
    as [found'|] eqn:Hfit; [|discriminate].
  cbn in Hfound. injection Hfound as <- <-.
  destruct found' as [wd'|].
  - injection H as <- <-.
    destruct (fitWordInCells_Some _ _ _ _ _ _ Hfit) as (Hw & Hd & Hf & Hc).
    exists o. split.
    { rewrite Hw1 in Ho. exact Ho. }
    split; [exact Hw3|]. repeat split; auto.
    eapply shuffle_elem_of; eauto.
  - exfalso. exact (throwError_not_Returns _ _ _ _ H).
Qed.

Lemma drawWordInBoard_eq wd w o cells' ps :
  output w = Some o ->
  drawWord_board (config w) wd (board o) = Some (cells', ps) ->
  drawWordInBoard wd w =
    (Returns tt,
     set_output
       (Some (set_words (words o ++ [Word.mk (wd_word wd) ps false false])%list
                (set_board cells' o))) w).
Proof.
  intros Ho Hdraw.
  unfold drawWordInBoard, getBoard, setBoard, modifyOutput, getOutput, bind,
    getThis, deref, ret, modify.
  rewrite Ho. cbn. rewrite Hdraw. cbn. rewrite Ho. reflexivity.
Qed.

Lemma realDirections_elem cfg d :
  forallb isRealDirection (allowedDirections cfg) = true ->
  d ∈ allowedDirections cfg -> isRealDirection d = true.
Proof.
  intros H Hd. rewrite forallb_forall in H. apply H, list_elem_of_In, Hd.
Qed.


(** ** Allocation and filling keep the registry valid *)

Lemma allocateWordsInBoard_Placed c words :
  forallb isRealDirection (allowedDirections c) = true ->
  Forall (fun s => s <> "") words ->
  forall texts w w',
    Placed c texts w ->
    allocateWordsInBoard words w = (Returns tt, w') ->
    Placed c (texts ++ words)%list w'.
Proof.
  intros Hreal. induction words as [|word words IH]; intros Hne texts w w' HP H.
  - cbn in H. injection H as <-. rewrite app_nil_r. exact HP.
  - apply Forall_cons in Hne as [Hword Hne].
    cbn [allocateWordsInBoard] in H.
    apply bind_Returns in H as (wd & w1 & Hfit & H).
    apply bind_Returns in H as ([] & w2 & Hdraw & H).
    destruct HP as (Hc & o & Ho & Hok & Htexts).
    apply fitWordInRandomPos_Returns in Hfit
      as (o1 & Ho1 & Hw1 & Hwd & Hdir & Hf & Hcol).
    rewrite Ho in Ho1. injection Ho1 as <-. rewrite Hc in *.
    assert (config w1 = c) as Hc1 by (rewrite Hw1; cbn; exact Hc).
    assert (output w1 = Some o) as Ho1 by (rewrite Hw1; cbn; exact Ho).
    destruct wd as [wtext start d]. cbn in Hwd, Hdir, Hf, Hcol. subst wtext.
    pose proof Hok as (Hwf & _).
    destruct (drawWord_board_fits c word start d (board o) Hwf Hword Hf)
      as (cells' & Hdb & Hwf' & Hlet).
    rewrite (drawWordInBoard_eq _ w1 o cells' _ Ho1) in Hdraw
      by (rewrite Hc1; exact Hdb).
    injection Hdraw as <-.
    replace (texts ++ word :: words)%list with ((texts ++ [word]) ++ words)%list
      by (rewrite <- app_assoc; reflexivity).
    eapply (IH Hne); [|exact H].
    split; [exact Hc1|]. eexists. split; [reflexivity|]. cbn. split.
    + eapply registry_ok_draw; eauto.
      eapply realDirections_elem; eauto.
    + rewrite map_app, Htexts. reflexivity.
Qed.

Lemma fillInRandomChars_row_Placed c texts x ys : forall w w',
  Placed c texts w ->
  fillInRandomChars_row x ys w = (Returns tt, w') ->
  Placed c texts w'.
Proof.
  induction ys as [|y ys IH]; intros w w' HP H; cbn [fillInRandomChars_row] in H.
  - injection H as <-. exact HP.
  - apply bind_Returns in H as (b & w1 & Hb & H).
    apply bind_Returns in H as (cell & w2 & Hcell & H).
    apply bind_Returns in H as ([] & w3 & Hstep & H).
    eapply IH; [|exact H].
    clear H IH.
    destruct HP as (Hc & o & Ho & Hok & Htexts).
    unfold getBoard, getOutput, bind, getThis, deref, ret in Hb.
    rewrite Ho in Hb. injection Hb as <- <-.
    destruct (cellAt (board o) (Vector2D.mk x y)) as [cell0|] eqn:Hcell0;
      [|discriminate].
    cbn in Hcell. injection Hcell as <- <-.
    destruct (String.eqb_spec (Cell.letter cell0) "") as [Hempty|Hfull].
    + apply bind_Returns in Hstep as (ch & w4 & Hch & Hstep).
      pose proof (preserves_getRandomChar_rng
                    (fun v => v = set_randomCalls (randomCalls v) w)
                    ltac:(intros ? ? ->; reflexivity) w
                    ltac:(destruct w; reflexivity)) as Hw4.
      rewrite Hch in Hw4. cbn in Hw4.
      assert (output w4 = Some o) as Ho4 by (rewrite Hw4; exact Ho).
      unfold getBoard, getOutput, setBoard, modifyOutput, getOutput, bind, getThis,
        deref, ret, modify in Hstep.
      rewrite Ho4 in Hstep.
      destruct (updateCell (Cell.set_letter ch) (Vector2D.mk x y) (board o))
        as [b'|] eqn:Hupd; [|discriminate].
      cbn in Hstep. rewrite Ho4 in Hstep. injection Hstep as <-.
      split; [rewrite Hw4; exact Hc|].
      eexists. split; [reflexivity|]. cbn. split; [|exact Htexts].
      pose proof Hok as (Hwf & _).
      eapply registry_ok_letters; [exact Hok | eapply updateCell_wf; eauto |].
      intros q Hq. rewrite (letterAt_updateCell _ _ _ _ q Hupd).
      destruct (Vector2D.eqb q (Vector2D.mk x y)) eqn:E; [|reflexivity].
      apply Vector2D_eqb_eq in E as ->. exfalso. apply Hq.
      unfold letterAt. rewrite Hcell0. exact Hempty.
    + injection Hstep as <-. split; [exact Hc|]. eauto.
Qed.

Lemma fillInRandomChars_rows_Placed c texts ys xs : forall w w',
  Placed c texts w ->
  fillInRandomChars_rows xs ys w = (Returns tt, w') ->
  Placed c texts w'.
Proof.
  induction xs as [|x xs IH]; intros w w' HP H; cbn [fillInRandomChars_rows] in H.
  - injection H as <-. exact HP.
  - apply bind_Returns in H as ([] & w1 & Hrow & H).
    eapply IH; [|exact H]. eapply fillInRandomChars_row_Placed; eauto.
Qed.

Lemma fillInRandomChars_Placed c texts w w' :
  Placed c texts w ->
  fillInRandomChars w = (Returns tt, w') ->
  Placed c texts w'.
Proof.
  unfold fillInRandomChars. intros HP H.
  apply bind_Returns in H as (w0 & w1 & [= <- <-] & H).
  eapply fillInRandomChars_rows_Placed; eauto.
Qed.

(** ** Sourced words *)

Lemma stable_config c : stable (fun w => config w = c).
Proof. split; intros; assumption. Qed.

Lemma wordCriteria_sourced cfg word words :
  wordCriteria cfg (Some word) words = true ->
  word ∈ dictionary (wordsConfig cfg) ->
  sourced cfg word.
Proof.
  unfold wordCriteria. intros H Hin. split; [|exact Hin].
  apply andb_true_iff in H as [H _]. apply andb_true_iff in H as [H _].
  apply andb_true_iff in H as [H _]. intros ->. cbn in H. discriminate.
Qed.

Lemma pushIf_sourced cfg word words :
  Forall (sourced cfg) words ->
  (forall s, word = Some s -> s ∈ dictionary (wordsConfig cfg)) ->
  Forall (sourced cfg) (pushIf (wordCriteria cfg word words) word words).
Proof.
  intros Hws Hin. destruct word as [s|]; cbn [pushIf]; [|exact Hws].
  destruct (wordCriteria cfg (Some s) words) eqn:E; [|exact Hws].
  apply Forall_app. split; [exact Hws|]. constructor; [|constructor].
  eapply wordCriteria_sourced; eauto.
Qed.

Lemma getRandomWords_loop_sourced tries : forall words0 w words w',
  Forall (sourced (config w)) words0 ->
  getRandomWords_loop tries words0 w = (Returns words, w') ->
  Forall (sourced (config w)) words.
Proof.
  induction tries as [|tries IH]; intros words0 w words w' H0 H;
    cbn [getRandomWords_loop] in H; unfold bind at 1, getThis at 1 in H;
    destruct (_ <? _).
  - discriminate.
  - injection H as <- <-. exact H0.
  - apply bind_Returns in H as (word & w1 & Hword & H). cbv zeta in H.
    pose proof (preserves_getRandomWord _ (stable_config (config w)) w eq_refl) as Hc.
    rewrite Hword in Hc. cbn in Hc.
    assert (forall s, word = Some s -> s ∈ dictionary (wordsConfig (config w))) as Hin.
    { intros s ->. unfold getRandomWord, bind, getThis, randomBelow, ret in Hword.
      injection Hword as Hs _. eapply list_elem_of_lookup_2, Hs. }
    destruct tries as [|tries].
    + exfalso. exact (throwError_not_Returns _ _ _ _ H).
    + rewrite <- Hc. eapply IH; [|exact H]. rewrite Hc.
      apply pushIf_sourced; auto.
  - injection H as <- <-. exact H0.
Qed.

Lemma getSequentialWords_loop_sourced rest : forall words0 w words w',
  Forall (sourced (config w)) words0 ->
  (forall s, s ∈ rest -> s ∈ dictionary (wordsConfig (config w))) ->
  getSequentialWords_loop rest words0 w = (Returns words, w') ->
  Forall (sourced (config w)) words.
Proof.
  induction rest as [|word rest IH]; intros words0 w words w' H0 Hrest H;
    cbn [getSequentialWords_loop] in H; unfold bind at 1, getThis at 1 in H;
    destruct (_ <? _).
  - exfalso. exact (throwError_not_Returns _ _ _ _ H).
  - injection H as <- <-. exact H0.
  - cbv zeta in H. eapply IH; [| |exact H].
    + apply pushIf_sourced; auto. intros s [= <-]. apply Hrest. left.
    + intros s Hs. apply Hrest. right. exact Hs.
  - injection H as <- <-. exact H0.
Qed.

Lemma getRandomWordsFromDictionary_eq :
  getRandomWords_loop 100 [] = getRandomWordsFromDictionary.
Proof. exact (@eq_refl _ (getRandomWords_loop 100 [])). Qed.

Lemma getWords_sourced w words w' :
  getWords w = (Returns words, w') ->
  config w' = config w /\ Forall (sourced (config w)) words.
Proof.
  intros H. split.
  - pose proof (preserves_getWords _ (stable_config (config w)) w eq_refl) as Hc.
    rewrite H in Hc. exact Hc.
  - unfold getWords in H.
    apply bind_Returns in H as (w0 & w1 & Hget & H). injection Hget as <- <-.
    destruct (random (wordsConfig (config w))).
    + rewrite <- getRandomWordsFromDictionary_eq in H.
      eapply (getRandomWords_loop_sourced 100 []); [|exact H]. constructor.
    + unfold getSequentialWords in H.
      apply bind_Returns in H as (w2 & w3 & Hget & H). injection Hget as <- <-.
      eapply getSequentialWords_loop_sourced; [| |exact H]; [constructor | auto].
Qed.

(** ** The whole attempt *)

Lemma getBlankBoard_wf cfg : board_wf cfg (getBlankBoard cfg).
Proof.
  unfold getBlankBoard. split.
  - rewrite length_map, length_seqZ. reflexivity.
  - apply Forall_forall. intros row Hrow.
    apply list_elem_of_In, in_map_iff in Hrow as (x & <- & _).
    rewrite length_map, length_seqZ. reflexivity.
Qed.

Lemma registry_ok_nil cfg b : board_wf cfg b -> registry_ok cfg b [].
Proof.
  intros Hwf. split; [exact Hwf|]. split; [constructor|].
  intros _ i j w1 w2 p _ H. rewrite lookup_nil in H. discriminate.
Qed.

(** A successful attempt returns the stored output; board and registry are
    consistent and every registry word is a non-empty dictionary entry. *)
Lemma generateAttempt_Returns w out w' :
  forallb isRealDirection (allowedDirections (config w)) = true ->
  generateAttempt w = (Returns out, w') ->
  output w' = Some out /\ config w' = config w /\
  registry_ok (config w) (board out) (words out) /\
  Forall (sourced (config w)) (map Word.word (words out)).
Proof.
  intros Hreal H. unfold generateAttempt in H.
  apply bind_Returns in H as (texts & w1 & Hwords & H).
  apply getWords_sourced in Hwords as [Hc1 Hsrc].
  apply bind_Returns in H as (w1' & w1'' & [= <- <-] & H).
  apply bind_Returns in H as ([] & w2 & [= <-] & H).
  apply bind_Returns in H as ([] & w3 & Hreset & H).
  erewrite resetCurrentSelection_eq in Hreset;
    [|reflexivity|cbn; apply getBlankBoard_wf].
  injection Hreset as <-.
  apply bind_Returns in H as ([] & w4 & Halloc & H).
  apply bind_Returns in H as ([] & w5 & Hfill & H).
  apply bind_Returns in H as ([] & w6 & [= <-] & H).
  assert (Placed (config w) [] (resetState
            (mkOutput (getBlankBoard (config w1)) [] "" false "")
            (set_output (Some (mkOutput (getBlankBoard (config w1)) [] "" false "")) w1)))
    as HP0.
  { split; [exact Hc1|]. eexists. split; [reflexivity|]. cbn. split; [|reflexivity].
    apply registry_ok_nil. rewrite Hc1. apply map_map_wf, getBlankBoard_wf. }
  pose proof (allocateWordsInBoard_Placed (config w) texts Hreal
                ltac:(eapply Forall_impl; [exact Hsrc | intros s [Hs _]; exact Hs])
                _ _ _ HP0 Halloc) as HP1.
  cbn [app] in HP1.
  pose proof (fillInRandomChars_Placed _ _ _ _ HP1 Hfill) as (Hc5 & o5 & Ho5 & Hok5 & Ht5).
  unfold getOutput, bind, getThis, deref in H. cbn [output set_generationTimes] in H.
  rewrite Ho5 in H. injection H as Hout Hw'. subst out w'.
  cbn. split; [exact Ho5|]. split; [exact Hc5|]. split; [exact Hok5|].
  rewrite Ht5. exact Hsrc.
Qed.

(** * Properties of a generated puzzle *)

Lemma getStrInCase_idem cfg s : getStrInCase cfg (getStrInCase cfg s) = getStrInCase cfg s.
Proof.
  unfold getStrInCase. destruct (case (wordsConfig cfg)).
  - apply toLowerCase_idem.
  - apply toLocaleUpperCase_idem.
Qed.

Lemma getStrInCase_sameSettings c c' s :
  sameSettings c c' -> getStrInCase c' s = getStrInCase c s.
Proof. intros (_ & _ & _ & Hcase). unfold getStrInCase. rewrite Hcase. reflexivity. Qed.

Lemma sameSettings_refl c : sameSettings c c.
Proof. repeat split. Qed.

Lemma sameSettings_trans c1 c2 c3 :
  sameSettings c1 c2 -> sameSettings c2 c3 -> sameSettings c1 c3.
Proof.
  intros (? & ? & ? & ?) (? & ? & ? & ?). repeat split; congruence.
Qed.

Lemma sameSettings_caseConfig c : sameSettings c (caseConfig c).
Proof. repeat split. Qed.

Lemma setCase_config w w1 :
  setCase w = (Returns tt, w1) -> config w1 = caseConfig (config w).
Proof.
  unfold setCase. intros H.
  apply bind_Returns in H as (w0 & w2 & [= <- <-] & H).
  apply bind_Returns in H as ([] & w2 & Hfirst & H).
  injection H as <-. cbn [config set_config].
  assert (config w2 = config w) as ->; [|reflexivity].
  pose proof (stable_config (config w)) as HP.
  assert (preserves (fun v => config v = config w)
            match output w with
            | Some _ =>
                setCellFieldTo
                  (fun c => Cell.set_letter (getStrInCase (config w) (Cell.letter c)) c) ;;
                modifyOutput (fun o =>
                  set_words
                    (map (fun wd => Word.mk (getStrInCase (config w) (Word.word wd))
                                      (Word.pos wd) (Word.found wd) (Word.shown wd))
                       (words o)) o)
            | None => ret tt
            end) as Hpres by (frame HP).
  specialize (Hpres w eq_refl). rewrite Hfirst in Hpres. exact Hpres.
Qed.

Lemma preserves_generateAttempt P :
  stable P -> (forall w g, P w -> P (set_generationTimes g w)) ->
  preserves P generateAttempt.
Proof.
  intros HP Hg. unfold generateAttempt.
  apply preserves_bind; [apply (preserves_getWords _ HP)|]. intros words.
  apply preserves_bind; [apply preserves_getThis|]. intros w.
  apply preserves_bind.
  { apply preserves_modify. intros v. apply (stable_output _ HP). }
  intros _.
  apply preserves_bind; [apply (preserves_resetCurrentSelection _ HP)|]. intros _.
  apply preserves_bind; [apply (preserves_allocateWordsInBoard _ HP)|]. intros _.
  apply preserves_bind; [apply (preserves_fillInRandomChars _ HP)|]. intros _.
  apply preserves_bind; [apply preserves_modify; intros v; apply Hg|]. intros _.
  apply preserves_getOutput.
Qed.

Lemma attemptRound_Succeeded w out w2 :
  attemptRound w = (Returns (Succeeded out), w2) ->
  exists w1, setCase w = (Returns tt, w1) /\ generateAttempt w1 = (Returns out, w2).
Proof.
  unfold attemptRound. intros H.
  apply bind_Returns in H as ([] & w1 & Hcase & H).
  apply bind_Returns in H as (w0 & w1' & [= <- <-] & H).
  destruct (validConfig (config w1)).
  { exfalso. exact (throwError_not_Returns _ _ _ _ H). }
  unfold tryCatch, bind, ret in H.
  destruct (generateAttempt w1) as [[out'|e|] w3] eqn:E; try discriminate.
  injection H as <- <-. exists w1. split; [exact Hcase | exact E].
Qed.

Lemma attemptRound_Failed_config w e w2 :
  attemptRound w = (Returns (Failed e), w2) -> config w2 = caseConfig (config w).
Proof.
  unfold attemptRound. intros H.
  apply bind_Returns in H as ([] & w1 & Hcase & H).
  apply bind_Returns in H as (w0 & w1' & [= <- <-] & H).
  apply setCase_config in Hcase.
  destruct (validConfig (config w1)).
  { exfalso. exact (throwError_not_Returns _ _ _ _ H). }
  unfold tryCatch, bind, ret in H.
  pose proof (preserves_generateAttempt _ (stable_config (config w1))
                (fun _ _ H => H) w1 eq_refl) as Hc.
  destruct (generateAttempt w1) as [[out'|e'|] w3]; try discriminate.
  injection H as <- <-. cbn in Hc. congruence.
Qed.

Lemma caseConfig_dictionary_cased c :
  Forall (fun s => getStrInCase c s = s) (dictionary (wordsConfig (caseConfig c))).
Proof.
  cbn. apply Forall_forall. intros s Hs.
  apply list_elem_of_In, in_map_iff in Hs as (s0 & <- & _).
  apply getStrInCase_idem.
Qed.

(** A board returned by [generate] comes from a successful attempt that ran
    under the settings of the call, on a dictionary in the configured
    case. *)
Lemma generate_rec_Returns retries : forall w out w',
  generate_rec retries w = (Returns out, w') ->
  exists w1,
    generateAttempt w1 = (Returns out, w') /\
    sameSettings (config w) (config w1) /\
    Forall (fun s => getStrInCase (config w) s = s)
           (dictionary (wordsConfig (config w1))).
Proof.
  induction retries as [|retries IH]; intros w out w' H;
    rewrite generate_rec_round in H;
    destruct (attemptRound w) as [[[out1|e]|e|] w2] eqn:Er; try discriminate.
  - injection H as <- <-. apply attemptRound_Succeeded in Er as (w1 & Hcase & Hatt).
    apply setCase_config in Hcase. exists w1. split; [exact Hatt|].
    rewrite Hcase. split; [apply sameSettings_caseConfig|].
    apply caseConfig_dictionary_cased.
  - destruct (_ >? _); [|discriminate].
    exfalso. exact (throwError_not_Returns _ _ _ _ H).
  - injection H as <- <-. apply attemptRound_Succeeded in Er as (w1 & Hcase & Hatt).
    apply setCase_config in Hcase. exists w1. split; [exact Hatt|].
    rewrite Hcase. split; [apply sameSettings_caseConfig|].
    apply caseConfig_dictionary_cased.
  - destruct (_ >? _).
    { exfalso. exact (throwError_not_Returns _ _ _ _ H). }
    apply attemptRound_Failed_config in Er.
    destruct (IH _ _ _ H) as (w1 & Hatt & Hsame & Hdict).
    assert (sameSettings (config w) (config (retryState w2))) as Hs.
    { cbn. rewrite Er. apply sameSettings_caseConfig. }
    exists w1. split; [exact Hatt|]. split.
    + eapply sameSettings_trans; eauto.
    + eapply Forall_impl; [exact Hdict|]. intros s Hs'. cbn in Hs'.
      rewrite <- (getStrInCase_sameSettings _ _ s Hs). exact Hs'.
Qed.

Lemma generate_Returns w out w' :
  generate w = (Returns out, w') ->
  exists w1,
    generateAttempt w1 = (Returns out, w') /\
    sameSettings (config w) (config w1) /\
    Forall (fun s => getStrInCase (config w) s = s)
           (dictionary (wordsConfig (config w1))).
Proof.
  unfold generate. intros H.
  apply bind_Returns in H as (w0 & w1 & [= <- <-] & H).
  eapply generate_rec_Returns, H.
Qed.

Lemma readLetters_word b : forall word ps,
  length ps = String.length word ->
  (forall i p ch, ps !! i = Some p -> charAt word i = Some ch -> letterAt b p = ch) ->
  readLetters b ps = word.
Proof.
  induction word as [|c rest IH]; intros ps Hlen Hlet.
  - destruct ps; [reflexivity | discriminate].
  - destruct ps as [|p ps]; [discriminate|]. cbn [readLetters].
    rewrite (Hlet O p (String c "") eq_refl (charAt_0 c rest)).
    rewrite (IH ps).
    + reflexivity.
    + cbn in Hlen. lia.
    + intros i q ch Hi Hch. apply (Hlet (S i)); auto.
Qed.

(** The registry of a generated puzzle, in the terms of the instance on
    which [generate] was called. *)
Lemma generate_registry w out w' :
  forallb isRealDirection (allowedDirections (config w)) = true ->
  generate w = (Returns out, w') ->
  exists c,
    sameSettings (config w) c /\
    registry_ok c (board out) (words out) /\
    Forall (fun pw => getStrInCase (config w) (Word.word pw) = Word.word pw)
           (words out).
Proof.
  intros Hreal H. apply generate_Returns in H as (w1 & Hatt & Hsame & Hdict).
  pose proof Hsame as (_ & Hdirs & _ & _).
  apply generateAttempt_Returns in Hatt as (_ & _ & Hok & Hsrc);
    [|rewrite Hdirs; exact Hreal].
  exists (config w1). split; [exact Hsame|]. split; [exact Hok|].
  rewrite Forall_forall in Hsrc. rewrite Forall_forall in Hdict.
  apply Forall_forall. intros pw Hpw.
  destruct (Hsrc (Word.word pw)) as [_ Hin].
  { apply list_elem_of_In, in_map, list_elem_of_In, Hpw. }
  apply Hdict, Hin.
Qed.

(** C2, as amended.  After a successful generation whose allowed
    directions are all among the eight real ones (so not [NONE]), every
    registry entry has one position per letter, its positions form a
    straight run in one allowed direction, and the letters of the returned
    board (that is, after the random fill) read along these positions are
    the word's text, which is in the configured case: [getStrInCase]
    leaves it as it is. *)
Theorem C2_placed_words_read_back (w w' : Wordsearch) (out : WordsearchOutput) :
  forallb isRealDirection (allowedDirections (config w)) = true ->
  generate w = (Returns out, w') ->
  forall pw, pw ∈ words out ->
    length (Word.pos pw) = String.length (Word.word pw) /\
    (exists start d,
       isRealDirection d = true /\ d ∈ allowedDirections (config w) /\
       Word.pos pw = path start d (String.length (Word.word pw))) /\
    readLetters (board out) (Word.pos pw) = Word.word pw /\
    getStrInCase (config w) (Word.word pw) = Word.word pw.
Proof.
  intros Hreal Hgen pw Hpw.
  destruct (generate_registry w out w' Hreal Hgen)
    as (c & (_ & Hdirs & _ & _) & (_ & Hws & _) & Hcase).
  rewrite Forall_forall in Hws, Hcase.
  destruct (Hws pw Hpw) as ((start & d & Hd & Hin & Hpos) & _ & Hlet).
  assert (length (Word.pos pw) = String.length (Word.word pw)) as Hlen
    by (rewrite Hpos; apply path_length).
  split; [exact Hlen|]. split.
  - exists start, d. rewrite <- Hdirs. auto.
  - split; [apply readLetters_word; assumption | apply Hcase, Hpw].
Qed.


(** * The retry budget *)

(** One whole-puzzle attempt sources its words anew and places them on a
    blank board. *)
Lemma generateAttempt_fresh w : generateAttempt w = freshAttempt w.
Proof.
  unfold generateAttempt, freshAttempt. unfold bind at 1.
  destruct (getWords w) as [[ws|e|] w1]; try reflexivity.
  unfold bind at 1, getThis at 1. unfold bind at 1, modify at 1.
  unfold bind at 1.
  erewrite resetCurrentSelection_eq; [|reflexivity|cbn; apply getBlankBoard_wf].
  reflexivity.
Qed.

Lemma attemptRound_fresh w w1 :
  setCase w = (Returns tt, w1) ->
  validConfig (config w1) = None ->
  attemptRound w = attemptOutcome (freshAttempt w1).
Proof.
  intros Hcase Hvalid. unfold attemptRound. unfold bind at 1. rewrite Hcase.
  unfold bind at 1, getThis at 1. rewrite Hvalid.
  unfold tryCatch, bind, ret. rewrite generateAttempt_fresh.
  destruct (freshAttempt w1) as [[out|e|] w2]; reflexivity.
Qed.

Lemma throwError_givesUp e w :
  throwError (giveUpMessage e) (giveUpState w) = givesUp e w.
Proof.
  unfold givesUp, throwError, bind, modifyOutput, getOutput, bind, getThis, deref,
    modify, throw, ret.
  change (output (giveUpState w)) with (output w).
  destruct (output w); reflexivity.
Qed.

(** C3, as amended.  Started with its attempt counter at 0, [generate] makes
    at most 51 whole-puzzle attempts: the first one and up to 50 retries.
    Every attempt that passes validation is a fresh one ([freshAttempt]):
    its words are sourced anew and placed on a blank board with an empty
    registry.  Let attempt number [k + 1] be reached after [k <= 50] failed
    attempts.  If it succeeds, [generate] returns its output.  If it fails
    and it is the 51st, [generate] returns no board: it gives up through
    [throwError] with "Unable to generate game, max amount of iterations
    reached. " followed by the error of this last attempt, which is thrown
    and recorded in [output.error] when the instance holds an output
    record, and replaced by a [TypeError] when it holds none.  An error
    raised before the [try] block is not retried. *)
Theorem C3_retry_budget (w wk : Wordsearch) (k : nat) :
  generationTimes w = 0 ->
  (k <= 50)%nat ->
  afterFailures k w = Some wk ->
  (forall j wj w1,
     (j <= k)%nat -> afterFailures j w = Some wj ->
     setCase wj = (Returns tt, w1) -> validConfig (config w1) = None ->
     attemptRound wj = attemptOutcome (freshAttempt w1)) /\
  match attemptRound wk with
  | (Returns (Succeeded out), w2) => generate w = (Returns out, w2)
  | (Returns (Failed e), w2) => k = 50%nat -> generate w = givesUp e w2
  | (Throws e, w2) => generate w = (Throws e, w2)
  | (Diverges, w2) => generate w = (Diverges, w2)
  end.
Proof.
  intros H0 Hk Hwk. split.
  { intros j wj w1 _ _ Hcase Hvalid. exact (attemptRound_fresh wj w1 Hcase Hvalid). }
  assert (generate w = generate_rec (50 - k) wk) as Hgen.
  { unfold generate, bind, getThis. rewrite H0.
    change (Z.to_nat (50 - 0)) with 50%nat.
    replace 50%nat with (k + (50 - k))%nat at 1 by lia.
    apply generate_rec_afterFailures; [exact Hwk | lia]. }
  rewrite Hgen, generate_rec_round.
  pose proof (afterFailures_generationTimes _ _ _ Hwk) as Hg.
  destruct (attemptRound wk) as [[[out|e]|e|] w2] eqn:Er; try reflexivity.
  intros ->. apply attemptRound_Failed_generationTimes in Er.
  rewrite <- throwError_givesUp.
  destruct (Z.gtb_spec (generationTimes w2 + 1) 50); [reflexivity | lia].
Qed.

(** * Rays on the board *)

Lemma walk_None cfg fuel d : walk cfg fuel None d = Some [].
Proof. destruct fuel; reflexivity. Qed.

Lemma walk_fuel_enough cfg d : forall fuel q,
  isRealDirection d = true ->
  isVectorInBoard cfg q = true ->
  stepsLeft cfg q d < Z.of_nat fuel ->
  is_Some (walk cfg fuel (Some q) d).
Proof.
  induction fuel as [|fuel IH]; intros q Hd Hq Hsteps.
  - apply isVectorInBoard_spec in Hq. destruct q, d; cbn in *; try discriminate; lia.
  - cbn [walk]. destruct (moveInDirection cfg q d) as [q'|] eqn:E.
    + apply moveInDirection_Some in E as [-> Hq'].
      destruct (IH (stepN q d 1) Hd Hq') as [cells Hcells].
      * apply isVectorInBoard_spec in Hq, Hq'.
        destruct q, d; cbn in *; try discriminate; lia.
      * rewrite Hcells. cbn. eauto.
    + rewrite walk_None. cbn. eauto.
Qed.

(** A walk in a real direction leaves the board within [size] steps. *)
Lemma walk_terminates cfg p d :
  isRealDirection d = true ->
  is_Some (walk cfg (walkFuel cfg) (moveInDirection cfg p d) d).
Proof.
  intros Hd. destruct (moveInDirection cfg p d) as [q|] eqn:E;
    [|rewrite walk_None; eauto].
  apply moveInDirection_Some in E as [_ Hq].
  apply walk_fuel_enough; auto.
  pose proof Hq as Hq'. apply isVectorInBoard_spec in Hq'.
  unfold walkFuel. destruct q, d; cbn in *; try discriminate; lia.
Qed.

Lemma walk_elem cfg d q : forall fuel p cells,
  walk cfg fuel (moveInDirection cfg p d) d = Some cells ->
  q ∈ cells <-> onRay cfg p d q.
Proof.
  induction fuel as [|fuel IH]; intros p cells H;
    destruct (moveInDirection cfg p d) as [p1|] eqn:E; cbn [walk] in H.
  - discriminate.
  - injection H as <-. apply moveInDirection_None in E. split.
    + intros Hin. inversion Hin.
    + intros (k & Hk & _ & Hall). specialize (Hall 1 ltac:(lia)). congruence.
  - destruct (walk cfg fuel (moveInDirection cfg p1 d) d) as [cells'|] eqn:Hw;
      [|discriminate].
    cbn in H. injection H as <-.
    apply moveInDirection_Some in E as [-> Hp1].
    rewrite elem_of_cons, (IH _ _ Hw). split.
    + intros [-> | (k & Hk & -> & Hall)].
      * exists 1. split; [lia|]. split; [reflexivity|].
        intros j Hj. replace j with 1 by lia. exact Hp1.
      * exists (1 + k). split; [lia|]. split; [apply stepN_stepN|].
        intros j Hj. destruct (Z.eq_dec j 1) as [->|Hne]; [exact Hp1|].
        replace j with (1 + (j - 1)) by lia. rewrite <- stepN_stepN.
        apply Hall. lia.
    + intros (k & Hk & -> & Hall).
      destruct (Z.eq_dec k 1) as [->|Hne]; [left; reflexivity|]. right.
      exists (k - 1). split; [lia|]. split.
      * rewrite stepN_stepN. f_equal. lia.
      * intros j Hj. rewrite stepN_stepN. apply Hall. lia.
  - injection H as <-. apply moveInDirection_None in E. split.
    + intros Hin. inversion Hin.
    + intros (k & Hk & _ & Hall). specialize (Hall 1 ltac:(lia)). congruence.
Qed.

Lemma onRay_inBoard cfg p d q : onRay cfg p d q -> isVectorInBoard cfg q = true.
Proof. intros (k & Hk & -> & Hall). apply Hall. lia. Qed.

(** From a cell of the board, the ray is made of the board cells that lie
    a positive number of steps away. *)
Lemma onRay_from_inBoard cfg p d q :
  isVectorInBoard cfg p = true ->
  onRay cfg p d q <->
  isVectorInBoard cfg q = true /\ exists k, 1 <= k /\ q = stepN p d k.
Proof.
  intros Hp. split.
  - intros H. split; [eapply onRay_inBoard, H|].
    destruct H as (k & Hk & Hq & _). eauto.
  - intros (Hq & k & Hk & ->). exists k. split; [exact Hk|]. split; [reflexivity|].
    intros j Hj. eapply inBoard_between; eauto. lia.
Qed.

(** Two rays from the same cell in different real directions share no
    cell. *)
Lemma ray_direction_unique p d d' k k' :
  isRealDirection d = true -> isRealDirection d' = true ->
  1 <= k -> 1 <= k' ->
  stepN p d k = stepN p d' k' -> d = d' /\ k = k'.
Proof.
  destruct p as [px py].
  destruct d, d'; unfold stepN; cbn; try discriminate;
    intros _ _ Hk Hk' [= H1 H2]; try lia; split; try reflexivity; lia.
Qed.

(** ** The search for a direction *)

Lemma rayReaches_walk cfg d target : forall fuel v cells,
  walk cfg fuel v d = Some cells ->
  rayReaches cfg fuel v d target = Returns (bool_decide (target ∈ cells)).
Proof.
  induction fuel as [|fuel IH]; intros v cells H; destruct v as [p|]; cbn [walk] in H.
  - discriminate.
  - injection H as <-. reflexivity.
  - destruct (walk cfg fuel (moveInDirection cfg p d) d) as [cells'|] eqn:Hw;
      [|discriminate].
    cbn in H. injection H as <-. cbn [rayReaches].
    destruct (Vector2D.eqb p target) eqn:E.
    + apply Vector2D_eqb_eq in E as ->.
      rewrite bool_decide_eq_true_2; [reflexivity | left].
    + rewrite (IH _ _ Hw). f_equal. apply Vector2D_eqb_neq in E.
      apply bool_decide_ext. rewrite elem_of_cons. split; [auto|].
      intros [->|H]; [congruence | exact H].
  - injection H as <-. reflexivity.
Qed.

Lemma rayReaches_spec cfg p d target :
  isRealDirection d = true ->
  exists r, rayReaches cfg (walkFuel cfg) (moveInDirection cfg p d) d target = Returns r /\
            (r = true <-> onRay cfg p d target).
Proof.
  intros Hd. destruct (walk_terminates cfg p d Hd) as [cells Hw].
  exists (bool_decide (target ∈ cells)). split.
  - apply rayReaches_walk, Hw.
  - rewrite bool_decide_eq_true. eapply walk_elem, Hw.
Qed.

Lemma getDirectionFrom2Vectors_from_None cfg v1 v2 : forall ds,
  Forall (fun d => isRealDirection d = true) ds ->
  (forall d, d ∈ ds -> ~ onRay cfg v1 d v2) ->
  getDirectionFrom2Vectors_from cfg v1 v2 ds = Returns None.
Proof.
  induction ds as [|d ds IH]; intros Hreal Hno; [reflexivity|].
  apply Forall_cons in Hreal as [Hd Hreal]. cbn [getDirectionFrom2Vectors_from].
  destruct (rayReaches_spec cfg v1 d v2 Hd) as (r & -> & Hr).
  destruct r.
  - exfalso. apply (Hno d); [left | apply Hr; reflexivity].
  - apply IH; auto. intros d' Hd'. apply Hno. right. exact Hd'.
Qed.

Lemma getDirectionFrom2Vectors_from_Some cfg v1 v2 d : forall ds,
  Forall (fun d => isRealDirection d = true) ds ->
  d ∈ ds -> onRay cfg v1 d v2 ->
  (forall d', d' ∈ ds -> onRay cfg v1 d' v2 -> d' = d) ->
  getDirectionFrom2Vectors_from cfg v1 v2 ds = Returns (Some d).
Proof.
  induction ds as [|d0 ds IH]; intros Hreal Hin Hon Huniq; [inversion Hin|].
  apply Forall_cons in Hreal as [Hd0 Hreal]. cbn [getDirectionFrom2Vectors_from].
  destruct (rayReaches_spec cfg v1 d0 v2 Hd0) as (r & -> & Hr).
  destruct r.
  - rewrite (Huniq d0); [reflexivity | left | apply Hr; reflexivity].
  - apply IH; auto.
    + apply elem_of_cons in Hin as [->|Hin]; [|exact Hin].
      apply Hr in Hon. discriminate.
    + intros d' Hd'. apply Huniq. right. exact Hd'.
Qed.

Lemma allDirections_real : Forall (fun d => isRealDirection d = true) allDirections.
Proof. repeat constructor. Qed.

Lemma allDirections_complete d : isRealDirection d = true -> d ∈ allDirections.
Proof.
  unfold allDirections. destruct d; try discriminate; intros _;
    repeat (first [left | right]).
Qed.

Lemma onRay_unique cfg p d d' q :
  isRealDirection d = true -> isRealDirection d' = true ->
  onRay cfg p d q -> onRay cfg p d' q -> d' = d.
Proof.
  intros Hd Hd' (k & Hk & -> & _) (k' & Hk' & Heq & _).
  destruct (ray_direction_unique p d d' k k' Hd Hd' Hk Hk' Heq) as [-> _].
  reflexivity.
Qed.

(** [getDirectionFrom2Vectors] finds the real direction whose ray from
    [v1] meets [v2], and none when there is no such ray. *)
Lemma getDirectionFrom2Vectors_Some cfg v1 v2 d :
  isRealDirection d = true -> onRay cfg v1 d v2 ->
  getDirectionFrom2Vectors cfg v1 v2 = Returns (Some d).
Proof.
  intros Hd Hon. apply getDirectionFrom2Vectors_from_Some; auto.
  - apply allDirections_real.
  - apply allDirections_complete, Hd.
  - intros d' Hd' Hon'. eapply onRay_unique; eauto.
    pose proof allDirections_real as H. rewrite Forall_forall in H. auto.
Qed.

Lemma getDirectionFrom2Vectors_None cfg v1 v2 :
  (forall d, isRealDirection d = true -> ~ onRay cfg v1 d v2) ->
  getDirectionFrom2Vectors cfg v1 v2 = Returns None.
Proof.
  intros Hno. apply getDirectionFrom2Vectors_from_None.
  - apply allDirections_real.
  - intros d Hd. apply Hno.
    pose proof allDirections_real as H. rewrite Forall_forall in H. auto.
Qed.

(** * Rejected selections *)

Lemma getBoard_eq w o : output w = Some o -> getBoard w = (Returns (board o), w).
Proof.
  intros Ho. unfold getBoard, getOutput, bind, getThis, deref, ret. rewrite Ho.
  reflexivity.
Qed.

(** C7, as amended.  For every position that is a cell of the stored board:
    if the cell is not selectable, or if a cell is already selected and the
    position lies on none of the eight rays that leave the last selected
    cell, then [selectCell] returns false without throwing and leaves the
    whole instance, hence board flags, selection count, accumulated word
    and anchor, as it was. *)
Theorem C7_rejected_selection_changes_nothing
  (w : Wordsearch) (o : WordsearchOutput) (pos : Vector2D.t) (c : Cell.t) :
  output w = Some o ->
  cellAt (board o) pos = Some c ->
  (Cell.selectable c = false \/
   exists lsv, lastSelectedVector w = Some lsv /\
     forall d, isRealDirection d = true -> ~ onRay (config w) lsv d pos) ->
  selectCell pos w = (Returns false, w).
Proof.
  intros Ho Hc Hrej. unfold selectCell.
  unfold bind at 1. rewrite (getBoard_eq w o Ho).
  unfold bind at 1, deref. rewrite Hc. unfold ret at 1.
  destruct (Cell.selectable c) eqn:Hsel; [|reflexivity].
  destruct Hrej as [Hrej | (lsv & Hlsv & Hno)]; [discriminate|].
  unfold bind at 1, getThis at 1. rewrite Hlsv.
  unfold bind at 1, liftOutcome.
  rewrite (getDirectionFrom2Vectors_None _ _ _ Hno). reflexivity.
Qed.


(** * Recomputing the selectable cells *)

Lemma elem_of_rayCells cfg p d q :
  isRealDirection d = true -> q ∈ rayCells cfg p d <-> onRay cfg p d q.
Proof.
  intros Hd. unfold rayCells.
  destruct (walk_terminates cfg p d Hd) as [cells Hw]. rewrite Hw.
  eapply walk_elem, Hw.
Qed.

Lemma set_selectable_same c : Cell.set_selectable (Cell.selectable c) c = c.
Proof. destruct c; reflexivity. Qed.

Lemma markSelectableRay_walk cfg d : forall fuel v cells b,
  board_wf cfg b ->
  walk cfg fuel v d = Some cells ->
  Forall (fun p => isVectorInBoard cfg p = true) cells ->
  exists b',
    markSelectableRay cfg fuel v d b = Returns b' /\
    board_wf cfg b' /\
    forall q, cellAt b' q =
      (fun c => Cell.set_selectable (Cell.selectable c || bool_decide (q ∈ cells)) c)
        <$> cellAt b q.
Proof.
  induction fuel as [|fuel IH]; intros v cells b Hwf Hw Hin;
    destruct v as [p|]; cbn [walk] in Hw.
  - discriminate.
  - injection Hw as <-. exists b. split; [reflexivity|]. split; [exact Hwf|].
    intros q. rewrite bool_decide_eq_false_2 by (intros H; inversion H).
    destruct (cellAt b q) as [c|]; cbn; [|reflexivity].
    rewrite orb_false_r, set_selectable_same. reflexivity.
  - destruct (walk cfg fuel (moveInDirection cfg p d) d) as [cells'|] eqn:Hw';
      [|discriminate].
    cbn in Hw. injection Hw as <-. apply Forall_cons in Hin as [Hp Hin].
    cbn [markSelectableRay].
    destruct (updateCell_Some cfg (Cell.set_selectable true) p b Hwf Hp) as [b1 Hupd].
    rewrite Hupd.
    destruct (IH _ _ b1 (updateCell_wf _ _ _ _ _ Hwf Hupd) Hw' Hin)
      as (b' & Hmark & Hwf' & Hcells).
    exists b'. split; [exact Hmark|]. split; [exact Hwf'|].
    intros q. rewrite Hcells, (cellAt_updateCell _ _ _ _ q Hupd).
    destruct (Vector2D.eqb q p) eqn:E.
    + apply Vector2D_eqb_eq in E as ->.
      rewrite (bool_decide_eq_true_2 (p ∈ p :: cells')) by left.
      destruct (cellAt b p) as [c|]; cbn; [|reflexivity].
      rewrite orb_true_r. reflexivity.
    + apply Vector2D_eqb_neq in E.
      destruct (cellAt b q) as [c|]; cbn; [|reflexivity].
      do 3 f_equal. apply bool_decide_ext. rewrite elem_of_cons. split; [auto|].
      intros [->|H]; [congruence | exact H].
  - injection Hw as <-. exists b. split; [reflexivity|]. split; [exact Hwf|].
    intros q. rewrite bool_decide_eq_false_2 by (intros H; inversion H).
    destruct (cellAt b q) as [c|]; cbn; [|reflexivity].
    rewrite orb_false_r, set_selectable_same. reflexivity.
Qed.

Lemma walk_inBoard cfg fuel p d cells :
  walk cfg fuel (moveInDirection cfg p d) d = Some cells ->
  Forall (fun q => isVectorInBoard cfg q = true) cells.
Proof.
  intros Hw. apply Forall_forall. intros q Hq.
  eapply onRay_inBoard. eapply walk_elem; eauto.
Qed.

(** One ray: the cells of the ray become selectable, nothing else
    changes. *)
Lemma markSelectableRay_ray cfg ls d b :
  board_wf cfg b ->
  isRealDirection d = true ->
  exists b',
    markSelectableRay cfg (walkFuel cfg) (moveInDirection cfg ls d) d b = Returns b' /\
    board_wf cfg b' /\
    forall q, cellAt b' q =
      (fun c => Cell.set_selectable
                  (Cell.selectable c || bool_decide (q ∈ rayCells cfg ls d)) c)
        <$> cellAt b q.
Proof.
  intros Hwf Hd. unfold rayCells.
  destruct (walk_terminates cfg ls d Hd) as [cells Hw]. rewrite Hw.
  eapply markSelectableRay_walk; eauto. eapply walk_inBoard, Hw.
Qed.

(** All rays of a list of directions. *)
Lemma markSelectableRays_rays cfg ls : forall ds b,
  board_wf cfg b ->
  Forall (fun d => isRealDirection d = true) ds ->
  exists b',
    markSelectableRays cfg ls ds b = Returns b' /\
    board_wf cfg b' /\
    forall q, cellAt b' q =
      (fun c => Cell.set_selectable
                  (Cell.selectable c ||
                   existsb (fun d => bool_decide (q ∈ rayCells cfg ls d)) ds) c)
        <$> cellAt b q.
Proof.
  induction ds as [|d ds IH]; intros b Hwf Hreal.
  - exists b. split; [reflexivity|]. split; [exact Hwf|]. intros q.
    destruct (cellAt b q) as [c|]; cbn; [|reflexivity].
    rewrite orb_false_r, set_selectable_same. reflexivity.
  - apply Forall_cons in Hreal as [Hd Hreal]. cbn [markSelectableRays].
    destruct (markSelectableRay_ray cfg ls d b Hwf Hd) as (b1 & -> & Hwf1 & H1).
    destruct (IH b1 Hwf1 Hreal) as (b' & Hmark & Hwf' & H').
    exists b'. split; [exact Hmark|]. split; [exact Hwf'|].
    intros q. rewrite H', H1.
    destruct (cellAt b q) as [c|]; cbn; [|reflexivity].
    rewrite orb_assoc. reflexivity.
Qed.

(** ** The established direction *)

Lemma getInverseDirection_step e d p :
  getInverseDirection e = Some d -> stepN p e 1 = stepN p d (-1).
Proof.
  destruct p as [px py]. destruct e; cbn; intros [= <-]; unfold stepN; cbn;
    f_equal; lia.
Qed.

Lemma getInverseDirection_invol e d :
  getInverseDirection e = Some d -> getInverseDirection d = Some e.
Proof. destruct e; cbn; intros [= <-]; reflexivity. Qed.

Lemma getInverseDirection_real d :
  isRealDirection d = true ->
  exists e, getInverseDirection d = Some e /\ isRealDirection e = true.
Proof. destruct d; try discriminate; intros _; eexists; split; reflexivity. Qed.

(** A neighbour of the end of a straight run lies on the run only in the
    direction opposite to the run. *)
Lemma neighbour_on_run a d e m i :
  isRealDirection d = true -> isRealDirection e = true ->
  0 <= i <= m ->
  stepN (stepN a d m) e 1 = stepN a d i ->
  getInverseDirection e = Some d.
Proof.
  destruct a as [ax ay].
  destruct d, e; unfold stepN; cbn; try discriminate;
    intros _ _ Hi [= H1 H2]; try reflexivity; exfalso; lia.
Qed.

Lemma getAdjacentSelectedVectorDirection_from_found cfg b ls target : forall ds,
  board_wf cfg b ->
  (forall e nb c, e ∈ ds -> e <> target ->
     moveInDirection cfg ls e = Some nb -> cellAt b nb = Some c ->
     Cell.selected c = false) ->
  target ∈ ds ->
  (exists nb c, moveInDirection cfg ls target = Some nb /\
                cellAt b nb = Some c /\ Cell.selected c = true) ->
  getAdjacentSelectedVectorDirection_from cfg b ls ds = Some (Some target).
Proof.
  induction ds as [|e ds IH]; intros Hwf Hothers Hin Htarget; [inversion Hin|].
  cbn [getAdjacentSelectedVectorDirection_from].
  destruct (decide (e = target)) as [->|Hne].
  - destruct Htarget as (nb & c & -> & -> & ->). reflexivity.
  - assert (target ∈ ds) as Hin'.
    { apply elem_of_cons in Hin as [->|Hin]; [congruence | exact Hin]. }
    assert (getAdjacentSelectedVectorDirection_from cfg b ls ds = Some (Some target))
      as Hrec.
    { apply IH; auto. intros e' nb c He'. apply Hothers. right. exact He'. }
    destruct (moveInDirection cfg ls e) as [nb|] eqn:E; [|exact Hrec].
    pose proof E as E'. apply moveInDirection_Some in E' as [_ Hnb].
    destruct (proj2 (cellAt_inBoard cfg b nb Hwf) Hnb) as [c Hc]. rewrite Hc.
    rewrite (Hothers e nb c ltac:(left) Hne E Hc). exact Hrec.
Qed.

Lemma adjacentDirections_complete d : isRealDirection d = true -> d ∈ adjacentDirections.
Proof.
  unfold adjacentDirections. destruct d; try discriminate; intros _;
    repeat (first [left | right]).
Qed.

Lemma adjacentDirections_real :
  Forall (fun d => isRealDirection d = true) adjacentDirections.
Proof. repeat constructor. Qed.

(** At the end of a selected straight run of at least two cells, the scan
    finds the direction that points back along the run. *)
Lemma getAdjacentSelectedVectorDirection_run cfg b a d e n :
  board_wf cfg b ->
  isRealDirection d = true ->
  getInverseDirection d = Some e ->
  (2 <= n)%nat ->
  Forall (fun p => isVectorInBoard cfg p = true) (path a d n) ->
  (forall q c, cellAt b q = Some c -> (Cell.selected c = true <-> q ∈ path a d n)) ->
  getAdjacentSelectedVectorDirection cfg b (stepN a d (Z.of_nat n - 1)) = Some (Some e).
Proof.
  intros Hwf Hd He Hn Hin Hsel.
  assert (isRealDirection e = true) as Hereal by (destruct d; cbn in He; try discriminate; injection He as <-; reflexivity).
  pose proof (getInverseDirection_invol _ _ He) as Hed.
  apply getAdjacentSelectedVectorDirection_from_found; auto.
  - intros e' nb c He' Hne Hmove Hc.
    destruct (Cell.selected c) eqn:Hs; [|reflexivity]. exfalso.
    apply (Hsel nb c Hc) in Hs. apply elem_of_path in Hs as (i & Hi & Hnb).
    apply moveInDirection_Some in Hmove as [Hstep _]. rewrite Hstep in Hnb.
    assert (isRealDirection e' = true) as He'real.
    { pose proof adjacentDirections_real as H. rewrite Forall_forall in H. auto. }
    pose proof (neighbour_on_run a d e' (Z.of_nat n - 1) i Hd He'real ltac:(lia) Hnb)
      as Hinv.
    apply getInverseDirection_invol in Hinv. congruence.
  - apply adjacentDirections_complete, Hereal.
  - assert (stepN (stepN a d (Z.of_nat n - 1)) e 1 = stepN a d (Z.of_nat n - 2)) as Hnb.
    { rewrite (getInverseDirection_step e d _ Hed), stepN_stepN. f_equal. lia. }
    assert (stepN a d (Z.of_nat n - 2) ∈ path a d n) as Hon.
    { apply elem_of_path. exists (Z.of_nat n - 2). split; [lia | reflexivity]. }
    assert (isVectorInBoard cfg (stepN a d (Z.of_nat n - 2)) = true) as Hinb.
    { rewrite Forall_forall in Hin. apply Hin, Hon. }
    destruct (proj2 (cellAt_inBoard cfg b _ Hwf) Hinb) as [c Hc].
    exists (stepN a d (Z.of_nat n - 2)), c. split; [|split; [exact Hc|]].
    + apply moveInDirection_Some. rewrite Hnb. auto.
    + apply (Hsel _ c Hc), Hon.
Qed.

(** ** The effect of [calculateSelectables] *)

Lemma setBoard_eq w o b :
  output w = Some o -> setBoard b w = (Returns tt, set_output (Some (set_board b o)) w).
Proof.
  intros Ho. unfold setBoard, modifyOutput, getOutput, bind, getThis, deref, ret, modify.
  rewrite Ho. reflexivity.
Qed.

Lemma set_output_twice o1 o2 w : set_output o2 (set_output o1 w) = set_output o2 w.
Proof. reflexivity. Qed.

Lemma set_board_twice b1 b2 o : set_board b2 (set_board b1 o) = set_board b2 o.
Proof. reflexivity. Qed.

Lemma calculateSelectables_anchored w o ls :
  output w = Some o ->
  board_wf (config w) (board o) ->
  forallb isRealDirection (allowedDirections (config w)) = true ->
  selectedCount w = 1 ->
  exists b',
    calculateSelectables (Some ls) w =
      (Returns tt, set_output (Some (set_board b' o)) w) /\
    board_wf (config w) b' /\
    forall q, cellAt b' q =
      (fun c => Cell.set_selectable
                  (existsb (fun d => bool_decide (q ∈ rayCells (config w) ls d))
                     (allowedDirections (config w))) c)
        <$> cellAt (board o) q.
Proof.
  intros Ho Hwf Hreal Hcount.
  assert (Forall (fun d => isRealDirection d = true) (allowedDirections (config w)))
    as Hreal'.
  { apply Forall_forall. intros d Hd. eapply realDirections_elem; eauto. }
  destruct (markSelectableRays_rays (config w) ls (allowedDirections (config w))
              (map (map (Cell.set_selectable false)) (board o))
              (map_map_wf _ _ _ Hwf) Hreal') as (b' & Hmark & Hwf' & Hcells).
  exists b'. split; [|split; [exact Hwf'|]].
  - unfold calculateSelectables. unfold bind at 1, getThis at 1. rewrite Hcount.
    change (1 =? 0) with false. change (1 =? 1) with true.
    change (1 >? 1) with false. cbv iota.
    unfold bind at 1, ret at 1. unfold bind at 1.
    unfold bind at 1. rewrite (setCellFieldTo_eq _ w o Ho Hwf).
    unfold bind at 1. erewrite getBoard_eq by reflexivity.
    cbn [board set_board].
    unfold bind at 1, liftOutcome. rewrite Hmark.
    erewrite setBoard_eq by reflexivity. reflexivity.
  - intros q. rewrite Hcells, cellAt_map_map.
    destruct (cellAt (board o) q) as [c|]; reflexivity.
Qed.

Lemma calculateSelectables_directed w o a d n :
  output w = Some o ->
  board_wf (config w) (board o) ->
  selectedCount w > 1 ->
  isRealDirection d = true ->
  (2 <= n)%nat ->
  Forall (fun p => isVectorInBoard (config w) p = true) (path a d n) ->
  (forall q c, cellAt (board o) q = Some c ->
               (Cell.selected c = true <-> q ∈ path a d n)) ->
  exists b',
    calculateSelectables (Some (stepN a d (Z.of_nat n - 1))) w =
      (Returns tt, set_output (Some (set_board b' o)) w) /\
    board_wf (config w) b' /\
    forall q, cellAt b' q =
      (fun c => Cell.set_selectable
                  (bool_decide (q ∈ rayCells (config w) (stepN a d (Z.of_nat n - 1)) d)) c)
        <$> cellAt (board o) q.
Proof.
  intros Ho Hwf Hcount Hd Hn Hin Hsel.
  destruct (getInverseDirection_real d Hd) as (e & He & Hereal).
  set (ls := stepN a d (Z.of_nat n - 1)).
  set (b0 := map (map (Cell.set_selectable false)) (board o)).
  assert (board_wf (config w) b0) as Hwf0 by (apply map_map_wf, Hwf).
  assert (getAdjacentSelectedVectorDirection (config w) b0 ls = Some (Some e)) as Hadj.
  { apply getAdjacentSelectedVectorDirection_run; auto.
    intros q c Hc. unfold b0 in Hc. rewrite cellAt_map_map in Hc.
    destruct (cellAt (board o) q) as [c0|] eqn:Hc0; [|discriminate].
    cbn in Hc. injection Hc as <-. cbn. apply (Hsel q c0 Hc0). }
  destruct (markSelectableRay_ray (config w) ls d b0 Hwf0 Hd) as (b' & Hmark & Hwf' & Hcells).
  exists b'. split; [|split; [exact Hwf'|]].
  - unfold calculateSelectables. unfold bind at 1, getThis at 1.
    destruct (Z.eqb_spec (selectedCount w) 0) as [E0|_]; [lia|].
    destruct (Z.eqb_spec (selectedCount w) 1) as [E1|_]; [lia|].
    destruct (Z.gtb_spec (selectedCount w) 1) as [_|E2]; [|lia].
    unfold bind at 1, ret at 1. unfold bind at 1, ret at 1.
    unfold bind at 1. rewrite (setCellFieldTo_eq _ w o Ho Hwf).
    unfold bind at 1. erewrite getBoard_eq by reflexivity.
    cbn [board set_board config set_output]. fold b0.
    unfold bind at 1, deref. rewrite Hadj. unfold ret at 1.
    rewrite (getInverseDirection_invol _ _ He).
    unfold bind at 1, liftOutcome. fold ls. rewrite Hmark.
    erewrite setBoard_eq by reflexivity. reflexivity.
  - intros q. rewrite Hcells. unfold b0. rewrite cellAt_map_map.
    destruct (cellAt (board o) q) as [c|]; reflexivity.
Qed.

(** * Selecting cells *)

Lemma append_assoc (a b c : string) :
  String.append (String.append a b) c = String.append a (String.append b c).
Proof. induction a; cbn; [reflexivity|]. rewrite IHa. reflexivity. Qed.

Lemma append_empty_r (a : string) : String.append a "" = a.
Proof. induction a; cbn; [reflexivity|]. rewrite IHa. reflexivity. Qed.

Lemma readLetters_app b ps qs :
  readLetters b (ps ++ qs) = String.append (readLetters b ps) (readLetters b qs).
Proof.
  induction ps as [|p ps IH]; cbn; [reflexivity|].
  rewrite IH, append_assoc. reflexivity.
Qed.

Lemma readLetters_ext b b' ps :
  (forall q, letterAt b' q = letterAt b q) -> readLetters b' ps = readLetters b ps.
Proof.
  intros H. induction ps as [|p ps IH]; cbn; [reflexivity|]. rewrite H, IH. reflexivity.
Qed.

Lemma set_selected_same c : Cell.set_selected (Cell.selected c) c = c.
Proof. destruct c; reflexivity. Qed.

Lemma selStep_nil w o :
  output w = Some o -> board_wf (config w) (board o) -> selStep [] w w.
Proof.
  intros Ho Hwf. split; [reflexivity|]. split; [reflexivity|]. split; [cbn; lia|].
  exists o, o. split; [exact Ho|]. split; [exact Ho|]. split; [exact Hwf|]. split.
  - cbn. rewrite append_empty_r. reflexivity.
  - intros x. rewrite bool_decide_eq_false_2 by (intros H; inversion H).
    destruct (cellAt (board o) x) as [c|]; cbn; [|reflexivity].
    rewrite orb_false_r, set_selected_same. reflexivity.
Qed.

Lemma selStep_letters ps w w' o o' :
  selStep ps w w' -> output w = Some o -> output w' = Some o' ->
  forall q, letterAt (board o') q = letterAt (board o) q.
Proof.
  intros (_ & _ & _ & o1 & o1' & Ho1 & Ho1' & _ & _ & Hcells) Ho Ho' q.
  rewrite Ho in Ho1. injection Ho1 as <-. rewrite Ho' in Ho1'. injection Ho1' as <-.
  unfold letterAt. rewrite Hcells. destruct (cellAt (board o) q); reflexivity.
Qed.

Lemma selStep_trans ps qs w1 w2 w3 :
  selStep ps w1 w2 -> selStep qs w2 w3 -> selStep (ps ++ qs) w1 w3.
Proof.
  intros H12 H23.
  pose proof H12 as (Hc1 & Hl1 & Hn1 & o1 & o2 & Ho1 & Ho2 & Hwf2 & Hw1 & Hcells1).
  pose proof H23 as (Hc2 & Hl2 & Hn2 & o2' & o3 & Ho2' & Ho3 & Hwf3 & Hw2 & Hcells2).
  rewrite Ho2 in Ho2'. injection Ho2' as <-.
  split; [congruence|]. split; [congruence|]. split.
  { rewrite Hn2, Hn1, length_app. lia. }
  exists o1, o3. split; [exact Ho1|]. split; [exact Ho3|]. split.
  { rewrite <- Hc1. exact Hwf3. }
  split.
  - rewrite Hw2, Hw1, readLetters_app, append_assoc.
    rewrite (readLetters_ext (board o1) (board o2) qs); [reflexivity|].
    exact (selStep_letters ps w1 w2 o1 o2 H12 Ho1 Ho2).
  - intros x. rewrite Hcells2, Hcells1.
    destruct (cellAt (board o1) x) as [c|]; cbn; [|reflexivity].
    f_equal. unfold Cell.set_selected; cbn. f_equal.
    rewrite (bool_decide_ext _ _ (elem_of_app ps qs x)), bool_decide_or.
    rewrite orb_assoc. reflexivity.
Qed.

Lemma selectOne_selStep w o p :
  output w = Some o ->
  board_wf (config w) (board o) ->
  isVectorInBoard (config w) p = true ->
  exists w', selectOne p w = (Returns tt, w') /\ selStep [p] w w'.
Proof.
  intros Ho Hwf Hp.
  destruct (updateCell_Some (config w) (Cell.set_selected true) p (board o) Hwf Hp)
    as [b1 Hupd].
  destruct (proj2 (cellAt_inBoard (config w) (board o) p Hwf) Hp) as [c Hc].
  assert (cellAt b1 p = Some (Cell.set_selected true c)) as Hc1.
  { rewrite (cellAt_updateCell _ _ _ _ p Hupd), Vector2D_eqb_refl, Hc. reflexivity. }
  eexists. split.
  - unfold selectOne. unfold bind at 1. unfold bind at 1.
    rewrite (getBoard_eq w o Ho). unfold bind at 1, deref. rewrite Hupd.
    unfold ret at 1. rewrite (setBoard_eq w o b1 Ho).
    unfold bind at 1. unfold bind at 1, getOutput, bind, getThis, deref, ret.
    cbn [output set_output board set_board]. rewrite Hc1.
    unfold modifyOutput, getOutput, bind, getThis, deref, ret, modify.
    cbn [output set_output]. reflexivity.
  - split; [reflexivity|]. split; [reflexivity|]. split; [cbn; lia|].
    eexists _, _. split; [exact Ho|]. split; [reflexivity|]. cbn. split.
    { eapply updateCell_wf; eauto. }
    split.
    + unfold letterAt. rewrite Hc, append_empty_r. reflexivity.
    + intros x. rewrite (cellAt_updateCell _ _ _ _ x Hupd).
      destruct (Vector2D.eqb x p) eqn:E.
      * apply Vector2D_eqb_eq in E as ->.
        rewrite (bool_decide_eq_true_2 (p ∈ [p])) by left.
        destruct (cellAt (board o) p); cbn; [|reflexivity].
        rewrite orb_true_r. reflexivity.
      * apply Vector2D_eqb_neq in E.
        rewrite bool_decide_eq_false_2
          by (intros H; apply list_elem_of_singleton in H; congruence).
        destruct (cellAt (board o) x) as [c0|]; cbn; [|reflexivity].
        rewrite orb_false_r, set_selected_same. reflexivity.
Qed.

Lemma path_fits_fuel cfg q d k :
  isRealDirection d = true -> (1 <= k)%nat ->
  Forall (fun p => isVectorInBoard cfg p = true) (path q d k) ->
  (k <= walkFuel cfg)%nat.
Proof.
  intros Hd Hk Hin. rewrite Forall_forall in Hin.
  assert (isVectorInBoard cfg q = true) as Hq.
  { apply Hin, elem_of_path. exists 0. rewrite stepN_0. split; [lia | reflexivity]. }
  assert (isVectorInBoard cfg (stepN q d (Z.of_nat k - 1)) = true) as Hl.
  { apply Hin, elem_of_path. exists (Z.of_nat k - 1). split; [lia | reflexivity]. }
  apply isVectorInBoard_spec in Hq, Hl. unfold walkFuel.
  destruct q as [qx qy]. destruct d; unfold stepN in Hl; cbn in *; try discriminate; lia.
Qed.

Lemma path_tail_inBoard cfg q d k :
  Forall (fun p => isVectorInBoard cfg p = true) (path q d (S k)) ->
  isVectorInBoard cfg q = true /\
  Forall (fun p => isVectorInBoard cfg p = true) (path (stepN q d 1) d k).
Proof. cbn [path]. intros H. apply Forall_cons in H. exact H. Qed.

(** The loop of [selectCell] selects the run from its first cell to the
    target. *)
Lemma selectWalk_run d pos : forall k q fuel w o,
  isRealDirection d = true ->
  (1 <= k <= fuel)%nat ->
  output w = Some o ->
  board_wf (config w) (board o) ->
  Forall (fun p => isVectorInBoard (config w) p = true) (path q d k) ->
  pos = stepN q d (Z.of_nat k - 1) ->
  exists w',
    selectWalk fuel (Some q) d pos w = (Returns tt, w') /\
    selStep (path q d k) w w' /\
    walked (config w) fuel (Some q) d pos = path q d k.
Proof.
  induction k as [|k IH]; intros q fuel w o Hd Hk Ho Hwf Hin Hpos; [lia|].
  destruct fuel as [|fuel]; [lia|].
  apply path_tail_inBoard in Hin as [Hq Hin].
  destruct (selectOne_selStep w o q Ho Hwf Hq) as (w1 & Hone & Hstep1).
  pose proof Hstep1 as (Hc1 & _ & _ & o0 & o1 & Ho0 & Ho1 & Hwf1 & _ & _).
  cbn [selectWalk walked]. unfold bind at 1. rewrite Hone.
  unfold bind at 1, getThis at 1.
  destruct k as [|k].
  - replace (Z.of_nat 1 - 1) with 0 in Hpos by lia. rewrite stepN_0 in Hpos. subst pos.
    rewrite Vector2D_eqb_refl. exists w1. split; [reflexivity|]. split; [exact Hstep1|].
    reflexivity.
  - assert (Vector2D.eqb q pos = false) as Hne.
    { apply Vector2D_eqb_neq. intros Heq. rewrite Hpos in Heq.
      rewrite <- (stepN_0 q d) in Heq at 1. apply stepN_inj in Heq; auto. lia. }
    rewrite Hne.
    pose proof Hin as Hin'. apply path_tail_inBoard in Hin' as [Hq1 _].
    assert (moveInDirection (config w) q d = Some (stepN q d 1)) as Hmove
      by (apply moveInDirection_Some; auto).
    rewrite Hc1, Hmove.
    destruct (IH (stepN q d 1) fuel w1 o1 Hd ltac:(lia) Ho1
                ltac:(rewrite Hc1; exact Hwf1) ltac:(rewrite Hc1; exact Hin))
      as (w2 & Hwalk & Hstep2 & Hwalked).
    { rewrite Hpos, stepN_stepN. f_equal. lia. }
    exists w2. split; [exact Hwalk|]. split.
    + change (path q d (S (S k))) with ([q] ++ path (stepN q d 1) d (S k))%list.
      eapply selStep_trans; eauto.
    + rewrite Hc1 in Hwalked. rewrite Hwalked. reflexivity.
Qed.

Lemma path_last a d n :
  (1 <= n)%nat -> last (path a d n) = Some (stepN a d (Z.of_nat n - 1)).
Proof.
  intros Hn. rewrite last_lookup, path_length.
  rewrite path_lookup by lia. do 2 f_equal. lia.
Qed.

Lemma selectableRule_run cfg a d m q :
  (2 <= m)%nat -> isRealDirection d = true ->
  selectableRule cfg (path a d m) q <->
  onRay cfg (stepN a d (Z.of_nat m - 1)) d q.
Proof.
  intros Hm Hd. destruct m as [|[|m]]; [lia|lia|].
  cbn [path selectableRule]. split.
  - intros (a' & d' & Hd' & Heq & Hon).
    cbn [length] in Heq, Hon. rewrite path_length in Heq, Hon.
    cbn [path] in Heq.
    assert (a' = a) as -> by congruence.
    assert (stepN a d 1 = stepN a d' 1) as Hsnd by congruence.
    destruct (ray_direction_unique a d d' 1 1 Hd Hd' ltac:(lia) ltac:(lia) Hsnd)
      as [<- _].
    exact Hon.
  - intros Hon. exists a, d. split; [exact Hd|].
    cbn [length]. rewrite path_length. split; [reflexivity | exact Hon].
Qed.

(** The instance left by an accepted selection satisfies the invariant for
    the extended selection. *)
Lemma PlayInv_after_select w sel ps w1 o1 b' pos (g : Vector2D.t -> bool) :
  PlayInv w sel ->
  selStep ps w w1 ->
  output w1 = Some o1 ->
  board_wf (config w) b' ->
  (forall q, cellAt b' q =
             (fun c => Cell.set_selectable (g q) c) <$> cellAt (board o1) q) ->
  (exists a d, isRealDirection d = true /\
               (sel ++ ps)%list = path a d (length (sel ++ ps))) ->
  Forall (fun p => isVectorInBoard (config w) p = true) ps ->
  last (sel ++ ps) = Some pos ->
  (forall q, g q = true <-> selectableRule (config w) (sel ++ ps) q) ->
  PlayInv (set_output (Some (set_board b' o1)) (set_lastSelectedVector (Some pos) w1))
          (sel ++ ps).
Proof.
  intros (o & Ho & Hwf & Hreal & Hrun & Hin & Hcount & Hword & Hlast & Hcells)
         Hstep Ho1 Hwf' Hb' Hrun' Hin' Hlast' Hg.
  pose proof Hstep as (Hc1 & Hl1 & Hn1 & o0 & o1' & Ho0 & Ho1' & Hwf1 & Hw1 & Hcells1).
  rewrite Ho in Ho0. injection Ho0 as <-. rewrite Ho1 in Ho1'. injection Ho1' as <-.
  exists (set_board b' o1). cbn [output config set_output set_lastSelectedVector
                                 selectedCount lastSelectedVector board set_board
                                 currentWord].
  rewrite Hc1. split; [reflexivity|]. split; [exact Hwf'|]. split; [exact Hreal|].
  split; [exact Hrun'|]. split; [apply Forall_app; auto|].
  split; [rewrite Hn1, Hcount, length_app; lia|].
  assert (forall q, letterAt b' q = letterAt (board o) q) as Hletters.
  { intros q. unfold letterAt. rewrite Hb', Hcells1.
    destruct (cellAt (board o) q); reflexivity. }
  split.
  { rewrite Hw1, Hword, (readLetters_ext _ _ _ Hletters), readLetters_app. reflexivity. }
  split; [symmetry; exact Hlast'|].
  intros q c' Hc'. rewrite Hb', Hcells1 in Hc'.
  destruct (cellAt (board o) q) as [c|] eqn:Hc; [|discriminate].
  cbn in Hc'. injection Hc' as <-. cbn [Cell.selected Cell.selectable Cell.set_selected
                                        Cell.set_selectable].
  destruct (Hcells q c Hc) as [Hsel _]. split.
  - rewrite orb_true_iff, bool_decide_eq_true, Hsel, elem_of_app. reflexivity.
  - apply Hg.
Qed.

Lemma existsb_rayCells cfg ls ds q :
  Forall (fun d => isRealDirection d = true) ds ->
  existsb (fun d => bool_decide (q ∈ rayCells cfg ls d)) ds = true <->
  exists d, d ∈ ds /\ onRay cfg ls d q.
Proof.
  intros Hreal. rewrite Forall_forall in Hreal. rewrite existsb_exists. split.
  - intros (d & Hd & H). apply list_elem_of_In in Hd. exists d. split; [exact Hd|].
    apply bool_decide_eq_true in H. apply elem_of_rayCells in H; auto.
  - intros (d & Hd & H). exists d. split; [apply list_elem_of_In, Hd|].
    apply bool_decide_eq_true. apply elem_of_rayCells; auto.
Qed.

(** The first cell of a selection. *)
Lemma selectCell_first w pos o c :
  PlayInv w [] ->
  output w = Some o -> cellAt (board o) pos = Some c -> Cell.selectable c = true ->
  exists w', selectCell pos w = (Returns true, w') /\ PlayInv w' [pos].
Proof.
  intros HP Ho Hc Hsel.
  pose proof HP as (o' & Ho' & Hwf & Hreal & _ & _ & Hcount & _ & Hlast & _).
  rewrite Ho in Ho'. injection Ho' as <-. cbn in Hlast, Hcount.
  assert (isVectorInBoard (config w) pos = true) as Hpos
    by (apply (cellAt_inBoard _ _ _ Hwf); eauto).
  destruct (selectOne_selStep w o pos Ho Hwf Hpos) as (w1 & Hone & Hstep).
  pose proof Hstep as (Hc1 & Hl1 & Hn1 & o0 & o1 & Ho0 & Ho1 & Hwf1 & _ & _).
  set (w2 := set_lastSelectedVector (Some pos) w1).
  destruct (calculateSelectables_anchored w2 o1 pos Ho1
              ltac:(cbn; rewrite Hc1; exact Hwf1) ltac:(cbn; rewrite Hc1; exact Hreal)
              ltac:(cbn; rewrite Hn1, Hcount; reflexivity))
    as (b' & Hcalc & Hwf' & Hb').
  exists (set_output (Some (set_board b' o1)) w2). split.
  - unfold selectCell. unfold bind at 1. rewrite (getBoard_eq w o Ho).
    unfold bind at 1, deref. rewrite Hc. unfold ret at 1. rewrite Hsel.
    unfold bind at 1, getThis at 1. rewrite Hlast.
    unfold bind at 1. rewrite Hone. unfold bind at 1, modify at 1.
    fold w2. unfold bind at 1. rewrite Hcalc. reflexivity.
  - apply (PlayInv_after_select w [] [pos] w1 o1 b' pos
             (fun q => existsb (fun d => bool_decide (q ∈ rayCells (config w2) pos d))
                         (allowedDirections (config w2)))); auto.
    + cbn in Hwf'. rewrite Hc1 in Hwf'. exact Hwf'.
    + exists pos, UP. split; reflexivity.
    + intros q. cbn [app selectableRule]. cbn [config w2 set_lastSelectedVector].
      rewrite Hc1. apply existsb_rayCells.
      apply Forall_forall. intros d Hd. eapply realDirections_elem; eauto.
Qed.

(** Extending a selection.  The selectable target lies on the ray that
    continues the selection; the cells up to it are selected in order. *)
Lemma selectCell_next w sel pos o c :
  PlayInv w sel -> sel <> [] ->
  output w = Some o -> cellAt (board o) pos = Some c -> Cell.selectable c = true ->
  exists w', selectCell pos w = (Returns true, w') /\
             PlayInv w' (sel ++ selectedBy w pos).
Proof.
  intros HP Hne Ho Hc Hselectable.
  pose proof HP as (o' & Ho' & Hwf & Hreal & Hrun & Hin & Hcount & Hword & Hlast & Hcells).
  rewrite Ho in Ho'. injection Ho' as <-.
  assert (isVectorInBoard (config w) pos = true) as Hpos
    by (apply (cellAt_inBoard _ _ _ Hwf); eauto).
  (* the run and the direction in which it continues *)
  assert (exists A D (N : nat),
            isRealDirection D = true /\ (1 <= N)%nat /\ sel = path A D N /\
            onRay (config w) (stepN A D (Z.of_nat N - 1)) D pos) as HR.
  { destruct (Hcells pos c Hc) as [_ Hrule]. apply Hrule in Hselectable.
    destruct sel as [|a0 [|a1 rest]]; [congruence| |].
    - destruct Hselectable as (d & Hd & Hon).
      exists a0, d, 1%nat. split; [eapply realDirections_elem; eauto|].
      split; [lia|]. split; [reflexivity|].
      change (Z.of_nat 1 - 1) with 0. rewrite stepN_0. exact Hon.
    - destruct Hselectable as (a & d & Hd & Heq & Hon).
      exists a, d, (length (a0 :: a1 :: rest)). split; [exact Hd|].
      split; [cbn; lia|]. split; [exact Heq | exact Hon]. }
  destruct HR as (A & D & N & HD & HN & -> & Hon).
  rewrite path_length in Hcount. rewrite (path_last _ _ _ HN) in Hlast.
  set (L := stepN A D (Z.of_nat N - 1)) in *.
  pose proof Hon as (k & Hk & Hposk & Hall).
  set (kn := Z.to_nat k).
  assert (Forall (fun p => isVectorInBoard (config w) p = true)
            (path (stepN L D 1) D kn)) as Hin'.
  { apply Forall_forall. intros p Hp. apply elem_of_path in Hp as (i & Hi & ->).
    rewrite stepN_stepN. apply Hall. unfold kn in Hi. lia. }
  assert (pos = stepN (stepN L D 1) D (Z.of_nat kn - 1)) as Hposk'.
  { rewrite stepN_stepN, Hposk. f_equal. unfold kn. lia. }
  assert (1 <= kn)%nat as Hkn by (unfold kn; lia).
  destruct (selectWalk_run D pos kn (stepN L D 1) (walkFuel (config w)) w o HD
              ltac:(split; [exact Hkn | eapply path_fits_fuel; eauto])
              Ho Hwf Hin' Hposk')
    as (w1 & Hwalk & Hstep & Hwalked).
  pose proof Hstep as (Hc1 & Hl1 & Hn1 & o0 & o1 & Ho0 & Ho1 & Hwf1 & _ & Hcells1).
  rewrite Ho in Ho0. injection Ho0 as <-.
  assert (getDirectionFrom2Vectors (config w) L pos = Returns (Some D)) as Hdir
    by (apply getDirectionFrom2Vectors_Some; auto).
  assert (moveInDirection (config w) L D = Some (stepN L D 1)) as Hmove.
  { apply moveInDirection_Some. split; [reflexivity|]. apply Hall. lia. }
  assert (selectedBy w pos = path (stepN L D 1) D kn) as Hby.
  { unfold selectedBy. rewrite Hlast, Hdir, Hmove. exact Hwalked. }
  assert (stepN L D 1 = stepN A D (Z.of_nat N)) as HLN.
  { unfold L. rewrite stepN_stepN. f_equal. lia. }
  assert ((path A D N ++ path (stepN L D 1) D kn)%list = path A D (N + kn)) as Hnew.
  { rewrite HLN. symmetry. apply path_app. }
  assert (pos = stepN A D (Z.of_nat (N + kn) - 1)) as HposA.
  { rewrite Hposk. unfold L. rewrite stepN_stepN. f_equal. unfold kn. lia. }
  set (w2 := set_lastSelectedVector (Some pos) w1).
  assert (Forall (fun p => isVectorInBoard (config w) p = true) (path A D (N + kn)))
    as HinNew by (rewrite <- Hnew; apply Forall_app; auto).
  destruct (calculateSelectables_directed w2 o1 A D (N + kn) Ho1
              ltac:(cbn; rewrite Hc1; exact Hwf1)
              ltac:(cbn; rewrite Hn1, Hcount, path_length; lia) HD ltac:(lia)
              ltac:(cbn; rewrite Hc1; exact HinNew))
    as (b' & Hcalc & Hwf' & Hb').
  { intros q c1 Hc1'. rewrite Hcells1 in Hc1'.
    destruct (cellAt (board o) q) as [c0|] eqn:Hc0; [|discriminate].
    cbn in Hc1'. injection Hc1' as <-. cbn [Cell.selected Cell.set_selected].
    destruct (Hcells q c0 Hc0) as [Hs _].
    rewrite orb_true_iff, bool_decide_eq_true, Hs, <- Hnew, elem_of_app. reflexivity. }
  rewrite <- HposA in Hcalc, Hb'.
  exists (set_output (Some (set_board b' o1)) w2). split.
  - unfold selectCell. unfold bind at 1. rewrite (getBoard_eq w o Ho).
    unfold bind at 1, deref. rewrite Hc. unfold ret at 1. rewrite Hselectable.
    unfold bind at 1, getThis at 1. rewrite Hlast.
    unfold bind at 1, liftOutcome. rewrite Hdir.
    unfold bind at 1. rewrite Hmove, Hwalk. unfold bind at 1, modify at 1.
    fold w2. unfold bind at 1. rewrite Hcalc. reflexivity.
  - rewrite Hby.
    apply (PlayInv_after_select w (path A D N) (path (stepN L D 1) D kn) w1 o1 b' pos
             (fun q => bool_decide (q ∈ rayCells (config w2) pos D))); auto.
    + cbn in Hwf'. rewrite Hc1 in Hwf'. exact Hwf'.
    + exists A, D. split; [exact HD|]. rewrite Hnew, path_length. reflexivity.
    + rewrite Hnew, path_last by lia. f_equal. symmetry. exact HposA.
    + intros q. rewrite Hnew, selectableRule_run by (auto; lia).
      rewrite <- HposA, bool_decide_eq_true.
      cbn [config w2 set_lastSelectedVector]. rewrite Hc1.
      apply elem_of_rayCells, HD.
Qed.

(** * Play *)

Lemma sameView_refl b : sameView b b.
Proof. intros q. reflexivity. Qed.

Lemma sameView_trans b1 b2 b3 : sameView b1 b2 -> sameView b2 b3 -> sameView b1 b3.
Proof. intros H1 H2 q. rewrite H2, H1. reflexivity. Qed.

Lemma sameView_updateCell f p b b' :
  (forall c, cellView (f c) = cellView c) ->
  updateCell f p b = Some b' -> sameView b b'.
Proof.
  intros Hf Hupd q. rewrite (cellAt_updateCell _ _ _ _ q Hupd).
  destruct (Vector2D.eqb q p); [|reflexivity].
  destruct (cellAt b q); cbn; [|reflexivity]. rewrite Hf. reflexivity.
Qed.

Lemma sameView_map_map f b :
  (forall c, cellView (f c) = cellView c) -> sameView b (map (map f) b).
Proof.
  intros Hf q. rewrite cellAt_map_map.
  destruct (cellAt b q); cbn; [|reflexivity]. rewrite Hf. reflexivity.
Qed.

Lemma markCells_sameView cfg f : forall ps b b',
  (forall c, cellView (f c) = cellView c) ->
  board_wf cfg b ->
  markCells f ps b = Some b' -> board_wf cfg b' /\ sameView b b'.
Proof.
  induction ps as [|p ps IH]; intros b b' Hf Hwf H; cbn [markCells] in H.
  - injection H as <-. split; [exact Hwf | apply sameView_refl].
  - destruct (updateCell f p b) as [b1|] eqn:Hupd; [|discriminate].
    destruct (IH b1 b' Hf (updateCell_wf _ _ _ _ _ Hwf Hupd) H) as [Hwf' Hview].
    split; [exact Hwf'|]. eapply sameView_trans; [|exact Hview].
    eapply sameView_updateCell; eauto.
Qed.

Lemma highlightWalk_sameView cfg d to : forall fuel v b b',
  board_wf cfg b ->
  highlightWalk cfg fuel v d to b = Returns b' -> board_wf cfg b' /\ sameView b b'.
Proof.
  induction fuel as [|fuel IH]; intros v b b' Hwf H; destruct v as [p|];
    cbn [highlightWalk] in H; try discriminate.
  - injection H as <-. split; [exact Hwf | apply sameView_refl].
  - destruct (updateCell (Cell.set_highlighted true) p b) as [b1|] eqn:Hupd;
      [|discriminate].
    assert (sameView b b1) as H1.
    { eapply (sameView_updateCell (Cell.set_highlighted true)); [|exact Hupd].
      intros c. reflexivity. }
    pose proof (updateCell_wf _ _ _ _ _ Hwf Hupd) as Hwf1.
    destruct (Vector2D.eqb p to).
    + injection H as <-. auto.
    + destruct (IH _ _ _ Hwf1 H) as [Hwf' Hview]. split; [exact Hwf'|].
      eapply sameView_trans; eauto.
  - injection H as <-. split; [exact Hwf | apply sameView_refl].
Qed.

(** The invariant reads only the selection fields and the view of the
    board. *)
Lemma PlayInv_sameView w w' sel o o' :
  PlayInv w sel ->
  output w = Some o -> output w' = Some o' ->
  config w' = config w ->
  selectedCount w' = selectedCount w ->
  lastSelectedVector w' = lastSelectedVector w ->
  currentWord o' = currentWord o ->
  board_wf (config w) (board o') ->
  sameView (board o) (board o') ->
  PlayInv w' sel.
Proof.
  intros (o0 & Ho0 & Hwf & Hreal & Hrun & Hin & Hcount & Hword & Hlast & Hcells)
         Ho Ho' Hc Hn Hl Hw Hwf' Hview.
  rewrite Ho in Ho0. injection Ho0 as <-.
  exists o'. rewrite Hc, Hn, Hl, Hw. split; [exact Ho'|]. split; [exact Hwf'|].
  split; [exact Hreal|]. split; [exact Hrun|]. split; [exact Hin|].
  split; [exact Hcount|]. split.
  { rewrite Hword. symmetry. apply readLetters_ext. intros q. unfold letterAt.
    specialize (Hview q).
    destruct (cellAt (board o') q), (cellAt (board o) q); cbn in Hview;
      try discriminate; [|reflexivity].
    unfold cellView in Hview. congruence. }
  split; [exact Hlast|].
  intros q c' Hc'. specialize (Hview q). rewrite Hc' in Hview.
  destruct (cellAt (board o) q) as [c|] eqn:Hc0; [|discriminate].
  cbn in Hview. unfold cellView in Hview. injection Hview as _ Hs Hsl.
  destruct (Hcells q c Hc0) as [H1 H2]. rewrite Hs, Hsl. auto.
Qed.

Lemma PlayInv_Idle w o :
  Idle w -> output w = Some o ->
  board_wf (config w) (board o) ->
  forallb isRealDirection (allowedDirections (config w)) = true ->
  PlayInv w [].
Proof.
  intros (o0 & Ho0 & Hcount & Hlast & Hword & Hcells) Ho Hwf Hreal.
  rewrite Ho in Ho0. injection Ho0 as <-.
  exists o. split; [exact Ho|]. split; [exact Hwf|]. split; [exact Hreal|].
  split; [exists (Vector2D.mk 0 0), UP; split; reflexivity|].
  split; [constructor|]. split; [exact Hcount|]. split; [exact Hword|].
  split; [exact Hlast|].
  intros q c Hc. destruct (Hcells q c Hc) as [Hs Hsl]. rewrite Hs, Hsl. cbn. split.
  - split; [discriminate | intros H; inversion H].
  - tauto.
Qed.

Lemma Idle_resetState w o : Idle (resetState o w).
Proof.
  eexists. split; [reflexivity|]. cbn.
  split; [reflexivity|]. split; [reflexivity|]. split; [reflexivity|].
  intros q c H. rewrite cellAt_map_map in H.
  destruct (cellAt (board o) q); [|discriminate].
  injection H as <-. split; reflexivity.
Qed.

Lemma PlayInv_resetState w o :
  board_wf (config w) (board o) ->
  forallb isRealDirection (allowedDirections (config w)) = true ->
  PlayInv (resetState o w) [].
Proof.
  intros Hwf Hreal. eapply PlayInv_Idle.
  - apply Idle_resetState.
  - reflexivity.
  - cbn. apply map_map_wf, Hwf.
  - exact Hreal.
Qed.

Lemma PlayInv_viewStep w w' sel : PlayInv w sel -> viewStep w w' -> PlayInv w' sel.
Proof.
  intros HP (Hc & Hn & Hl & o & o' & Ho & Ho' & Hw & Hwf & Hview).
  eapply PlayInv_sameView; eauto.
Qed.

Lemma viewStep_refl w o :
  output w = Some o -> board_wf (config w) (board o) -> viewStep w w.
Proof.
  intros Ho Hwf. repeat (split; [reflexivity|]).
  exists o, o. repeat (split; [assumption || reflexivity|]). apply sameView_refl.
Qed.

Lemma viewStep_trans w1 w2 w3 : viewStep w1 w2 -> viewStep w2 w3 -> viewStep w1 w3.
Proof.
  intros (Hc1 & Hn1 & Hl1 & o1 & o2 & Ho1 & Ho2 & Hw1 & Hwf2 & Hv1)
         (Hc2 & Hn2 & Hl2 & o2' & o3 & Ho2' & Ho3 & Hw2 & Hwf3 & Hv2).
  rewrite Ho2 in Ho2'. injection Ho2' as <-.
  split; [congruence|]. split; [congruence|]. split; [congruence|].
  exists o1, o3. split; [exact Ho1|]. split; [exact Ho3|]. split; [congruence|].
  split; [rewrite <- Hc1; exact Hwf3|]. eapply sameView_trans; eauto.
Qed.

(** A change of the board alone that keeps its view. *)
Lemma viewStep_set_board w o b' :
  output w = Some o -> board_wf (config w) b' -> sameView (board o) b' ->
  viewStep w (set_output (Some (set_board b' o)) w).
Proof.
  intros Ho Hwf Hview. repeat (split; [reflexivity|]).
  exists o, (set_board b' o). split; [exact Ho|]. split; [reflexivity|].
  split; [reflexivity|]. split; [exact Hwf | exact Hview].
Qed.

(** A change of the output record that keeps board and accumulated word. *)
Lemma viewStep_set_output w o o' :
  output w = Some o -> board_wf (config w) (board o) ->
  board o' = board o -> currentWord o' = currentWord o ->
  viewStep w (set_output (Some o') w).
Proof.
  intros Ho Hwf Hb Hw. repeat (split; [reflexivity|]).
  exists o, o'. split; [exact Ho|]. split; [reflexivity|]. split; [exact Hw|].
  rewrite Hb. split; [exact Hwf | apply sameView_refl].
Qed.

Lemma getOutput_eq w o : output w = Some o -> getOutput w = (Returns o, w).
Proof. intros Ho. unfold getOutput, bind, getThis, deref, ret. rewrite Ho. reflexivity. Qed.

Lemma modifyOutput_eq w o f :
  output w = Some o -> modifyOutput f w = (Returns tt, set_output (Some (f o)) w).
Proof.
  intros Ho. unfold modifyOutput, bind. rewrite (getOutput_eq w o Ho). reflexivity.
Qed.

Lemma setCellFieldTo_viewStep f w o r w' :
  (forall c, cellView (f c) = cellView c) ->
  output w = Some o -> board_wf (config w) (board o) ->
  setCellFieldTo f w = (r, w') -> r = Returns tt /\ viewStep w w'.
Proof.
  intros Hf Ho Hwf H. rewrite (setCellFieldTo_eq f w o Ho Hwf) in H.
  injection H as <- <-. split; [reflexivity|].
  apply viewStep_set_board; auto.
  - apply map_map_wf, Hwf.
  - apply sameView_map_map, Hf.
Qed.

Lemma markWord_viewStep fc fw idx w o w' :
  (forall c, cellView (fc c) = cellView c) ->
  output w = Some o -> board_wf (config w) (board o) ->
  markWord fc fw idx w = (Returns tt, w') -> viewStep w w'.
Proof.
  intros Hfc Ho Hwf H. unfold markWord in H. unfold bind at 1 in H.
  rewrite (getOutput_eq w o Ho) in H.
  destruct (index (words o) idx) as [wd|].
  - apply bind_Returns in H as (b' & w1 & Hb' & H).
    destruct (markCells fc (Word.pos wd) (board o)) as [b1|] eqn:Hmark; [|discriminate].
    cbn in Hb'. injection Hb' as <- <-.
    destruct (markCells_sameView _ _ _ _ _ Hfc Hwf Hmark) as [Hwf1 Hview].
    apply bind_Returns in H as ([] & w2 & Hset & H).
    rewrite (setBoard_eq w o b1 Ho) in Hset. injection Hset as <-.
    erewrite modifyOutput_eq in H by reflexivity. injection H as <-.
    eapply viewStep_trans.
    + apply viewStep_set_board; eauto.
    + apply (viewStep_set_output _ (set_board b1 o)); auto.
  - injection H as <-. eapply viewStep_refl; eauto.
Qed.

Lemma showWord_viewStep word submit w o r w' :
  output w = Some o -> board_wf (config w) (board o) ->
  showWord word submit w = (Returns r, w') -> viewStep w w'.
Proof.
  intros Ho Hwf H. unfold showWord in H. unfold bind at 1 in H.
  rewrite (getOutput_eq w o Ho) in H. cbv zeta in H.
  apply bind_Returns in H as ([] & w1 & Hmark & H). injection H as _ <-.
  destruct ((getWordIndex o word >=? 0) && negb submit).
  - eapply markWord_viewStep; [|exact Ho|exact Hwf|exact Hmark].
    intros c. reflexivity.
  - destruct ((getWordIndex o word >=? 0) && submit).
    + eapply markWord_viewStep; [|exact Ho|exact Hwf|exact Hmark].
      intros c. reflexivity.
    + injection Hmark as <-. eapply viewStep_refl; eauto.
Qed.

Lemma checkEnd_viewStep w o r w' :
  output w = Some o -> board_wf (config w) (board o) ->
  checkEnd w = (Returns r, w') -> viewStep w w'.
Proof.
  intros Ho Hwf H. unfold checkEnd in H. unfold bind at 1, getThis at 1 in H.
  unfold bind at 1 in H. rewrite (getOutput_eq w o Ho) in H. cbv zeta in H.
  unfold bind at 1 in H. erewrite modifyOutput_eq in H by exact Ho.
  injection H as _ <-. apply (viewStep_set_output _ o); auto.
Qed.

Lemma hightlightCells_viewStep from to w o w' :
  output w = Some o -> board_wf (config w) (board o) ->
  hightlightCells from to w = (Returns tt, w') -> viewStep w w'.
Proof.
  intros Ho Hwf H. unfold hightlightCells in H.
  apply bind_Returns in H as ([] & w1 & Hclear & H).
  destruct (setCellFieldTo_viewStep (Cell.set_highlighted false) w o _ w1
              (fun c => eq_refl) Ho Hwf Hclear) as [_ Hstep1].
  eapply viewStep_trans; [exact Hstep1|].
  pose proof Hstep1 as (Hc1 & _ & _ & o0 & o1 & Ho0 & Ho1 & _ & Hwf1 & _).
  rewrite <- Hc1 in Hwf1.
  unfold bind at 1, getThis at 1 in H.
  apply bind_Returns in H as (dir & w2 & Hdir & H).
  unfold liftOutcome in Hdir. injection Hdir as Hdir <-.
  destruct dir as [d|].
  - unfold bind at 1 in H. rewrite (getBoard_eq w1 o1 Ho1) in H.
    apply bind_Returns in H as (b' & w3 & Hwalk & H).
    unfold liftOutcome in Hwalk. injection Hwalk as Hwalk <-.
    rewrite (setBoard_eq w1 o1 b' Ho1) in H. injection H as <-.
    destruct (highlightWalk_sameView _ _ _ _ _ _ _ Hwf1 Hwalk) as [Hwf' Hview].
    apply viewStep_set_board; auto.
  - injection H as <-. eapply viewStep_refl; eauto.
Qed.

(** ** A generated puzzle is idle *)

Lemma Idle_updateCell f p w o b' :
  (forall c, Cell.selected (f c) = Cell.selected c) ->
  (forall c, Cell.selectable (f c) = Cell.selectable c) ->
  output w = Some o ->
  updateCell f p (board o) = Some b' ->
  Idle w -> Idle (set_output (Some (set_board b' o)) w).
Proof.
  intros Hs Hsl Ho Hupd (o0 & Ho0 & Hcount & Hlast & Hword & Hcells).
  rewrite Ho in Ho0. injection Ho0 as <-.
  eexists. split; [reflexivity|]. cbn.
  split; [exact Hcount|]. split; [exact Hlast|]. split; [exact Hword|].
  intros q c Hc. rewrite (cellAt_updateCell _ _ _ _ q Hupd) in Hc.
  destruct (Vector2D.eqb q p).
  - destruct (cellAt (board o) q) as [c0|] eqn:Hc0; [|discriminate].
    cbn in Hc. injection Hc as <-. rewrite Hs, Hsl. eapply Hcells, Hc0.
  - eapply Hcells, Hc.
Qed.

(** Idleness does not read the registry, the end flag, the number of
    draws made or the retry counter. *)
Lemma Idle_same_board w w' o o' :
  Idle w -> output w = Some o -> output w' = Some o' ->
  selectedCount w' = selectedCount w ->
  lastSelectedVector w' = lastSelectedVector w ->
  currentWord o' = currentWord o -> board o' = board o ->
  Idle w'.
Proof.
  intros (o0 & Ho0 & Hcount & Hlast & Hword & Hcells) Ho Ho' Hn Hl Hw Hb.
  rewrite Ho in Ho0. injection Ho0 as <-.
  exists o'. rewrite Hn, Hl, Hw, Hb. auto.
Qed.

Lemma Idle_set_randomCalls w n : Idle w -> Idle (set_randomCalls n w).
Proof.
  intros HI. pose proof HI as (o & Ho & _).
  eapply (Idle_same_board w _ o o); eauto.
Qed.

Lemma unselected_drawLetters cfg d : forall rest newPos cells positions cells' ps,
  drawLetters cfg rest newPos d cells positions = Some (cells', ps) ->
  (forall q c, cellAt cells q = Some c ->
               Cell.selected c = false /\ Cell.selectable c = true) ->
  forall q c, cellAt cells' q = Some c ->
              Cell.selected c = false /\ Cell.selectable c = true.
Proof.
  induction rest as [|ch rest IH]; intros newPos cells positions cells' ps H Hcells;
    cbn [drawLetters] in H.
  - injection H as <- _. exact Hcells.
  - destruct newPos as [p|]; [|discriminate].
    destruct (moveInDirection cfg p d) as [np|].
    + destruct (updateCell (Cell.set_letter (String ch "")) np cells)
        as [cells1|] eqn:Hupd; [|discriminate].
      eapply IH; [exact H|].
      intros q c Hc. rewrite (cellAt_updateCell _ _ _ _ q Hupd) in Hc.
      destruct (Vector2D.eqb q np); [|eapply Hcells, Hc].
      destruct (cellAt cells q) as [c0|] eqn:Hc0; [|discriminate].
      cbn in Hc. injection Hc as <-. exact (Hcells q c0 Hc0).
    + eapply IH; eauto.
Qed.

Lemma drawWordInBoard_Idle wd w w' :
  Idle w -> drawWordInBoard wd w = (Returns tt, w') -> Idle w'.
Proof.
  intros HI H. pose proof HI as (o & Ho & Hcount & Hlast & Hword & Hcells).
  destruct (drawWord_board (config w) wd (board o)) as [[cells' ps]|] eqn:Hdraw.
  - rewrite (drawWordInBoard_eq wd w o cells' ps Ho Hdraw) in H. injection H as <-.
    eexists. split; [reflexivity|]. cbn.
    split; [exact Hcount|]. split; [exact Hlast|]. split; [exact Hword|].
    unfold drawWord_board in Hdraw.
    destruct (updateCell (Cell.set_letter (firstLetter (wd_word wd))) (startPos wd)
                (board o)) as [cells1|] eqn:Hupd; [|discriminate].
    eapply unselected_drawLetters; [exact Hdraw|].
    intros q c Hc. rewrite (cellAt_updateCell _ _ _ _ q Hupd) in Hc.
    destruct (Vector2D.eqb q (startPos wd)); [|eapply Hcells, Hc].
    destruct (cellAt (board o) q) as [c0|] eqn:Hc0; [|discriminate].
    cbn in Hc. injection Hc as <-. exact (Hcells q c0 Hc0).
  - exfalso. unfold drawWordInBoard, getBoard, getOutput, bind, getThis, deref in H.
    rewrite Ho in H. cbn in H. rewrite Hdraw in H. discriminate.
Qed.

Lemma allocateWordsInBoard_Idle : forall texts w w',
  Idle w -> allocateWordsInBoard texts w = (Returns tt, w') -> Idle w'.
Proof.
  induction texts as [|word texts IH]; intros w w' HI H;
    cbn [allocateWordsInBoard] in H.
  - injection H as <-. exact HI.
  - apply bind_Returns in H as (wd & w1 & Hfit & H).
    apply bind_Returns in H as ([] & w2 & Hdraw & H).
    apply fitWordInRandomPos_Returns in Hfit as (o1 & _ & Hw1 & _).
    eapply IH; [|exact H]. eapply drawWordInBoard_Idle; [|exact Hdraw].
    rewrite Hw1. apply Idle_set_randomCalls, HI.
Qed.

Lemma fillInRandomChars_row_Idle x : forall ys w w',
  Idle w -> fillInRandomChars_row x ys w = (Returns tt, w') -> Idle w'.
Proof.
  induction ys as [|y ys IH]; intros w w' HI H; cbn [fillInRandomChars_row] in H.
  - injection H as <-. exact HI.
  - apply bind_Returns in H as (b & w1 & Hb & H).
    apply bind_Returns in H as (cell & w2 & Hcell & H).
    apply bind_Returns in H as ([] & w3 & Hstep & H).
    eapply IH; [|exact H]. clear H IH.
    pose proof HI as (o & Ho & _).
    rewrite (getBoard_eq w o Ho) in Hb. injection Hb as <- <-.
    destruct (cellAt (board o) (Vector2D.mk x y)) as [cell0|]; [|discriminate].
    cbn in Hcell. injection Hcell as <- <-.
    destruct (String.eqb (Cell.letter cell0) "").
    + apply bind_Returns in Hstep as (ch & w4 & Hch & Hstep).
      pose proof (preserves_getRandomChar_rng
                    (fun v => v = set_randomCalls (randomCalls v) w)
                    ltac:(intros ? ? ->; reflexivity) w
                    ltac:(destruct w; reflexivity)) as Hw4.
      rewrite Hch in Hw4. cbn in Hw4.
      assert (output w4 = Some o) as Ho4 by (rewrite Hw4; exact Ho).
      assert (Idle w4) as HI4 by (rewrite Hw4; apply Idle_set_randomCalls, HI).
      unfold bind at 1 in Hstep. rewrite (getBoard_eq w4 o Ho4) in Hstep.
      apply bind_Returns in Hstep as (b' & w5 & Hb' & Hstep).
      destruct (updateCell (Cell.set_letter ch) (Vector2D.mk x y) (board o))
        as [b1|] eqn:Hupd; [|discriminate].
      cbn in Hb'. injection Hb' as <- <-.
      rewrite (setBoard_eq w4 o b1 Ho4) in Hstep. injection Hstep as <-.
      eapply (Idle_updateCell (Cell.set_letter ch)); eauto.
    + injection Hstep as <-. exact HI.
Qed.

Lemma fillInRandomChars_rows_Idle ys : forall xs w w',
  Idle w -> fillInRandomChars_rows xs ys w = (Returns tt, w') -> Idle w'.
Proof.
  induction xs as [|x xs IH]; intros w w' HI H; cbn [fillInRandomChars_rows] in H.
  - injection H as <-. exact HI.
  - apply bind_Returns in H as ([] & w1 & Hrow & H).
    eapply IH; [|exact H]. eapply fillInRandomChars_row_Idle; eauto.
Qed.

Lemma fillInRandomChars_Idle w w' :
  Idle w -> fillInRandomChars w = (Returns tt, w') -> Idle w'.
Proof.
  unfold fillInRandomChars. intros HI H.
  apply bind_Returns in H as (w0 & w1 & Hthis & H).
  injection Hthis as _ <-. eapply fillInRandomChars_rows_Idle; eauto.
Qed.

Lemma generateAttempt_Idle w out w' :
  generateAttempt w = (Returns out, w') -> Idle w'.
Proof.
  intros H. unfold generateAttempt in H.
  apply bind_Returns in H as (texts & w1 & _ & H).
  apply bind_Returns in H as (w1' & w1'' & [= <- <-] & H).
  apply bind_Returns in H as ([] & w2 & [= <-] & H).
  apply bind_Returns in H as ([] & w3 & Hreset & H).
  erewrite resetCurrentSelection_eq in Hreset;
    [|reflexivity|cbn; apply getBlankBoard_wf].
  injection Hreset as <-.
  apply bind_Returns in H as ([] & w4 & Halloc & H).
  apply bind_Returns in H as ([] & w5 & Hfill & H).
  apply bind_Returns in H as ([] & w6 & [= <-] & H).
  assert (Idle w5) as HI5.
  { eapply fillInRandomChars_Idle; [|exact Hfill].
    eapply allocateWordsInBoard_Idle; [|exact Halloc]. apply Idle_resetState. }
  pose proof HI5 as (o5 & Ho5 & _).
  rewrite (getOutput_eq (set_generationTimes 0 w5) o5 Ho5) in H.
  injection H as _ <-.
  eapply (Idle_same_board w5 _ o5 o5); eauto.
Qed.

(** After a successful [generate] under real allowed directions the
    selection invariant holds with nothing selected. *)
Lemma generate_PlayInv w out w' :
  forallb isRealDirection (allowedDirections (config w)) = true ->
  generate w = (Returns out, w') -> PlayInv w' [].
Proof.
  intros Hreal H. apply generate_Returns in H as (w1 & Hatt & Hsame & _).
  pose proof Hsame as (_ & Hdirs & _ & _).
  pose proof (generateAttempt_Idle _ _ _ Hatt) as HI.
  apply generateAttempt_Returns in Hatt as (Ho & Hc & (Hwf & _) & _);
    [|rewrite Hdirs; exact Hreal].
  eapply PlayInv_Idle; [exact HI|exact Ho| |]; rewrite Hc; [exact Hwf|].
  rewrite Hdirs. exact Hreal.
Qed.

(** ** The play entry points keep the selection invariant *)

Lemma selectCell_PlayInv w sel pos r w' :
  PlayInv w sel ->
  selectCell pos w = (Returns r, w') ->
  PlayInv w' (if r then (sel ++ selectedBy w pos)%list else sel).
Proof.
  intros HP H. pose proof HP as (o & Ho & Hwf & _ & _ & _ & _ & _ & Hlast & _).
  destruct (cellAt (board o) pos) as [c|] eqn:Hc.
  - destruct (Cell.selectable c) eqn:Hsel.
    + destruct sel as [|p sel].
      * destruct (selectCell_first w pos o c HP Ho Hc Hsel) as (w1 & H1 & HP1).
        rewrite H1 in H. injection H as <- <-.
        unfold selectedBy. rewrite Hlast. exact HP1.
      * destruct (selectCell_next w (p :: sel) pos o c HP ltac:(discriminate) Ho Hc Hsel)
          as (w1 & H1 & HP1).
        rewrite H1 in H. injection H as <- <-. exact HP1.
    + unfold selectCell in H. unfold bind at 1 in H.
      rewrite (getBoard_eq w o Ho) in H. unfold bind at 1, deref in H.
      rewrite Hc in H. unfold ret at 1 in H. rewrite Hsel in H.
      injection H as <- <-. exact HP.
  - exfalso. unfold selectCell in H. unfold bind at 1 in H.
    rewrite (getBoard_eq w o Ho) in H. unfold bind at 1, deref in H.
    rewrite Hc in H. discriminate.
Qed.

Lemma resetCurrentSelection_PlayInv w sel w' :
  PlayInv w sel ->
  resetCurrentSelection w = (Returns tt, w') -> PlayInv w' [].
Proof.
  intros (o & Ho & Hwf & Hreal & _) H.
  rewrite (resetCurrentSelection_eq w o Ho Hwf) in H. injection H as <-.
  apply PlayInv_resetState; assumption.
Qed.

Lemma showWord_PlayInv word submit w sel r w' :
  PlayInv w sel ->
  showWord word submit w = (Returns r, w') -> PlayInv w' sel.
Proof.
  intros HP H. pose proof HP as (o & Ho & Hwf & _).
  eapply PlayInv_viewStep; [exact HP|]. eapply showWord_viewStep; eauto.
Qed.

Lemma submitCurrentWord_PlayInv w sel r w' :
  PlayInv w sel ->
  submitCurrentWord w = (Returns r, w') -> PlayInv w' [].
Proof.
  intros HP H. pose proof HP as (o & Ho & Hwf & _).
  unfold submitCurrentWord in H. unfold bind at 1 in H.
  rewrite (getOutput_eq w o Ho) in H.
  apply bind_Returns in H as (win & w1 & Hshow & H).
  apply bind_Returns in H as ([] & w2 & Hreset & H).
  apply bind_Returns in H as (isEnd & w3 & Hend & H). injection H as _ <-.
  pose proof (showWord_PlayInv _ _ _ _ _ _ HP Hshow) as HP1.
  pose proof (resetCurrentSelection_PlayInv _ _ _ HP1 Hreset) as HP2.
  pose proof HP2 as (o2 & Ho2 & Hwf2 & _).
  eapply PlayInv_viewStep; [exact HP2|]. eapply checkEnd_viewStep; eauto.
Qed.

Lemma highlightCell_PlayInv pos w sel r w' :
  PlayInv w sel ->
  highlightCell pos w = (Returns r, w') -> PlayInv w' sel.
Proof.
  intros HP H. pose proof HP as (o & Ho & Hwf & _).
  unfold highlightCell in H. unfold bind at 1, getThis at 1 in H.
  destruct (lastSelectedVector w) as [lsv|].
  - apply bind_Returns in H as ([] & w1 & Hcells & H). injection H as _ <-.
    eapply PlayInv_viewStep; [exact HP|]. eapply hightlightCells_viewStep; eauto.
  - injection H as _ <-. exact HP.
Qed.

Lemma unHighlightBoard_PlayInv w sel w' :
  PlayInv w sel ->
  unHighlightBoard w = (Returns tt, w') -> PlayInv w' sel.
Proof.
  intros HP H. pose proof HP as (o & Ho & Hwf & _).
  eapply PlayInv_viewStep; [exact HP|].
  eapply (setCellFieldTo_viewStep (Cell.set_highlighted false) w o _ w'
            (fun c => eq_refl) Ho Hwf H).
Qed.

(** Every instance reached in play satisfies the selection invariant. *)
Lemma playing_PlayInv w sel : playing w sel -> PlayInv w sel.
Proof.
  induction 1 as [w0 out w Hreal Hgen
                 | w sel pos w' _ IH H | w sel pos w' _ IH H
                 | w sel w' _ IH H | w sel r w' _ IH H
                 | w sel word r w' _ IH H | w sel pos r w' _ IH H
                 | w sel w' _ IH H].
  - eapply generate_PlayInv; eauto.
  - exact (selectCell_PlayInv w sel pos true w' IH H).
  - exact (selectCell_PlayInv w sel pos false w' IH H).
  - eapply resetCurrentSelection_PlayInv; eauto.
  - eapply submitCurrentWord_PlayInv; eauto.
  - eapply showWord_PlayInv; eauto.
  - eapply highlightCell_PlayInv; eauto.
  - eapply unHighlightBoard_PlayInv; eauto.
Qed.


(** ** Counting the selected cells *)








(** * Selection during play *)


(** The rule that the selectable cells follow at every point of play:
    with two or more cells selected, every cell of the ray that continues
    the selected run is selectable, not only the next one. *)
Lemma playing_selectableRule w sel :
  playing w sel ->
  forall q, isVectorInBoard (config w) q = true ->
    Cell.selectable (cellOf w q) = true <-> selectableRule (config w) sel q.
Proof.
  intros Hplay q Hq.
  destruct (playing_PlayInv w sel Hplay)
    as (o & Ho & Hwf & _ & _ & _ & _ & _ & _ & Hcells).
  destruct (proj2 (cellAt_inBoard (config w) (board o) q Hwf) Hq) as [c Hc].
  unfold cellOf, outputOf. rewrite Ho, Hc. apply (Hcells q c Hc).
Qed.



(** * Further properties of the geometry and of the board *)

(** X1.  Moving inside the board and then moving in the inverse direction
    comes back: when [moveInDirection] from a cell [p] of the board in
    direction [d] gives [q], [moveInDirection] from [q] in
    [getInverseDirection d] gives [p]. *)
Theorem X1_move_then_inverse_move_returns
  (cfg : WordsearchConfig) (p q : Vector2D.t) (d e : WSDirections) :
  isVectorInBoard cfg p = true ->
  moveInDirection cfg p d = Some q ->
  getInverseDirection d = Some e ->
  moveInDirection cfg q e = Some p.
Proof.
  intros Hp Hmove Hinv. apply moveInDirection_Some in Hmove as [-> _].
  apply moveInDirection_Some. split; [|exact Hp].
  destruct p as [x y].
  destruct d; inversion Hinv; subst e; unfold stepN; cbn; f_equal; lia.
Qed.

(** X2.  [doesWordFit] holds exactly when the start position and each of
    the [word.length] positions of the run that starts there are on the
    board; for the empty word, when the start position is. *)
Theorem X2_doesWordFit_iff_run_on_board
  (cfg : WordsearchConfig) (word : string) (p : Vector2D.t) (d : WSDirections) :
  doesWordFit cfg word p d = true <->
  isVectorInBoard cfg p = true /\
  forall i, (i < String.length word)%nat ->
            isVectorInBoard cfg (stepN p d (Z.of_nat i)) = true.
Proof.
  rewrite doesWordFit_fitsInBounds. unfold fitsInBounds.
  rewrite andb_true_iff, forallb_forall. split.
  - intros [Hp Hall]. split; [exact Hp|]. intros i Hi.
    apply Hall, list_elem_of_In, elem_of_path. exists (Z.of_nat i). split; [lia|reflexivity].
  - intros [Hp Hall]. split; [exact Hp|]. intros q Hq.
    apply list_elem_of_In, elem_of_path in Hq as (i & Hi & ->).
    replace i with (Z.of_nat (Z.to_nat i)) by lia. apply Hall. lia.
Qed.

Lemma getBlankBoard_cellAt (cfg : WordsearchConfig) (p : Vector2D.t) :
  cellAt (getBlankBoard cfg) p =
    if isVectorInBoard cfg p
    then Some (Cell.mk p "" false false false true false)
    else None.
Proof.
  destruct (isVectorInBoard cfg p) eqn:Hp.
  - apply isVectorInBoard_spec in Hp as [Hx Hy].
    apply cellAt_Some. split; [lia|]. split; [lia|].
    exists (map (fun y => blankCell (Vector2D.x p) y) (seqZ 0 (size cfg))). split.
    + unfold getBlankBoard. change (map ?f ?l) with (f <$> l) at 1.
      rewrite list_lookup_fmap, lookup_seqZ_lt by lia. cbn.
      rewrite Z.add_0_l, Z2Nat.id by lia. reflexivity.
    + change (map ?f ?l) with (f <$> l).
      rewrite list_lookup_fmap, lookup_seqZ_lt by lia. cbn.
      rewrite Z.add_0_l, Z2Nat.id by lia. destruct p; reflexivity.
  - destruct (cellAt (getBlankBoard cfg) p) eqn:Hc; [|reflexivity].
    assert (isVectorInBoard cfg p = true) as Hin
      by (apply (cellAt_inBoard cfg _ p (getBlankBoard_wf cfg)); eauto).
    congruence.
Qed.

(** X3.  The board made by [getBlankBoard] is a [size] by [size] square
    whose cell at an on-board position [(x, y)] records that position, has
    no letter, is selectable, and has every other flag cleared; off the
    board there is no cell. *)
Theorem X3_getBlankBoard_cells (cfg : WordsearchConfig) (p : Vector2D.t) :
  board_wf cfg (getBlankBoard cfg) /\
  cellAt (getBlankBoard cfg) p =
    if isVectorInBoard cfg p
    then Some (Cell.mk p "" false false false true false)
    else None.
Proof. split; [apply getBlankBoard_wf | apply getBlankBoard_cellAt]. Qed.

Lemma String_get_lt s : forall i, (i < String.length s)%nat -> is_Some (String.get i s).
Proof.
  induction s as [|c s IH]; intros i Hi; cbn in Hi; [lia|].
  destruct i as [|i]; cbn; [eauto|]. apply IH. lia.
Qed.

Lemma getRandomInteger_eq min max w :
  getRandomInteger min max w =
    (Returns (min + Z.of_nat (match Z.to_nat (max - min) with
                              | O => O
                              | S _ => mathRandom w (randomCalls w) mod Z.to_nat (max - min)
                              end)),
     set_randomCalls (S (randomCalls w)) w).
Proof. reflexivity. Qed.

Lemma getStrInCase_ascii cfg s :
  isAscii s = true ->
  getStrInCase cfg s =
    match case (wordsConfig cfg) with
    | UPPER => mapString upperAscii s
    | LOWER => mapString lowerAscii s
    end.
Proof.
  intros Hs. unfold getStrInCase. destruct (case (wordsConfig cfg)).
  - apply toLowerCase_ascii, Hs.
  - apply toLocaleUpperCase_ascii, Hs.
Qed.

Lemma getRandomChar_eq (w : Wordsearch) :
  exists i ch,
    (i < 25)%nat /\
    String.get i (getStrInCase (config w) "abcdefghijklmnopqrstuvwxyz") = Some ch /\
    getRandomChar w = (Returns (String ch ""), set_randomCalls (S (randomCalls w)) w).
Proof.
  set (i := (mathRandom w (randomCalls w) mod 25)%nat).
  assert (i < 25)%nat as Hi by (apply Nat.mod_upper_bound; discriminate).
  assert (String.length (getStrInCase (config w) "abcdefghijklmnopqrstuvwxyz") = 26%nat)
    as Hlen by (rewrite getStrInCase_ascii by reflexivity; destruct (case _); reflexivity).
  destruct (String_get_lt (getStrInCase (config w) "abcdefghijklmnopqrstuvwxyz") i)
    as [ch Hch]; [lia|].
  exists i, ch. split; [exact Hi|]. split; [exact Hch|].
  unfold getRandomChar. unfold bind at 1, getThis at 1. cbv zeta.
  unfold bind at 1. rewrite getRandomInteger_eq, Hlen.
  change (Z.to_nat (Z.of_nat 26 - 1 - 0)) with 25%nat. cbv iota beta.
  fold i. rewrite Z.add_0_l, Nat2Z.id, Hch. reflexivity.
Qed.

(** X4.  [getRandomChar] makes one random draw and returns one of the
    first 25 letters of the alphabet in the configured case: its call
    [getRandomInteger(0, abc.length - 1)] never yields the last index, so
    the letter z is never returned. *)
Theorem X4_getRandomChar_never_z (w : Wordsearch) :
  exists i ch,
    (i < 25)%nat /\
    String.get i (getStrInCase (config w) "abcdefghijklmnopqrstuvwxyz") = Some ch /\
    getRandomChar w = (Returns (String ch ""), set_randomCalls (S (randomCalls w)) w) /\
    String ch "" <> "z" /\ String ch "" <> "Z".
Proof.
  destruct (getRandomChar_eq w) as (i & ch & Hi & Hch & Heq).
  exists i, ch. split; [exact Hi|]. split; [exact Hch|]. split; [exact Heq|].
  clear -Hi Hch. rewrite getStrInCase_ascii in Hch by reflexivity.
  destruct (case (wordsConfig (config w)));
    do 25 (destruct i as [|i]; [cbn in Hch; injection Hch as <-; split; discriminate|]);
    lia.
Qed.

(** * Further properties of word sourcing *)

Lemma notInList_spec word l : notInList word l = true <-> word ∉ l.
Proof.
  unfold notInList. rewrite negb_true_iff. split.
  - intros H Hin. apply not_true_iff_false in H. apply H, existsb_exists.
    exists word. split; [apply list_elem_of_In, Hin | apply String.eqb_refl].
  - intros H. apply not_true_iff_false. intros (x & Hx & Heq)%existsb_exists.
    apply String.eqb_eq in Heq as ->. apply H, list_elem_of_In, Hx.
Qed.

Lemma wordCriteria_Some cfg word l :
  wordCriteria cfg (Some word) l = true <->
  word <> "" /\ (word ∉ l) /\ withinLengths cfg word.
Proof.
  unfold wordCriteria, withinLengths. cbv zeta.
  rewrite !andb_true_iff, notInList_spec, Z.gtb_lt, Z.geb_le, Z.leb_le. split.
  - intros [[[Hne Hnot] Hmin] Hmax]. split; [|tauto].
    intros ->. cbn in Hne. lia.
  - intros (Hne & Hnot & Hmin & Hmax). split; [|exact Hmax]. split; [|exact Hmin].
    split; [|exact Hnot]. destruct word; [congruence | cbn; lia].
Qed.

(** What one pass of a sourcing loop does to the accepted words. *)
Lemma pushIf_step cfg word l :
  (pushIf (wordCriteria cfg word l) word l = l) \/
  (exists s, word = Some s /\ pushIf (wordCriteria cfg word l) word l = (l ++ [s])%list /\
             s <> "" /\ (s ∉ l) /\ withinLengths cfg s).
Proof.
  destruct word as [s|]; [|left; reflexivity]. cbn [pushIf].
  destruct (wordCriteria cfg (Some s) l) eqn:E; [|left; reflexivity].
  right. exists s. apply wordCriteria_Some in E. tauto.
Qed.

Lemma sourcedWell_nil cfg : sourcedWell cfg [].
Proof. split; constructor. Qed.

Lemma sourcedWell_pushIf cfg word l :
  sourcedWell cfg l ->
  (forall s, word = Some s -> s ∈ dictionary (wordsConfig cfg)) ->
  sourcedWell cfg (pushIf (wordCriteria cfg word l) word l).
Proof.
  intros [Hnd Hall] Hdict.
  destruct (pushIf_step cfg word l) as [-> | (s & -> & -> & Hne & Hnot & Hlen)].
  - split; assumption.
  - split.
    + apply NoDup_app. split; [exact Hnd|]. split; [|apply NoDup_singleton].
      intros x Hx Hxs. apply list_elem_of_singleton in Hxs as ->. exact (Hnot Hx).
    + apply Forall_app. split; [exact Hall|]. constructor; [|constructor].
      split; [apply Hdict; reflexivity | tauto].
Qed.

Lemma pushIf_length cfg word l :
  (length l <= length (pushIf (wordCriteria cfg word l) word l) <= S (length l))%nat.
Proof.
  destruct (pushIf_step cfg word l) as [-> | (s & _ & -> & _)]; [lia|].
  rewrite length_app. cbn. lia.
Qed.

Lemma pushIf_extends cfg word l :
  exists extra,
    pushIf (wordCriteria cfg word l) word l = (l ++ extra)%list /\
    (extra = [] \/ exists s, word = Some s /\ extra = [s]).
Proof.
  destruct (pushIf_step cfg word l) as [-> | (s & -> & -> & _)].
  - exists []. rewrite app_nil_r. auto.
  - exists [s]. eauto.
Qed.

Lemma getSequentialWords_loop_result : forall rest words0 w ws w',
  getSequentialWords_loop rest words0 w = (Returns ws, w') ->
  (forall s, s ∈ rest -> s ∈ dictionary (wordsConfig (config w))) ->
  sourcedWell (config w) words0 ->
  w' = w /\
  sourcedWell (config w) ws /\
  (exists extra, ws = (words0 ++ extra)%list /\ extra `sublist_of` rest) /\
  (Z.of_nat (length words0) <= Z.max 0 (amount (wordsConfig (config w))) ->
   Z.of_nat (length ws) = Z.max 0 (amount (wordsConfig (config w)))).
Proof.
  induction rest as [|word rest IH]; intros words0 w ws w' H Hdict Hwell;
    cbn [getSequentialWords_loop] in H; unfold bind at 1, getThis at 1 in H.
  - destruct (Z.ltb_spec (Z.of_nat (length words0)) (amount (wordsConfig (config w)))).
    + exfalso. exact (throwError_not_Returns _ _ _ _ H).
    + injection H as <- <-. split; [reflexivity|]. split; [exact Hwell|]. split.
      * exists []. rewrite app_nil_r. split; [reflexivity | constructor].
      * lia.
  - destruct (Z.ltb_spec (Z.of_nat (length words0)) (amount (wordsConfig (config w)))).
    + cbv zeta in H.
      destruct (IH _ _ _ _ H) as (-> & Hwell' & (extra & -> & Hsub) & Hlen).
      { intros s Hs. apply Hdict. right. exact Hs. }
      { apply sourcedWell_pushIf; [exact Hwell|].
        intros s [= <-]. apply Hdict. left. }
      split; [reflexivity|]. split; [exact Hwell'|]. split.
      * destruct (pushIf_extends (config w) (Some word) words0)
          as (e0 & -> & [-> | (s & [= <-] & ->)]).
        -- exists extra. rewrite app_nil_r. split; [reflexivity|].
           apply sublist_cons_r. left. exact Hsub.
        -- exists (word :: extra). rewrite <- app_assoc. split; [reflexivity|].
           apply sublist_skip. exact Hsub.
      * intros _. apply Hlen.
        pose proof (pushIf_length (config w) (Some word) words0). lia.
    + injection H as <- <-. split; [reflexivity|]. split; [exact Hwell|]. split.
      * exists []. rewrite app_nil_r. split; [reflexivity | apply sublist_nil_l].
      * lia.
Qed.

(** X5.  When [getSequentialWords] returns, it has changed nothing and
    its result is a subsequence of the dictionary, in dictionary order,
    without duplicates; every word in it is non-empty and within the
    configured length bounds, and their number is the configured amount
    (none for an amount below 1). *)
Theorem X5_getSequentialWords_result (w w' : Wordsearch) (ws : list string) :
  getSequentialWords w = (Returns ws, w') ->
  w' = w /\
  ws `sublist_of` dictionary (wordsConfig (config w)) /\
  NoDup ws /\
  Forall (fun s => s <> "" /\ withinLengths (config w) s) ws /\
  Z.of_nat (length ws) = Z.max 0 (amount (wordsConfig (config w))).
Proof.
  intros H. unfold getSequentialWords in H. unfold bind at 1, getThis at 1 in H.
  destruct (getSequentialWords_loop_result _ _ _ _ _ H)
    as (-> & [Hnd Hall] & (extra & -> & Hsub) & Hlen).
  { auto. }
  { apply sourcedWell_nil. }
  split; [reflexivity|]. split; [exact Hsub|]. split; [exact Hnd|]. split.
  - eapply Forall_impl; [exact Hall|]. cbn. tauto.
  - apply Hlen. cbn. lia.
Qed.

Lemma getRandomWord_eq w :
  exists r,
    getRandomWord w =
      (Returns (dictionary (wordsConfig (config w)) !! r),
       set_randomCalls (S (randomCalls w)) w).
Proof.
  eexists. unfold getRandomWord, bind, getThis, randomBelow, ret. reflexivity.
Qed.

Lemma getRandomWords_loop_result : forall tries words0 w ws w',
  getRandomWords_loop tries words0 w = (Returns ws, w') ->
  sourcedWell (config w) words0 ->
  sameButDraws w w' /\
  sourcedWell (config w) ws /\
  (Z.of_nat (length words0) <= Z.max 0 (amount (wordsConfig (config w))) ->
   Z.of_nat (length ws) = Z.max 0 (amount (wordsConfig (config w)))).
Proof.
  induction tries as [|tries IH]; intros words0 w ws w' H Hwell;
    cbn [getRandomWords_loop] in H; unfold bind at 1, getThis at 1 in H;
    destruct (Z.ltb_spec (Z.of_nat (length words0)) (amount (wordsConfig (config w)))).
  - discriminate.
  - injection H as <- <-. split; [destruct w; reflexivity|]. split; [exact Hwell|]. lia.
  - destruct (getRandomWord_eq w) as [r Hr]. unfold bind at 1 in H. rewrite Hr in H.
    cbv zeta in H. destruct tries as [|tries].
    + exfalso. exact (throwError_not_Returns _ _ _ _ H).
    + destruct (IH _ _ _ _ H) as (Hsame & Hwell' & Hlen).
      { apply (sourcedWell_pushIf (config w)); [exact Hwell|].
        intros s Hs. eapply list_elem_of_lookup_2. exact Hs. }
      split; [|split].
      * unfold sameButDraws in *. rewrite Hsame. destruct w; reflexivity.
      * exact Hwell'.
      * intros _. apply Hlen.
        pose proof (pushIf_length (config w)
                      (dictionary (wordsConfig (config w)) !! r) words0).
        cbn [config set_randomCalls]. lia.
  - injection H as <- <-. split; [destruct w; reflexivity|]. split; [exact Hwell|]. lia.
Qed.

Lemma getWords_result (w w' : Wordsearch) (ws : list string) :
  getWords w = (Returns ws, w') ->
  sameButDraws w w' /\
  Z.of_nat (length ws) = Z.max 0 (amount (wordsConfig (config w))) /\
  NoDup ws /\
  Forall (fun s => s ∈ dictionary (wordsConfig (config w)) /\
                   s <> "" /\ withinLengths (config w) s) ws.
Proof.
  intros H. unfold getWords in H. unfold bind at 1, getThis at 1 in H.
  destruct (random (wordsConfig (config w))).
  - rewrite <- getRandomWordsFromDictionary_eq in H.
    destruct (getRandomWords_loop_result _ _ _ _ _ H (sourcedWell_nil _))
      as (Hsame & [Hnd Hall] & Hlen).
    split; [exact Hsame|]. split; [apply Hlen; cbn; lia|]. split; assumption.
  - unfold getSequentialWords in H. unfold bind at 1, getThis at 1 in H.
    destruct (getSequentialWords_loop_result _ _ _ _ _ H)
      as (-> & [Hnd Hall] & _ & Hlen).
    { auto. }
    { apply sourcedWell_nil. }
    split; [destruct w; reflexivity|]. split; [apply Hlen; cbn; lia|].
    split; assumption.
Qed.

(** X6.  When [getWords] returns, in either mode, it has changed at most
    the number of random draws made, and its result holds the configured
    amount of words (none for an amount below 1), all different, each an
    entry of the dictionary that is non-empty and within the configured
    length bounds. *)
Theorem X6_getWords_result (w w' : Wordsearch) (ws : list string) :
  getWords w = (Returns ws, w') ->
  sameButDraws w w' /\
  Z.of_nat (length ws) = Z.max 0 (amount (wordsConfig (config w))) /\
  NoDup ws /\
  Forall (fun s => s ∈ dictionary (wordsConfig (config w)) /\
                   s <> "" /\ withinLengths (config w) s) ws.
Proof. exact (getWords_result w w' ws). Qed.


(** * Further properties of generation *)

Section LettersWritten.
Context (L : string -> Prop).

Lemma lettersWritten_trans b1 b2 b3 :
  lettersWritten L b1 b2 -> lettersWritten L b2 b3 -> lettersWritten L b1 b3.
Proof.
  induction 1 as [|b p s b1 b2 Hs Hupd _ IH]; intros H3; [exact H3|].
  eapply lettersWritten_step; eauto.
Qed.

Lemma lettersWritten_one b p s b' :
  L s -> updateCell (Cell.set_letter s) p b = Some b' -> lettersWritten L b b'.
Proof. intros Hs Hupd. eapply lettersWritten_step; eauto. constructor. Qed.

Lemma lettersWritten_wf cfg b b' :
  lettersWritten L b b' -> board_wf cfg b -> board_wf cfg b'.
Proof.
  induction 1 as [|b p s b1 b2 _ Hupd _ IH]; intros Hwf; [exact Hwf|].
  apply IH. eapply updateCell_wf; eauto.
Qed.

(** A property of cells that writing a letter cannot break holds after
    the writes when it held before. *)
Lemma lettersWritten_cellsAll (Pc : Vector2D.t -> Cell.t -> Prop) b b' :
  (forall q c s, Pc q c -> L s -> Pc q (Cell.set_letter s c)) ->
  lettersWritten L b b' -> cellsAll Pc b -> cellsAll Pc b'.
Proof.
  intros Hwrite. induction 1 as [|b p s b1 b2 Hs Hupd _ IH]; intros Hall; [exact Hall|].
  apply IH. intros q c Hc. rewrite (cellAt_updateCell _ _ _ _ q Hupd) in Hc.
  destruct (Vector2D.eqb q p); [|exact (Hall q c Hc)].
  destruct (cellAt b q) as [c0|] eqn:Hc0; [|discriminate].
  cbn in Hc. injection Hc as <-. apply Hwrite; [exact (Hall q c0 Hc0) | exact Hs].
Qed.

(** Letters are only ever replaced by letters that satisfy [L]. *)
Lemma lettersWritten_letter b b' q :
  lettersWritten L b b' -> letterAt b' q = letterAt b q \/ L (letterAt b' q).
Proof.
  induction 1 as [|b p s b1 b2 Hs Hupd _ IH]; [left; reflexivity|].
  destruct IH as [IH|IH]; [|right; exact IH]. rewrite IH.
  rewrite (letterAt_updateCell _ _ _ _ q Hupd).
  destruct (Vector2D.eqb q p); [|left; reflexivity].
  unfold updateCell in Hupd. destruct (cellAt b q) as [c|] eqn:Hc.
  - right. exact Hs.
  - left. unfold letterAt. rewrite Hc. reflexivity.
Qed.

Lemma drawLetters_lettersWritten cfg d : forall rest newPos cells positions cells' ps,
  (forall i s, charAt rest i = Some s -> L s) ->
  drawLetters cfg rest newPos d cells positions = Some (cells', ps) ->
  lettersWritten L cells cells'.
Proof.
  induction rest as [|ch rest IH]; intros newPos cells positions cells' ps HL H;
    cbn [drawLetters] in H.
  - injection H as <- _. constructor.
  - destruct newPos as [p|]; [|discriminate].
    assert (forall i s, charAt rest i = Some s -> L s) as HL'.
    { intros i s Hi. apply (HL (S i)). rewrite charAt_S. exact Hi. }
    destruct (moveInDirection cfg p d) as [np|].
    + destruct (updateCell (Cell.set_letter (String ch "")) np cells)
        as [cells1|] eqn:Hupd; [|discriminate].
      eapply lettersWritten_step; [|exact Hupd|eapply IH; eauto].
      apply (HL O). apply charAt_0.
    + eapply IH; eauto.
Qed.

Lemma drawWord_board_lettersWritten cfg wd cells cells' ps :
  wd_word wd <> "" ->
  (forall i s, charAt (wd_word wd) i = Some s -> L s) ->
  drawWord_board cfg wd cells = Some (cells', ps) ->
  lettersWritten L cells cells'.
Proof.
  intros Hne HL H. unfold drawWord_board in H.
  destruct (updateCell (Cell.set_letter (firstLetter (wd_word wd))) (startPos wd) cells)
    as [cells1|] eqn:Hupd; [|discriminate].
  destruct (wd_word wd) as [|ch rest] eqn:Hw; [congruence|]. cbn in Hupd, H.
  eapply lettersWritten_step; [|exact Hupd|].
  - apply (HL O). apply charAt_0.
  - eapply drawLetters_lettersWritten; [|exact H].
    intros i s Hi. apply (HL (S i)). rewrite charAt_S. exact Hi.
Qed.

End LettersWritten.

Section Placing.
Context (L : string -> Prop).

Lemma placedFrom_refl w o : output w = Some o -> placedFrom L [] w w.
Proof.
  intros Ho. exists o, (board o), (randomCalls w).
  split; [exact Ho|]. split; [constructor|].
  rewrite app_nil_r. destruct w, o. cbn in *. subst. reflexivity.
Qed.

Lemma placedFrom_trans ws1 ws2 w1 w2 w3 :
  placedFrom L ws1 w1 w2 -> placedFrom L ws2 w2 w3 ->
  placedFrom L (ws1 ++ ws2) w1 w3.
Proof.
  intros (o1 & b2 & n2 & Ho1 & Hb2 & ->) (o2 & b3 & n3 & Ho2 & Hb3 & ->).
  cbn in Ho2. injection Ho2 as <-. cbn in Hb3.
  exists o1, b3, n3. split; [exact Ho1|].
  split; [eapply lettersWritten_trans; eauto|].
  cbn. rewrite app_assoc. reflexivity.
Qed.

Lemma placedFrom_draws w w' o :
  output w = Some o -> sameButDraws w w' -> placedFrom L [] w w'.
Proof.
  intros Ho ->. exists o, (board o), (randomCalls w').
  split; [exact Ho|]. split; [constructor|].
  rewrite app_nil_r. destruct w, o. cbn in *. subst. reflexivity.
Qed.

Lemma placedFrom_output ws w w' :
  placedFrom L ws w w' -> is_Some (output w').
Proof. intros (o & b' & n & _ & _ & ->). cbn. eauto. Qed.

Lemma placedFrom_config ws w w' : placedFrom L ws w w' -> config w' = config w.
Proof. intros (o & b' & n & _ & _ & ->). reflexivity. Qed.

Lemma drawWordInBoard_placedFrom wd w w' :
  wd_word wd <> "" ->
  (forall i s, charAt (wd_word wd) i = Some s -> L s) ->
  drawWordInBoard wd w = (Returns tt, w') ->
  exists ps, placedFrom L [Word.mk (wd_word wd) ps false false] w w'.
Proof.
  intros Hne HL H.
  destruct (output w) as [o|] eqn:Ho.
  - destruct (drawWord_board (config w) wd (board o)) as [[cells' ps]|] eqn:Hdraw.
    + rewrite (drawWordInBoard_eq wd w o cells' ps Ho Hdraw) in H. injection H as <-.
      exists ps, o, cells', (randomCalls w). split; [exact Ho|].
      split; [eapply drawWord_board_lettersWritten; eauto|].
      destruct w; reflexivity.
    + exfalso. unfold drawWordInBoard, getBoard, getOutput, bind, getThis, deref in H.
      rewrite Ho in H. cbn in H. rewrite Hdraw in H. discriminate.
  - exfalso. unfold drawWordInBoard, getBoard, getOutput, bind, getThis, deref in H.
    rewrite Ho in H. discriminate.
Qed.

Lemma allocateWordsInBoard_placedFrom : forall texts w w' o,
  output w = Some o ->
  Forall (fun word => word <> "" /\ forall i s, charAt word i = Some s -> L s) texts ->
  allocateWordsInBoard texts w = (Returns tt, w') ->
  exists ws',
    placedFrom L ws' w w' /\ map Word.word ws' = texts /\ Forall unfound ws'.
Proof.
  induction texts as [|word texts IH]; intros w w' o Ho Htexts H;
    cbn [allocateWordsInBoard] in H.
  - injection H as <-. exists []. split; [eapply placedFrom_refl; eauto|].
    split; [reflexivity | constructor].
  - apply Forall_cons in Htexts as [[Hne HL] Htexts].
    apply bind_Returns in H as (wd & w1 & Hfit & H).
    apply bind_Returns in H as ([] & w2 & Hdraw & H).
    apply fitWordInRandomPos_Returns in Hfit as (o1 & _ & Hw1 & Hwd & _).
    pose proof (placedFrom_draws w w1 o Ho Hw1) as H01.
    destruct (drawWordInBoard_placedFrom wd w1 w2) as [ps H12];
      [rewrite Hwd; exact Hne | rewrite Hwd; exact HL | exact Hdraw |].
    destruct (placedFrom_output _ _ _ H12) as [o2 Ho2].
    destruct (IH w2 w' o2 Ho2 Htexts H) as (ws' & H2 & Hmap & Hflags).
    exists (Word.mk (wd_word wd) ps false false :: ws'). split; [|split].
    + change (Word.mk (wd_word wd) ps false false :: ws')
        with (([] ++ [Word.mk (wd_word wd) ps false false]) ++ ws')%list.
      eapply placedFrom_trans; [eapply placedFrom_trans|]; eauto.
    + cbn. rewrite Hwd, Hmap. reflexivity.
    + constructor; [split; reflexivity | exact Hflags].
Qed.

Lemma fillInRandomChars_row_placedFrom x : forall ys w w' o,
  output w = Some o ->
  (forall i ch, (i < 25)%nat ->
     String.get i (getStrInCase (config w) "abcdefghijklmnopqrstuvwxyz") = Some ch ->
     L (String ch "")) ->
  fillInRandomChars_row x ys w = (Returns tt, w') ->
  placedFrom L [] w w'.
Proof.
  induction ys as [|y ys IH]; intros w w' o Ho HL H; cbn [fillInRandomChars_row] in H.
  - injection H as <-. eapply placedFrom_refl; eauto.
  - apply bind_Returns in H as (b & w1 & Hb & H).
    apply bind_Returns in H as (cell & w2 & Hcell & H).
    apply bind_Returns in H as ([] & w3 & Hstep & H).
    rewrite (getBoard_eq w o Ho) in Hb. injection Hb as <- <-.
    destruct (cellAt (board o) (Vector2D.mk x y)) as [cell0|]; [|discriminate].
    cbn in Hcell. injection Hcell as <- <-.
    assert (placedFrom L [] w w3) as H03.
    { destruct (String.eqb (Cell.letter cell0) "").
      - apply bind_Returns in Hstep as (s & w4 & Hch & Hstep).
        destruct (getRandomChar_eq w) as (i & ch & Hi & Hget & Heq).
        rewrite Heq in Hch. injection Hch as <- <-.
        unfold bind at 1 in Hstep.
        rewrite (getBoard_eq _ o (Ho : output (set_randomCalls _ w) = Some o)) in Hstep.
        apply bind_Returns in Hstep as (b' & w5 & Hb' & Hstep).
        destruct (updateCell (Cell.set_letter (String ch "")) (Vector2D.mk x y) (board o))
          as [b1|] eqn:Hupd; [|discriminate].
        cbn in Hb'. injection Hb' as <- <-.
        rewrite (setBoard_eq _ o b1 (Ho : output (set_randomCalls _ w) = Some o)) in Hstep.
        injection Hstep as <-.
        exists o, b1, (S (randomCalls w)). split; [exact Ho|]. split.
        + eapply lettersWritten_one; [|exact Hupd]. eapply HL; eauto.
        + rewrite app_nil_r. destruct w, o; reflexivity.
      - injection Hstep as <-. eapply placedFrom_refl; eauto. }
    destruct (placedFrom_output _ _ _ H03) as [o3 Ho3].
    change (@nil Word.t) with (@nil Word.t ++ [])%list.
    eapply placedFrom_trans; [exact H03|].
    eapply IH; [exact Ho3| |exact H].
    rewrite (placedFrom_config _ _ _ H03). exact HL.
Qed.

Lemma fillInRandomChars_rows_placedFrom ys : forall xs w w' o,
  output w = Some o ->
  (forall i ch, (i < 25)%nat ->
     String.get i (getStrInCase (config w) "abcdefghijklmnopqrstuvwxyz") = Some ch ->
     L (String ch "")) ->
  fillInRandomChars_rows xs ys w = (Returns tt, w') ->
  placedFrom L [] w w'.
Proof.
  induction xs as [|x xs IH]; intros w w' o Ho HL H; cbn [fillInRandomChars_rows] in H.
  - injection H as <-. eapply placedFrom_refl; eauto.
  - apply bind_Returns in H as ([] & w1 & Hrow & H).
    pose proof (fillInRandomChars_row_placedFrom x ys w w1 o Ho HL Hrow) as H01.
    destruct (placedFrom_output _ _ _ H01) as [o1 Ho1].
    change (@nil Word.t) with (@nil Word.t ++ [])%list.
    eapply placedFrom_trans; [exact H01|].
    eapply IH; [exact Ho1| |exact H].
    rewrite (placedFrom_config _ _ _ H01). exact HL.
Qed.

Lemma fillInRandomChars_placedFrom w w' o :
  output w = Some o ->
  (forall i ch, (i < 25)%nat ->
     String.get i (getStrInCase (config w) "abcdefghijklmnopqrstuvwxyz") = Some ch ->
     L (String ch "")) ->
  fillInRandomChars w = (Returns tt, w') ->
  placedFrom L [] w w'.
Proof.
  unfold fillInRandomChars. intros Ho HL H.
  apply bind_Returns in H as (w0 & w1 & Hthis & H). injection Hthis as _ <-.
  eapply fillInRandomChars_rows_placedFrom; eauto.
Qed.

End Placing.

(** What a successful attempt leaves: the words that [getWords] returned
    are the registry, in order and not yet found; the board is the blank
    board with letters written on it; the selection is reset. *)
Lemma generateAttempt_placedFrom (L : string -> Prop) w out w' :
  generateAttempt w = (Returns out, w') ->
  (forall word i s, word ∈ dictionary (wordsConfig (config w)) ->
                    charAt word i = Some s -> L s) ->
  (forall i ch, (i < 25)%nat ->
     String.get i (getStrInCase (config w) "abcdefghijklmnopqrstuvwxyz") = Some ch ->
     L (String ch "")) ->
  exists texts w1 ws' b' n,
    getWords w = (Returns texts, w1) /\
    map Word.word ws' = texts /\ Forall unfound ws' /\
    lettersWritten L (map (map resetCell) (getBlankBoard (config w))) b' /\
    out = mkOutput b' ws' "" false "" /\
    w' = mkWordsearch (config w) (Some out) 0 NONE 0 None (mathRandom w) n (console w).
Proof.
  intros H HLdict HLabc. unfold generateAttempt in H.
  apply bind_Returns in H as (texts & w1 & Hwords & H).
  pose proof (getWords_result _ _ _ Hwords) as (Hsame & _ & _ & Htexts).
  apply bind_Returns in H as (w1' & w1'' & [= <- <-] & H).
  apply bind_Returns in H as ([] & w2 & [= <-] & H).
  apply bind_Returns in H as ([] & w3 & Hreset & H).
  erewrite resetCurrentSelection_eq in Hreset;
    [|reflexivity|cbn; apply getBlankBoard_wf].
  injection Hreset as <-.
  apply bind_Returns in H as ([] & w4 & Halloc & H).
  apply bind_Returns in H as ([] & w5 & Hfill & H).
  apply bind_Returns in H as ([] & w6 & [= <-] & H).
  assert (config w1 = config w) as Hc1 by (rewrite Hsame; reflexivity).
  destruct (allocateWordsInBoard_placedFrom L texts (blankStart w1) w4 _ eq_refl) as
    (ws' & H34 & Hmap & Hflags); [|exact Halloc|].
  { eapply Forall_impl; [exact Htexts|]. cbn. intros word (Hin & Hne & _).
    split; [exact Hne|]. intros i s Hs. eapply HLdict; eauto. }
  destruct (placedFrom_output _ _ _ _ H34) as [o4 Ho4].
  pose proof (fillInRandomChars_placedFrom L w4 w5 o4 Ho4) as H45.
  rewrite (placedFrom_config _ _ _ _ H34) in H45.
  change (config (blankStart w1)) with (config w1) in H45.
  rewrite Hc1 in H45. specialize (H45 HLabc Hfill).
  pose proof (placedFrom_trans L _ _ _ _ _ H34 H45) as (o & b' & n & Ho & Hb' & Hw5).
  cbn in Ho. injection Ho as <-. cbn in Hb', Hw5. rewrite app_nil_r in Hw5.
  rewrite Hw5 in H. cbn in H. injection H as <- <-.
  exists texts, w1, ws', b', n. split; [exact Hwords|]. split; [exact Hmap|].
  split; [exact Hflags|]. split; [rewrite <- Hc1; exact Hb'|]. split; [reflexivity|].
  rewrite Hsame. reflexivity.
Qed.

Lemma caseConfig_idem c : caseConfig (caseConfig c) = caseConfig c.
Proof.
  unfold caseConfig. cbn. f_equal. f_equal. rewrite map_map.
  apply map_ext. intros s.
  change (getStrInCase _ (getStrInCase c s)) with (getStrInCase c (getStrInCase c s)).
  apply getStrInCase_idem.
Qed.

Lemma validConfig_None cfg :
  validConfig cfg = None <->
  6 <= size cfg <= 50 /\
  1 <= amount (wordsConfig cfg) <= 50 /\
  minLength (wordsConfig cfg) <= size cfg /\
  maxLength (wordsConfig cfg) <= size cfg /\
  amount (wordsConfig cfg) <= Z.of_nat (length (dictionary (wordsConfig cfg))) /\
  allowedDirections cfg <> [].
Proof.
  unfold validConfig. cbv zeta.
  destruct (Z.ltb_spec (size cfg) 6), (Z.gtb_spec (size cfg) 50); cbn [orb];
    try (split; [discriminate | lia]).
  destruct (Z.ltb_spec (amount (wordsConfig cfg)) 1),
           (Z.gtb_spec (amount (wordsConfig cfg)) 50); cbn [orb];
    try (split; [discriminate | lia]).
  destruct (Z.gtb_spec (minLength (wordsConfig cfg)) (size cfg));
    try (split; [discriminate | lia]).
  destruct (Z.gtb_spec (maxLength (wordsConfig cfg)) (size cfg));
    try (split; [discriminate | lia]).
  destruct (Z.ltb_spec (Z.of_nat (length (dictionary (wordsConfig cfg))))
              (amount (wordsConfig cfg)));
    try (split; [discriminate | lia]).
  destruct (allowedDirections cfg) as [|d ds]; cbn.
  - split; [discriminate | intros (_ & _ & _ & _ & _ & Hd); congruence].
  - destruct (Z.ltb_spec (Z.of_nat (S (length ds))) 1); [lia|].
    split; [|reflexivity]. intros _. repeat split; try lia. discriminate.
Qed.

Lemma validConfig_caseConfig cfg : validConfig (caseConfig cfg) = validConfig cfg.
Proof. unfold validConfig, caseConfig. cbn. rewrite length_map. reflexivity. Qed.

Lemma attemptRound_Succeeded_valid w out w2 :
  attemptRound w = (Returns (Succeeded out), w2) ->
  exists w1,
    config w1 = caseConfig (config w) /\ validConfig (config w1) = None /\
    generateAttempt w1 = (Returns out, w2).
Proof.
  intros H. pose proof H as H0. unfold attemptRound in H.
  apply bind_Returns in H as ([] & w1 & Hcase & H).
  apply bind_Returns in H as (w0 & w1' & [= <- <-] & H).
  destruct (validConfig (config w1)) eqn:Hvalid.
  { exfalso. exact (throwError_not_Returns _ _ _ _ H). }
  unfold tryCatch, bind, ret in H.
  destruct (generateAttempt w1) as [[out'|e|] w3] eqn:E; try discriminate.
  injection H as <- <-. exists w1. split; [exact (setCase_config _ _ Hcase)|].
  split; [exact Hvalid | exact E].
Qed.

Lemma generate_rec_Returns_valid retries : forall w out w',
  generate_rec retries w = (Returns out, w') ->
  exists w1,
    generateAttempt w1 = (Returns out, w') /\
    config w1 = caseConfig (config w) /\ validConfig (config w1) = None.
Proof.
  induction retries as [|retries IH]; intros w out w' H;
    rewrite generate_rec_round in H;
    destruct (attemptRound w) as [[[out1|e]|e|] w2] eqn:Er; try discriminate.
  - injection H as <- <-.
    apply attemptRound_Succeeded_valid in Er as (w1 & Hc & Hv & Hatt). eauto.
  - destruct (_ >? _); [|discriminate].
    exfalso. exact (throwError_not_Returns _ _ _ _ H).
  - injection H as <- <-.
    apply attemptRound_Succeeded_valid in Er as (w1 & Hc & Hv & Hatt). eauto.
  - destruct (_ >? _).
    { exfalso. exact (throwError_not_Returns _ _ _ _ H). }
    apply attemptRound_Failed_config in Er.
    destruct (IH _ _ _ H) as (w1 & Hatt & Hc & Hv).
    exists w1. split; [exact Hatt|]. split; [|exact Hv].
    rewrite Hc. cbn. rewrite Er. apply caseConfig_idem.
Qed.

Lemma generate_Returns_valid w out w' :
  generate w = (Returns out, w') ->
  exists w1,
    generateAttempt w1 = (Returns out, w') /\
    config w1 = caseConfig (config w) /\ validConfig (config w1) = None.
Proof.
  unfold generate. intros H.
  apply bind_Returns in H as (w0 & w1 & [= <- <-] & H).
  eapply generate_rec_Returns_valid, H.
Qed.


Lemma blankStart_fresh cfg :
  cellsAll freshCell (map (map resetCell) (getBlankBoard cfg)).
Proof.
  intros q c Hc. rewrite cellAt_map_map, getBlankBoard_cellAt in Hc.
  destruct (isVectorInBoard cfg q); [|discriminate].
  cbn in Hc. injection Hc as <-. reflexivity.
Qed.

Lemma board_wf_caseConfig cfg b : board_wf (caseConfig cfg) b <-> board_wf cfg b.
Proof. reflexivity. Qed.

(** X8.  The puzzle that [generate] returns is fresh: nothing is selected
    and no word is accumulated, the game is not ended and no error is
    recorded, no registry entry is found or shown, and the board is a
    [size] by [size] square in which every cell records its own position,
    is selectable, and has its shown, found, selected and highlighted
    flags cleared. *)
Theorem X8_generate_returns_fresh_puzzle
  (w w' : Wordsearch) (out : WordsearchOutput) :
  generate w = (Returns out, w') ->
  selectedCount w' = 0 /\ selectedDirection w' = NONE /\
  lastSelectedVector w' = None /\
  currentWord out = "" /\ endGame out = false /\ error out = "" /\
  Forall unfound (words out) /\
  board_wf (config w) (board out) /\
  cellsAll freshCell (board out).
Proof.
  intros H. apply generate_Returns_valid in H as (w1 & Hatt & Hc & _).
  destruct (generateAttempt_placedFrom (fun _ => True) w1 out w' Hatt)
    as (texts & w2 & ws' & b' & n & _ & _ & Hflags & Hb' & -> & ->); [auto | auto |].
  cbn. repeat (split; [reflexivity|]). split; [exact Hflags|]. split.
  - apply (proj1 (board_wf_caseConfig (config w) b')). rewrite <- Hc.
    eapply lettersWritten_wf; [exact Hb'|]. apply map_map_wf, getBlankBoard_wf.
  - eapply lettersWritten_cellsAll; [|exact Hb'|apply blankStart_fresh].
    intros q c s Hfresh _. unfold freshCell in *. rewrite Hfresh. reflexivity.
Qed.

Lemma generate_registry_words
  (w w' : Wordsearch) (out : WordsearchOutput) :
  generate w = (Returns out, w') ->
  Z.of_nat (length (words out)) = amount (wordsConfig (config w)) /\
  NoDup (map Word.word (words out)) /\
  Forall (fun s =>
            s ∈ map (getStrInCase (config w)) (dictionary (wordsConfig (config w))) /\
            s <> "" /\ withinLengths (config w) s)
         (map Word.word (words out)).
Proof.
  intros H. apply generate_Returns_valid in H as (w1 & Hatt & Hc & Hv).
  destruct (generateAttempt_placedFrom (fun _ => True) w1 out w' Hatt)
    as (texts & w2 & ws' & b' & n & Hwords & Hmap & _ & _ & -> & _); [auto | auto |].
  apply getWords_result in Hwords as (_ & Hlen & Hnd & Hall).
  apply validConfig_None in Hv as (_ & Hamount & _).
  rewrite Hc in Hlen, Hall, Hamount. cbn in Hlen, Hamount. cbn [words].
  rewrite Hmap. split; [|split; [exact Hnd | exact Hall]].
  rewrite <- Hmap, length_map in Hlen. lia.
Qed.


(** ** Every cell is filled *)

Lemma placedFrom_nonempty (L : string -> Prop) ws w w' o o' q :
  (forall s, L s -> s <> "") ->
  placedFrom L ws w w' ->
  output w = Some o -> output w' = Some o' ->
  letterAt (board o) q <> "" -> letterAt (board o') q <> "".
Proof.
  intros HL (o0 & b' & n & Ho0 & Hb' & ->) Ho Ho' Hq.
  rewrite Ho in Ho0. injection Ho0 as <-. cbn in Ho'. injection Ho' as <-. cbn.
  destruct (lettersWritten_letter L _ _ q Hb') as [-> | Hl]; [exact Hq | exact (HL _ Hl)].
Qed.

Lemma fillInRandomChars_row_filled x : forall ys w w' o,
  output w = Some o ->
  fillInRandomChars_row x ys w = (Returns tt, w') ->
  exists o', output w' = Some o' /\
             forall y, y ∈ ys -> letterAt (board o') (Vector2D.mk x y) <> "".
Proof.
  induction ys as [|y ys IH]; intros w w' o Ho H.
  - cbn in H. injection H as <-. exists o. split; [exact Ho|]. intros y Hy. inversion Hy.
  - pose proof H as Hrow. cbn [fillInRandomChars_row] in H.
    apply bind_Returns in H as (b & w1 & Hb & H).
    apply bind_Returns in H as (cell & w2 & Hcell & H).
    apply bind_Returns in H as ([] & w3 & Hstep & H).
    rewrite (getBoard_eq w o Ho) in Hb. injection Hb as <- <-.
    destruct (cellAt (board o) (Vector2D.mk x y)) as [cell0|] eqn:Hcell0; [|discriminate].
    cbn in Hcell. injection Hcell as <- <-.
    assert (exists o3, output w3 = Some o3 /\
                       letterAt (board o3) (Vector2D.mk x y) <> "") as (o3 & Ho3 & Hy3).
    { destruct (String.eqb_spec (Cell.letter cell0) "") as [Hempty|Hfull].
      - apply bind_Returns in Hstep as (s & w4 & Hch & Hstep).
        destruct (getRandomChar_eq w) as (i & ch & Hi & Hget & Heq).
        rewrite Heq in Hch. injection Hch as <- <-.
        unfold bind at 1 in Hstep.
        rewrite (getBoard_eq _ o (Ho : output (set_randomCalls _ w) = Some o)) in Hstep.
        apply bind_Returns in Hstep as (b' & w5 & Hb' & Hstep).
        destruct (updateCell (Cell.set_letter (String ch "")) (Vector2D.mk x y) (board o))
          as [b1|] eqn:Hupd; [|discriminate].
        cbn in Hb'. injection Hb' as <- <-.
        rewrite (setBoard_eq _ o b1 (Ho : output (set_randomCalls _ w) = Some o)) in Hstep.
        injection Hstep as <-. eexists. split; [reflexivity|]. cbn.
        rewrite (letterAt_updateCell _ _ _ _ _ Hupd), Vector2D_eqb_refl, Hcell0.
        discriminate.
      - injection Hstep as <-. exists o. split; [exact Ho|].
        unfold letterAt. rewrite Hcell0. exact Hfull. }
    destruct (IH w3 w' o3 Ho3 H) as (o' & Ho' & Hys).
    exists o'. split; [exact Ho'|]. intros y' Hy'.
    apply elem_of_cons in Hy' as [-> | Hy']; [|exact (Hys y' Hy')].
    eapply (placedFrom_nonempty (fun s => s <> "") [] w3 w' o3 o'); eauto.
    eapply fillInRandomChars_row_placedFrom; [exact Ho3| |exact H].
    intros. discriminate.
Qed.

Lemma fillInRandomChars_rows_filled ys : forall xs w w' o,
  output w = Some o ->
  fillInRandomChars_rows xs ys w = (Returns tt, w') ->
  exists o', output w' = Some o' /\
             forall x y, x ∈ xs -> y ∈ ys ->
                         letterAt (board o') (Vector2D.mk x y) <> "".
Proof.
  induction xs as [|x xs IH]; intros w w' o Ho H; cbn [fillInRandomChars_rows] in H.
  - injection H as <-. exists o. split; [exact Ho|]. intros x y Hx. inversion Hx.
  - apply bind_Returns in H as ([] & w1 & Hrow & H).
    destruct (fillInRandomChars_row_filled x ys w w1 o Ho Hrow) as (o1 & Ho1 & Hx).
    destruct (IH w1 w' o1 Ho1 H) as (o' & Ho' & Hxs).
    exists o'. split; [exact Ho'|]. intros x' y Hx' Hy.
    apply elem_of_cons in Hx' as [-> | Hx']; [|exact (Hxs x' y Hx' Hy)].
    eapply (placedFrom_nonempty (fun s => s <> "") [] w1 w' o1 o'); eauto.
    eapply fillInRandomChars_rows_placedFrom; [exact Ho1| |exact H].
    intros. discriminate.
Qed.

(** After [fillInRandomChars] no cell within [config.size] is left
    without a letter. *)
Lemma fillInRandomChars_filled w w' o :
  output w = Some o ->
  fillInRandomChars w = (Returns tt, w') ->
  exists o', output w' = Some o' /\
             forall q, isVectorInBoard (config w) q = true ->
                       letterAt (board o') q <> "".
Proof.
  unfold fillInRandomChars. intros Ho H.
  apply bind_Returns in H as (w0 & w1 & Hthis & H). injection Hthis as <- <-.
  cbv zeta in H.
  destruct (fillInRandomChars_rows_filled _ _ _ _ _ Ho H) as (o' & Ho' & Hall).
  exists o'. split; [exact Ho'|]. intros [x y] Hq.
  apply isVectorInBoard_spec in Hq. cbn in Hq.
  apply Hall; apply elem_of_seqZ; lia.
Qed.

Lemma generateAttempt_filled w out w' :
  generateAttempt w = (Returns out, w') ->
  forall q, isVectorInBoard (config w) q = true -> letterAt (board out) q <> "".
Proof.
  intros H. unfold generateAttempt in H.
  apply bind_Returns in H as (texts & w1 & Hwords & H).
  pose proof (getWords_result _ _ _ Hwords) as (Hsame & _).
  apply bind_Returns in H as (w1' & w1'' & [= <- <-] & H).
  apply bind_Returns in H as ([] & w2 & [= <-] & H).
  apply bind_Returns in H as ([] & w3 & Hreset & H).
  apply bind_Returns in H as ([] & w4 & Halloc & H).
  apply bind_Returns in H as ([] & w5 & Hfill & H).
  apply bind_Returns in H as ([] & w6 & [= <-] & H).
  erewrite resetCurrentSelection_eq in Hreset;
    [|reflexivity|cbn; apply getBlankBoard_wf].
  injection Hreset as <-.
  assert (exists o4, output w4 = Some o4 /\ config w4 = config w) as (o4 & Ho4 & Hc4).
  { destruct (allocateWordsInBoard_placedFrom (fun s => s <> "") texts
                (blankStart w1) w4 _ eq_refl) as (ws' & H34 & _); [|exact Halloc|].
    - apply getWords_result in Hwords as (_ & _ & _ & Htexts).
      eapply Forall_impl; [exact Htexts|]. cbn. intros word (_ & Hne & _).
      split; [exact Hne|]. intros i s Hs. eapply charAt_nonempty, Hs.
    - destruct (placedFrom_output _ _ _ _ H34) as [o4 Ho4]. exists o4.
      split; [exact Ho4|]. rewrite (placedFrom_config _ _ _ _ H34).
      rewrite Hsame. reflexivity. }
  destruct (fillInRandomChars_filled w4 w5 o4 Ho4 Hfill) as (o5 & Ho5 & Hall).
  rewrite (getOutput_eq (set_generationTimes 0 w5) o5 Ho5) in H. injection H as <- _.
  rewrite <- Hc4. exact Hall.
Qed.

(** Every letter of the returned board has been written by the placement
    of a dictionary word in the configured case or by the random fill. *)
Lemma generate_board_letters (L : string -> Prop)
  (w w' : Wordsearch) (out : WordsearchOutput) :
  generate w = (Returns out, w') ->
  (forall word i s, word ∈ dictionary (wordsConfig (config w)) ->
                    charAt (getStrInCase (config w) word) i = Some s -> L s) ->
  (forall i ch, (i < 25)%nat ->
     String.get i (getStrInCase (config w) "abcdefghijklmnopqrstuvwxyz") = Some ch ->
     L (String ch "")) ->
  cellsAll (fun _ c => L (Cell.letter c)) (board out).
Proof.
  intros H HLdict HLabc. apply generate_Returns_valid in H as (w1 & Hatt & Hc & _).
  intros q c Hq.
  assert (isVectorInBoard (config w1) q = true) as Hin.
  { destruct (generateAttempt_placedFrom (fun _ => True) w1 out w' Hatt)
      as (texts & w2 & ws' & b' & n & _ & _ & _ & Hb' & -> & _); [auto | auto |].
    eapply (cellAt_inBoard (config w1) b' q); eauto.
    eapply lettersWritten_wf; [exact Hb'|]. apply map_map_wf, getBlankBoard_wf. }
  pose proof (generateAttempt_filled w1 out w' Hatt q Hin) as Hne.
  destruct (generateAttempt_placedFrom L w1 out w' Hatt)
    as (texts & w2 & ws' & b' & n & _ & _ & _ & Hb' & -> & _).
  { rewrite Hc. cbn. intros word i s Hword Hs.
    apply list_elem_of_fmap in Hword as (word0 & -> & Hword0).
    eapply HLdict; [exact Hword0 | exact Hs]. }
  { rewrite Hc. intros i ch Hi Hget. apply (HLabc i ch Hi). exact Hget. }
  cbn in Hq, Hne.
  destruct (lettersWritten_letter _ _ _ q Hb') as [Heq | HL].
  - exfalso. apply Hne. rewrite Heq. unfold letterAt.
    rewrite cellAt_map_map, getBlankBoard_cellAt, Hin. reflexivity.
  - unfold letterAt in HL. rewrite Hq in HL. exact HL.
Qed.

Lemma charAt_length word i s : charAt word i = Some s -> String.length s = 1%nat.
Proof. unfold charAt. destruct (String.get i word); intros [= <-]; reflexivity. Qed.

Lemma generate_board_one_char (w w' : Wordsearch) (out : WordsearchOutput) :
  generate w = (Returns out, w') ->
  cellsAll (fun _ c => String.length (Cell.letter c) = 1%nat) (board out).
Proof.
  intros H.
  apply (generate_board_letters (fun s => String.length s = 1%nat) w w' out H).
  - intros word i s _ Hs. exact (charAt_length _ _ _ Hs).
  - reflexivity.
Qed.

(** An ASCII letter put in the configured case is in the configured case. *)
Lemma casedLetter_ascii cfg (c : ascii) :
  (nat_of_ascii c <? 128)%nat = true ->
  casedLetter cfg
    (String (match case (wordsConfig cfg) with
             | UPPER => upperAscii c
             | LOWER => lowerAscii c
             end) "").
Proof.
  intros Hc. unfold casedLetter.
  destruct (case (wordsConfig cfg)) eqn:Hcase;
    destruct c as [[] [] [] [] [] [] [] []]; try discriminate Hc;
    (split; [reflexivity|]);
    rewrite getStrInCase_ascii by reflexivity; rewrite Hcase; reflexivity.
Qed.

Lemma casedLetter_charAt cfg word :
  isAscii word = true ->
  forall i s, charAt (getStrInCase cfg word) i = Some s -> casedLetter cfg s.
Proof.
  intros Hword i s. rewrite getStrInCase_ascii by exact Hword.
  revert i Hword. induction word as [|c word IH]; intros i Hword H.
  - destruct (case (wordsConfig cfg)); destruct i; discriminate.
  - cbn in Hword. apply andb_prop in Hword as [Hc Hword].
    destruct i as [|i].
    + pose proof (casedLetter_ascii cfg c Hc) as Hcased.
      destruct (case (wordsConfig cfg)); cbn [mapString] in H; rewrite charAt_0 in H;
        injection H as <-; exact Hcased.
    + apply (IH i Hword).
      destruct (case (wordsConfig cfg)); cbn [mapString] in H; rewrite charAt_S in H;
        exact H.
Qed.

(** X10.  In the puzzle that [generate] returns every cell of the board
    holds exactly one character.  When every dictionary word is ASCII,
    that character is in the configured case: [getStrInCase] leaves it as
    it is, so an upper-case board holds none of a-z and a lower-case board
    none of A-Z. *)
Theorem X10_generate_board_filled_in_case
  (w w' : Wordsearch) (out : WordsearchOutput) :
  generate w = (Returns out, w') ->
  cellsAll (fun _ c => String.length (Cell.letter c) = 1%nat) (board out) /\
  (Forall (fun s => isAscii s = true) (dictionary (wordsConfig (config w))) ->
   cellsAll (fun _ c => casedLetter (config w) (Cell.letter c)) (board out)).
Proof.
  intros H. split; [exact (generate_board_one_char w w' out H)|].
  intros Hdict. apply (generate_board_letters (casedLetter (config w)) w w' out H).
  - intros word i s Hword Hs. rewrite Forall_forall in Hdict.
    exact (casedLetter_charAt (config w) word (Hdict word Hword) i s Hs).
  - intros i ch _ Hget.
    apply (casedLetter_charAt (config w) "abcdefghijklmnopqrstuvwxyz" eq_refl i).
    unfold charAt. rewrite Hget. reflexivity.
Qed.

(** ** Rejected configurations *)

Lemma setCellFieldTo_square f w o cfg :
  output w = Some o ->
  board_wf cfg (board o) ->
  setCellFieldTo f w =
    (Returns tt, set_output (Some (set_board (map (map f) (board o)) o)) w).
Proof.
  intros Ho Hwf. unfold setCellFieldTo. unfold bind at 1.
  rewrite (getBoard_eq w o Ho). unfold bind at 1.
  rewrite (setCellFieldTo_board_wf cfg f (board o) Hwf). cbn [deref ret].
  apply setBoard_eq, Ho.
Qed.

Lemma setCase_eq_None w :
  output w = None -> setCase w = (Returns tt, set_config (caseConfig (config w)) w).
Proof.
  intros Ho. unfold setCase. unfold bind at 1, getThis at 1. rewrite Ho.
  reflexivity.
Qed.

Lemma setCase_eq_Some w o cfg :
  output w = Some o -> board_wf cfg (board o) ->
  setCase w =
    (Returns tt,
     set_config (caseConfig (config w))
       (set_output (Some (caseOutput (config w) o)) w)).
Proof.
  intros Ho Hwf. unfold setCase. unfold bind at 1, getThis at 1. rewrite Ho.
  unfold bind at 1. unfold bind at 1.
  rewrite (setCellFieldTo_square _ w o cfg Ho Hwf).
  erewrite modifyOutput_eq by reflexivity. reflexivity.
Qed.

(** X11.  On an instance that holds an output record with a square board,
    [generate] with a configuration that [validConfig] rejects throws
    "Invalid configuration: " followed by the validation message, and
    records that text in [output.error]; the board and the registry are
    kept (in the configured case), no attempt is made and no random draw
    is consumed. *)
Theorem X11_generate_rejects_invalid_configuration
  (w : Wordsearch) (o : WordsearchOutput) (cfg0 : WordsearchConfig) (msg : string) :
  output w = Some o ->
  board_wf cfg0 (board o) ->
  validConfig (config w) = Some msg ->
  generate w =
    (Throws (JsErrorMsg (String.append "Invalid configuration: " msg)),
     set_config (caseConfig (config w))
       (set_output
          (Some (set_error (String.append "Invalid configuration: " msg)
                   (caseOutput (config w) o))) w)).
Proof.
  intros Ho Hwf Hv. unfold generate. unfold bind at 1, getThis at 1.
  destruct (Z.to_nat (50 - generationTimes w)) as [|retries];
    cbn [generate_rec]; unfold bind at 1;
    rewrite (setCase_eq_Some w o cfg0 Ho Hwf);
    unfold bind at 1, getThis at 1; cbn [config set_config];
    rewrite validConfig_caseConfig; cbn [config set_output]; rewrite Hv;
    reflexivity.
Qed.

(** X12.  On an instance that has not generated a board yet, [generate]
    with a configuration that [validConfig] rejects throws a [TypeError]
    instead of the validation message: [throwError] writes
    [output.error] while [output] is still undefined.  Only the
    dictionary has been put in the configured case. *)
Theorem X12_generate_rejects_on_fresh_instance_with_TypeError
  (w : Wordsearch) (msg : string) :
  output w = None ->
  validConfig (config w) = Some msg ->
  generate w = (Throws JsTypeError, set_config (caseConfig (config w)) w).
Proof.
  intros Ho Hv. unfold generate. unfold bind at 1, getThis at 1.
  destruct (Z.to_nat (50 - generationTimes w)) as [|retries];
    cbn [generate_rec]; unfold bind at 1;
    rewrite (setCase_eq_None w Ho);
    unfold bind at 1, getThis at 1; cbn [config set_config];
    rewrite validConfig_caseConfig, Hv;
    unfold throwError, modifyOutput, getOutput, bind, getThis, deref;
    cbn [output set_config]; rewrite Ho; reflexivity.
Qed.


(** * Further properties of placement *)

Lemma shuffleSelf_Returns {A} steps : forall index (array : list A) w,
  exists l' w', shuffleSelf steps index array w = (Returns l', w') /\ sameButDraws w w'.
Proof.
  induction steps as [|steps IH]; intros index array w; cbn [shuffleSelf].
  - exists array, w. split; [reflexivity | destruct w; reflexivity].
  - unfold bind at 1.
    destruct (randomBelow (length array - index) w) as [[r| |] w1] eqn:Hr;
      unfold randomBelow in Hr; try discriminate.
    injection Hr as _ Hw1. cbv zeta.
    assert (sameButDraws w w1) as H01 by (rewrite <- Hw1; destruct w; reflexivity).
    assert (forall l : list A, exists l' w',
              shuffleSelf steps (S index) l w1 = (Returns l', w') /\ sameButDraws w w')
      as Hnext.
    { intros l. destruct (IH (S index) l w1) as (l' & w' & Heq & Hsame).
      exists l', w'. split; [exact Heq|].
      unfold sameButDraws in *. rewrite Hsame, H01. reflexivity. }
    destruct (array !! (index + r)%nat), (array !! index); apply Hnext.
Qed.

Lemma shuffle_Returns {A} (l : list A) w :
  exists l' w', shuffle l w = (Returns l', w') /\ sameButDraws w w'.
Proof. apply shuffleSelf_Returns. Qed.

Lemma fitWordInCell_None cfg b word cell : forall directions,
  (forall d, d ∈ directions ->
     doesWordFit cfg word (Cell.pos cell) d = false \/
     doesWordCollide cfg b word (Cell.pos cell) d = Some true) ->
  fitWordInCell cfg b word cell directions = Some None.
Proof.
  induction directions as [|d ds IH]; intros H; cbn [fitWordInCell]; [reflexivity|].
  destruct (H d ltac:(left)) as [-> | Hcol].
  - apply IH. intros d' Hd'. apply H. right. exact Hd'.
  - rewrite Hcol. destruct (doesWordFit _ _ _ _);
      apply IH; intros d' Hd'; apply H; right; exact Hd'.
Qed.

Lemma fitWordInCells_None cfg b word directions : forall cells,
  (forall cell d, cell ∈ cells -> d ∈ directions ->
     doesWordFit cfg word (Cell.pos cell) d = false \/
     doesWordCollide cfg b word (Cell.pos cell) d = Some true) ->
  fitWordInCells cfg b word cells directions = Some None.
Proof.
  induction cells as [|cell cells IH]; intros H; cbn [fitWordInCells]; [reflexivity|].
  rewrite fitWordInCell_None.
  - apply IH. intros c d Hc Hd. apply H; [right; exact Hc | exact Hd].
  - intros d Hd. apply H; [left | exact Hd].
Qed.

(** A word at least as long as the board is wide is reported as colliding
    wherever it fits: the step after its last letter leaves the board. *)
Lemma doesWordCollide_long cfg b word p d :
  board_wf cfg b ->
  isRealDirection d = true ->
  size cfg <= Z.of_nat (String.length word) ->
  doesWordFit cfg word p d = true ->
  doesWordCollide cfg b word p d = Some true.
Proof.
  intros Hwf Hd Hlen Hfit. rewrite (doesWordCollide_fits cfg b word p d Hwf Hfit).
  f_equal. apply orb_true_iff. right. apply negb_true_iff.
  apply not_true_iff_false. intros Hin.
  rewrite doesWordFit_fitsInBounds in Hfit. unfold fitsInBounds in Hfit.
  apply andb_true_iff in Hfit as [Hp _].
  apply isVectorInBoard_spec in Hp, Hin.
  destruct p as [x y]. unfold stepN in Hin. cbn in Hp, Hin.
  destruct d; try discriminate; cbn in Hin; lia.
Qed.

Lemma throwError_eq {A} msg w o :
  output w = Some o ->
  @throwError A msg w =
    (Throws (JsErrorMsg msg), set_output (Some (set_error msg o)) w).
Proof.
  intros Ho. unfold throwError. unfold bind at 1.
  erewrite modifyOutput_eq by exact Ho. reflexivity.
Qed.

(** X13.  Under real allowed directions, a word at least as long as the
    board is wide is never placed: whatever the random draws,
    [fitWordInRandomPos] throws "Could not fit word in board: " followed
    by the word and records that text in [output.error], leaving board and
    registry as they were.  For a word exactly as long as the board this
    is because [doesWordCollide] reports a collision when the step after
    the last letter leaves the board. *)
Theorem X13_word_as_long_as_board_is_never_placed
  (w : Wordsearch) (o : WordsearchOutput) (word : string) :
  output w = Some o ->
  board_wf (config w) (board o) ->
  forallb isRealDirection (allowedDirections (config w)) = true ->
  size (config w) <= Z.of_nat (String.length word) ->
  exists n,
    fitWordInRandomPos word w =
      (Throws (JsErrorMsg (String.append "Could not fit word in board: " word)),
       set_randomCalls n
         (set_output
            (Some (set_error (String.append "Could not fit word in board: " word) o))
            w)).
Proof.
  intros Ho Hwf Hreal Hlen. unfold fitWordInRandomPos.
  unfold bind at 1, getThis at 1.
  destruct (shuffle_Returns (allowedDirections (config w)) w)
    as (dirs & w1 & Hdirs & H01).
  unfold bind at 1. rewrite Hdirs.
  assert (output w1 = Some o) as Ho1 by (rewrite H01; exact Ho).
  unfold bind at 1. rewrite (getBoard_eq w1 o Ho1).
  destruct (shuffle_Returns (concat (board o)) w1) as (cells & w2 & Hcells & H12).
  unfold bind at 1. rewrite Hcells.
  assert (output w2 = Some o) as Ho2 by (rewrite H12; exact Ho1).
  unfold bind at 1. rewrite fitWordInCells_None.
  - cbn [deref ret]. rewrite (throwError_eq _ w2 o Ho2).
    exists (randomCalls w2). f_equal.
    rewrite H12, H01. destruct w; reflexivity.
  - intros cell d _ Hd.
    destruct (doesWordFit (config w) word (Cell.pos cell) d) eqn:Hfit; [|left; reflexivity].
    right. apply doesWordCollide_long; auto.
    eapply realDirections_elem; [exact Hreal|].
    eapply shuffle_elem_of; eauto.
Qed.


(** * What play leaves alone *)

Lemma sameCell_refl c : sameCell c c.
Proof. split; reflexivity. Qed.

Lemma sameCell_trans c1 c2 c3 : sameCell c1 c2 -> sameCell c2 c3 -> sameCell c1 c3.
Proof. intros [? ?] [? ?]. split; congruence. Qed.

Lemma sameEntry_refl a : sameEntry a a.
Proof. split; reflexivity. Qed.

Lemma sameEntry_trans a b c : sameEntry a b -> sameEntry b c -> sameEntry a c.
Proof. intros [? ?] [? ?]. split; congruence. Qed.

Lemma sameEntries_refl ws : Forall2 sameEntry ws ws.
Proof. apply Forall2_same_length_lookup. split; [reflexivity|].
  intros i x y Hx Hy. rewrite Hx in Hy. injection Hy as <-. apply sameEntry_refl. Qed.

Lemma sameEntries_trans ws1 ws2 ws3 :
  Forall2 sameEntry ws1 ws2 -> Forall2 sameEntry ws2 ws3 -> Forall2 sameEntry ws1 ws3.
Proof.
  intros H12. revert ws3. induction H12 as [|a b ws1 ws2 Hab _ IH]; intros ws3 H23.
  - inversion H23. constructor.
  - inversion H23 as [|b' c ws2' ws3' Hbc H23']; subst.
    constructor; [eapply sameEntry_trans; eauto | apply IH; assumption].
Qed.

Lemma sameCells_refl b : sameCells b b.
Proof. intros q. destruct (cellAt b q); constructor. apply sameCell_refl. Qed.

Lemma sameCells_trans b1 b2 b3 : sameCells b1 b2 -> sameCells b2 b3 -> sameCells b1 b3.
Proof.
  intros H12 H23 q. specialize (H12 q). specialize (H23 q).
  destruct H12 as [c1 c2 H12|]; inversion H23 as [c2' c3 H23'|]; subst; constructor.
  eapply sameCell_trans; eauto.
Qed.

Lemma sameCells_updateCell f p b b' :
  (forall c, sameCell c (f c)) -> updateCell f p b = Some b' -> sameCells b b'.
Proof.
  intros Hf Hupd q. rewrite (cellAt_updateCell _ _ _ _ q Hupd).
  destruct (Vector2D.eqb q p); destruct (cellAt b q); constructor;
    [apply Hf | apply sameCell_refl].
Qed.

Lemma sameCells_map_map f b :
  (forall c, sameCell c (f c)) -> sameCells b (map (map f) b).
Proof.
  intros Hf q. rewrite cellAt_map_map. destruct (cellAt b q); constructor. apply Hf.
Qed.

Lemma sameCells_letterAt b b' q : sameCells b b' -> letterAt b' q = letterAt b q.
Proof.
  intros H. specialize (H q). unfold letterAt.
  destruct H as [c c' [_ Hl]|]; [exact Hl | reflexivity].
Qed.

Lemma flagStep_refl w : flagStep w w.
Proof.
  repeat (split; [reflexivity|]). destruct (output w) as [o|]; [|exact I].
  split; [reflexivity|]. split; [apply sameEntries_refl | apply sameCells_refl].
Qed.

Lemma flagStep_trans w1 w2 w3 : flagStep w1 w2 -> flagStep w2 w3 -> flagStep w1 w3.
Proof.
  intros (Hc1 & Hg1 & Hm1 & Hr1 & Hl1 & Ho1) (Hc2 & Hg2 & Hm2 & Hr2 & Hl2 & Ho2).
  repeat (split; [congruence|]).
  destruct (output w1) as [o1|], (output w2) as [o2|], (output w3) as [o3|];
    try contradiction; [|exact I].
  destruct Ho1 as (He1 & Hw1 & Hb1), Ho2 as (He2 & Hw2 & Hb2).
  split; [congruence|]. split.
  - eapply sameEntries_trans; eauto.
  - eapply sameCells_trans; eauto.
Qed.

(** The changes of which play is made. *)
Lemma flagStep_set_board w o b' :
  output w = Some o -> sameCells (board o) b' ->
  flagStep w (set_output (Some (set_board b' o)) w).
Proof.
  intros Ho Hb. repeat (split; [reflexivity|]). rewrite Ho. cbn.
  split; [reflexivity|]. split; [apply sameEntries_refl | exact Hb].
Qed.

Lemma flagStep_set_output w o o' :
  output w = Some o ->
  error o' = error o -> Forall2 sameEntry (words o) (words o') -> board o' = board o ->
  flagStep w (set_output (Some o') w).
Proof.
  intros Ho He Hw Hb. repeat (split; [reflexivity|]). rewrite Ho. cbn.
  split; [exact He|]. split; [exact Hw|]. rewrite Hb. apply sameCells_refl.
Qed.

Lemma flagStep_selection w w' :
  config w' = config w -> output w' = output w ->
  generationTimes w' = generationTimes w -> mathRandom w' = mathRandom w ->
  randomCalls w' = randomCalls w -> console w' = console w ->
  flagStep w w'.
Proof.
  intros Hc Ho Hg Hm Hr Hl. repeat (split; [assumption|]). rewrite Ho.
  destruct (output w) as [o|]; [|exact I].
  split; [reflexivity|]. split; [apply sameEntries_refl | apply sameCells_refl].
Qed.

(** ** Rules for [keeps] *)

Lemma keeps_ret {A} (a : A) : keeps (ret a).
Proof. intros w a' w' [= _ <-]. apply flagStep_refl. Qed.

Lemma keeps_bind {A B} (m : M A) (k : A -> M B) :
  keeps m -> (forall a, keeps (k a)) -> keeps (bind m k).
Proof.
  intros Hm Hk w b w' H. apply bind_Returns in H as (a & w1 & H1 & H2).
  eapply flagStep_trans; [eapply Hm | eapply Hk]; eauto.
Qed.

Lemma keeps_getThis : keeps getThis.
Proof. intros w a w' [= _ <-]. apply flagStep_refl. Qed.

Lemma keeps_deref {A} (o : option A) : keeps (deref o).
Proof.
  destruct o as [x|]; intros w a w' H; [|discriminate].
  injection H as _ <-. apply flagStep_refl.
Qed.

Lemma keeps_liftOutcome {A} (r : Outcome A) : keeps (liftOutcome r).
Proof. intros w a w' [= _ <-]. apply flagStep_refl. Qed.

Lemma keeps_getOutput : keeps getOutput.
Proof. apply keeps_bind; [apply keeps_getThis | intros; apply keeps_deref]. Qed.

Lemma keeps_getBoard : keeps getBoard.
Proof. apply keeps_bind; [apply keeps_getOutput | intros; apply keeps_ret]. Qed.

Lemma keeps_modify f :
  (forall w, config (f w) = config w /\ output (f w) = output w /\
             generationTimes (f w) = generationTimes w /\
             mathRandom (f w) = mathRandom w /\ randomCalls (f w) = randomCalls w /\
             console (f w) = console w) ->
  keeps (modify f).
Proof.
  intros Hf w [] w' [= <-]. destruct (Hf w) as (? & ? & ? & ? & ? & ?).
  apply flagStep_selection; assumption.
Qed.

Lemma keeps_modifyOutput f :
  (forall o, error (f o) = error o /\ Forall2 sameEntry (words o) (words (f o)) /\
             board (f o) = board o) ->
  keeps (modifyOutput f).
Proof.
  intros Hf w a w' H. unfold modifyOutput in H.
  apply bind_Returns in H as (o & w1 & Ho & H).
  unfold getOutput, bind, getThis, deref in Ho.
  destruct (output w) as [o0|] eqn:Ho0; [|discriminate]. injection Ho as <- <-.
  injection H as _ <-. destruct (Hf o0) as (He & Hw & Hb).
  apply (flagStep_set_output w o0 (f o0) Ho0 He Hw Hb).
Qed.

(** [board := F board], for a function [F] that changes flags only. *)
Lemma keeps_updateBoard (F : Board -> M Board) :
  (forall b w b' w', F b w = (Returns b', w') -> w' = w /\ sameCells b b') ->
  keeps (let* b := getBoard in let* b' := F b in setBoard b').
Proof.
  intros HF w a w' H.
  apply bind_Returns in H as (b & w1 & Hb & H).
  unfold getBoard, getOutput, bind, getThis, deref, ret in Hb.
  destruct (output w) as [o|] eqn:Ho; [|discriminate]. injection Hb as <- <-.
  apply bind_Returns in H as (b' & w2 & HFb & H).
  destruct (HF _ _ _ _ HFb) as [-> Hsame].
  rewrite (setBoard_eq w o b' Ho) in H. injection H as _ <-.
  apply flagStep_set_board; assumption.
Qed.

Lemma setCellFieldTo_board_sameCells f b b' :
  (forall c, sameCell c (f c)) ->
  setCellFieldTo_board f b = Some b' -> sameCells b b'.
Proof.
  intros Hf H. unfold setCellFieldTo_board in H. cbv zeta in H.
  destruct (forallb _ b) eqn:Hrows; [|discriminate]. injection H as <-.
  intros q. unfold cellAt, index.
  destruct (0 <=? Vector2D.x q); [|constructor].
  change (map ?g b) with (g <$> b). rewrite list_lookup_fmap.
  destruct (b !! Z.to_nat (Vector2D.x q)) as [row|] eqn:Hrow; [|constructor]. cbn.
  destruct (0 <=? Vector2D.y q); [|constructor].
  assert (length b <= length row)%nat as Hlen.
  { rewrite forallb_forall in Hrows.
    apply Nat.leb_le, Hrows, list_elem_of_In. eapply list_elem_of_lookup_2, Hrow. }
  set (y := Z.to_nat (Vector2D.y q)).
  destruct (decide (y < length b)%nat) as [Hy|Hy].
  - rewrite lookup_app_l by (rewrite length_map, length_take; lia).
    change (map f ?l) with (f <$> l). rewrite list_lookup_fmap, lookup_take_lt by lia.
    destruct (row !! y); constructor. apply Hf.
  - rewrite lookup_app_r by (rewrite length_map, length_take; lia).
    rewrite length_map, length_take, lookup_drop.
    replace (length b + (y - length b `min` length row))%nat with y by lia.
    destruct (row !! y); constructor. apply sameCell_refl.
Qed.

Lemma keeps_setCellFieldTo f : (forall c, sameCell c (f c)) -> keeps (setCellFieldTo f).
Proof.
  intros Hf. unfold setCellFieldTo. apply keeps_updateBoard.
  intros b w b' w' H.
  destruct (setCellFieldTo_board f b) as [b1|] eqn:Hb1; [|discriminate].
  injection H as <- <-. split; [reflexivity|].
  eapply setCellFieldTo_board_sameCells; eauto.
Qed.

(** ** The loops that set flags *)

Lemma deref_Returns {A} (o : option A) w a w' :
  deref o w = (Returns a, w') -> w' = w /\ o = Some a.
Proof. destruct o as [x|]; intros H; [|discriminate]. injection H as <- <-. auto. Qed.

Lemma liftOutcome_Returns {A} (r : Outcome A) w a w' :
  liftOutcome r w = (Returns a, w') -> w' = w /\ r = Returns a.
Proof. intros [= -> <-]. auto. Qed.

Lemma markSelectableRay_sameCells cfg d : forall fuel v b b',
  markSelectableRay cfg fuel v d b = Returns b' -> sameCells b b'.
Proof.
  induction fuel as [|fuel IH]; intros v b b' H; destruct v as [p|];
    cbn [markSelectableRay] in H; try discriminate;
    try (injection H as <-; apply sameCells_refl).
  destruct (updateCell (Cell.set_selectable true) p b) as [b1|] eqn:Hupd; [|discriminate].
  eapply sameCells_trans; [|eapply IH, H].
  eapply sameCells_updateCell; [|exact Hupd]. intros c. split; reflexivity.
Qed.

Lemma markSelectableRays_sameCells cfg ls : forall ds b b',
  markSelectableRays cfg ls ds b = Returns b' -> sameCells b b'.
Proof.
  induction ds as [|d ds IH]; intros b b' H; cbn [markSelectableRays] in H.
  - injection H as <-. apply sameCells_refl.
  - destruct (markSelectableRay cfg (walkFuel cfg) (moveInDirection cfg ls d) d b)
      as [b1| |] eqn:Hray; try discriminate.
    eapply sameCells_trans; [eapply markSelectableRay_sameCells, Hray | eapply IH, H].
Qed.

Lemma markCells_sameCells f : forall ps b b',
  (forall c, sameCell c (f c)) ->
  markCells f ps b = Some b' -> sameCells b b'.
Proof.
  induction ps as [|p ps IH]; intros b b' Hf H; cbn [markCells] in H.
  - injection H as <-. apply sameCells_refl.
  - destruct (updateCell f p b) as [b1|] eqn:Hupd; [|discriminate].
    eapply sameCells_trans; [eapply sameCells_updateCell; eauto | eapply IH; eauto].
Qed.

Lemma highlightWalk_sameCells cfg d to : forall fuel v b b',
  highlightWalk cfg fuel v d to b = Returns b' -> sameCells b b'.
Proof.
  induction fuel as [|fuel IH]; intros v b b' H; destruct v as [p|];
    cbn [highlightWalk] in H; try discriminate;
    try (injection H as <-; apply sameCells_refl).
  destruct (updateCell (Cell.set_highlighted true) p b) as [b1|] eqn:Hupd; [|discriminate].
  assert (sameCells b b1) as H1.
  { eapply sameCells_updateCell; [|exact Hupd]. intros c. split; reflexivity. }
  destruct (Vector2D.eqb p to).
  - injection H as <-. exact H1.
  - eapply sameCells_trans; [exact H1 | eapply IH, H].
Qed.

(** ** The play entry points keep the puzzle *)

Lemma keeps_selectOne p : keeps (selectOne p).
Proof.
  unfold selectOne. apply keeps_bind; [|intros _; apply keeps_bind].
  - apply (keeps_updateBoard (fun b => deref (updateCell (Cell.set_selected true) p b))).
    intros b w b' w' H. apply deref_Returns in H as [-> Hupd]. split; [reflexivity|].
    eapply sameCells_updateCell; [|exact Hupd]. intros c. split; reflexivity.
  - apply keeps_bind; [apply keeps_getOutput|]. intros o.
    apply keeps_bind; [apply keeps_deref|]. intros c.
    apply keeps_modifyOutput. intros o'. split; [reflexivity|].
    split; [apply sameEntries_refl | reflexivity].
  - intros _. apply keeps_modify. intros w. repeat split.
Qed.

Lemma keeps_selectWalk d pos : forall fuel v, keeps (selectWalk fuel v d pos).
Proof.
  induction fuel as [|fuel IH]; intros v; destruct v as [p|]; cbn [selectWalk];
    try apply keeps_ret.
  - intros w a w' H. discriminate.
  - apply keeps_bind; [apply keeps_selectOne|]. intros _.
    apply keeps_bind; [apply keeps_getThis|]. intros w.
    destruct (Vector2D.eqb p pos); [apply keeps_ret | apply IH].
Qed.

Lemma keeps_calculateSelectables ls : keeps (calculateSelectables ls).
Proof.
  unfold calculateSelectables.
  apply keeps_bind; [apply keeps_getThis|]. intros w0.
  apply keeps_bind; [|intros _; apply keeps_bind].
  - destruct (selectedCount w0 =? 0); [|apply keeps_ret].
    apply keeps_setCellFieldTo. intros c. split; reflexivity.
  - destruct ls as [ls|]; [|apply keeps_ret].
    destruct (selectedCount w0 =? 1); [|apply keeps_ret].
    apply keeps_bind; [apply keeps_setCellFieldTo; intros c; split; reflexivity|].
    intros _.
    apply (keeps_updateBoard
             (fun b => liftOutcome
                (markSelectableRays (config w0) ls (allowedDirections (config w0)) b))).
    intros b w b' w' H. apply liftOutcome_Returns in H as [-> H].
    split; [reflexivity | eapply markSelectableRays_sameCells, H].
  - intros _. destruct (selectedCount w0 >? 1); [|apply keeps_ret].
    apply keeps_bind; [apply keeps_setCellFieldTo; intros c; split; reflexivity|].
    intros _. destruct ls as [ls|]; [|apply keeps_ret].
    intros w a w' H.
    apply bind_Returns in H as (b & w1 & Hb & H).
    unfold getBoard, getOutput, bind, getThis, deref, ret in Hb.
    destruct (output w) as [o|] eqn:Ho; [|discriminate]. injection Hb as <- <-.
    apply bind_Returns in H as (sd & w2 & Hsd & H).
    apply deref_Returns in Hsd as [-> _].
    destruct sd as [sd|]; [|injection H as _ <-; apply flagStep_refl].
    destruct (getInverseDirection sd) as [inv|];
      [|injection H as _ <-; apply flagStep_refl].
    apply bind_Returns in H as (b' & w3 & Hb' & H).
    apply liftOutcome_Returns in Hb' as [-> Hray].
    rewrite (setBoard_eq w o b' Ho) in H. injection H as _ <-.
    apply flagStep_set_board; [exact Ho|]. eapply markSelectableRay_sameCells, Hray.
Qed.

Lemma keeps_selectCell pos : keeps (selectCell pos).
Proof.
  unfold selectCell.
  apply keeps_bind; [apply keeps_getBoard|]. intros b.
  apply keeps_bind; [apply keeps_deref|]. intros c.
  destruct (Cell.selectable c); [|apply keeps_ret].
  apply keeps_bind; [apply keeps_getThis|]. intros w.
  assert (keeps (modify (set_lastSelectedVector (Some pos)) ;;
                 calculateSelectables (Some pos) ;; ret true)) as Htail.
  { apply keeps_bind; [apply keeps_modify; intros v; repeat split|]. intros _.
    apply keeps_bind; [apply keeps_calculateSelectables|]. intros _. apply keeps_ret. }
  destruct (lastSelectedVector w) as [lsv|].
  - apply keeps_bind; [apply keeps_liftOutcome|]. intros [d|]; [|apply keeps_ret].
    apply keeps_bind; [apply keeps_selectWalk|]. intros _. exact Htail.
  - apply keeps_bind; [apply keeps_selectOne|]. intros _. exact Htail.
Qed.

Lemma keeps_resetCurrentSelection : keeps resetCurrentSelection.
Proof.
  unfold resetCurrentSelection.
  apply keeps_bind; [apply keeps_modify; intros v; repeat split|]. intros _.
  apply keeps_bind; [apply keeps_modify; intros v; repeat split|]. intros _.
  apply keeps_bind.
  { apply keeps_modifyOutput. intros o. split; [reflexivity|].
    split; [apply sameEntries_refl | reflexivity]. }
  intros _.
  apply keeps_bind; [apply keeps_modify; intros v; repeat split|]. intros _.
  apply keeps_bind; [apply keeps_setCellFieldTo; intros c; split; reflexivity|].
  intros _.
  apply keeps_bind; [apply keeps_setCellFieldTo; intros c; split; reflexivity|].
  intros _. apply keeps_calculateSelectables.
Qed.

Lemma sameEntries_alter fw i ws :
  (forall wd, sameEntry wd (fw wd)) -> Forall2 sameEntry ws (alter fw i ws).
Proof.
  intros Hfw. apply Forall2_same_length_lookup. split; [rewrite length_alter; reflexivity|].
  intros j x y Hx Hy. rewrite list_lookup_alter in Hy.
  destruct (decide (i = j)) as [->|_]; rewrite Hx in Hy; cbn in Hy; injection Hy as <-;
    [apply Hfw | apply sameEntry_refl].
Qed.

Lemma keeps_markWord fc fw idx :
  (forall c, sameCell c (fc c)) -> (forall wd, sameEntry wd (fw wd)) ->
  keeps (markWord fc fw idx).
Proof.
  intros Hfc Hfw w a w' H. unfold markWord in H.
  apply bind_Returns in H as (o & w1 & Ho & H).
  unfold getOutput, bind, getThis, deref in Ho.
  destruct (output w) as [o0|] eqn:Ho0; [|discriminate]. injection Ho as <- <-.
  destruct (index (words o0) idx) as [wd|]; [|injection H as _ <-; apply flagStep_refl].
  apply bind_Returns in H as (b' & w2 & Hb' & H).
  apply deref_Returns in Hb' as [-> Hmark].
  apply bind_Returns in H as ([] & w3 & Hset & H).
  rewrite (setBoard_eq w o0 b' Ho0) in Hset. injection Hset as <-.
  eapply flagStep_trans.
  - apply flagStep_set_board; [exact Ho0|]. eapply markCells_sameCells; eauto.
  - revert H. apply keeps_modifyOutput. intros o. split; [reflexivity|].
    split; [apply sameEntries_alter, Hfw | reflexivity].
Qed.

Lemma keeps_showWord word submit : keeps (showWord word submit).
Proof.
  unfold showWord. apply keeps_bind; [apply keeps_getOutput|]. intros o. cbv zeta.
  apply keeps_bind; [|intros _; apply keeps_ret].
  destruct (_ && negb submit).
  - apply keeps_markWord; intros; split; reflexivity.
  - destruct (_ && submit); [|apply keeps_ret].
    apply keeps_markWord; intros; split; reflexivity.
Qed.

Lemma keeps_checkEnd : keeps checkEnd.
Proof.
  unfold checkEnd. apply keeps_bind; [apply keeps_getThis|]. intros w.
  apply keeps_bind; [apply keeps_getOutput|]. intros o. cbv zeta.
  apply keeps_bind; [|intros _; apply keeps_ret].
  apply keeps_modifyOutput. intros o'. split; [reflexivity|].
  split; [apply sameEntries_refl | reflexivity].
Qed.

Lemma keeps_submitCurrentWord : keeps submitCurrentWord.
Proof.
  unfold submitCurrentWord. apply keeps_bind; [apply keeps_getOutput|]. intros o.
  apply keeps_bind; [apply keeps_showWord|]. intros win.
  apply keeps_bind; [apply keeps_resetCurrentSelection|]. intros _.
  apply keeps_bind; [apply keeps_checkEnd|]. intros _. apply keeps_ret.
Qed.

Lemma keeps_unHighlightBoard : keeps unHighlightBoard.
Proof. apply keeps_setCellFieldTo. intros c. split; reflexivity. Qed.

Lemma keeps_hightlightCells from to : keeps (hightlightCells from to).
Proof.
  unfold hightlightCells.
  apply keeps_bind; [apply keeps_setCellFieldTo; intros c; split; reflexivity|].
  intros _. apply keeps_bind; [apply keeps_getThis|]. intros w.
  apply keeps_bind; [apply keeps_liftOutcome|]. intros [d|]; [|apply keeps_ret].
  apply (keeps_updateBoard
           (fun b => liftOutcome
              (highlightWalk (config w) (walkFuel (config w))
                 (moveInDirection (config w) from d) d to b))).
  intros b v b' v' H. apply liftOutcome_Returns in H as [-> H].
  split; [reflexivity | eapply highlightWalk_sameCells, H].
Qed.

Lemma keeps_highlightCell pos : keeps (highlightCell pos).
Proof.
  unfold highlightCell. apply keeps_bind; [apply keeps_getThis|]. intros w.
  destruct (lastSelectedVector w); [|apply keeps_ret].
  apply keeps_bind; [apply keeps_hightlightCells|]. intros _. apply keeps_ret.
Qed.

(** ** The puzzle during play *)

Lemma playing_flagStep w sel :
  playing w sel ->
  exists w0 out wg,
    forallb isRealDirection (allowedDirections (config w0)) = true /\
    generate w0 = (Returns out, wg) /\
    flagStep wg w.
Proof.
  induction 1 as [w0 out w Hreal Hgen
                 | w sel pos w' _ IH H | w sel pos w' _ IH H
                 | w sel w' _ IH H | w sel r w' _ IH H
                 | w sel word r w' _ IH H | w sel pos r w' _ IH H
                 | w sel w' _ IH H].
  - exists w0, out, w. split; [exact Hreal|]. split; [exact Hgen | apply flagStep_refl].
  - destruct IH as (w0 & out & wg & Hreal & Hgen & Hstep). exists w0, out, wg.
    split; [exact Hreal|]. split; [exact Hgen|].
    eapply flagStep_trans; [exact Hstep | eapply keeps_selectCell, H].
  - destruct IH as (w0 & out & wg & Hreal & Hgen & Hstep). exists w0, out, wg.
    split; [exact Hreal|]. split; [exact Hgen|].
    eapply flagStep_trans; [exact Hstep | eapply keeps_selectCell, H].
  - destruct IH as (w0 & out & wg & Hreal & Hgen & Hstep). exists w0, out, wg.
    split; [exact Hreal|]. split; [exact Hgen|].
    eapply flagStep_trans; [exact Hstep | eapply keeps_resetCurrentSelection, H].
  - destruct IH as (w0 & out & wg & Hreal & Hgen & Hstep). exists w0, out, wg.
    split; [exact Hreal|]. split; [exact Hgen|].
    eapply flagStep_trans; [exact Hstep | eapply keeps_submitCurrentWord, H].
  - destruct IH as (w0 & out & wg & Hreal & Hgen & Hstep). exists w0, out, wg.
    split; [exact Hreal|]. split; [exact Hgen|].
    eapply flagStep_trans; [exact Hstep | eapply keeps_showWord, H].
  - destruct IH as (w0 & out & wg & Hreal & Hgen & Hstep). exists w0, out, wg.
    split; [exact Hreal|]. split; [exact Hgen|].
    eapply flagStep_trans; [exact Hstep | eapply keeps_highlightCell, H].
  - destruct IH as (w0 & out & wg & Hreal & Hgen & Hstep). exists w0, out, wg.
    split; [exact Hreal|]. split; [exact Hgen|].
    eapply flagStep_trans; [exact Hstep | eapply keeps_unHighlightBoard, H].
Qed.

(** X14.  Play never changes the puzzle.  At every point of play there is
    a call of [generate] that returned the puzzle being played, and the
    instance still has the configuration, retry counter and random tape
    (no draw is made during play) that this call left, the same recorded
    error, a registry with the same texts and positions, and a board with
    the same letter and recorded position in every cell; only flags, the
    selection, the accumulated word and the end of game differ. *)
Theorem X14_play_keeps_the_puzzle (w : Wordsearch) (sel : list Vector2D.t) :
  playing w sel ->
  exists w0 out wg,
    forallb isRealDirection (allowedDirections (config w0)) = true /\
    generate w0 = (Returns out, wg) /\
    flagStep wg w.
Proof. exact (playing_flagStep w sel). Qed.


(** * Play never fails *)

Lemma placedOn_same cfg b b' a a' :
  placedOn cfg b a -> sameEntry a a' ->
  (forall q, letterAt b' q = letterAt b q) ->
  placedOn cfg b' a'.
Proof.
  intros (Hrun & Hin & Hlet) [Hw Hp] Hb. unfold placedOn. rewrite Hw, Hp.
  split; [exact Hrun|]. split; [exact Hin|].
  intros i p ch Hi Hch. rewrite Hb. eapply Hlet; eauto.
Qed.

Lemma registry_ok_same cfg b b' ws ws' :
  registry_ok cfg b ws ->
  board_wf cfg b' -> sameCells b b' -> Forall2 sameEntry ws ws' ->
  registry_ok cfg b' ws'.
Proof.
  intros (_ & Hplaced & Hdisj) Hwf Hb Hws. split; [exact Hwf|]. split.
  - apply Forall_forall. intros a' Ha'.
    apply list_elem_of_lookup_1 in Ha' as [i Hi].
    destruct (Forall2_lookup_r _ _ _ _ _ Hws Hi) as (a & Ha & Haa').
    eapply placedOn_same; [|exact Haa'|].
    + rewrite Forall_forall in Hplaced. eapply Hplaced, list_elem_of_lookup_2, Ha.
    + intros q. apply sameCells_letterAt, Hb.
  - intros Hno i j w1 w2 p Hij H1 H2 Hp1 Hp2.
    destruct (Forall2_lookup_r _ _ _ _ _ Hws H1) as (a1 & Ha1 & [_ Hp1']).
    destruct (Forall2_lookup_r _ _ _ _ _ Hws H2) as (a2 & Ha2 & [_ Hp2']).
    rewrite Hp1' in Hp1. rewrite Hp2' in Hp2.
    exact (Hdisj Hno i j a1 a2 p Hij Ha1 Ha2 Hp1 Hp2).
Qed.

Lemma sameEntries_texts ws ws' :
  Forall2 sameEntry ws ws' -> map Word.word ws' = map Word.word ws.
Proof. induction 1 as [|a b ws ws' [Hw _] _ IH]; cbn; [reflexivity|]. rewrite Hw, IH. reflexivity. Qed.

(** At every point of play the registry is consistent with the board,
    and its texts are all different. *)
Lemma playing_registry w sel :
  playing w sel ->
  exists o,
    output w = Some o /\
    registry_ok (config w) (board o) (words o) /\
    NoDup (map Word.word (words o)).
Proof.
  intros Hplay.
  destruct (playing_PlayInv w sel Hplay) as (o & Ho & Hwf & _).
  destruct (playing_flagStep w sel Hplay) as (w0 & out & wg & Hreal & Hgen & Hstep).
  pose proof (generate_registry_words _ _ _ Hgen) as (_ & Hnd & _).
  apply generate_Returns_valid in Hgen as (w1 & Hatt & Hc1 & _).
  apply generateAttempt_Returns in Hatt as (Hog & Hcg & Hok & _);
    [|rewrite Hc1; exact Hreal].
  destruct Hstep as (Hc & _ & _ & _ & _ & Hout). rewrite Hog, Ho in Hout.
  destruct Hout as (_ & Hws & Hb).
  exists o. split; [exact Ho|]. split.
  - rewrite Hc, Hcg. eapply registry_ok_same; eauto. rewrite <- Hcg, <- Hc. exact Hwf.
  - rewrite (sameEntries_texts _ _ Hws). exact Hnd.
Qed.

(** Marking the cells of a word: where the positions are on the board the
    loop succeeds, and it applies [f] to exactly these cells. *)
Lemma markCells_run cfg f : forall ps b,
  (forall c, f (f c) = f c) ->
  board_wf cfg b ->
  Forall (fun p => isVectorInBoard cfg p = true) ps ->
  exists b',
    markCells f ps b = Some b' /\
    board_wf cfg b' /\
    forall q, cellAt b' q =
              (fun c => if bool_decide (q ∈ ps) then f c else c) <$> cellAt b q.
Proof.
  induction ps as [|p ps IH]; intros b Hf Hwf Hin; cbn [markCells].
  - exists b. split; [reflexivity|]. split; [exact Hwf|]. intros q.
    rewrite bool_decide_eq_false_2 by (intros H; inversion H).
    destruct (cellAt b q); reflexivity.
  - apply Forall_cons in Hin as [Hp Hin].
    destruct (updateCell_Some cfg f p b Hwf Hp) as [b1 Hupd]. rewrite Hupd.
    destruct (IH b1 Hf (updateCell_wf _ _ _ _ _ Hwf Hupd) Hin) as (b' & Hmark & Hwf' & Hcells).
    exists b'. split; [exact Hmark|]. split; [exact Hwf'|]. intros q.
    rewrite Hcells, (cellAt_updateCell _ _ _ _ q Hupd).
    destruct (Vector2D.eqb q p) eqn:E.
    + apply Vector2D_eqb_eq in E as ->.
      rewrite (bool_decide_eq_true_2 (p ∈ p :: ps)) by left.
      destruct (cellAt b p) as [c|]; cbn; [|reflexivity].
      destruct (bool_decide (p ∈ ps)); [rewrite Hf|]; reflexivity.
    + apply Vector2D_eqb_neq in E.
      destruct (cellAt b q) as [c|]; cbn; [|reflexivity].
      rewrite (bool_decide_ext (q ∈ p :: ps) (q ∈ ps)); [reflexivity|].
      rewrite elem_of_cons. split; [intros [->|H]; [congruence | exact H] | auto].
Qed.

Lemma markWord_eq fc fw idx w o wd b' :
  output w = Some o ->
  index (words o) idx = Some wd ->
  markCells fc (Word.pos wd) (board o) = Some b' ->
  markWord fc fw idx w =
    (Returns tt,
     set_output (Some (set_words (alter fw (Z.to_nat idx) (words o)) (set_board b' o))) w).
Proof.
  intros Ho Hwd Hmark. unfold markWord. unfold bind at 1.
  rewrite (getOutput_eq w o Ho), Hwd. unfold bind at 1. rewrite Hmark. cbn [deref ret].
  unfold bind at 1. rewrite (setBoard_eq w o b' Ho).
  erewrite modifyOutput_eq by reflexivity. reflexivity.
Qed.

Lemma markWord_absent fc fw idx w o :
  output w = Some o -> index (words o) idx = None ->
  markWord fc fw idx w = (Returns tt, w).
Proof.
  intros Ho Hwd. unfold markWord. unfold bind at 1.
  rewrite (getOutput_eq w o Ho), Hwd. reflexivity.
Qed.

(** The registry entry that [getWordIndex] finds. *)
Lemma getWordIndex_Some o word :
  getWordIndex o word >= 0 ->
  exists (i : nat) wd,
    getWordIndex o word = Z.of_nat i /\ index (words o) (Z.of_nat i) = Some wd /\
    words o !! i = Some wd /\ Word.word wd = word.
Proof.
  intros Hge. unfold getWordIndex in *.
  destruct (getWordIndex_from_found (words o) 0 word _ eq_refl ltac:(lia) ltac:(lia))
    as (i & wd & Hi & Hwd & Hword & _).
  exists i, wd. rewrite Hi, Z.add_0_l. split; [reflexivity|]. split.
  - apply index_Some. split; [lia|]. rewrite Nat2Z.id. exact Hwd.
  - auto.
Qed.

Lemma getWordIndex_range o word : -1 <= getWordIndex o word.
Proof.
  unfold getWordIndex.
  destruct (getWordIndex_from_range (words o) 0 word ltac:(lia)); lia.
Qed.

Lemma showWord_absent word submit w o :
  output w = Some o -> getWordIndex o word = -1 ->
  showWord word submit w = (Returns false, w).
Proof.
  intros Ho Hidx. unfold showWord. unfold bind at 1.
  rewrite (getOutput_eq w o Ho). cbv zeta. rewrite Hidx. reflexivity.
Qed.

Lemma showWord_present word submit w o cfg (i : nat) wd :
  output w = Some o ->
  board_wf cfg (board o) ->
  getWordIndex o word = Z.of_nat i ->
  words o !! i = Some wd ->
  Forall (fun p => isVectorInBoard cfg p = true) (Word.pos wd) ->
  exists b',
    showWord word submit w =
      (Returns true,
       set_output
         (Some (set_words (alter (markEntry submit) i (words o)) (set_board b' o))) w) /\
    board_wf cfg b' /\
    markedAt submit (Word.pos wd) (board o) b'.
Proof.
  intros Ho Hwf Hidx Hwd Hin.
  assert (index (words o) (Z.of_nat i) = Some wd) as Hindex.
  { apply index_Some. split; [lia|]. rewrite Nat2Z.id. exact Hwd. }
  destruct (markCells_run cfg (markCell submit) (Word.pos wd) (board o)) as
    (b' & Hmark & Hwf' & Hcells); [destruct submit; reflexivity | exact Hwf | exact Hin |].
  exists b'. split; [|split; [exact Hwf' | exact Hcells]].
  unfold showWord. unfold bind at 1. rewrite (getOutput_eq w o Ho). cbv zeta.
  rewrite Hidx. unfold bind at 1.
  replace (Z.of_nat i >=? 0) with true by (symmetry; apply Z.geb_le; lia).
  destruct submit; cbn [andb negb]; [unfold setWordAsFound | unfold discoverWord];
    rewrite (markWord_eq _ _ _ w o wd b' Ho Hindex Hmark), Nat2Z.id; reflexivity.
Qed.

Lemma checkEnd_eq w o :
  output w = Some o ->
  checkEnd w =
    let isEnd := countFoundOrShown (words o) (seqZ 0 (size (config w)))
                 =? Z.of_nat (length (words o)) in
    (Returns isEnd, set_output (Some (set_endGame isEnd o)) w).
Proof.
  intros Ho. unfold checkEnd. unfold bind at 1, getThis at 1.
  unfold bind at 1. rewrite (getOutput_eq w o Ho). cbv zeta.
  unfold bind at 1. erewrite modifyOutput_eq by exact Ho. reflexivity.
Qed.

Lemma markedAt_sameView submit ps b b' : markedAt submit ps b b' -> sameView b b'.
Proof.
  intros H q. rewrite H. destruct (cellAt b q) as [c|]; cbn; [|reflexivity].
  destruct (bool_decide (q ∈ ps)), submit; reflexivity.
Qed.

(** [getDirectionFrom2Vectors] always returns: the real direction of the
    ray from [v1] on which [v2] lies, or nothing when there is none. *)
Lemma getDirectionFrom2Vectors_total cfg v1 v2 :
  (exists d, isRealDirection d = true /\ onRay cfg v1 d v2 /\
             getDirectionFrom2Vectors cfg v1 v2 = Returns (Some d)) \/
  ((forall d, isRealDirection d = true -> ~ onRay cfg v1 d v2) /\
   getDirectionFrom2Vectors cfg v1 v2 = Returns None).
Proof.
  assert (forall d, isRealDirection d = true ->
                    onRay cfg v1 d v2 \/ ~ onRay cfg v1 d v2) as Hdec.
  { intros d Hd. destruct (rayReaches_spec cfg v1 d v2 Hd) as ([|] & _ & Hr).
    - left. apply Hr. reflexivity.
    - right. intros Hon. apply Hr in Hon. discriminate. }
  assert (forall d, isRealDirection d = true -> onRay cfg v1 d v2 ->
            exists d, isRealDirection d = true /\ onRay cfg v1 d v2 /\
                      getDirectionFrom2Vectors cfg v1 v2 = Returns (Some d)) as Hyes.
  { intros d Hd Hon. exists d. split; [exact Hd|]. split; [exact Hon|].
    apply getDirectionFrom2Vectors_Some; assumption. }
  destruct (Hdec UP eq_refl) as [H|H1]; [left; eapply Hyes; eauto; reflexivity|].
  destruct (Hdec DOWN eq_refl) as [H|H2]; [left; eapply Hyes; eauto; reflexivity|].
  destruct (Hdec LEFT eq_refl) as [H|H3]; [left; eapply Hyes; eauto; reflexivity|].
  destruct (Hdec RIGHT eq_refl) as [H|H4]; [left; eapply Hyes; eauto; reflexivity|].
  destruct (Hdec UP_RIGHT eq_refl) as [H|H5]; [left; eapply Hyes; eauto; reflexivity|].
  destruct (Hdec UP_LEFT eq_refl) as [H|H6]; [left; eapply Hyes; eauto; reflexivity|].
  destruct (Hdec DOWN_RIGHT eq_refl) as [H|H7]; [left; eapply Hyes; eauto; reflexivity|].
  destruct (Hdec DOWN_LEFT eq_refl) as [H|H8]; [left; eapply Hyes; eauto; reflexivity|].
  right.
  assert (forall d, isRealDirection d = true -> ~ onRay cfg v1 d v2) as Hno
    by (intros d Hd; destruct d; try discriminate; assumption).
  split; [exact Hno|]. apply getDirectionFrom2Vectors_None, Hno.
Qed.

Lemma set_highlighted_same c : Cell.set_highlighted (Cell.highlighted c) c = c.
Proof. destruct c; reflexivity. Qed.

Lemma highlightWalk_run cfg d to : forall k q fuel b,
  isRealDirection d = true ->
  (1 <= k <= fuel)%nat ->
  board_wf cfg b ->
  Forall (fun p => isVectorInBoard cfg p = true) (path q d k) ->
  to = stepN q d (Z.of_nat k - 1) ->
  exists b',
    highlightWalk cfg fuel (Some q) d to b = Returns b' /\
    board_wf cfg b' /\
    (forall x, cellAt b' x =
       (fun c => Cell.set_highlighted
                   (Cell.highlighted c || bool_decide (x ∈ path q d k)) c)
         <$> cellAt b x) /\
    walked cfg fuel (Some q) d to = path q d k.
Proof.
  induction k as [|k IH]; intros q fuel b Hd Hk Hwf Hin Hto; [lia|].
  destruct fuel as [|fuel]; [lia|].
  apply path_tail_inBoard in Hin as [Hq Hin].
  destruct (updateCell_Some cfg (Cell.set_highlighted true) q b Hwf Hq) as [b1 Hupd].
  pose proof (updateCell_wf _ _ _ _ _ Hwf Hupd) as Hwf1.
  cbn [highlightWalk walked]. rewrite Hupd.
  destruct k as [|k].
  - replace (Z.of_nat 1 - 1) with 0 in Hto by lia. rewrite stepN_0 in Hto. subst to.
    rewrite Vector2D_eqb_refl. exists b1. split; [reflexivity|]. split; [exact Hwf1|].
    split; [|reflexivity]. intros x. rewrite (cellAt_updateCell _ _ _ _ x Hupd).
    cbn [path]. destruct (Vector2D.eqb x q) eqn:E.
    + apply Vector2D_eqb_eq in E as ->.
      rewrite bool_decide_eq_true_2 by left.
      destruct (cellAt b q); cbn; [|reflexivity]. rewrite orb_true_r. reflexivity.
    + apply Vector2D_eqb_neq in E.
      rewrite bool_decide_eq_false_2
        by (intros H; apply elem_of_cons in H as [->|H]; [congruence | inversion H]).
      destruct (cellAt b x) as [c|]; cbn; [|reflexivity].
      rewrite orb_false_r, set_highlighted_same. reflexivity.
  - assert (Vector2D.eqb q to = false) as Hne.
    { apply Vector2D_eqb_neq. intros Heq. rewrite Hto in Heq.
      rewrite <- (stepN_0 q d) in Heq at 1. apply stepN_inj in Heq; auto. lia. }
    rewrite Hne.
    pose proof Hin as Hin'. apply path_tail_inBoard in Hin' as [Hq1 _].
    assert (moveInDirection cfg q d = Some (stepN q d 1)) as Hmove
      by (apply moveInDirection_Some; auto).
    rewrite Hmove.
    destruct (IH (stepN q d 1) fuel b1 Hd ltac:(lia) Hwf1 Hin)
      as (b' & Hwalk & Hwf' & Hcells & Hwalked).
    { rewrite Hto, stepN_stepN. f_equal. lia. }
    exists b'. split; [exact Hwalk|]. split; [exact Hwf'|]. split.
    + intros x. rewrite Hcells, (cellAt_updateCell _ _ _ _ x Hupd).
      change (path q d (S (S k))) with (q :: path (stepN q d 1) d (S k)).
      destruct (Vector2D.eqb x q) eqn:E.
      * apply Vector2D_eqb_eq in E as ->.
        rewrite (bool_decide_eq_true_2 (q ∈ q :: _)) by left.
        destruct (cellAt b q); cbn; [|reflexivity]. rewrite orb_true_r. reflexivity.
      * apply Vector2D_eqb_neq in E.
        destruct (cellAt b x) as [c|]; cbn; [|reflexivity].
        do 3 f_equal. apply bool_decide_ext. rewrite (elem_of_cons _ x q). split; [auto|].
        intros [->|H]; [congruence | exact H].
    + rewrite Hwalked. reflexivity.
Qed.

(** The cells from the one after [from] up to [to], when [to] lies on the
    ray that leaves [from] in direction [d]. *)
Lemma onRay_run cfg from d to :
  isRealDirection d = true -> onRay cfg from d to ->
  exists k : nat,
    (1 <= k <= walkFuel cfg)%nat /\
    moveInDirection cfg from d = Some (stepN from d 1) /\
    Forall (fun p => isVectorInBoard cfg p = true) (path (stepN from d 1) d k) /\
    to = stepN (stepN from d 1) d (Z.of_nat k - 1).
Proof.
  intros Hd (k & Hk & Hto & Hall). exists (Z.to_nat k).
  assert (Forall (fun p => isVectorInBoard cfg p = true)
            (path (stepN from d 1) d (Z.to_nat k))) as Hin.
  { apply Forall_forall. intros p Hp. apply elem_of_path in Hp as (i & Hi & ->).
    rewrite stepN_stepN. apply Hall. lia. }
  split; [split; [lia | eapply path_fits_fuel; eauto; lia]|].
  split; [apply moveInDirection_Some; split; [reflexivity | apply Hall; lia]|].
  split; [exact Hin|]. rewrite stepN_stepN, Hto. f_equal. lia.
Qed.

Lemma hightlightCells_eq from to w o :
  output w = Some o ->
  board_wf (config w) (board o) ->
  exists b',
    hightlightCells from to w = (Returns tt, set_output (Some (set_board b' o)) w) /\
    board_wf (config w) b' /\
    highlightedAt (cellsBetween (config w) from to) (board o) b'.
Proof.
  intros Ho Hwf. unfold hightlightCells. unfold bind at 1.
  rewrite (setCellFieldTo_eq _ w o Ho Hwf).
  set (b0 := map (map (Cell.set_highlighted false)) (board o)).
  set (w0 := set_output (Some (set_board b0 o)) w).
  assert (board_wf (config w) b0) as Hwf0 by (apply map_map_wf, Hwf).
  unfold bind at 1, getThis at 1. unfold bind at 1, liftOutcome at 1.
  change (config w0) with (config w). unfold cellsBetween.
  destruct (getDirectionFrom2Vectors_total (config w) from to)
    as [(d & Hd & Hon & ->) | (Hno & ->)].
  - destruct (onRay_run (config w) from d to Hd Hon) as (k & Hk & Hmove & Hin & Hto).
    destruct (highlightWalk_run (config w) d to k (stepN from d 1) (walkFuel (config w))
                b0 Hd Hk Hwf0 Hin Hto) as (b' & Hwalk & Hwf' & Hcells & Hwalked).
    exists b'. split; [|split; [exact Hwf'|]].
    + unfold bind at 1. rewrite (getBoard_eq w0 (set_board b0 o) eq_refl).
      cbn [board set_board]. unfold bind at 1, liftOutcome. rewrite Hmove, Hwalk.
      rewrite (setBoard_eq w0 (set_board b0 o) b' eq_refl). reflexivity.
    + intros q. rewrite Hmove, Hwalked, Hcells. unfold b0. rewrite cellAt_map_map.
      destruct (cellAt (board o) q); reflexivity.
  - exists b0. split; [reflexivity|]. split; [exact Hwf0|].
    intros q. unfold b0. rewrite cellAt_map_map.
    rewrite bool_decide_eq_false_2 by (intros H; inversion H). reflexivity.
Qed.

Lemma highlightCell_eq pos w o :
  output w = Some o ->
  board_wf (config w) (board o) ->
  match lastSelectedVector w with
  | Some lsv =>
      exists b',
        highlightCell pos w = (Returns true, set_output (Some (set_board b' o)) w) /\
        board_wf (config w) b' /\
        highlightedAt (cellsBetween (config w) lsv pos) (board o) b'
  | None => highlightCell pos w = (Returns false, w)
  end.
Proof.
  intros Ho Hwf. destruct (lastSelectedVector w) as [lsv|] eqn:Hl.
  - destruct (hightlightCells_eq lsv pos w o Ho Hwf) as (b' & Heq & Hwf' & Hcells).
    exists b'. split; [|split; assumption].
    unfold highlightCell. unfold bind at 1, getThis at 1. rewrite Hl.
    unfold bind at 1. rewrite Heq. reflexivity.
  - unfold highlightCell. unfold bind at 1, getThis at 1. rewrite Hl. reflexivity.
Qed.

(** In play [selectCell] accepts exactly the selectable cells. *)
Lemma selectCell_result w sel pos o c :
  PlayInv w sel ->
  output w = Some o -> cellAt (board o) pos = Some c ->
  exists w', selectCell pos w = (Returns (Cell.selectable c), w').
Proof.
  intros HP Ho Hc. destruct (Cell.selectable c) eqn:Hsel.
  - destruct sel as [|p sel].
    + destruct (selectCell_first w pos o c HP Ho Hc Hsel) as (w1 & H1 & _). eauto.
    + destruct (selectCell_next w (p :: sel) pos o c HP ltac:(discriminate) Ho Hc Hsel)
        as (w1 & H1 & _). eauto.
  - exists w. unfold selectCell. unfold bind at 1.
    rewrite (getBoard_eq w o Ho). unfold bind at 1, deref.
    rewrite Hc. unfold ret at 1. rewrite Hsel. reflexivity.
Qed.

Lemma submitCurrentWord_Returns w sel :
  playing w sel -> exists r w', submitCurrentWord w = (Returns r, w').
Proof.
  intros Hplay.
  destruct (playing_PlayInv w sel Hplay) as (o & Ho & Hwf & _).
  destruct (playing_registry w sel Hplay) as (o' & Ho' & (_ & Hplaced & _) & _).
  rewrite Ho in Ho'. injection Ho' as <-.
  unfold submitCurrentWord. unfold bind at 1. rewrite (getOutput_eq w o Ho).
  assert (exists r w1 o1, showWord (currentWord o) true w = (Returns r, w1) /\
                          output w1 = Some o1 /\ board_wf (config w1) (board o1))
    as (r & w1 & o1 & Hshow & Ho1 & Hwf1).
  { pose proof (getWordIndex_range o (currentWord o)) as Hrange.
    destruct (Z.eq_dec (getWordIndex o (currentWord o)) (-1)) as [Hno|Hyes].
    - exists false, w, o. split; [apply (showWord_absent _ _ _ o Ho Hno) | auto].
    - destruct (getWordIndex_Some o (currentWord o) ltac:(lia))
        as (i & wd & Hi & _ & Hwd & _).
      destruct (showWord_present (currentWord o) true w o (config w) i wd Ho Hwf Hi Hwd)
        as (b' & Heq & Hwf' & _).
      { rewrite Forall_forall in Hplaced.
        apply (Hplaced wd (list_elem_of_lookup_2 _ _ _ Hwd)). }
      eexists _, _, _. split; [exact Heq|]. split; [reflexivity | exact Hwf']. }
  unfold bind at 1. rewrite Hshow.
  unfold bind at 1. rewrite (resetCurrentSelection_eq w1 o1 Ho1 Hwf1).
  unfold bind at 1. erewrite checkEnd_eq by reflexivity. cbv zeta.
  eexists _, _. reflexivity.
Qed.

(** The cells between two positions: a straight run that ends at [to]
    when [to] is on a ray from [from], nothing otherwise. *)
Lemma cellsBetween_spec cfg from to :
  (exists d (k : nat),
     isRealDirection d = true /\ (1 <= k)%nat /\
     to = stepN from d (Z.of_nat k) /\
     Forall (fun p => isVectorInBoard cfg p = true) (path (stepN from d 1) d k) /\
     cellsBetween cfg from to = path (stepN from d 1) d k) \/
  ((forall d, isRealDirection d = true -> ~ onRay cfg from d to) /\
   cellsBetween cfg from to = []).
Proof.
  unfold cellsBetween.
  destruct (getDirectionFrom2Vectors_total cfg from to)
    as [(d & Hd & Hon & ->) | (Hno & ->)]; [left | right; auto].
  destruct (onRay_run cfg from d to Hd Hon) as (k & Hk & Hmove & Hin & Hto).
  exists d, k. split; [exact Hd|]. split; [lia|]. split.
  { rewrite Hto, stepN_stepN. f_equal. lia. }
  split; [exact Hin|]. rewrite Hmove.
  destruct (highlightWalk_run cfg d to k (stepN from d 1) (walkFuel cfg)
              (getBlankBoard cfg) Hd Hk (getBlankBoard_wf cfg) Hin Hto)
    as (_ & _ & _ & _ & Hwalked).
  exact Hwalked.
Qed.

(** X15.  Play never fails.  At every point of play,
    [resetCurrentSelection], [submitCurrentWord], [showWord],
    [highlightCell] and [unHighlightBoard] return, for every argument; and
    for every position on the board [selectCell] returns, and what it
    returns is the selectable flag of the cell: it accepts exactly the
    selectable cells. *)
Theorem X15_play_never_fails (w : Wordsearch) (sel : list Vector2D.t) :
  playing w sel ->
  (exists w', resetCurrentSelection w = (Returns tt, w')) /\
  (exists r w', submitCurrentWord w = (Returns r, w')) /\
  (forall word submit, exists r w', showWord word submit w = (Returns r, w')) /\
  (forall pos, exists r w', highlightCell pos w = (Returns r, w')) /\
  (exists w', unHighlightBoard w = (Returns tt, w')) /\
  (forall pos, isVectorInBoard (config w) pos = true ->
     exists w', selectCell pos w = (Returns (Cell.selectable (cellOf w pos)), w')).
Proof.
  intros Hplay. pose proof (playing_PlayInv w sel Hplay) as HP.
  pose proof HP as (o & Ho & Hwf & _).
  destruct (playing_registry w sel Hplay) as (o' & Ho' & (_ & Hplaced & _) & _).
  rewrite Ho in Ho'. injection Ho' as <-.
  split; [eexists; apply (resetCurrentSelection_eq w o Ho Hwf)|].
  split; [eapply submitCurrentWord_Returns; eauto|].
  split; [|split; [|split]].
  - intros word submit. pose proof (getWordIndex_range o word) as Hrange.
    destruct (Z.eq_dec (getWordIndex o word) (-1)) as [Hno|Hyes].
    + exists false, w. apply (showWord_absent _ _ _ o Ho Hno).
    + destruct (getWordIndex_Some o word ltac:(lia)) as (i & wd & Hi & _ & Hwd & _).
      destruct (showWord_present word submit w o (config w) i wd Ho Hwf Hi Hwd)
        as (b' & Heq & _).
      { rewrite Forall_forall in Hplaced.
        apply (Hplaced wd (list_elem_of_lookup_2 _ _ _ Hwd)). }
      eexists _, _. exact Heq.
  - intros pos. pose proof (highlightCell_eq pos w o Ho Hwf) as H.
    destruct (lastSelectedVector w); [destruct H as (b' & H & _)|]; eauto.
  - eexists. unfold unHighlightBoard. apply (setCellFieldTo_eq _ w o Ho Hwf).
  - intros pos Hpos.
    destruct (proj2 (cellAt_inBoard (config w) (board o) pos Hwf) Hpos) as [c Hc].
    unfold cellOf, outputOf. rewrite Ho, Hc.
    eapply selectCell_result; eauto.
Qed.

(** X16.  With a cell selected, [highlightCell(pos)] returns true and
    changes only highlight flags: afterwards the highlighted cells are
    exactly the cells from the one after the last selected cell up to
    [pos], when [pos] lies on one of the eight rays that leave the last
    selected cell (allowed direction or not), and no cell at all
    otherwise.  With nothing selected it returns false and changes
    nothing. *)
Theorem X16_highlightCell_highlights_run_to_position
  (w : Wordsearch) (sel : list Vector2D.t) (o : WordsearchOutput) (pos : Vector2D.t) :
  playing w sel ->
  output w = Some o ->
  match lastSelectedVector w with
  | Some lsv =>
      exists b' ps,
        highlightCell pos w = (Returns true, set_output (Some (set_board b' o)) w) /\
        highlightedAt ps (board o) b' /\
        ((exists d (k : nat),
            isRealDirection d = true /\ (1 <= k)%nat /\
            pos = stepN lsv d (Z.of_nat k) /\
            Forall (fun p => isVectorInBoard (config w) p = true) ps /\
            ps = path (stepN lsv d 1) d k) \/
         ((forall d, isRealDirection d = true -> ~ onRay (config w) lsv d pos) /\
          ps = []))
  | None => highlightCell pos w = (Returns false, w)
  end.
Proof.
  intros Hplay Ho.
  destruct (playing_PlayInv w sel Hplay) as (o' & Ho' & Hwf & _).
  rewrite Ho in Ho'. injection Ho' as <-.
  pose proof (highlightCell_eq pos w o Ho Hwf) as H.
  destruct (lastSelectedVector w) as [lsv|]; [|exact H].
  destruct H as (b' & Heq & _ & Hcells).
  exists b', (cellsBetween (config w) lsv pos). split; [exact Heq|].
  split; [exact Hcells|].
  destruct (cellsBetween_spec (config w) lsv pos)
    as [(d & k & Hd & Hk & Hpos & Hin & Hps) | (Hno & Hps)]; [left | right; auto].
  exists d, k. rewrite Hps. auto.
Qed.


(** * The end of the game *)

Lemma countFoundOrShown_take ws (k : nat) :
  countFoundOrShown ws (seqZ 0 (Z.of_nat k)) = Z.of_nat (foundOrShown (take k ws)).
Proof.
  unfold countFoundOrShown, foundOrShown. induction k as [|k IH].
  - rewrite take_0. reflexivity.
  - rewrite seqZ_S, fold_left_app, IH. cbn [fold_left]. rewrite Z.add_0_l.
    unfold index. replace (0 <=? Z.of_nat k) with true by (symmetry; apply Z.leb_le; lia).
    rewrite Nat2Z.id. destruct (ws !! k) as [wd|] eqn:Hk.
    + rewrite (take_S_r _ _ _ Hk), List.filter_app, length_app. cbn [List.filter].
      destruct (Word.found wd || Word.shown wd); cbn [length]; lia.
    + apply lookup_ge_None in Hk. rewrite !take_ge by lia. reflexivity.
Qed.

Lemma filter_length_all {A} (f : A -> bool) l :
  length (List.filter f l) = length l <-> forallb f l = true.
Proof.
  induction l as [|a l IH]; cbn; [tauto|].
  pose proof (List.filter_length_le f l) as Hle.
  destruct (f a); cbn; [rewrite <- IH; lia | split; [lia | discriminate]].
Qed.

Lemma checkEnd_enough_rows w o :
  output w = Some o ->
  Z.of_nat (length (words o)) <= size (config w) ->
  checkEnd w =
    (Returns (allFoundOrShown (words o)),
     set_output (Some (set_endGame (allFoundOrShown (words o)) o)) w).
Proof.
  intros Ho Hlen. rewrite (checkEnd_eq w o Ho). cbv zeta.
  assert ((countFoundOrShown (words o) (seqZ 0 (size (config w)))
           =? Z.of_nat (length (words o))) = allFoundOrShown (words o)) as ->;
    [|reflexivity].
  rewrite <- (Z2Nat.id (size (config w))) by lia.
  rewrite countFoundOrShown_take, take_ge by lia.
  unfold allFoundOrShown, foundOrShown.
  destruct (forallb _ (words o)) eqn:Hall.
  - apply Z.eqb_eq. f_equal. apply filter_length_all, Hall.
  - apply Z.eqb_neq. intros Heq. apply Nat2Z.inj in Heq.
    apply filter_length_all in Heq. congruence.
Qed.

(** X17.  When the registry holds no more words than the board has rows,
    [checkEnd] returns true exactly when every registry word is found or
    shown, records its result in [output.endGame], and changes nothing
    else. *)
Theorem X17_checkEnd_with_no_more_words_than_rows
  (w : Wordsearch) (o : WordsearchOutput) :
  output w = Some o ->
  Z.of_nat (length (words o)) <= size (config w) ->
  checkEnd w =
    (Returns (allFoundOrShown (words o)),
     set_output (Some (set_endGame (allFoundOrShown (words o)) o)) w).
Proof. exact (checkEnd_enough_rows w o). Qed.

(** * Submitting and finding words *)

Lemma submit_tail (win : bool) w1 o1 :
  output w1 = Some o1 ->
  board_wf (config w1) (board o1) ->
  exists e,
    (resetCurrentSelection ;; checkEnd ;; ret win) w1 =
      (Returns win,
       set_output
         (Some (mkOutput (map (map resetCell) (board o1)) (words o1) "" e (error o1)))
         (resetState o1 w1)).
Proof.
  intros Ho1 Hwf1. eexists.
  unfold bind at 1. rewrite (resetCurrentSelection_eq w1 o1 Ho1 Hwf1).
  unfold bind at 1. erewrite checkEnd_eq by reflexivity. cbv zeta. reflexivity.
Qed.

Lemma submitCurrentWord_spec
  (w : Wordsearch) (sel : list Vector2D.t) (o : WordsearchOutput) :
  playing w sel ->
  output w = Some o ->
  exists r w' o',
    submitCurrentWord w = (Returns r, w') /\
    output w' = Some o' /\
    (r = true <-> exists wd, wd ∈ words o /\ Word.word wd = currentWord o) /\
    selectedCount w' = 0 /\ lastSelectedVector w' = None /\ currentWord o' = "" /\
    (forall q c', cellAt (board o') q = Some c' ->
                  Cell.selected c' = false /\ Cell.selectable c' = true /\
                  Cell.highlighted c' = false) /\
    (r = false ->
     words o' = words o /\
     forall q, Cell.found <$> cellAt (board o') q = Cell.found <$> cellAt (board o) q) /\
    (r = true ->
     exists (i : nat) wd,
       words o !! i = Some wd /\ Word.word wd = currentWord o /\
       (forall (j : nat) wd', (j < i)%nat -> words o !! j = Some wd' ->
                              Word.word wd' <> currentWord o) /\
       words o' = alter (markEntry true) i (words o) /\
       forall q, Cell.found <$> cellAt (board o') q =
                 (fun c => Cell.found c || bool_decide (q ∈ Word.pos wd))
                   <$> cellAt (board o) q).
Proof.
  intros Hplay Ho.
  destruct (playing_PlayInv w sel Hplay) as (o0 & Ho0 & Hwf & _).
  rewrite Ho in Ho0. injection Ho0 as <-.
  destruct (playing_registry w sel Hplay) as (o0 & Ho0 & (_ & Hplaced & _) & _).
  rewrite Ho in Ho0. injection Ho0 as <-.
  pose proof (getWordIndex_range o (currentWord o)) as Hrange.
  assert (forall b, forall q c', cellAt (map (map resetCell) b) q = Some c' ->
            Cell.selected c' = false /\ Cell.selectable c' = true /\
            Cell.highlighted c' = false) as Hreset.
  { intros b q c' Hc'. rewrite cellAt_map_map in Hc'.
    destruct (cellAt b q); [|discriminate]. injection Hc' as <-. auto. }
  destruct (Z.eq_dec (getWordIndex o (currentWord o)) (-1)) as [Hno|Hyes].
  - destruct (submit_tail false w o Ho Hwf) as (e & Htail).
    eexists false, _, _. split.
    { unfold submitCurrentWord. unfold bind at 1. rewrite (getOutput_eq w o Ho).
      unfold bind at 1. rewrite (showWord_absent _ _ _ o Ho Hno). exact Htail. }
    split; [reflexivity|]. cbn. split.
    { split; [discriminate|]. intros (wd & Hwd & Htext). exfalso.
      unfold getWordIndex in Hno.
      apply (proj1 (getWordIndex_from_absent (words o) 0 _ ltac:(lia)) Hno wd Hwd Htext). }
    split; [reflexivity|]. split; [reflexivity|]. split; [reflexivity|].
    split; [apply Hreset|]. split; [|discriminate].
    intros _. split; [reflexivity|]. intros q. rewrite cellAt_map_map.
    destruct (cellAt (board o) q); reflexivity.
  - unfold getWordIndex in *.
    destruct (getWordIndex_from_found (words o) 0 (currentWord o) _ eq_refl
                ltac:(lia) ltac:(lia)) as (i & wd & Hi & Hwd & Htext & Hfirst).
    rewrite Z.add_0_l in Hi.
    destruct (showWord_present (currentWord o) true w o (config w) i wd Ho Hwf Hi Hwd)
      as (b' & Hshow & Hwf' & Hmarked).
    { rewrite Forall_forall in Hplaced.
      apply (Hplaced wd (list_elem_of_lookup_2 _ _ _ Hwd)). }
    destruct (submit_tail true
                (set_output
                   (Some (set_words (alter (markEntry true) i (words o)) (set_board b' o)))
                   w)
                (set_words (alter (markEntry true) i (words o)) (set_board b' o))
                eq_refl Hwf') as (e & Htail).
    eexists true, _, _. split.
    { unfold submitCurrentWord. unfold bind at 1. rewrite (getOutput_eq w o Ho).
      unfold bind at 1. rewrite Hshow. exact Htail. }
    split; [reflexivity|]. cbn. split.
    { split; [|reflexivity]. intros _. exists wd.
      split; [eapply list_elem_of_lookup_2, Hwd | exact Htext]. }
    split; [reflexivity|]. split; [reflexivity|]. split; [reflexivity|].
    split; [apply Hreset|]. split; [discriminate|].
    intros _. exists i, wd. split; [exact Hwd|]. split; [exact Htext|].
    split; [exact Hfirst|]. split; [reflexivity|].
    intros q. rewrite cellAt_map_map, Hmarked.
    destruct (cellAt (board o) q) as [c|]; cbn; [|reflexivity].
    destruct (bool_decide (q ∈ Word.pos wd)); cbn;
      [rewrite orb_true_r | rewrite orb_false_r]; reflexivity.
Qed.

(** X18.  At every point of play [submitCurrentWord] returns true exactly
    when the accumulated word is the text of a registry entry.  Then the
    first entry with that text is marked found, and so is every cell at
    its positions; otherwise registry and found flags stay as they are.
    In both cases the selection is reset: no word is accumulated, nothing
    is selected or highlighted, and every cell is selectable again. *)
Theorem X18_submitCurrentWord_accepts_registry_words
  (w : Wordsearch) (sel : list Vector2D.t) (o : WordsearchOutput) :
  playing w sel ->
  output w = Some o ->
  exists r w' o',
    submitCurrentWord w = (Returns r, w') /\
    output w' = Some o' /\
    (r = true <-> exists wd, wd ∈ words o /\ Word.word wd = currentWord o) /\
    selectedCount w' = 0 /\ lastSelectedVector w' = None /\ currentWord o' = "" /\
    (forall q c', cellAt (board o') q = Some c' ->
                  Cell.selected c' = false /\ Cell.selectable c' = true /\
                  Cell.highlighted c' = false) /\
    (r = false ->
     words o' = words o /\
     forall q, Cell.found <$> cellAt (board o') q = Cell.found <$> cellAt (board o) q) /\
    (r = true ->
     exists (i : nat) wd,
       words o !! i = Some wd /\ Word.word wd = currentWord o /\
       (forall (j : nat) wd', (j < i)%nat -> words o !! j = Some wd' ->
                              Word.word wd' <> currentWord o) /\
       words o' = alter (markEntry true) i (words o) /\
       forall q, Cell.found <$> cellAt (board o') q =
                 (fun c => Cell.found c || bool_decide (q ∈ Word.pos wd))
                   <$> cellAt (board o) q).
Proof. exact (submitCurrentWord_spec w sel o). Qed.

Lemma playing_words_nonempty w sel o :
  playing w sel -> output w = Some o ->
  Forall (fun wd => Word.word wd <> "") (words o).
Proof.
  intros Hplay Ho.
  destruct (playing_flagStep w sel Hplay) as (w0 & out & wg & Hreal & Hgen & Hstep).
  pose proof (generate_registry_words _ _ _ Hgen) as (_ & _ & Hall).
  apply generate_Returns_valid in Hgen as (w1 & Hatt & Hc1 & _).
  apply generateAttempt_Returns in Hatt as (Hog & _); [|rewrite Hc1; exact Hreal].
  destruct Hstep as (_ & _ & _ & _ & _ & Hout). rewrite Hog, Ho in Hout.
  destruct Hout as (_ & Hws & _).
  apply sameEntries_texts in Hws.
  apply Forall_forall. intros wd Hwd.
  rewrite <- Hws in Hall. rewrite Forall_forall in Hall.
  apply (Hall (Word.word wd)). apply list_elem_of_fmap. eauto.
Qed.

Lemma placedOn_readLetters cfg b wd :
  placedOn cfg b wd -> readLetters b (Word.pos wd) = Word.word wd.
Proof.
  intros ((start & d & _ & _ & Hpos) & _ & Hlet).
  apply readLetters_word; [rewrite Hpos; apply path_length | exact Hlet].
Qed.

Lemma PlayInv_idle_selectable w o q c :
  PlayInv w [] -> output w = Some o -> cellAt (board o) q = Some c ->
  Cell.selectable c = true.
Proof.
  intros (o0 & Ho0 & _ & _ & _ & _ & _ & _ & _ & Hcells) Ho Hc.
  rewrite Ho in Ho0. injection Ho0 as <-.
  apply (Hcells q c Hc). exact I.
Qed.

Lemma PlayInv_anchor_selectable w a o q c :
  PlayInv w [a] -> output w = Some o -> cellAt (board o) q = Some c ->
  Cell.selectable c = true <->
  exists d, d ∈ allowedDirections (config w) /\ onRay (config w) a d q.
Proof.
  intros (o0 & Ho0 & _ & _ & _ & _ & _ & _ & _ & Hcells) Ho Hc.
  rewrite Ho in Ho0. injection Ho0 as <-.
  apply (Hcells q c Hc).
Qed.

(** Selecting the first and then the last cell of a placed word selects
    exactly the cells of the word, in order. *)
Lemma select_word_cells w o wd :
  playing w [] ->
  output w = Some o ->
  wd ∈ words o ->
  exists first final w1 w2 r1 r2,
    Word.pos wd = first :: tail (Word.pos wd) /\
    last (Word.pos wd) = Some final /\
    selectCell first w = (Returns r1, w1) /\
    selectCell final w1 = (Returns r2, w2) /\
    playing w2 (Word.pos wd).
Proof.
  intros Hplay Ho Hwd.
  pose proof (playing_PlayInv w [] Hplay) as HP.
  pose proof HP as (o0 & Ho0 & Hwf & Hreal & _ & _ & _ & _ & Hlast & _).
  rewrite Ho in Ho0. injection Ho0 as <-. cbn in Hlast.
  destruct (playing_registry w [] Hplay) as (o0 & Ho0 & (_ & Hplaced & _) & _).
  rewrite Ho in Ho0. injection Ho0 as <-.
  pose proof (playing_words_nonempty w [] o Hplay Ho) as Hne.
  rewrite Forall_forall in Hplaced, Hne.
  destruct (Hplaced wd Hwd) as ((start & d & Hd & Hallowed & Hpos) & Hin & _).
  specialize (Hne wd Hwd).
  destruct (String.length (Word.word wd)) as [|n] eqn:Hlen.
  { destruct (Word.word wd); [congruence | discriminate]. }
  rewrite Hpos in Hin.
  pose proof Hin as Hin0. apply path_tail_inBoard in Hin0 as [Hstart Htail].
  (* the first cell *)
  destruct (proj2 (cellAt_inBoard _ _ start Hwf) Hstart) as [c0 Hc0].
  destruct (selectCell_first w start o c0 HP Ho Hc0
              (PlayInv_idle_selectable w o start c0 HP Ho Hc0)) as (w1 & H1 & HP1).
  assert (playing w1 [start]) as Hplay1.
  { replace [start] with ([] ++ selectedBy w start)%list
      by (unfold selectedBy; rewrite Hlast; reflexivity).
    eapply playing_select; eauto. }
  pose proof HP1 as (o1 & Ho1 & Hwf1 & _ & _ & _ & _ & _ & Hlast1 & _).
  cbn in Hlast1.
  pose proof (keeps_selectCell _ _ _ _ H1) as (Hc1 & _).
  (* the last cell *)
  set (final := stepN start d (Z.of_nat n)).
  assert (isVectorInBoard (config w1) final = true) as Hfinal.
  { rewrite Hc1. rewrite Forall_forall in Hin. apply Hin, elem_of_path.
    exists (Z.of_nat n). split; [lia | reflexivity]. }
  destruct (proj2 (cellAt_inBoard _ _ final Hwf1) Hfinal) as [c1 Hcf].
  destruct (selectCell_result w1 [start] final o1 c1 HP1 Ho1 Hcf) as (w2 & H2).
  exists start, final, w1, w2, true, (Cell.selectable c1).
  split; [rewrite Hpos; reflexivity|].
  split; [rewrite Hpos, path_last by lia; unfold final; do 2 f_equal; lia|].
  split; [exact H1|]. split; [exact H2|].
  rewrite Hpos.
  pose proof (PlayInv_anchor_selectable w1 start o1 final c1 HP1 Ho1 Hcf) as Hrule.
  destruct n as [|n].
  - (* a one-letter word: the second call is rejected *)
    assert (Cell.selectable c1 = false) as Hno.
    { apply not_true_iff_false. intros Hyes. apply Hrule in Hyes as (d' & Hd' & Hon).
      destruct Hon as (k & Hk & Heq & _). unfold final in Heq.
      change (Z.of_nat 0) with 0 in Heq. rewrite stepN_0 in Heq.
      rewrite <- (stepN_0 start d') in Heq at 1.
      apply stepN_inj in Heq; [lia|]. eapply realDirections_elem; [|exact Hd'].
      rewrite Hc1. exact Hreal. }
    rewrite Hno in H2. eapply playing_reject; eauto.
  - (* the ray from the first cell reaches the last *)
    assert (onRay (config w1) start d final) as Hon.
    { exists (Z.of_nat (S n)). split; [lia|]. split; [reflexivity|].
      intros j Hj. rewrite Hc1. rewrite Forall_forall in Hin.
      apply Hin, elem_of_path. exists j. split; [lia | reflexivity]. }
    assert (Cell.selectable c1 = true) as Hyes.
    { apply Hrule. exists d. split; [rewrite Hc1; exact Hallowed | exact Hon]. }
    rewrite Hyes in H2.
    assert (selectedBy w1 final = path (stepN start d 1) d (S n)) as Hby.
    { unfold selectedBy. rewrite Hlast1.
      change (match getDirectionFrom2Vectors (config w1) start final with
              | Returns (Some d0) =>
                  walked (config w1) (walkFuel (config w1))
                    (moveInDirection (config w1) start d0) d0 final
              | _ => []
              end) with (cellsBetween (config w1) start final).
      destruct (cellsBetween_spec (config w1) start final)
        as [(d' & k & Hd' & Hk & Heq & _ & ->) | (Hnone & _)].
      - unfold final in Heq.
        apply ray_direction_unique in Heq as [<- Hnk]; auto; try lia.
        apply Nat2Z.inj in Hnk. subst k. reflexivity.
      - exfalso. exact (Hnone d Hd Hon). }
    change (path start d (S (S n))) with ([start] ++ path (stepN start d 1) d (S n))%list.
    rewrite <- Hby. eapply playing_select; eauto.
Qed.

(** X19.  Every placed word can be found.  At a point of play where
    nothing is selected, selecting the first and then the last cell of a
    registry word and submitting returns true; the entry of that word is
    then marked found, and so is every cell at its positions, and the
    selection is reset. *)
Theorem X19_every_placed_word_can_be_found
  (w : Wordsearch) (o : WordsearchOutput) (i : nat) (wd : Word.t) :
  playing w [] ->
  output w = Some o ->
  words o !! i = Some wd ->
  exists w' o' wd',
    findWord wd w = (Returns true, w') /\
    playing w' [] /\
    output w' = Some o' /\
    words o' !! i = Some wd' /\
    sameEntry wd wd' /\ Word.found wd' = true /\
    forall q c', q ∈ Word.pos wd -> cellAt (board o') q = Some c' ->
                 Cell.found c' = true.
Proof.
  intros Hplay Ho Hi.
  destruct (select_word_cells w o wd Hplay Ho (list_elem_of_lookup_2 _ _ _ Hi))
    as (first & final & w1 & w2 & r1 & r2 & Hpos & Hfinal & H1 & H2 & Hplay2).
  (* the puzzle is the same after the two selections *)
  pose proof (flagStep_trans _ _ _ (keeps_selectCell _ _ _ _ H1)
                (keeps_selectCell _ _ _ _ H2)) as (_ & _ & _ & _ & _ & Hout).
  pose proof (playing_PlayInv _ _ Hplay2)
    as (o2 & Ho2 & _ & _ & _ & _ & _ & Hword2 & _).
  rewrite Ho, Ho2 in Hout. destruct Hout as (_ & Hws & Hcells).
  destruct (Forall2_lookup_l _ _ _ _ _ Hws Hi) as (wd2 & Hi2 & Hsame2).
  destruct (playing_registry _ _ Hplay) as (o0 & Ho0 & (_ & Hplaced & _) & _).
  rewrite Ho in Ho0. injection Ho0 as <-.
  assert (currentWord o2 = Word.word wd) as Hcw.
  { rewrite Hword2. rewrite (readLetters_ext (board o) (board o2)).
    - apply (placedOn_readLetters (config w)).
      rewrite Forall_forall in Hplaced.
      apply Hplaced, (list_elem_of_lookup_2 _ _ _ Hi).
    - intros q. apply sameCells_letterAt, Hcells. }
  (* the submission *)
  destruct (submitCurrentWord_spec w2 _ o2 Hplay2 Ho2)
    as (r & w' & o' & Hsubmit & Ho' & Hr & _ & _ & _ & _ & _ & Hfound).
  assert (r = true) as ->.
  { apply Hr. exists wd2. split; [eapply list_elem_of_lookup_2, Hi2|].
    destruct Hsame2 as [-> _]. symmetry. exact Hcw. }
  destruct (Hfound eq_refl) as (j & wdj & Hj & Htext & _ & Hwords' & Hcells').
  assert (j = i) as ->.
  { destruct (playing_registry _ _ Hplay2) as (o0 & Ho0 & _ & Hnd).
    rewrite Ho2 in Ho0. injection Ho0 as <-.
    eapply (NoDup_lookup _ j i (currentWord o2) Hnd).
    - rewrite list_lookup_fmap, Hj. cbn. f_equal. exact Htext.
    - rewrite list_lookup_fmap, Hi2. cbn. f_equal.
      destruct Hsame2 as [-> _]. symmetry. exact Hcw. }
  rewrite Hi2 in Hj. injection Hj as <-.
  exists w', o', (markEntry true wd2).
  split.
  { unfold findWord. rewrite Hfinal, Hpos.
    unfold bind at 1. rewrite H1. unfold bind at 1. rewrite H2. exact Hsubmit. }
  split; [eapply playing_submit; eauto|]. split; [exact Ho'|].
  split; [rewrite Hwords', list_lookup_alter, Hi2;
          destruct (decide (i = i)); [reflexivity | congruence]|].
  split; [destruct Hsame2; split; assumption|]. split; [reflexivity|].
  intros q c' Hq Hc'. specialize (Hcells' q). rewrite Hc' in Hcells'.
  destruct (cellAt (board o2) q) as [c|]; [|discriminate].
  cbn in Hcells'. injection Hcells' as ->.
  destruct Hsame2 as [_ ->]. rewrite bool_decide_eq_true_2 by exact Hq.
  apply orb_true_r.
Qed.

(** * Showing a word *)

(** X21.  At every point of play [showWord(word)] returns true exactly
    when a registry entry has exactly this text.  Then the first such
    entry is marked shown, and so is every cell at its positions, and
    nothing else changes; otherwise nothing changes at all. *)
Theorem X21_showWord_discovers_registry_word
  (w : Wordsearch) (sel : list Vector2D.t) (o : WordsearchOutput) (word : string) :
  playing w sel ->
  output w = Some o ->
  ((forall wd, wd ∈ words o -> Word.word wd <> word) /\
   showWord word false w = (Returns false, w))
  \/
  (exists (i : nat) wd b',
     words o !! i = Some wd /\ Word.word wd = word /\
     (forall (j : nat) wd', (j < i)%nat -> words o !! j = Some wd' ->
                            Word.word wd' <> word) /\
     showWord word false w =
       (Returns true,
        set_output
          (Some (set_words (alter (markEntry false) i (words o)) (set_board b' o))) w) /\
     markedAt false (Word.pos wd) (board o) b').
Proof.
  intros Hplay Ho.
  destruct (playing_PlayInv w sel Hplay) as (o0 & Ho0 & Hwf & _).
  rewrite Ho in Ho0. injection Ho0 as <-.
  destruct (playing_registry w sel Hplay) as (o0 & Ho0 & (_ & Hplaced & _) & _).
  rewrite Ho in Ho0. injection Ho0 as <-.
  pose proof (getWordIndex_range o word) as Hrange.
  destruct (Z.eq_dec (getWordIndex o word) (-1)) as [Hno|Hyes].
  - left. split; [|apply (showWord_absent _ _ _ o Ho Hno)].
    unfold getWordIndex in Hno.
    apply (proj1 (getWordIndex_from_absent (words o) 0 _ ltac:(lia)) Hno).
  - right. unfold getWordIndex in *.
    destruct (getWordIndex_from_found (words o) 0 word _ eq_refl
                ltac:(lia) ltac:(lia)) as (i & wd & Hi & Hwd & Htext & Hfirst).
    rewrite Z.add_0_l in Hi.
    destruct (showWord_present word false w o (config w) i wd Ho Hwf Hi Hwd)
      as (b' & Hshow & _ & Hmarked).
    { rewrite Forall_forall in Hplaced.
      apply (Hplaced wd (list_elem_of_lookup_2 _ _ _ Hwd)). }
    exists i, wd, b'. auto.
Qed.


(** * Drawing one word *)

(** X22.  When [fitWordInRandomPos] returns a draw instruction, the
    instruction is for the given word, its direction is one of the allowed
    directions, the word fits there ([doesWordFit]) and does not collide
    ([doesWordCollide]) on the board as it is; the search has changed
    nothing but the number of random draws made. *)
Theorem X22_fitWordInRandomPos_returns_free_place
  (word : string) (w w' : Wordsearch) (wd : WordDrawInstruction) :
  fitWordInRandomPos word w = (Returns wd, w') ->
  exists o,
    output w = Some o /\
    sameButDraws w w' /\
    wd_word wd = word /\
    direction wd ∈ allowedDirections (config w) /\
    doesWordFit (config w) word (startPos wd) (direction wd) = true /\
    doesWordCollide (config w) (board o) word (startPos wd) (direction wd) = Some false.
Proof. exact (fitWordInRandomPos_Returns word w wd w'). Qed.

(** X23.  Drawing a non-empty word where it fits, in a real direction,
    returns: the [i]-th letter of the word is written at the [i]-th cell
    of the run that starts at the start position, every cell off the run
    keeps its letter, a registry entry with the word and the positions of
    the run, neither found nor shown, is appended, and nothing else
    changes. *)
Theorem X23_drawWordInBoard_writes_the_run
  (w : Wordsearch) (o : WordsearchOutput)
  (word : string) (start : Vector2D.t) (d : WSDirections) :
  output w = Some o ->
  board_wf (config w) (board o) ->
  word <> "" ->
  isRealDirection d = true ->
  doesWordFit (config w) word start d = true ->
  exists b',
    drawWordInBoard (mkDraw word start d) w =
      (Returns tt,
       set_output
         (Some (set_words
                  (words o ++ [Word.mk word (path start d (String.length word))
                                 false false])%list
                  (set_board b' o))) w) /\
    board_wf (config w) b' /\
    (forall i ch, charAt word i = Some ch ->
                  letterAt b' (stepN start d (Z.of_nat i)) = ch) /\
    (forall q, q ∉ path start d (String.length word) ->
               letterAt b' q = letterAt (board o) q).
Proof.
  intros Ho Hwf Hne Hd Hfit.
  destruct (drawWord_board_fits (config w) word start d (board o) Hwf Hne Hfit)
    as (b' & Hdraw & Hwf' & Hlet).
  exists b'. split; [apply (drawWordInBoard_eq _ w o b' _ Ho Hdraw)|].
  split; [exact Hwf'|]. split.
  - intros i ch Hch. rewrite Hlet. apply overwrite_at; assumption.
  - intros q Hq. rewrite Hlet. apply overwrite_outside.
    intros j Hj Heq. apply Hq, elem_of_path. exists j. split; [lia | exact Heq].
Qed.


(** * Termination of generation *)

Lemma halts_ret {A} (a : A) : halts (ret a).
Proof. intros w. discriminate. Qed.

Lemma halts_throw {A} e : halts (@throw A e).
Proof. intros w. discriminate. Qed.

Lemma halts_bind {A B} (m : M A) (k : A -> M B) :
  halts m -> (forall a, halts (k a)) -> halts (bind m k).
Proof.
  intros Hm Hk w. unfold bind. specialize (Hm w).
  destruct (m w) as [[a|e|] w1]; cbn in *; [apply Hk | discriminate | congruence].
Qed.

Lemma halts_tryCatch {A} (m : M A) (h : JsError -> M A) :
  halts m -> (forall e, halts (h e)) -> halts (tryCatch m h).
Proof.
  intros Hm Hh w. unfold tryCatch. specialize (Hm w).
  destruct (m w) as [[a|e|] w1]; cbn in *; [discriminate | apply Hh | congruence].
Qed.

Lemma halts_getThis : halts getThis.
Proof. intros w. discriminate. Qed.

Lemma halts_modify f : halts (modify f).
Proof. intros w. discriminate. Qed.

Lemma halts_deref {A} (o : option A) : halts (deref o).
Proof. destruct o; intros w; discriminate. Qed.

Lemma halts_getOutput : halts getOutput.
Proof. apply halts_bind; [apply halts_getThis | intros; apply halts_deref]. Qed.

Lemma halts_modifyOutput f : halts (modifyOutput f).
Proof. apply halts_bind; [apply halts_getOutput | intros; apply halts_modify]. Qed.

Lemma halts_getBoard : halts getBoard.
Proof. apply halts_bind; [apply halts_getOutput | intros; apply halts_ret]. Qed.

Lemma halts_setBoard b : halts (setBoard b).
Proof. apply halts_modifyOutput. Qed.

Lemma halts_throwError {A} msg : halts (@throwError A msg).
Proof. apply halts_bind; [apply halts_modifyOutput | intros; apply halts_throw]. Qed.

Lemma halts_randomBelow n : halts (randomBelow n).
Proof. intros w. discriminate. Qed.

Lemma halts_getRandomInteger lo hi : halts (getRandomInteger lo hi).
Proof. apply halts_bind; [apply halts_randomBelow | intros; apply halts_ret]. Qed.

Lemma halts_shuffleSelf {A} steps : forall index (array : list A),
  halts (shuffleSelf steps index array).
Proof.
  induction steps as [|steps IH]; intros index array; cbn [shuffleSelf].
  - apply halts_ret.
  - apply halts_bind; [apply halts_randomBelow|]. intros r. cbv zeta.
    destruct (array !! (index + r)%nat), (array !! index); apply IH.
Qed.

Lemma halts_shuffle {A} (l : list A) : halts (shuffle l).
Proof. apply halts_shuffleSelf. Qed.

Lemma halts_setCellFieldTo f : halts (setCellFieldTo f).
Proof.
  apply halts_bind; [apply halts_getBoard|]. intros b.
  apply halts_bind; [apply halts_deref | intros; apply halts_setBoard].
Qed.

Lemma halts_setCase : halts setCase.
Proof.
  apply halts_bind; [apply halts_getThis|]. intros w.
  apply halts_bind; [|intros; apply halts_modify].
  destruct (output w); [|apply halts_ret].
  apply halts_bind; [apply halts_setCellFieldTo | intros; apply halts_modifyOutput].
Qed.

(** Without a last selection [calculateSelectables] walks no ray. *)
Lemma halts_calculateSelectables_None : halts (calculateSelectables None).
Proof.
  unfold calculateSelectables.
  apply halts_bind; [apply halts_getThis|]. intros w0.
  apply halts_bind; [|intros _; apply halts_bind].
  - destruct (_ =? 0); [apply halts_setCellFieldTo | apply halts_ret].
  - apply halts_ret.
  - intros _. destruct (_ >? 1); [|apply halts_ret].
    apply halts_bind; [apply halts_setCellFieldTo | intros; apply halts_ret].
Qed.

Lemma halts_resetCurrentSelection : halts resetCurrentSelection.
Proof.
  unfold resetCurrentSelection.
  apply halts_bind; [apply halts_modify|]. intros _.
  apply halts_bind; [apply halts_modify|]. intros _.
  apply halts_bind; [apply halts_modifyOutput|]. intros _.
  apply halts_bind; [apply halts_modify|]. intros _.
  apply halts_bind; [apply halts_setCellFieldTo|]. intros _.
  apply halts_bind; [apply halts_setCellFieldTo|]. intros _.
  apply halts_calculateSelectables_None.
Qed.

Lemma halts_getRandomWord : halts getRandomWord.
Proof.
  apply halts_bind; [apply halts_getThis|]. intros w. cbv zeta.
  apply halts_bind; [apply halts_randomBelow | intros; apply halts_ret].
Qed.

(** The counter of the sourcing loop never reaches 0 at the test of the
    loop condition. *)
Lemma halts_getRandomWords_loop : forall tries words,
  halts (getRandomWords_loop (S tries) words).
Proof.
  induction tries as [|tries IH]; intros words; cbn [getRandomWords_loop];
    (apply halts_bind; [apply halts_getThis|]); intros w;
    (destruct (_ <? _); [|apply halts_ret]);
    (apply halts_bind; [apply halts_getRandomWord|]); intros word; cbv zeta.
  - apply halts_throwError.
  - apply IH.
Qed.

Lemma halts_getSequentialWords_loop : forall rest words,
  halts (getSequentialWords_loop rest words).
Proof.
  induction rest as [|word rest IH]; intros words; cbn [getSequentialWords_loop];
    (apply halts_bind; [apply halts_getThis|]); intros w;
    (destruct (_ <? _); [|apply halts_ret]).
  - apply halts_throwError.
  - cbv zeta. apply IH.
Qed.

Lemma halts_getWords : halts getWords.
Proof.
  apply halts_bind; [apply halts_getThis|]. intros w.
  destruct (random _).
  - apply (halts_getRandomWords_loop 99).
  - apply halts_bind; [apply halts_getThis|]. intros w'.
    apply halts_getSequentialWords_loop.
Qed.

Lemma halts_fitWordInRandomPos word : halts (fitWordInRandomPos word).
Proof.
  unfold fitWordInRandomPos.
  apply halts_bind; [apply halts_getThis|]. intros w.
  apply halts_bind; [apply halts_shuffle|]. intros directions.
  apply halts_bind; [apply halts_getBoard|]. intros b.
  apply halts_bind; [apply halts_shuffle|]. intros cells.
  apply halts_bind; [apply halts_deref|]. intros [wd|];
    [apply halts_ret | apply halts_throwError].
Qed.

Lemma halts_drawWordInBoard wd : halts (drawWordInBoard wd).
Proof.
  unfold drawWordInBoard.
  apply halts_bind; [apply halts_getThis|]. intros w.
  apply halts_bind; [apply halts_getBoard|]. intros b.
  apply halts_bind; [apply halts_deref|]. intros r.
  apply halts_bind; [apply halts_setBoard | intros; apply halts_modifyOutput].
Qed.

Lemma halts_allocateWordsInBoard : forall texts, halts (allocateWordsInBoard texts).
Proof.
  induction texts as [|word texts IH]; cbn [allocateWordsInBoard]; [apply halts_ret|].
  apply halts_bind; [apply halts_fitWordInRandomPos|]. intros wd.
  apply halts_bind; [apply halts_drawWordInBoard | intros; apply IH].
Qed.

Lemma halts_getRandomChar : halts getRandomChar.
Proof.
  unfold getRandomChar.
  apply halts_bind; [apply halts_getThis|]. intros w. cbv zeta.
  apply halts_bind; [apply halts_getRandomInteger|]. intros charPos.
  destruct (String.get _ _); apply halts_ret.
Qed.

Lemma halts_fillInRandomChars_row x : forall ys, halts (fillInRandomChars_row x ys).
Proof.
  induction ys as [|y ys IH]; cbn [fillInRandomChars_row]; [apply halts_ret|].
  apply halts_bind; [apply halts_getBoard|]. intros b.
  apply halts_bind; [apply halts_deref|]. intros c.
  apply halts_bind; [|intros; apply IH].
  destruct (String.eqb _ _); [|apply halts_ret].
  apply halts_bind; [apply halts_getRandomChar|]. intros ch.
  apply halts_bind; [apply halts_getBoard|]. intros b1.
  apply halts_bind; [apply halts_deref | intros; apply halts_setBoard].
Qed.

Lemma halts_fillInRandomChars : halts fillInRandomChars.
Proof.
  unfold fillInRandomChars. apply halts_bind; [apply halts_getThis|]. intros w.
  cbv zeta. generalize (seqZ 0 (size (config w))) at 1 as xs.
  induction xs as [|x xs IH]; cbn [fillInRandomChars_rows]; [apply halts_ret|].
  apply halts_bind; [apply halts_fillInRandomChars_row | intros; apply IH].
Qed.

Lemma halts_generateAttempt : halts generateAttempt.
Proof.
  unfold generateAttempt.
  apply halts_bind; [apply halts_getWords|]. intros texts.
  apply halts_bind; [apply halts_getThis|]. intros w. cbv zeta.
  apply halts_bind; [apply halts_modify|]. intros _.
  apply halts_bind; [apply halts_resetCurrentSelection|]. intros _.
  apply halts_bind; [apply halts_allocateWordsInBoard|]. intros _.
  apply halts_bind; [apply halts_fillInRandomChars|]. intros _.
  apply halts_bind; [apply halts_modify | intros; apply halts_getOutput].
Qed.

Lemma halts_attemptRound : halts attemptRound.
Proof.
  unfold attemptRound.
  apply halts_bind; [apply halts_setCase|]. intros _.
  apply halts_bind; [apply halts_getThis|]. intros w.
  destruct (validConfig _); [apply halts_throwError|].
  apply halts_tryCatch; [|intros; apply halts_ret].
  apply halts_bind; [apply halts_generateAttempt | intros; apply halts_ret].
Qed.

Lemma generate_rec_halts : forall retries w,
  50 - generationTimes w <= Z.of_nat retries ->
  fst (generate_rec retries w) <> Diverges.
Proof.
  induction retries as [|retries IH]; intros w Hfuel;
    rewrite generate_rec_round;
    pose proof (halts_attemptRound w) as Hround;
    destruct (attemptRound w) as [[[out|e]|e|] w2] eqn:Er; cbn in *;
    try discriminate; try congruence;
    pose proof (attemptRound_Failed_generationTimes w e w2 Er) as Hg;
    (destruct (Z.gtb_spec (generationTimes w2 + 1) 50); [apply halts_throwError|]).
  - lia.
  - apply IH. cbn. lia.
Qed.

(** X24.  [generate] always terminates: for every instance it returns a
    puzzle or throws; the retries of its [catch] block stop after at most
    [50 - generationTimes] of them. *)
Theorem X24_generate_terminates (w : Wordsearch) :
  (exists out w', generate w = (Returns out, w')) \/
  (exists e w', generate w = (Throws e, w')).
Proof.
  pose proof (generate_rec_halts (Z.to_nat (50 - generationTimes w)) w ltac:(lia)) as H.
  assert (generate w = generate_rec (Z.to_nat (50 - generationTimes w)) w) as ->
    by reflexivity.
  destruct (generate_rec _ w) as [[out|e|] w'].
  - left. exists out, w'. reflexivity.
  - right. exists e, w'. reflexivity.
  - exfalso. apply H. reflexivity.
Qed.

(** * Printing the board *)

Lemma printRow_filled cfg b x : forall ys,
  board_wf cfg b ->
  (forall y, y ∈ ys -> isVectorInBoard cfg (Vector2D.mk x y) = true) ->
  (forall q, isVectorInBoard cfg q = true -> letterAt b q <> "") ->
  printRow (Some b) x ys =
    (Returns tt,
     (map (fun y => Write (String.append "|" (letterAt b (Vector2D.mk x y)))) ys
      ++ [Log "|"])%list).
Proof.
  induction ys as [|y ys IH]; intros Hwf Hin Hfilled; cbn [printRow map app];
    [reflexivity|].
  assert (isVectorInBoard cfg (Vector2D.mk x y) = true) as Hq by (apply Hin; left).
  destruct (proj2 (cellAt_inBoard cfg b _ Hwf) Hq) as [c Hc]. rewrite Hc.
  pose proof (Hfilled _ Hq) as Hne. unfold letterAt in Hne |- *. rewrite Hc in Hne |- *.
  destruct (String.eqb_spec (Cell.letter c) ""); [congruence|].
  rewrite IH; [reflexivity | exact Hwf | | exact Hfilled].
  intros y' Hy'. apply Hin. right. exact Hy'.
Qed.

Lemma printRows_filled cfg b : forall xs,
  board_wf cfg b ->
  (forall x, x ∈ xs -> 0 <= x < size cfg) ->
  (forall q, isVectorInBoard cfg q = true -> letterAt b q <> "") ->
  printRows (Some b) xs (seqZ 0 (size cfg)) =
    (Returns tt, concat (map (rowEvents cfg b) xs)).
Proof.
  induction xs as [|x xs IH]; intros Hwf Hin Hfilled; cbn [printRows map concat];
    [reflexivity|].
  rewrite (printRow_filled cfg b x _ Hwf); [|idtac|exact Hfilled].
  - rewrite IH; [reflexivity | exact Hwf | | exact Hfilled].
    intros x' Hx'. apply Hin. right. exact Hx'.
  - intros y Hy. apply elem_of_seqZ in Hy. apply isVectorInBoard_spec. cbn.
    pose proof (Hin x ltac:(left)). lia.
Qed.

(** At every point of play every cell of the board holds a letter. *)
Lemma playing_filled w sel o :
  playing w sel -> output w = Some o ->
  forall q, isVectorInBoard (config w) q = true -> letterAt (board o) q <> "".
Proof.
  intros Hplay Ho q Hq.
  destruct (playing_PlayInv w sel Hplay) as (o0 & Ho0 & Hwf & _).
  rewrite Ho in Ho0. injection Ho0 as <-.
  destruct (playing_flagStep w sel Hplay) as (w0 & out & wg & Hreal & Hgen & Hstep).
  pose proof (generate_board_one_char _ _ _ Hgen) as Hcased.
  apply generate_Returns_valid in Hgen as (w1 & Hatt & Hc1 & _).
  apply generateAttempt_Returns in Hatt as (Hog & _); [|rewrite Hc1; exact Hreal].
  destruct Hstep as (_ & _ & _ & _ & _ & Hout). rewrite Hog, Ho in Hout.
  destruct Hout as (_ & _ & Hcells).
  rewrite (sameCells_letterAt _ _ q Hcells).
  destruct (proj2 (cellAt_inBoard _ _ q Hwf) Hq) as [c Hc].
  specialize (Hcells q). rewrite Hc in Hcells.
  inversion Hcells as [c0 c' _ Hc0 Hc' |]; subst.
  symmetry in Hc0. pose proof (Hcased q c0 Hc0) as Hlen. cbn in Hlen.
  unfold letterAt. rewrite Hc0. intros Hempty. rewrite Hempty in Hlen. discriminate.
Qed.

(** X25.  At every point of play [consolePrintBoard] returns and writes
    the board row by row: for each cell of a row a bar followed by the
    letter of the cell, then a closing bar that ends the line.  Every
    cell holds a letter, so the blank that stands for an empty cell is
    never printed. *)
Theorem X25_consolePrintBoard_prints_rows
  (w : Wordsearch) (sel : list Vector2D.t) (o : WordsearchOutput) :
  playing w sel ->
  output w = Some o ->
  consolePrintBoard w =
    (Returns tt,
     concat (map (rowEvents (config w) (board o)) (seqZ 0 (size (config w))))).
Proof.
  intros Hplay Ho.
  destruct (playing_PlayInv w sel Hplay) as (o0 & Ho0 & Hwf & _).
  rewrite Ho in Ho0. injection Ho0 as <-.
  unfold consolePrintBoard. cbv zeta. rewrite Ho. cbn [fmap option_fmap option_map].
  apply printRows_filled; [exact Hwf | | eapply playing_filled; eauto].
  intros x Hx. apply elem_of_seqZ in Hx. lia.
Qed.


(** * The direction between two cells *)

(** X26.  [getDirectionFrom2Vectors] always returns, and it returns a
    direction exactly when the second position lies on the ray that
    leaves the first position in that direction, which is then one of the
    eight real directions and the only such direction; it returns nothing
    when the second position is on none of the eight rays (in particular
    when the two positions are the same). *)
Theorem X26_getDirectionFrom2Vectors_finds_the_ray
  (cfg : WordsearchConfig) (v1 v2 : Vector2D.t) :
  exists r,
    getDirectionFrom2Vectors cfg v1 v2 = Returns r /\
    forall d, r = Some d <-> (isRealDirection d = true /\ onRay cfg v1 d v2).
Proof.
  destruct (getDirectionFrom2Vectors_total cfg v1 v2)
    as [(d & Hd & Hon & Heq) | (Hno & Heq)].
  - exists (Some d). split; [exact Heq|]. intros d'. split.
    + intros [= <-]. auto.
    + intros [Hd' Hon']. f_equal. symmetry. eapply onRay_unique; eauto.
  - exists None. split; [exact Heq|]. intros d. split; [discriminate|].
    intros [Hd Hon]. exfalso. exact (Hno d Hd Hon).
Qed.
End WithHost.

(** * Worked examples

    The examples run the embedding on concrete instances whose strings are
    ASCII, on the host [asciiHost]. *)

#[local] Existing Instance asciiHost.

(** C1, evaluated on the code.  On the blank 6 by 6 board the word ["ab"]
    laid to the right from [(0, 4)] fits (its last letter lands on the edge
    column 5) and no letter of its path conflicts, yet [doesWordCollide]
    reports a collision: after the last letter the loop moves once more and
    treats leaving the board as a collision. *)
Lemma C1_edge_placement_reported_as_collision :
  doesWordFit cfg6 "ab" (Vector2D.mk 0 4) RIGHT = true /\
  pathConflict cfg6 (getBlankBoard cfg6) "ab" (Vector2D.mk 0 4) RIGHT = false /\
  doesWordCollide cfg6 (getBlankBoard cfg6) "ab" (Vector2D.mk 0 4) RIGHT = Some true.
Proof. repeat split; vm_compute; reflexivity. Qed.

(** C6, counterexample.  The generated puzzle for the dictionary ["cat"] in
    upper case stores the word as "CAT"; the query "cat", which differs
    from it only in letter case, is not found, neither by [getWordIndex]
    nor by [showWord]. *)
Lemma C6_query_in_other_case_not_found :
  exists out w',
    generate catInstance = (Returns out, w') /\
    map Word.word (words out) = ["CAT"] /\
    getWordIndex out "cat" = -1 /\
    fst (showWord "cat" false w') = Returns false.
Proof.
  eexists; eexists. split; [vm_compute; reflexivity|].
  repeat split; vm_compute; reflexivity.
Qed.

(** C5, evaluated on the code.  Seven words are placed on a 6 by 6 board
    (a valid configuration); the player finds and submits each of them, and
    every submission is accepted.  All seven registry words are then marked
    found, but the end-game flag is false: the counting loop of [checkEnd]
    runs over [config.size] indices, not over the registry. *)
Lemma C5_end_not_detected_with_more_words_than_rows :
  exists out w1 w2 o2,
    validConfig (config sevenWordsInstance) = None /\
    generate sevenWordsInstance = (Returns out, w1) /\
    findWords (words out) w1 = (Returns true, w2) /\
    output w2 = Some o2 /\
    length (words o2) = 7%nat /\
    allFoundOrShown (words o2) = true /\
    endGame o2 = false.
Proof.
  do 4 eexists. split; [reflexivity|].
  split; [vm_compute; reflexivity|].
  split; [vm_compute; reflexivity|].
  repeat split; vm_compute; reflexivity.
Qed.



Lemma C2_placed_words_read_back_witness :
  forallb isRealDirection (allowedDirections (config catInstance)) = true /\
  exists out w',
    generate catInstance = (Returns out, w') /\
    forall pw, pw ∈ words out ->
      length (Word.pos pw) = String.length (Word.word pw) /\
      (exists start d,
         isRealDirection d = true /\ d ∈ allowedDirections (config catInstance) /\
         Word.pos pw = path start d (String.length (Word.word pw))) /\
      readLetters (board out) (Word.pos pw) = Word.word pw /\
      getStrInCase (config catInstance) (Word.word pw) = Word.word pw.
Proof.
  split; [reflexivity|]. eexists; eexists. split; [vm_compute; reflexivity|].
  eapply (C2_placed_words_read_back catInstance); [reflexivity|].
  vm_compute; reflexivity.
Defined.


(** C2, counterexample.  [validConfig] accepts the single allowed
    direction [NONE], and [generate] returns: the word "AB" is written
    letter over letter on the cell (5, 5).  Its position list names that
    cell twice, which is no straight run, and the letters read at these
    positions are "BB". *)
Lemma C2_word_on_one_cell_under_NONE :
  validConfig (config noneDirectionInstance) = None /\
  exists out w',
    generate noneDirectionInstance = (Returns out, w') /\
    words out = [Word.mk "AB" [Vector2D.mk 5 5; Vector2D.mk 5 5] false false] /\
    readLetters (board out) [Vector2D.mk 5 5; Vector2D.mk 5 5] = "BB".
Proof.
  split; [reflexivity|]. do 2 eexists.
  split; [vm_compute; reflexivity|]. split; vm_compute; reflexivity.
Qed.


Lemma C3_retry_budget_witness :
  generationTimes neverFitsInstance = 0 /\
  (50 <= 50)%nat /\
  afterFailures 50 neverFitsInstance = Some neverFitsAttempt51 /\
  (forall j wj w1,
     (j <= 50)%nat -> afterFailures j neverFitsInstance = Some wj ->
     setCase wj = (Returns tt, w1) -> validConfig (config w1) = None ->
     attemptRound wj = attemptOutcome (freshAttempt w1)) /\
  exists e w2 o,
    attemptRound neverFitsAttempt51 = (Returns (Failed e), w2) /\
    output w2 = Some o /\
    generate neverFitsInstance =
      (Throws (JsErrorMsg (giveUpMessage e)),
       set_output (Some (set_error (giveUpMessage e) o)) (giveUpState w2)).
Proof.
  assert (afterFailures 50 neverFitsInstance = Some neverFitsAttempt51) as Hwk
    by (vm_compute; reflexivity).
  destruct (C3_retry_budget neverFitsInstance neverFitsAttempt51 50
              eq_refl (le_n 50) Hwk) as [Hfresh Hend].
  split; [reflexivity|]. split; [lia|]. split; [exact Hwk|]. split; [exact Hfresh|].
  assert (exists e w2 o,
            attemptRound neverFitsAttempt51 = (Returns (Failed e), w2) /\
            output w2 = Some o) as (e & w2 & o & Er & Ho)
    by (do 3 eexists; split; vm_compute; reflexivity).
  rewrite Er in Hend. specialize (Hend eq_refl). unfold givesUp in Hend.
  rewrite Ho in Hend. exists e, w2, o. split; [exact Er|]. split; [exact Ho|exact Hend].
Defined.

(** On a fresh instance whose sourcing fails in every attempt no output
    record is ever made: each attempt fails with the [TypeError] of
    [throwError], and so does the final give-up after the 51st. *)
Lemma C3_gives_up_with_TypeError_without_output :
  validConfig (config noSourceInstance) = None /\
  fst (generate noSourceInstance) = Throws JsTypeError /\
  output (snd (generate noSourceInstance)) = None /\
  console (snd (generate noSourceInstance)) = seqZ 1 50.
Proof. repeat split; vm_compute; reflexivity. Qed.

(** The run of [neverFitsInstance]: every one of the 51 attempts fails to
    place the six-letter word on the 6 by 6 board, and [generate] throws. *)
Lemma neverFits_gives_up :
  fst (generate neverFitsInstance) =
    Throws (JsErrorMsg
      "Unable to generate game, max amount of iterations reached. Error: Could not fit word in board: ABCDEF") /\
  console (snd (generate neverFitsInstance)) = seqZ 1 50.
Proof. split; vm_compute; reflexivity. Qed.

(** C3, counterexample.  Fifty whole-puzzle attempts of
    [lateSuccessInstance] fail; [generate] goes on to a 51st attempt, which
    succeeds, and returns its board. *)
Lemma C3_board_from_attempt_51 :
  exists wk out w',
    afterFailures 50 lateSuccessInstance = Some wk /\
    generate lateSuccessInstance = (Returns out, w') /\
    console w' = seqZ 1 50 /\
    map Word.word (words out) = ["AB"].
Proof.
  do 3 eexists. split; [vm_compute; reflexivity|].
  split; [vm_compute; reflexivity|]. split; vm_compute; reflexivity.
Qed.

Lemma C9_random_sourcing_witness :
  (1 <= 100)%nat /\
  (forall j, (j < 1)%nat -> collected catInstance j = false) /\
  collected catInstance 1 = (1 <? 100)%nat /\
  getRandomWordsFromDictionary catInstance =
    (Returns (acceptedAfter catInstance 1), afterDraws 1 catInstance).
Proof.
  assert (forall j, (j < 1)%nat -> collected catInstance j = false) as H.
  { intros j Hj. destruct j; [reflexivity | lia]. }
  split; [lia|]. split; [exact H|]. split; [reflexivity|].
  apply (C9_random_sourcing catInstance 1); [lia | exact H | reflexivity].
Defined.

(** C9, counterexample.  Two words are wanted and every draw delivers the
    same entry.  Sourcing fails after 100 draws in all, of which the first
    was accepted: only 99 draws were unsuccessful. *)
Lemma C9_fails_after_99_unsuccessful_draws :
  exists w',
    getRandomWordsFromDictionary twoWordsInstance =
      (Throws (JsErrorMsg "Not enough words in dictionary."), w') /\
    randomCalls w' = 100%nat /\
    acceptedAfter twoWordsInstance 100 = ["aa"].
Proof.
  eexists. split; [vm_compute; reflexivity|]. split; vm_compute; reflexivity.
Qed.

Lemma C7_rejected_selection_changes_nothing_witness :
  output catAnchored = Some (outputOf catAnchored) /\
  cellAt (board (outputOf catAnchored)) (Vector2D.mk 0 0) =
    Some (cellOf catAnchored (Vector2D.mk 0 0)) /\
  Cell.selectable (cellOf catAnchored (Vector2D.mk 0 0)) = false /\
  selectCell (Vector2D.mk 0 0) catAnchored = (Returns false, catAnchored).
Proof.
  split; [vm_compute; reflexivity|]. split; [vm_compute; reflexivity|].
  split; [vm_compute; reflexivity|].
  apply (C7_rejected_selection_changes_nothing catAnchored (outputOf catAnchored)
           (Vector2D.mk 0 0) (cellOf catAnchored (Vector2D.mk 0 0))).
  - vm_compute; reflexivity.
  - vm_compute; reflexivity.
  - left. vm_compute; reflexivity.
Defined.

(** C7, counterexample.  On the generated 8 by 8 puzzle the position
    [(8, 0)] is no cell of the board; selecting it reads a property of
    [undefined] and throws. *)
Lemma C7_off_board_position_throws :
  exists out w',
    generate catInstance = (Returns out, w') /\
    selectCell (Vector2D.mk 8 0) w' = (Throws JsTypeError, w').
Proof.
  do 2 eexists. split; vm_compute; reflexivity.
Qed.

(** C4, at the failing input.  On the generated 8 by 8 "cat" puzzle with
    RIGHT as only allowed direction, select [(6, 2)] and then its
    neighbour [(6, 3)]: two cells are selected and the direction is
    established, and the four cells [(6, 4)] to [(6, 7)] are selectable,
    not only the next cell [(6, 4)]. *)
Lemma C4_whole_ray_selectable_after_two_cells :
  selectCell (Vector2D.mk 6 3) catAnchored = (Returns true, catTwoSelected) /\
  selectedCount catTwoSelected = 2 /\
  selectablePositions catTwoSelected =
    [Vector2D.mk 6 4; Vector2D.mk 6 5; Vector2D.mk 6 6; Vector2D.mk 6 7].
Proof.
  split; [vm_compute; reflexivity|]. split; vm_compute; reflexivity.
Qed.


(** The accumulated word of the witness above is the placed word. *)
Lemma catSelected_currentWord :
  currentWord (outputOf catSelected) = "CAT" /\ selectedCount catSelected = 3.
Proof. split; vm_compute; reflexivity. Qed.

Lemma X1_move_then_inverse_move_returns_witness :
  isVectorInBoard cfg6 (Vector2D.mk 2 3) = true /\
  moveInDirection cfg6 (Vector2D.mk 2 3) DOWN_LEFT = Some (Vector2D.mk 3 2) /\
  getInverseDirection DOWN_LEFT = Some UP_RIGHT /\
  moveInDirection cfg6 (Vector2D.mk 3 2) UP_RIGHT = Some (Vector2D.mk 2 3).
Proof.
  split; [reflexivity|]. split; [reflexivity|]. split; [reflexivity|].
  apply (X1_move_then_inverse_move_returns cfg6 (Vector2D.mk 2 3) (Vector2D.mk 3 2)
           DOWN_LEFT UP_RIGHT); reflexivity.
Defined.

Lemma X5_getSequentialWords_result_witness :
  getSequentialWords sevenWordsInstance =
    (Returns ["ab"; "cd"; "ef"; "gh"; "ij"; "kl"; "mn"], sevenWordsInstance) /\
  sevenWordsInstance = sevenWordsInstance /\
  ["ab"; "cd"; "ef"; "gh"; "ij"; "kl"; "mn"]
    `sublist_of` dictionary (wordsConfig (config sevenWordsInstance)) /\
  NoDup ["ab"; "cd"; "ef"; "gh"; "ij"; "kl"; "mn"] /\
  Forall (fun s => s <> "" /\ withinLengths (config sevenWordsInstance) s)
         ["ab"; "cd"; "ef"; "gh"; "ij"; "kl"; "mn"] /\
  Z.of_nat (length ["ab"; "cd"; "ef"; "gh"; "ij"; "kl"; "mn"]) =
    Z.max 0 (amount (wordsConfig (config sevenWordsInstance))).
Proof.
  assert (getSequentialWords sevenWordsInstance =
          (Returns ["ab"; "cd"; "ef"; "gh"; "ij"; "kl"; "mn"], sevenWordsInstance))
    as H by (vm_compute; reflexivity).
  split; [exact H|].
  exact (X5_getSequentialWords_result sevenWordsInstance sevenWordsInstance
           ["ab"; "cd"; "ef"; "gh"; "ij"; "kl"; "mn"] H).
Defined.

Lemma X6_getWords_result_witness :
  getWords catInstance = (Returns ["cat"], set_randomCalls 1 catInstance) /\
  sameButDraws catInstance (set_randomCalls 1 catInstance) /\
  Z.of_nat (length ["cat"]) = Z.max 0 (amount (wordsConfig (config catInstance))) /\
  NoDup ["cat"] /\
  Forall (fun s => s ∈ dictionary (wordsConfig (config catInstance)) /\
                   s <> "" /\ withinLengths (config catInstance) s) ["cat"].
Proof.
  assert (getWords catInstance = (Returns ["cat"], set_randomCalls 1 catInstance))
    as H by (vm_compute; reflexivity).
  split; [exact H|].
  exact (X6_getWords_result catInstance (set_randomCalls 1 catInstance) ["cat"] H).
Defined.


Lemma X8_generate_returns_fresh_puzzle_witness :
  generate catInstance = (Returns (outputOf catGenerated), catGenerated) /\
  selectedCount catGenerated = 0 /\ selectedDirection catGenerated = NONE /\
  lastSelectedVector catGenerated = None /\
  currentWord (outputOf catGenerated) = "" /\
  endGame (outputOf catGenerated) = false /\ error (outputOf catGenerated) = "" /\
  Forall unfound (words (outputOf catGenerated)) /\
  board_wf (config catInstance) (board (outputOf catGenerated)) /\
  cellsAll freshCell (board (outputOf catGenerated)).
Proof.
  assert (generate catInstance = (Returns (outputOf catGenerated), catGenerated)) as H
    by (vm_compute; reflexivity).
  split; [exact H|].
  exact (X8_generate_returns_fresh_puzzle catInstance catGenerated
           (outputOf catGenerated) H).
Defined.


Lemma X10_generate_board_filled_in_case_witness :
  generate catInstance = (Returns (outputOf catGenerated), catGenerated) /\
  Forall (fun s => isAscii s = true) (dictionary (wordsConfig (config catInstance))) /\
  cellsAll (fun _ c => String.length (Cell.letter c) = 1%nat)
           (board (outputOf catGenerated)) /\
  cellsAll (fun _ c => casedLetter (config catInstance) (Cell.letter c))
           (board (outputOf catGenerated)).
Proof.
  assert (generate catInstance = (Returns (outputOf catGenerated), catGenerated)) as H
    by (vm_compute; reflexivity).
  assert (Forall (fun s => isAscii s = true)
            (dictionary (wordsConfig (config catInstance)))) as Hdict
    by (repeat constructor).
  split; [exact H|]. split; [exact Hdict|].
  destruct (X10_generate_board_filled_in_case catInstance catGenerated
              (outputOf catGenerated) H) as [Hone Hcased].
  split; [exact Hone | exact (Hcased Hdict)].
Defined.

Lemma X11_generate_rejects_invalid_configuration_witness :
  output tooSmallAfterGame = Some (outputOf catGenerated) /\
  board_wf (config catInstance) (board (outputOf catGenerated)) /\
  validConfig (config tooSmallAfterGame) = Some "Board size must be between 6 and 50" /\
  generate tooSmallAfterGame =
    (Throws (JsErrorMsg (String.append "Invalid configuration: "
                           "Board size must be between 6 and 50")),
     set_config (caseConfig (config tooSmallAfterGame))
       (set_output
          (Some (set_error (String.append "Invalid configuration: "
                              "Board size must be between 6 and 50")
                   (caseOutput (config tooSmallAfterGame) (outputOf catGenerated))))
          tooSmallAfterGame)).
Proof.
  assert (output tooSmallAfterGame = Some (outputOf catGenerated)) as Ho
    by (vm_compute; reflexivity).
  assert (board_wf (config catInstance) (board (outputOf catGenerated))) as Hwf
    by (split; [vm_compute; reflexivity | vm_compute; repeat constructor]).
  assert (validConfig (config tooSmallAfterGame)
          = Some "Board size must be between 6 and 50") as Hv by reflexivity.
  split; [exact Ho|]. split; [exact Hwf|]. split; [exact Hv|].
  exact (X11_generate_rejects_invalid_configuration tooSmallAfterGame
           (outputOf catGenerated) (config catInstance)
           "Board size must be between 6 and 50" Ho Hwf Hv).
Defined.

Lemma X12_generate_rejects_on_fresh_instance_with_TypeError_witness :
  output tooSmallInstance = None /\
  validConfig (config tooSmallInstance) = Some "Board size must be between 6 and 50" /\
  generate tooSmallInstance =
    (Throws JsTypeError,
     set_config (caseConfig (config tooSmallInstance)) tooSmallInstance).
Proof.
  split; [reflexivity|]. split; [reflexivity|].
  apply (X12_generate_rejects_on_fresh_instance_with_TypeError tooSmallInstance
           "Board size must be between 6 and 50"); reflexivity.
Defined.

Lemma X13_word_as_long_as_board_is_never_placed_witness :
  output (blankStart neverFitsInstance)
    = Some (outputOf (blankStart neverFitsInstance)) /\
  board_wf (config (blankStart neverFitsInstance))
    (board (outputOf (blankStart neverFitsInstance))) /\
  forallb isRealDirection
    (allowedDirections (config (blankStart neverFitsInstance))) = true /\
  size (config (blankStart neverFitsInstance)) <= Z.of_nat (String.length "abcdef") /\
  exists n,
    fitWordInRandomPos "abcdef" (blankStart neverFitsInstance) =
      (Throws (JsErrorMsg (String.append "Could not fit word in board: " "abcdef")),
       set_randomCalls n
         (set_output
            (Some (set_error (String.append "Could not fit word in board: " "abcdef")
                     (outputOf (blankStart neverFitsInstance))))
            (blankStart neverFitsInstance))).
Proof.
  assert (board_wf (config (blankStart neverFitsInstance))
            (board (outputOf (blankStart neverFitsInstance)))) as Hwf
    by (apply map_map_wf, getBlankBoard_wf).
  split; [reflexivity|]. split; [exact Hwf|]. split; [reflexivity|].
  split; [vm_compute; discriminate|].
  apply (X13_word_as_long_as_board_is_never_placed (blankStart neverFitsInstance)
           (outputOf (blankStart neverFitsInstance)) "abcdef");
    [reflexivity | exact Hwf | reflexivity | vm_compute; discriminate].
Defined.

Lemma playing_catSelected :
  playing catSelected [Vector2D.mk 6 2; Vector2D.mk 6 3; Vector2D.mk 6 4].
Proof.
  assert (playing catGenerated []) as H0.
  { apply (playing_generated catInstance (outputOf catGenerated));
      [reflexivity | vm_compute; reflexivity]. }
  assert (playing catAnchored [Vector2D.mk 6 2]) as H1.
  { replace [Vector2D.mk 6 2]
      with ([] ++ selectedBy catGenerated (Vector2D.mk 6 2))%list
      by (vm_compute; reflexivity).
    apply (playing_select catGenerated [] (Vector2D.mk 6 2) catAnchored H0).
    vm_compute; reflexivity. }
  replace [Vector2D.mk 6 2; Vector2D.mk 6 3; Vector2D.mk 6 4]
    with ([Vector2D.mk 6 2] ++ selectedBy catAnchored (Vector2D.mk 6 4))%list
    by (vm_compute; reflexivity).
  apply (playing_select catAnchored [Vector2D.mk 6 2] (Vector2D.mk 6 4)
           catSelected H1).
  vm_compute; reflexivity.
Defined.

Lemma X14_play_keeps_the_puzzle_witness :
  playing catSelected [Vector2D.mk 6 2; Vector2D.mk 6 3; Vector2D.mk 6 4] /\
  exists w0 out wg,
    forallb isRealDirection (allowedDirections (config w0)) = true /\
    generate w0 = (Returns out, wg) /\
    flagStep wg catSelected.
Proof.
  split; [exact playing_catSelected|].
  exact (X14_play_keeps_the_puzzle catSelected
           [Vector2D.mk 6 2; Vector2D.mk 6 3; Vector2D.mk 6 4] playing_catSelected).
Defined.

Lemma X15_play_never_fails_witness :
  playing catSelected [Vector2D.mk 6 2; Vector2D.mk 6 3; Vector2D.mk 6 4] /\
  (exists w', resetCurrentSelection catSelected = (Returns tt, w')) /\
  (exists r w', submitCurrentWord catSelected = (Returns r, w')) /\
  (forall word submit, exists r w', showWord word submit catSelected = (Returns r, w')) /\
  (forall pos, exists r w', highlightCell pos catSelected = (Returns r, w')) /\
  (exists w', unHighlightBoard catSelected = (Returns tt, w')) /\
  (forall pos, isVectorInBoard (config catSelected) pos = true ->
     exists w', selectCell pos catSelected
                = (Returns (Cell.selectable (cellOf catSelected pos)), w')).
Proof.
  split; [exact playing_catSelected|].
  exact (X15_play_never_fails catSelected
           [Vector2D.mk 6 2; Vector2D.mk 6 3; Vector2D.mk 6 4] playing_catSelected).
Defined.

Lemma X16_highlightCell_highlights_run_to_position_witness :
  playing catAnchored [Vector2D.mk 6 2] /\
  output catAnchored = Some (outputOf catAnchored) /\
  exists b' ps,
    highlightCell (Vector2D.mk 3 5) catAnchored =
      (Returns true, set_output (Some (set_board b' (outputOf catAnchored))) catAnchored) /\
    highlightedAt ps (board (outputOf catAnchored)) b' /\
    ((exists d (k : nat),
        isRealDirection d = true /\ (1 <= k)%nat /\
        Vector2D.mk 3 5 = stepN (Vector2D.mk 6 2) d (Z.of_nat k) /\
        Forall (fun p => isVectorInBoard (config catAnchored) p = true) ps /\
        ps = path (stepN (Vector2D.mk 6 2) d 1) d k) \/
     ((forall d, isRealDirection d = true ->
         ~ onRay (config catAnchored) (Vector2D.mk 6 2) d (Vector2D.mk 3 5)) /\
      ps = [])).
Proof.
  assert (playing catAnchored [Vector2D.mk 6 2]) as Hplay.
  { assert (playing catGenerated []) as H0.
    { apply (playing_generated catInstance (outputOf catGenerated));
        [reflexivity | vm_compute; reflexivity]. }
    replace [Vector2D.mk 6 2]
      with ([] ++ selectedBy catGenerated (Vector2D.mk 6 2))%list
      by (vm_compute; reflexivity).
    apply (playing_select catGenerated [] (Vector2D.mk 6 2) catAnchored H0).
    vm_compute; reflexivity. }
  assert (output catAnchored = Some (outputOf catAnchored)) as Ho
    by (vm_compute; reflexivity).
  split; [exact Hplay|]. split; [exact Ho|].
  exact (X16_highlightCell_highlights_run_to_position catAnchored [Vector2D.mk 6 2]
           (outputOf catAnchored) (Vector2D.mk 3 5) Hplay Ho).
Defined.

Lemma X17_checkEnd_with_no_more_words_than_rows_witness :
  output catGenerated = Some (outputOf catGenerated) /\
  Z.of_nat (length (words (outputOf catGenerated))) <= size (config catGenerated) /\
  checkEnd catGenerated =
    (Returns (allFoundOrShown (words (outputOf catGenerated))),
     set_output
       (Some (set_endGame (allFoundOrShown (words (outputOf catGenerated)))
                (outputOf catGenerated))) catGenerated).
Proof.
  assert (output catGenerated = Some (outputOf catGenerated)) as Ho
    by (vm_compute; reflexivity).
  assert (Z.of_nat (length (words (outputOf catGenerated))) <= size (config catGenerated))
    as Hlen by (vm_compute; discriminate).
  split; [exact Ho|]. split; [exact Hlen|].
  exact (X17_checkEnd_with_no_more_words_than_rows catGenerated
           (outputOf catGenerated) Ho Hlen).
Defined.

Lemma X18_submitCurrentWord_accepts_registry_words_witness :
  playing catSelected [Vector2D.mk 6 2; Vector2D.mk 6 3; Vector2D.mk 6 4] /\
  output catSelected = Some (outputOf catSelected) /\
  exists r w' o',
    submitCurrentWord catSelected = (Returns r, w') /\
    output w' = Some o' /\
    (r = true <-> exists wd, wd ∈ words (outputOf catSelected) /\
                             Word.word wd = currentWord (outputOf catSelected)) /\
    selectedCount w' = 0 /\ lastSelectedVector w' = None /\ currentWord o' = "" /\
    (forall q c', cellAt (board o') q = Some c' ->
                  Cell.selected c' = false /\ Cell.selectable c' = true /\
                  Cell.highlighted c' = false) /\
    (r = false ->
     words o' = words (outputOf catSelected) /\
     forall q, Cell.found <$> cellAt (board o') q
               = Cell.found <$> cellAt (board (outputOf catSelected)) q) /\
    (r = true ->
     exists (i : nat) wd,
       words (outputOf catSelected) !! i = Some wd /\
       Word.word wd = currentWord (outputOf catSelected) /\
       (forall (j : nat) wd', (j < i)%nat ->
          words (outputOf catSelected) !! j = Some wd' ->
          Word.word wd' <> currentWord (outputOf catSelected)) /\
       words o' = alter (markEntry true) i (words (outputOf catSelected)) /\
       forall q, Cell.found <$> cellAt (board o') q =
                 (fun c => Cell.found c || bool_decide (q ∈ Word.pos wd))
                   <$> cellAt (board (outputOf catSelected)) q).
Proof.
  assert (output catSelected = Some (outputOf catSelected)) as Ho
    by (vm_compute; reflexivity).
  split; [exact playing_catSelected|]. split; [exact Ho|].
  exact (X18_submitCurrentWord_accepts_registry_words catSelected
           [Vector2D.mk 6 2; Vector2D.mk 6 3; Vector2D.mk 6 4]
           (outputOf catSelected) playing_catSelected Ho).
Defined.

Lemma X19_every_placed_word_can_be_found_witness :
  playing catGenerated [] /\
  output catGenerated = Some (outputOf catGenerated) /\
  words (outputOf catGenerated) !! 0%nat
    = Some (Word.mk "CAT" [Vector2D.mk 6 2; Vector2D.mk 6 3; Vector2D.mk 6 4]
              false false) /\
  exists w' o' wd',
    findWord (Word.mk "CAT" [Vector2D.mk 6 2; Vector2D.mk 6 3; Vector2D.mk 6 4]
                false false) catGenerated = (Returns true, w') /\
    playing w' [] /\
    output w' = Some o' /\
    words o' !! 0%nat = Some wd' /\
    sameEntry (Word.mk "CAT" [Vector2D.mk 6 2; Vector2D.mk 6 3; Vector2D.mk 6 4]
                 false false) wd' /\
    Word.found wd' = true /\
    forall q c',
      q ∈ Word.pos (Word.mk "CAT" [Vector2D.mk 6 2; Vector2D.mk 6 3; Vector2D.mk 6 4]
                      false false) ->
      cellAt (board o') q = Some c' -> Cell.found c' = true.
Proof.
  assert (playing catGenerated []) as Hplay.
  { apply (playing_generated catInstance (outputOf catGenerated));
      [reflexivity | vm_compute; reflexivity]. }
  assert (output catGenerated = Some (outputOf catGenerated)) as Ho
    by (vm_compute; reflexivity).
  assert (words (outputOf catGenerated) !! 0%nat
          = Some (Word.mk "CAT" [Vector2D.mk 6 2; Vector2D.mk 6 3; Vector2D.mk 6 4]
                    false false)) as Hi by (vm_compute; reflexivity).
  split; [exact Hplay|]. split; [exact Ho|]. split; [exact Hi|].
  exact (X19_every_placed_word_can_be_found catGenerated (outputOf catGenerated) 0%nat
           (Word.mk "CAT" [Vector2D.mk 6 2; Vector2D.mk 6 3; Vector2D.mk 6 4] false false)
           Hplay Ho Hi).
Defined.


Lemma X21_showWord_discovers_registry_word_witness :
  playing catGenerated [] /\
  output catGenerated = Some (outputOf catGenerated) /\
  (((forall wd, wd ∈ words (outputOf catGenerated) -> Word.word wd <> "CAT") /\
    showWord "CAT" false catGenerated = (Returns false, catGenerated))
   \/
   (exists (i : nat) wd b',
      words (outputOf catGenerated) !! i = Some wd /\ Word.word wd = "CAT" /\
      (forall (j : nat) wd', (j < i)%nat ->
         words (outputOf catGenerated) !! j = Some wd' -> Word.word wd' <> "CAT") /\
      showWord "CAT" false catGenerated =
        (Returns true,
         set_output
           (Some (set_words (alter (markEntry false) i (words (outputOf catGenerated)))
                    (set_board b' (outputOf catGenerated)))) catGenerated) /\
      markedAt false (Word.pos wd) (board (outputOf catGenerated)) b')).
Proof.
  assert (playing catGenerated []) as Hplay.
  { apply (playing_generated catInstance (outputOf catGenerated));
      [reflexivity | vm_compute; reflexivity]. }
  assert (output catGenerated = Some (outputOf catGenerated)) as Ho
    by (vm_compute; reflexivity).
  split; [exact Hplay|]. split; [exact Ho|].
  exact (X21_showWord_discovers_registry_word catGenerated [] (outputOf catGenerated)
           "CAT" Hplay Ho).
Defined.

Lemma X22_fitWordInRandomPos_returns_free_place_witness :
  exists wd w',
    fitWordInRandomPos "CAT" (blankStart catInstance) = (Returns wd, w') /\
    exists o,
      output (blankStart catInstance) = Some o /\
      sameButDraws (blankStart catInstance) w' /\
      wd_word wd = "CAT" /\
      direction wd ∈ allowedDirections (config (blankStart catInstance)) /\
      doesWordFit (config (blankStart catInstance)) "CAT" (startPos wd) (direction wd)
        = true /\
      doesWordCollide (config (blankStart catInstance)) (board o) "CAT"
        (startPos wd) (direction wd) = Some false.
Proof.
  assert (exists wd w',
            fitWordInRandomPos "CAT" (blankStart catInstance) = (Returns wd, w')) as H.
  { eexists; eexists. vm_compute. reflexivity. }
  destruct H as (wd & w' & H). exists wd, w'. split; [exact H|].
  exact (X22_fitWordInRandomPos_returns_free_place "CAT" (blankStart catInstance) w' wd H).
Defined.

Lemma X23_drawWordInBoard_writes_the_run_witness :
  output (blankStart catInstance) = Some (outputOf (blankStart catInstance)) /\
  board_wf (config (blankStart catInstance))
    (board (outputOf (blankStart catInstance))) /\
  "CAT" <> "" /\
  isRealDirection RIGHT = true /\
  doesWordFit (config (blankStart catInstance)) "CAT" (Vector2D.mk 6 2) RIGHT = true /\
  exists b',
    drawWordInBoard (mkDraw "CAT" (Vector2D.mk 6 2) RIGHT) (blankStart catInstance) =
      (Returns tt,
       set_output
         (Some (set_words
                  (words (outputOf (blankStart catInstance))
                   ++ [Word.mk "CAT" (path (Vector2D.mk 6 2) RIGHT (String.length "CAT"))
                         false false])%list
                  (set_board b' (outputOf (blankStart catInstance)))))
         (blankStart catInstance)) /\
    board_wf (config (blankStart catInstance)) b' /\
    (forall i ch, charAt "CAT" i = Some ch ->
                  letterAt b' (stepN (Vector2D.mk 6 2) RIGHT (Z.of_nat i)) = ch) /\
    (forall q, q ∉ path (Vector2D.mk 6 2) RIGHT (String.length "CAT") ->
               letterAt b' q = letterAt (board (outputOf (blankStart catInstance))) q).
Proof.
  assert (board_wf (config (blankStart catInstance))
            (board (outputOf (blankStart catInstance)))) as Hwf
    by (apply map_map_wf, getBlankBoard_wf).
  split; [reflexivity|]. split; [exact Hwf|]. split; [discriminate|].
  split; [reflexivity|]. split; [reflexivity|].
  apply (X23_drawWordInBoard_writes_the_run (blankStart catInstance)
           (outputOf (blankStart catInstance)) "CAT" (Vector2D.mk 6 2) RIGHT);
    [reflexivity | exact Hwf | discriminate | reflexivity | reflexivity].
Defined.

Lemma X25_consolePrintBoard_prints_rows_witness :
  playing catSelected [Vector2D.mk 6 2; Vector2D.mk 6 3; Vector2D.mk 6 4] /\
  output catSelected = Some (outputOf catSelected) /\
  consolePrintBoard catSelected =
    (Returns tt,
     concat (map (rowEvents (config catSelected) (board (outputOf catSelected)))
               (seqZ 0 (size (config catSelected))))).
Proof.
  assert (output catSelected = Some (outputOf catSelected)) as Ho
    by (vm_compute; reflexivity).
  split; [exact playing_catSelected|]. split; [exact Ho|].
  exact (X25_consolePrintBoard_prints_rows catSelected
           [Vector2D.mk 6 2; Vector2D.mk 6 3; Vector2D.mk 6 4]
           (outputOf catSelected) playing_catSelected Ho).
Defined.
